(** * The message deletion schedulers of [hata.discord.client.Client]

    A shallow embedding of

    - [Client.message_delete]                          (client.py 3659-3695)
    - [Client.message_delete_multiple]                 (client.py 3698-3869)
    - [Client.message_delete_multiple2]                (client.py 3872-3917)
    - [Client.message_delete_sequence]                 (client.py 3919-4246)
    - [Client.multi_client_message_delete_sequence]    (client.py 4248-4634)
    - [Client._parse_allowed_mentions]                 (client.py 3530-3657)
    - [Client._load_messages_till]                     (client.py 4942-5006)
    - [Client.message_at_index]                        (client.py 5008-5078)
    - [Client.messages_in_range]                       (client.py 5080-5177)

    Conventions of the embedding.

    - A [deque] is a [list]: [popleft] removes the head, [append] adds at
      the end, [appendleft] is a cons, [del q[i]] removes position [i].
    - A [Task] is an object with an identity; it is a record of a serial
      number, given at creation, and of the HTTP request its coroutine
      performs.  [task is slot] is equality of serial numbers.
    - The event loop is the environment: a record [env] gives the successive
      readings of [time_now()] and, for each [await WaitTillFirst(tasks)],
      the set [done] together with what [task.result()] does for each of its
      members.  The pages a history request ([http.message_logs]) returns
      are taken, in order, from a finite list carried by the state.
    - The [reason] argument is passed unchanged to every request and is left
      out. *)

From Stdlib Require Import String.
From Stdlib Require Import ZArith List Bool Arith Lia Permutation.
Import ListNotations.

Set Implicit Arguments.

Open Scope Z_scope.

(** ** Python helpers *)

(** Exceptions that reach the embedded code. [ConnectionError] and
    [DiscordException] are what a request raises; the others are raised by
    the interpreter ([IndexError], [ValueError], [AttributeError]) or by the
    event loop ([CancelledError]). *)
Inductive exn : Type :=
| ConnectionError
| DiscordException
| CancelledError
| IndexError
| ValueError
| AttributeError
| UnboundLocalError.

Definition exn_eqb (a b : exn) : bool :=
  match a, b with
  | ConnectionError, ConnectionError
  | DiscordException, DiscordException
  | CancelledError, CancelledError
  | IndexError, IndexError
  | ValueError, ValueError
  | AttributeError, AttributeError
  | UnboundLocalError, UnboundLocalError => true
  | _, _ => false
  end.

(** [l[i]] with Python's negative indices; [None] stands for [IndexError]. *)
Definition py_index {A : Type} (l : list A) (i : Z) : option A :=
  if 0 <=? i then nth_error l (Z.to_nat i)
  else if 0 <=? Z.of_nat (length l) + i
       then nth_error l (Z.to_nat (Z.of_nat (length l) + i))
       else None.

(** [del l[i]] for an index in range. *)
Definition del_at {A : Type} (i : nat) (l : list A) : list A :=
  firstn i l ++ skipn (S i) l.

(** [l[i] = x] for an index in range (nothing out of range; the callers
    below only write at an index they have just read). *)
Fixpoint set_at {A : Type} (i : nat) (x : A) (l : list A) : list A :=
  match l, i with
  | [], _ => []
  | _ :: r, O => x :: r
  | y :: r, S j => y :: set_at j x r
  end.

(** ** Snowflakes and the two week boundary

    [int((time_now()-AGE)*1000.-DISCORD_EPOCH)<<22], with the reading of the
    clock taken in whole milliseconds.  [DISCORD_EPOCH] is a constant of
    [hata.discord.utils], which is not part of the sources at hand: it is a
    parameter (a field of the environment below). *)
Definition id_limit (epoch now_ms age_ms : Z) : Z :=
  Z.shiftl (now_ms - age_ms - epoch) 22.

(** 1209600 s: two weeks, the age limit of the bulk delete endpoint. *)
Definition TWO_WEEKS_MS : Z := 1209600000.
(** 1209590 s: two weeks minus 10 seconds. *)
Definition TWO_WEEKS_MARGIN_MS : Z := 1209590000.
(** The constant subtracted from, or added to, an id around the margin:
    [20971520000 = 5000 << 22], five seconds of snowflake time. *)
Definition MARGIN_STEP : Z := 20971520000.

(** ** Messages, requests and tasks *)

Record Channel : Type := mk_channel {
  channel_id : Z;
  (** [isinstance(channel, ChannelGuildBase)] *)
  channel_is_guild : bool
}.

Record Message : Type := mk_message {
  message_id : Z;
  (** the id of [message.author] *)
  message_author : Z;
  message_deleted : bool;
  message_channel : Channel
}.

(** The endpoints of [self.http] that the deletion code calls. *)
Inductive request : Type :=
| http_message_delete (channel : Z) (message : Z)
| http_message_delete_b2wo (channel : Z) (message : Z)
| http_message_delete_multiple (channel : Z) (messages : list Z)
| http_message_logs (channel : Z) (before : Z)
(** [http.message_delete] called with the deque [message_group_old] where
    the id of a message belongs (client.py 4475 and 4487-4491) *)
| http_message_delete_of_deque (channel : Z).

Record task : Type := mk_task {
  task_serial : nat;
  (** the id of the client whose [http] performs the request *)
  task_client : Z;
  task_request : request
}.

(** [a is b] on tasks. *)
Definition task_is (a b : task) : bool := Nat.eqb (task_serial a) (task_serial b).

Definition slot_is (t : task) (slot : option task) : bool :=
  match slot with
  | Some u => task_is t u
  | None => false
  end.

Definition is_none {A : Type} (o : option A) : bool :=
  match o with
  | None => true
  | Some _ => false
  end.

(** What [task.result()] does for a finished task: it returns, or raises. *)
Inductive completion : Type :=
| Finished
| Failed (e : exn).

(** [tasks.remove(task)]: the first occurrence goes; [None] is [ValueError]. *)
Fixpoint remove_task (t : task) (ts : list task) : option (list task) :=
  match ts with
  | [] => None
  | u :: r =>
      if task_is t u then Some r
      else match remove_task t r with
           | Some r' => Some (u :: r')
           | None => None
           end
  end.

(** A record of the JSON a history request returns for one message: the
    keys the code looks up, each of which may be missing. *)
Record user_data : Type := mk_user_data {
  user_data_id : option Z
}.

Record author_data : Type := mk_author_data {
  author_data_user : option user_data;
  author_data_id : option Z
}.

Record message_data : Type := mk_message_data {
  data_id : Z;
  data_author : option author_data
}.

(** client.py 4182-4198 (and 4571-4587): the author's id, or [0]. *)
Definition author_id_of (d : message_data) : Z :=
  match data_author d with
  | None => 0
  | Some a =>
      match author_data_user a with
      | Some u => match user_data_id u with Some i => i | None => 0 end
      | None => match author_data_id a with Some i => i | None => 0 end
      end
  end.

(** The environment of a run. *)
Record env : Type := mk_env {
  DISCORD_EPOCH : Z;
  (** the [n]-th reading of [time_now()], in milliseconds *)
  time_now : nat -> Z;
  (** the [n]-th [await WaitTillFirst(tasks, KOKORO)]: the finished tasks,
      in the order the [for] loop meets them, each with its result *)
  wait_till_first : nat -> list task -> list (task * completion);
  (** the [n]-th coroutine awaited directly ([await coro]): what the
      request does *)
  await_request : nat -> request -> completion;
  (** [channel._create_unknown_message(message_data)] *)
  create_unknown_message : message_data -> Message
}.

(** The contract of [WaitTillFirst] (backend/futures.py, not part of the
    sources at hand; section 5 of the design: the loop blocks on "first of N
    completes"): of a non-empty list of tasks it gives back at
    least one, each of them one of the tasks given, none twice. *)
Definition wait_contract (E : env) : Prop :=
  forall n ts, ts <> [] ->
    wait_till_first E n ts <> [] /\
    NoDup (map (fun d => task_serial (fst d)) (wait_till_first E n ts)) /\
    (forall d, In d (wait_till_first E n ts) -> In (fst d) ts).

(** How a run of a loop stands after some iterations. *)
Inductive outcome (S : Type) : Type :=
| Running (st : S)                (* the loop goes on *)
| Returned (st : S)               (* [break] / [return] *)
| Raised (e : exn) (st : S)       (* [task.result()] raised and the loop re-raised *)
| Crashed (e : exn) (st : S)      (* an exception of the interpreter *)
| Spinning (st : S).              (* an inner [while True] that never leaves *)

Arguments Running {S} st.
Arguments Returned {S} st.
Arguments Raised {S} e st.
Arguments Crashed {S} e st.
Arguments Spinning {S} st.

(** A failure of the interpreter, or a value. *)
Definition M (A : Type) : Type := (exn + A)%type.

Definition ret {A : Type} (a : A) : M A := inr a.
Definition raise {A : Type} (e : exn) : M A := inl e.
Definition bind {A B : Type} (m : M A) (k : A -> M B) : M B :=
  match m with
  | inl e => inl e
  | inr a => k a
  end.

Notation "x <- m ;; k" := (bind m (fun x => k))
  (at level 61, m at next level, right associativity).

(** [q.popleft()] *)
Definition popleft {A : Type} (q : list A) : M (A * list A) :=
  match q with
  | [] => raise IndexError
  | x :: r => ret (x, r)
  end.

(** What a run leaves behind, in order: the tasks it created (each one is a
    request handed to the HTTP client), the finished tasks it took out of
    [done] with their results, the tasks it called [cancel()] on, and the
    requests it awaited without a task. *)
Inductive event : Type :=
| Sent (t : task)
| Handled (t : task) (c : completion)
| Cancelled (t : task)
| Called (r : request) (c : completion).

Definition sent_of (ev : event) : list task :=
  match ev with Sent t => [t] | _ => [] end.
Definition handled_of (ev : event) : list task :=
  match ev with Handled t _ => [t] | _ => [] end.
Definition cancelled_of (ev : event) : list task :=
  match ev with Cancelled t => [t] | _ => [] end.

Definition sent (tr : list event) : list task := flat_map sent_of tr.
Definition handled (tr : list event) : list task := flat_map handled_of tr.
Definition cancelled (tr : list event) : list task := flat_map cancelled_of tr.

(** The requests a run has handed to the HTTP client. *)
Definition request_of (ev : event) : list request :=
  match ev with
  | Sent t => [task_request t]
  | Called r _ => [r]
  | _ => []
  end.

Definition requests (tr : list event) : list request := flat_map request_of tr.

(** ** [Client.message_delete_sequence]: the loop, client.py 4021-4246 *)

Module Sequence.

(** What stays fixed during a run. *)
Record config : Type := mk_config {
  (** [self.id] *)
  self_id : Z;
  (** [channel.id] *)
  chan : Z;
  after : Z;
  filter : option (Message -> bool)
}.

(** The local variables of the function, what the remote end still has to
    give ([history]: the pages successive history requests return), the
    counters of the environment and the trace. *)
Record state : Type := mk_state {
  should_request : bool;
  last_message_id : Z;
  limit : Z;
  message_group_new : list (bool * Z);
  message_group_old : list Z;
  message_group_old_own : list Z;
  tasks : list task;
  get_mass_task : option task;
  delete_mass_task : option task;
  delete_new_task : option task;
  delete_old_task : option task;
  history : list (list message_data);
  next_serial : nat;
  clock_reads : nat;
  awaits : nat;
  trace : list event
}.

Definition set_should_request (v : bool) (st : state) : state :=
  mk_state v (last_message_id st) (limit st) (message_group_new st)
    (message_group_old st) (message_group_old_own st) (tasks st)
    (get_mass_task st) (delete_mass_task st) (delete_new_task st)
    (delete_old_task st) (history st) (next_serial st) (clock_reads st)
    (awaits st) (trace st).
Definition set_last_message_id (v : Z) (st : state) : state :=
  mk_state (should_request st) v (limit st) (message_group_new st)
    (message_group_old st) (message_group_old_own st) (tasks st)
    (get_mass_task st) (delete_mass_task st) (delete_new_task st)
    (delete_old_task st) (history st) (next_serial st) (clock_reads st)
    (awaits st) (trace st).
Definition set_limit (v : Z) (st : state) : state :=
  mk_state (should_request st) (last_message_id st) v (message_group_new st)
    (message_group_old st) (message_group_old_own st) (tasks st)
    (get_mass_task st) (delete_mass_task st) (delete_new_task st)
    (delete_old_task st) (history st) (next_serial st) (clock_reads st)
    (awaits st) (trace st).
Definition set_message_group_new (v : list (bool * Z)) (st : state) : state :=
  mk_state (should_request st) (last_message_id st) (limit st) v
    (message_group_old st) (message_group_old_own st) (tasks st)
    (get_mass_task st) (delete_mass_task st) (delete_new_task st)
    (delete_old_task st) (history st) (next_serial st) (clock_reads st)
    (awaits st) (trace st).
Definition set_message_group_old (v : list Z) (st : state) : state :=
  mk_state (should_request st) (last_message_id st) (limit st)
    (message_group_new st) v (message_group_old_own st) (tasks st)
    (get_mass_task st) (delete_mass_task st) (delete_new_task st)
    (delete_old_task st) (history st) (next_serial st) (clock_reads st)
    (awaits st) (trace st).
Definition set_message_group_old_own (v : list Z) (st : state) : state :=
  mk_state (should_request st) (last_message_id st) (limit st)
    (message_group_new st) (message_group_old st) v (tasks st)
    (get_mass_task st) (delete_mass_task st) (delete_new_task st)
    (delete_old_task st) (history st) (next_serial st) (clock_reads st)
    (awaits st) (trace st).
Definition set_tasks (v : list task) (st : state) : state :=
  mk_state (should_request st) (last_message_id st) (limit st)
    (message_group_new st) (message_group_old st) (message_group_old_own st)
    v (get_mass_task st) (delete_mass_task st) (delete_new_task st)
    (delete_old_task st) (history st) (next_serial st) (clock_reads st)
    (awaits st) (trace st).
Definition set_get_mass_task (v : option task) (st : state) : state :=
  mk_state (should_request st) (last_message_id st) (limit st)
    (message_group_new st) (message_group_old st) (message_group_old_own st)
    (tasks st) v (delete_mass_task st) (delete_new_task st) (delete_old_task
    st) (history st) (next_serial st) (clock_reads st) (awaits st) (trace
    st).
Definition set_delete_mass_task (v : option task) (st : state) : state :=
  mk_state (should_request st) (last_message_id st) (limit st)
    (message_group_new st) (message_group_old st) (message_group_old_own st)
    (tasks st) (get_mass_task st) v (delete_new_task st) (delete_old_task
    st) (history st) (next_serial st) (clock_reads st) (awaits st) (trace
    st).
Definition set_delete_new_task (v : option task) (st : state) : state :=
  mk_state (should_request st) (last_message_id st) (limit st)
    (message_group_new st) (message_group_old st) (message_group_old_own st)
    (tasks st) (get_mass_task st) (delete_mass_task st) v (delete_old_task
    st) (history st) (next_serial st) (clock_reads st) (awaits st) (trace
    st).
Definition set_delete_old_task (v : option task) (st : state) : state :=
  mk_state (should_request st) (last_message_id st) (limit st)
    (message_group_new st) (message_group_old st) (message_group_old_own st)
    (tasks st) (get_mass_task st) (delete_mass_task st) (delete_new_task st)
    v (history st) (next_serial st) (clock_reads st) (awaits st) (trace st).
Definition set_history (v : list (list message_data)) (st : state) : state :=
  mk_state (should_request st) (last_message_id st) (limit st)
    (message_group_new st) (message_group_old st) (message_group_old_own st)
    (tasks st) (get_mass_task st) (delete_mass_task st) (delete_new_task st)
    (delete_old_task st) v (next_serial st) (clock_reads st) (awaits st)
    (trace st).
Definition set_next_serial (v : nat) (st : state) : state :=
  mk_state (should_request st) (last_message_id st) (limit st)
    (message_group_new st) (message_group_old st) (message_group_old_own st)
    (tasks st) (get_mass_task st) (delete_mass_task st) (delete_new_task st)
    (delete_old_task st) (history st) v (clock_reads st) (awaits st) (trace
    st).
Definition set_clock_reads (v : nat) (st : state) : state :=
  mk_state (should_request st) (last_message_id st) (limit st)
    (message_group_new st) (message_group_old st) (message_group_old_own st)
    (tasks st) (get_mass_task st) (delete_mass_task st) (delete_new_task st)
    (delete_old_task st) (history st) (next_serial st) v (awaits st) (trace
    st).
Definition set_awaits (v : nat) (st : state) : state :=
  mk_state (should_request st) (last_message_id st) (limit st)
    (message_group_new st) (message_group_old st) (message_group_old_own st)
    (tasks st) (get_mass_task st) (delete_mass_task st) (delete_new_task st)
    (delete_old_task st) (history st) (next_serial st) (clock_reads st) v
    (trace st).
Definition set_trace (v : list event) (st : state) : state :=
  mk_state (should_request st) (last_message_id st) (limit st)
    (message_group_new st) (message_group_old st) (message_group_old_own st)
    (tasks st) (get_mass_task st) (delete_mass_task st) (delete_new_task st)
    (delete_old_task st) (history st) (next_serial st) (clock_reads st)
    (awaits st) v.

(** [time_now()] *)
Definition read_clock (E : env) (st : state) : Z * state :=
  (time_now E (clock_reads st), set_clock_reads (S (clock_reads st)) st).

(** [Task(coro, KOKORO)] followed by [tasks.append(task)]. *)
Definition spawn (C : config) (r : request) (st : state) : task * state :=
  let t := mk_task (next_serial st) (self_id C) r in
  (t, set_tasks (tasks st ++ [t])
        (set_trace (trace st ++ [Sent t])
           (set_next_serial (S (next_serial st)) st))).

(** 4031-4038 *)
Definition request_history (C : config) (st : state) : state :=
  if should_request st && is_none (get_mass_task st) then
    let (t, st) := spawn C (http_message_logs (chan C) (last_message_id st)) st in
    set_get_mass_task (Some t) st
  else st.

(** 4047-4059: how many messages at the head of [message_group_new] are not
    below [time_limit], at most 100.  [q] is the part of the queue from
    index [collected] on. *)
Fixpoint collect (time_limit : Z) (q : list (bool * Z)) (collected : nat) : nat :=
  match q with
  | [] => collected
  | (_, message_id) :: r =>
      if (collected =? 100)%nat then collected
      else if message_id <? time_limit then collected
      else collect time_limit r (S collected)
  end.

(** 4074-4077 *)
Fixpoint pop_collected (collected : nat) (q : list (bool * Z)) (message_ids : list Z)
  : M (list Z * list (bool * Z)) :=
  match collected with
  | O => ret (message_ids, q)
  | S c =>
      x <- popleft q ;;
      pop_collected c (snd x) (message_ids ++ [snd (fst x)])
  end.

(** 4089-4109: from the end of [message_group_new] towards its head, the
    messages not above [time_limit] go to the front of the queue of old
    messages they belong to; the walk stops at the first message above the
    limit.  [message_limit] is the index after the one looked at. *)
Fixpoint move_aged (time_limit : Z) (message_limit : nat)
    (new : list (bool * Z)) (old old_own : list Z)
  : M (list (bool * Z) * list Z * list Z) :=
  match message_limit with
  | O => ret (new, old, old_own)
  | S i =>
      match nth_error new i with
      | None => raise IndexError
      | Some (own, message_id) =>
          if message_id >? time_limit then ret (new, old, old_own)
          else if own
               then move_aged time_limit i (del_at i new) old (message_id :: old_own)
               else move_aged time_limit i (del_at i new) (message_id :: old) old_own
      end
  end.

(** 4061-4081: what is done with the messages collected. *)
Definition submit_collected (C : config) (collected : nat) (st : state) : M state :=
  match collected with
  | O => ret st
  | 1%nat =>
      if is_none (delete_new_task st) then
        x <- popleft (message_group_new st) ;;
        let st := set_message_group_new (snd x) st in
        let (t, st) := spawn C (http_message_delete (chan C) (snd (fst x))) st in
        ret (set_delete_new_task (Some t) st)
      else ret st
  | _ =>
      x <- pop_collected collected (message_group_new st) [] ;;
      let st := set_message_group_new (snd x) st in
      let (t, st) := spawn C (http_message_delete_multiple (chan C) (fst x)) st in
      ret (set_delete_mass_task (Some t) st)
  end.

(** 4040-4109 *)
Definition delete_new (E : env) (C : config) (st : state) : M state :=
  if is_none (delete_mass_task st) then
    match length (message_group_new st) with
    | O => ret st
    | S _ =>
        let (now, st) := read_clock E st in
        let time_limit := id_limit (DISCORD_EPOCH E) now TWO_WEEKS_MARGIN_MS in
        let collected := collect time_limit (message_group_new st) 0 in
        st <- submit_collected C collected st ;;
        match length (message_group_new st) with
        | O => ret st
        | S _ as message_limit =>
            x <- move_aged (time_limit - MARGIN_STEP) message_limit
                   (message_group_new st) (message_group_old st)
                   (message_group_old_own st) ;;
            ret (set_message_group_new (fst (fst x))
                   (set_message_group_old (snd (fst x))
                      (set_message_group_old_own (snd x) st)))
        end
    end
  else ret st.

(** 4111-4116 *)
Definition delete_old_own (C : config) (st : state) : state :=
  if is_none (delete_new_task st) then
    match message_group_old_own st with
    | [] => st
    | message_id :: r =>
        let st := set_message_group_old_own r st in
        let (t, st) := spawn C (http_message_delete (chan C) message_id) st in
        set_delete_new_task (Some t) st
    end
  else st.

(** 4118-4122 *)
Definition delete_old (C : config) (st : state) : state :=
  if is_none (delete_old_task st) then
    match message_group_old st with
    | [] => st
    | message_id :: r =>
        let st := set_message_group_old r st in
        let (t, st) := spawn C (http_message_delete_b2wo (chan C) message_id) st in
        set_delete_old_task (Some t) st
    end
  else st.

(** 4124-4142: with no task left, either the loop is left or one message of
    [message_group_new] is deleted by itself.  [None]: [break]. *)
Definition last_resort (C : config) (st : state) : option state :=
  match tasks st with
  | _ :: _ => Some st
  | [] =>
      match message_group_new st with
      | [] => None
      | (own, message_id) :: r =>
          let st := set_message_group_new r st in
          if own then
            let (t, st) := spawn C (http_message_delete (chan C) message_id) st in
            Some (set_delete_new_task (Some t) st)
          else
            let (t, st) := spawn C (http_message_delete_b2wo (chan C) message_id) st in
            Some (set_delete_old_task (Some t) st)
      end
  end.

(** 4213-4231: one message of a page joins its queue and counts against
    [limit]; [true] when the [for] loop goes on to the next message. *)
Definition enqueue (C : config) (time_limit author_id : Z) (st : state) : bool * state :=
  let own := author_id =? self_id C in
  let id := last_message_id st in
  let st :=
    if id >? time_limit
    then set_message_group_new (message_group_new st ++ [(own, id)]) st
    else if own
         then set_message_group_old_own (message_group_old_own st ++ [id]) st
         else set_message_group_old (message_group_old st ++ [id]) st in
  let st := set_limit (limit st - 1) st in
  if limit st =? 0 then (false, set_should_request false st) else (true, st).

(** 4169-4231: the messages of one page. *)
Fixpoint process_page (E : env) (C : config) (time_limit : Z)
    (result : list message_data) (st : state) : state :=
  match result with
  | [] => st
  | message_data :: rest =>
      match filter C with
      | None =>
          let st := set_last_message_id (data_id message_data) st in
          if last_message_id st <? after C then set_should_request false st
          else
            let (go_on, st) := enqueue C time_limit (author_id_of message_data) st in
            if go_on then process_page E C time_limit rest st else st
      | Some f =>
          let message_ := create_unknown_message E message_data in
          let st := set_last_message_id (message_id message_) st in
          if last_message_id st <? after C then set_should_request false st
          else if negb (f message_) then process_page E C time_limit rest st
          else
            let (go_on, st) := enqueue C time_limit (message_author message_) st in
            if go_on then process_page E C time_limit rest st else st
      end
  end.

(** The result of the history request that has just finished: the next
    page, or an empty one when the remote end has no more. *)
Definition take_page (st : state) : list message_data * state :=
  match history st with
  | [] => ([], st)
  | page :: r => (page, set_history r st)
  end.

(** 4155-4231 *)
Definition got_history (E : env) (C : config) (st : state) : bool * state :=
  let st := set_get_mass_task None st in
  let (result, st) := take_page st in
  let received_count := length result in
  let st := if (received_count <? 100)%nat then set_should_request false st else st in
  if (received_count =? 0)%nat then (false, st)
  else
    let (now, st) := read_clock E st in
    let time_limit := id_limit (DISCORD_EPOCH E) now TWO_WEEKS_MS in
    (true, process_page E C time_limit result st).

(** 4233-4246 *)
Definition release (t : task) (st : state) : state :=
  if slot_is t (delete_mass_task st) then set_delete_mass_task None st
  else if slot_is t (delete_new_task st) then set_delete_new_task None st
  else if slot_is t (delete_old_task st) then set_delete_old_task None st
  else st.

(** 4151-4152 *)
Definition cancel_all (st : state) : state :=
  set_trace (trace st ++ map Cancelled (tasks st)) st.

(** 4146-4246: the finished tasks, one after the other. *)
Fixpoint handle_done (E : env) (C : config) (done : list (task * completion))
    (st : state) : outcome state :=
  match done with
  | [] => Running st
  | (t, c) :: rest =>
      match remove_task t (tasks st) with
      | None => Crashed ValueError st
      | Some ts =>
          let st := set_trace (trace st ++ [Handled t c]) (set_tasks ts st) in
          match c with
          | Failed e => Raised e (cancel_all st)
          | Finished =>
              if slot_is t (get_mass_task st) then
                let (further, st) := got_history E C st in
                if further then handle_done E C rest (release t st)
                else handle_done E C rest st
              else handle_done E C rest (release t st)
          end
      end
  end.

(** 4144 *)
Definition await_first (E : env) (st : state) : list (task * completion) * state :=
  (wait_till_first E (awaits st) (tasks st), set_awaits (S (awaits st)) st).

(** One pass of [while True:], 4030-4246. *)
Definition loop_body (E : env) (C : config) (st : state) : outcome state :=
  let st := request_history C st in
  match delete_new E C st with
  | inl e => Crashed e st
  | inr st =>
      let st := delete_old_own C st in
      let st := delete_old C st in
      match last_resort C st with
      | None => Returned st
      | Some st =>
          let (done, st) := await_first E st in
          handle_done E C done st
      end
  end.

Fixpoint run (E : env) (C : config) (fuel : nat) (st : state) : outcome state :=
  match fuel with
  | O => Running st
  | S n =>
      match loop_body E C st with
      | Running st' => run E C n st'
      | o => o
      end
  end.

(** The state at 4021-4028, before the loop: the three queues as the walk
    over the cached messages (3985-4019) left them, no task. *)
Definition start (should_request : bool) (last_message_id limit : Z)
    (new : list (bool * Z)) (old old_own : list Z)
    (history : list (list message_data)) : state :=
  mk_state should_request last_message_id limit new old old_own
    [] None None None None history 0 0 0 [].

End Sequence.

(** ** [Client.message_delete], client.py 3659-3695

    [c] is what awaiting the request does.  The result is the trace, the
    exception that leaves the function if any, and the message with its
    [deleted] flag as the function leaves it. *)
Definition message_delete (E : env) (self : Z) (now : Z) (message : Message)
    (c : completion) : list event * option exn * Message :=
  if message_deleted message then ([], None, message)
  else
    let coro :=
      if (message_author message =? self)
         || (message_id message >? id_limit (DISCORD_EPOCH E) now TWO_WEEKS_MARGIN_MS)
      then http_message_delete (channel_id (message_channel message)) (message_id message)
      else http_message_delete_b2wo (channel_id (message_channel message)) (message_id message) in
    match c with
    | Failed e => ([Called coro c], Some e, message)
    | Finished =>
        ([Called coro c], None,
         mk_message (message_id message) (message_author message) true
           (message_channel message))
    end.

(** ** [Client.message_delete_multiple], client.py 3698-3869 *)

Module Multiple.

(** The three queues, the task list (into which the code can put [None],
    see [last_resort]), the three task variables, the counters of the
    environment and the trace. *)
Record state : Type := mk_state {
  message_group_new : list (bool * Z);
  message_group_old : list Z;
  message_group_old_own : list Z;
  tasks : list (option task);
  delete_mass_task : option task;
  delete_new_task : option task;
  delete_old_task : option task;
  next_serial : nat;
  clock_reads : nat;
  awaits : nat;
  trace : list event
}.

Definition set_message_group_new (v : list (bool * Z)) (st : state) : state :=
  mk_state v (message_group_old st) (message_group_old_own st) (tasks st)
    (delete_mass_task st) (delete_new_task st) (delete_old_task st)
    (next_serial st) (clock_reads st) (awaits st) (trace st).
Definition set_message_group_old (v : list Z) (st : state) : state :=
  mk_state (message_group_new st) v (message_group_old_own st) (tasks st)
    (delete_mass_task st) (delete_new_task st) (delete_old_task st)
    (next_serial st) (clock_reads st) (awaits st) (trace st).
Definition set_message_group_old_own (v : list Z) (st : state) : state :=
  mk_state (message_group_new st) (message_group_old st) v (tasks st)
    (delete_mass_task st) (delete_new_task st) (delete_old_task st)
    (next_serial st) (clock_reads st) (awaits st) (trace st).
Definition set_tasks (v : list (option task)) (st : state) : state :=
  mk_state (message_group_new st) (message_group_old st)
    (message_group_old_own st) v (delete_mass_task st) (delete_new_task st)
    (delete_old_task st) (next_serial st) (clock_reads st) (awaits st)
    (trace st).
Definition set_delete_mass_task (v : option task) (st : state) : state :=
  mk_state (message_group_new st) (message_group_old st)
    (message_group_old_own st) (tasks st) v (delete_new_task st)
    (delete_old_task st) (next_serial st) (clock_reads st) (awaits st)
    (trace st).
Definition set_delete_new_task (v : option task) (st : state) : state :=
  mk_state (message_group_new st) (message_group_old st)
    (message_group_old_own st) (tasks st) (delete_mass_task st) v
    (delete_old_task st) (next_serial st) (clock_reads st) (awaits st)
    (trace st).
Definition set_delete_old_task (v : option task) (st : state) : state :=
  mk_state (message_group_new st) (message_group_old st)
    (message_group_old_own st) (tasks st) (delete_mass_task st)
    (delete_new_task st) v (next_serial st) (clock_reads st) (awaits st)
    (trace st).
Definition set_next_serial (v : nat) (st : state) : state :=
  mk_state (message_group_new st) (message_group_old st)
    (message_group_old_own st) (tasks st) (delete_mass_task st)
    (delete_new_task st) (delete_old_task st) v (clock_reads st) (awaits st)
    (trace st).
Definition set_clock_reads (v : nat) (st : state) : state :=
  mk_state (message_group_new st) (message_group_old st)
    (message_group_old_own st) (tasks st) (delete_mass_task st)
    (delete_new_task st) (delete_old_task st) (next_serial st) v (awaits st)
    (trace st).
Definition set_awaits (v : nat) (st : state) : state :=
  mk_state (message_group_new st) (message_group_old st)
    (message_group_old_own st) (tasks st) (delete_mass_task st)
    (delete_new_task st) (delete_old_task st) (next_serial st) (clock_reads
    st) v (trace st).
Definition set_trace (v : list event) (st : state) : state :=
  mk_state (message_group_new st) (message_group_old st)
    (message_group_old_own st) (tasks st) (delete_mass_task st)
    (delete_new_task st) (delete_old_task st) (next_serial st) (clock_reads
    st) (awaits st) v.

Definition read_clock (E : env) (st : state) : Z * state :=
  (time_now E (clock_reads st), set_clock_reads (S (clock_reads st)) st).

(** [Task(coro, KOKORO)]: the request is on its way. *)
Definition create (self : Z) (r : request) (st : state) : task * state :=
  let t := mk_task (next_serial st) self r in
  (t, set_trace (trace st ++ [Sent t]) (set_next_serial (S (next_serial st)) st)).

(** [Task(coro, KOKORO)] followed by [tasks.append(task)]. *)
Definition spawn (self : Z) (r : request) (st : state) : task * state :=
  let (t, st) := create self r st in
  (t, set_tasks (tasks st ++ [Some t]) st).

(** 3728-3733: outside of a guild every message is deleted by a request of
    its own, one awaited after the other; the first failure leaves the
    function. *)
Fixpoint delete_each (E : env) (chan : Z) (messages : list Message) (st : state)
  : outcome state :=
  match messages with
  | [] => Returned st
  | message :: rest =>
      let r := http_message_delete chan (message_id message) in
      let c := await_request E (awaits st) r in
      let st := set_trace (trace st ++ [Called r c]) (set_awaits (S (awaits st)) st) in
      match c with
      | Finished => delete_each E chan rest st
      | Failed e => Raised e st
      end
  end.

(** 3741-3758: the queues the messages go to. *)
Fixpoint classify (self bulk_delete_limit : Z) (messages : list Message)
    (new : list (bool * Z)) (old old_own : list Z)
  : list (bool * Z) * list Z * list Z :=
  match messages with
  | [] => (new, old, old_own)
  | message :: rest =>
      if message_deleted message then classify self bulk_delete_limit rest new old old_own
      else
        let own := message_author message =? self in
        if message_id message >? bulk_delete_limit
        then classify self bulk_delete_limit rest (new ++ [(own, message_id message)]) old old_own
        else if own
             then classify self bulk_delete_limit rest new old (old_own ++ [message_id message])
             else classify self bulk_delete_limit rest new (old ++ [message_id message]) old_own
  end.

(** 3776-3795: [message_group_new] is emptied from its head: a message above
    [limit] joins the batch (which is closed at 100), a message more than
    [MARGIN_STEP] below [limit] is let go of, any other one goes to the
    front of the queue of old messages it belongs to. *)
Fixpoint revalidate (limit : Z) (new : list (bool * Z)) (message_ids : list Z)
    (message_count : nat) (old old_own : list Z)
  : list Z * nat * list (bool * Z) * list Z * list Z :=
  match new with
  | [] => (message_ids, message_count, [], old, old_own)
  | (own, message_id) :: rest =>
      if message_id >? limit then
        if (S message_count =? 100)%nat
        then (message_ids ++ [message_id], S message_count, rest, old, old_own)
        else revalidate limit rest (message_ids ++ [message_id]) (S message_count) old old_own
      else if message_id + MARGIN_STEP <? limit
      then revalidate limit rest message_ids message_count old old_own
      else if own
           then revalidate limit rest message_ids message_count old (message_id :: old_own)
           else revalidate limit rest message_ids message_count (message_id :: old) old_own
  end.

(** 3797-3806 *)
Definition submit_batch (self chan : Z) (message_ids : list Z) (message_count : nat)
    (st : state) : M state :=
  match message_count with
  | O => ret st
  | 1%nat =>
      if is_none (delete_new_task st) then
        match message_ids with
        | [] => raise IndexError
        | message_id :: _ =>
            let (t, st) := spawn self (http_message_delete chan message_id) st in
            ret (set_delete_new_task (Some t) st)
        end
      else ret st
  | _ =>
      let (t, st) := spawn self (http_message_delete_multiple chan message_ids) st in
      ret (set_delete_mass_task (Some t) st)
  end.

(** 3767-3806 *)
Definition delete_new (E : env) (self chan : Z) (st : state) : M state :=
  if is_none (delete_mass_task st) then
    match length (message_group_new st) with
    | O => ret st
    | S _ =>
        let (now, st) := read_clock E st in
        let limit := id_limit (DISCORD_EPOCH E) now TWO_WEEKS_MARGIN_MS in
        match revalidate limit (message_group_new st) [] 0
                (message_group_old st) (message_group_old_own st) with
        | (message_ids, message_count, new, old, old_own) =>
            submit_batch self chan message_ids message_count
              (set_message_group_new new
                 (set_message_group_old old
                    (set_message_group_old_own old_own st)))
        end
    end
  else ret st.

(** 3808-3812 *)
Definition delete_old (self chan : Z) (st : state) : state :=
  if is_none (delete_old_task st) then
    match message_group_old st with
    | [] => st
    | message_id :: r =>
        let st := set_message_group_old r st in
        let (t, st) := spawn self (http_message_delete_b2wo chan message_id) st in
        set_delete_old_task (Some t) st
    end
  else st.

(** 3814-3825: [group] is chosen among [message_group_new] and
    [message_group_old_own], but the message is always taken from
    [message_group_old_own]. *)
Definition delete_own (self chan : Z) (st : state) : M state :=
  if is_none (delete_new_task st) then
    match message_group_new st, message_group_old_own st with
    | [], [] => ret st
    | _, _ =>
        x <- popleft (message_group_old_own st) ;;
        let st := set_message_group_old_own (snd x) st in
        let (t, st) := spawn self (http_message_delete chan (fst x)) st in
        ret (set_delete_new_task (Some t) st)
    end
  else ret st.

(** 3827-3843: with no task left, either the loop is left or one message of
    [message_group_new] is deleted by itself; what joins [tasks] is the
    value of [delete_old_task] in both cases.  [None]: [break]. *)
Definition last_resort (self chan : Z) (st : state) : option state :=
  match tasks st with
  | _ :: _ => Some st
  | [] =>
      match message_group_new st with
      | [] => None
      | (own, message_id) :: r =>
          let st := set_message_group_new r st in
          let st :=
            if own then
              let (t, st) := create self (http_message_delete chan message_id) st in
              set_delete_new_task (Some t) st
            else
              let (t, st) := create self (http_message_delete_b2wo chan message_id) st in
              set_delete_old_task (Some t) st in
          Some (set_tasks (tasks st ++ [delete_old_task st]) st)
      end
  end.

(** The tasks of a list in which every entry is one; [None] when an entry
    is not a task. *)
Fixpoint all_tasks (ts : list (option task)) : option (list task) :=
  match ts with
  | [] => Some []
  | None :: _ => None
  | Some t :: r =>
      match all_tasks r with
      | Some l => Some (t :: l)
      | None => None
      end
  end.

(** [tasks.remove(task)] *)
Fixpoint remove_entry (t : task) (ts : list (option task)) : option (list (option task)) :=
  match ts with
  | [] => None
  | u :: r =>
      if slot_is t u then Some r
      else match remove_entry t r with
           | Some r' => Some (u :: r')
           | None => None
           end
  end.

(** 3856-3869 *)
Definition release (t : task) (st : state) : state :=
  if slot_is t (delete_mass_task st) then set_delete_mass_task None st
  else if slot_is t (delete_new_task st) then set_delete_new_task None st
  else if slot_is t (delete_old_task st) then set_delete_old_task None st
  else st.

(** 3852-3853: [task.cancel()] on every entry, up to the first entry that
    is not a task. *)
Fixpoint cancel_each (ts : list (option task)) : list event * bool :=
  match ts with
  | [] => ([], true)
  | None :: _ => ([], false)
  | Some t :: r => let (evs, ok) := cancel_each r in (Cancelled t :: evs, ok)
  end.

(** [except (DiscordException, ConnectionError):] *)
Definition caught (e : exn) : bool :=
  match e with
  | DiscordException | ConnectionError => true
  | _ => false
  end.

(** 3847-3869 *)
Fixpoint handle_done (done : list (task * completion)) (st : state) : outcome state :=
  match done with
  | [] => Running st
  | (t, c) :: rest =>
      match remove_entry t (tasks st) with
      | None => Crashed ValueError st
      | Some ts =>
          let st := set_trace (trace st ++ [Handled t c]) (set_tasks ts st) in
          match c with
          | Failed e =>
              if caught e then
                let (evs, ok) := cancel_each (tasks st) in
                let st := set_trace (trace st ++ evs) st in
                if ok then Raised e st else Crashed AttributeError st
              else Raised e st
          | Finished => handle_done rest (release t st)
          end
      end
  end.

(** 3845: [WaitTillFirst] registers a callback on each entry of [tasks],
    which fails on an entry that is not a task. *)
Definition await_first (E : env) (st : state) : M (list (task * completion) * state) :=
  match all_tasks (tasks st) with
  | None => raise AttributeError
  | Some ts => ret (wait_till_first E (awaits st) ts, set_awaits (S (awaits st)) st)
  end.

(** One pass of [while True:], 3766-3869. *)
Definition loop_body (E : env) (self chan : Z) (st : state) : outcome state :=
  match delete_new E self chan st with
  | inl e => Crashed e st
  | inr st =>
      let st := delete_old self chan st in
      match delete_own self chan st with
      | inl e => Crashed e st
      | inr st =>
          match last_resort self chan st with
          | None => Returned st
          | Some st =>
              match await_first E st with
              | inl e => Crashed e st
              | inr (done, st) => handle_done done st
              end
          end
      end
  end.

Fixpoint run (E : env) (self chan : Z) (fuel : nat) (st : state) : outcome state :=
  match fuel with
  | O => Running st
  | S n =>
      match loop_body E self chan st with
      | Running st' => run E self chan n st'
      | o => o
      end
  end.

Definition empty : state := mk_state [] [] [] [] None None None 0 0 0 [].

(** The whole function; [fuel] bounds the passes of the loop. *)
Definition message_delete_multiple (E : env) (self : Z) (fuel : nat)
    (messages : list Message) : outcome state :=
  match messages with
  | [] => Returned empty
  | first :: _ =>
      let channel := message_channel first in
      if negb (channel_is_guild channel)
      then delete_each E (channel_id channel) messages empty
      else
        let (now, st) := read_clock E empty in
        let bulk_delete_limit := id_limit (DISCORD_EPOCH E) now TWO_WEEKS_MS in
        match classify self bulk_delete_limit messages [] [] [] with
        | (new, old, old_own) =>
            run E self (channel_id channel) fuel
              (set_message_group_new new
                 (set_message_group_old old
                    (set_message_group_old_own old_own st)))
        end
  end.

End Multiple.

(** ** [Client.message_delete_multiple2], client.py 3872-3917 *)

Module Multiple2.

(** 3891-3897: the messages by channel, the channels in the order in which
    they are first met (a [dict] keeps the order of insertion). *)
Fixpoint add_to_system (channel : Z) (message : Message)
    (delete_system : list (Z * list Message)) : list (Z * list Message) :=
  match delete_system with
  | [] => [(channel, [message])]
  | (k, messages) :: r =>
      if k =? channel then (k, messages ++ [message]) :: r
      else (k, messages) :: add_to_system channel message r
  end.

Definition group_by_channel (messages : list Message) : list (Z * list Message) :=
  fold_left (fun delete_system message =>
               add_to_system (channel_id (message_channel message)) message delete_system)
            messages [].

(** What the list [exceptions] holds: an exception object, or the list
    [exceptions] itself (lists are held by reference). *)
Inductive element : Type :=
| an_exception (e : exn)
| the_list_itself.

(** 3906-3914: [task_exception] is [task.exception()] of the task made for a
    group of messages. *)
Fixpoint collect_exceptions (task_exception : list Message -> option exn)
    (tasks : list (list Message)) (exceptions : list element) : list element :=
  match tasks with
  | [] => exceptions
  | t :: r =>
      match task_exception t with
      | None => collect_exceptions task_exception r exceptions
      | Some _ => collect_exceptions task_exception r (exceptions ++ [the_list_itself])
      end
  end.

(** The whole function: [None], or the list returned. *)
Definition message_delete_multiple2 (task_exception : list Message -> option exn)
    (messages : list Message) : option (list element) :=
  let delete_system := group_by_channel messages in
  let tasks := map snd delete_system in
  match collect_exceptions task_exception tasks [] with
  | [] => None
  | exceptions => Some exceptions
  end.

End Multiple2.

(** ** [Client.multi_client_message_delete_sequence]: the loop, client.py 4377-4634 *)

Module MultiClient.

(** [MultiClientMessageDeleteSequenceSharder] (client_utils.py, which is not
    part of the sources at hand): the attributes the function reads and
    writes.  [client] is [sharder.client.id]. *)
Record sharder : Type := mk_sharder {
  client : Z;
  can_manage_messages : bool;
  can_read_message_history : bool;
  delete_mass_task : option task;
  delete_new_task : option task;
  delete_old_task : option task
}.

Definition set_delete_mass_task (v : option task) (s : sharder) : sharder :=
  mk_sharder (client s) (can_manage_messages s) (can_read_message_history s)
    v (delete_new_task s) (delete_old_task s).
Definition set_delete_new_task (v : option task) (s : sharder) : sharder :=
  mk_sharder (client s) (can_manage_messages s) (can_read_message_history s)
    (delete_mass_task s) v (delete_old_task s).
Definition set_delete_old_task (v : option task) (s : sharder) : sharder :=
  mk_sharder (client s) (can_manage_messages s) (can_read_message_history s)
    (delete_mass_task s) (delete_new_task s) v.

(** What an entry of [message_group_old_own] holds next to [whos]: the id
    of a message, or the deque [message_group_old] (4475). *)
Inductive item : Type :=
| message_item (message_id : Z)
| the_old_queue.

Record config : Type := mk_config {
  (** [channel.id] *)
  chan : Z;
  after : Z;
  filter : option (Message -> bool)
}.

(** The local variables of the function ([whos] is an index into
    [sharders], or [-1]), the pages the history requests still return, the
    counters of the environment and the trace. *)
Record state : Type := mk_state {
  sharders : list sharder;
  should_request : bool;
  last_message_id : Z;
  limit : Z;
  message_group_new : list (Z * Z);
  message_group_old : list Z;
  message_group_old_own : list (Z * item);
  tasks : list task;
  get_mass_task : option task;
  get_mass_task_next : nat;
  history : list (list message_data);
  next_serial : nat;
  clock_reads : nat;
  awaits : nat;
  trace : list event
}.

Definition set_sharders (v : list sharder) (st : state) : state :=
  mk_state v (should_request st) (last_message_id st) (limit st)
    (message_group_new st) (message_group_old st) (message_group_old_own st)
    (tasks st) (get_mass_task st) (get_mass_task_next st) (history st)
    (next_serial st) (clock_reads st) (awaits st) (trace st).
Definition set_should_request (v : bool) (st : state) : state :=
  mk_state (sharders st) v (last_message_id st) (limit st)
    (message_group_new st) (message_group_old st) (message_group_old_own st)
    (tasks st) (get_mass_task st) (get_mass_task_next st) (history st)
    (next_serial st) (clock_reads st) (awaits st) (trace st).
Definition set_last_message_id (v : Z) (st : state) : state :=
  mk_state (sharders st) (should_request st) v (limit st) (message_group_new
    st) (message_group_old st) (message_group_old_own st) (tasks st)
    (get_mass_task st) (get_mass_task_next st) (history st) (next_serial st)
    (clock_reads st) (awaits st) (trace st).
Definition set_limit (v : Z) (st : state) : state :=
  mk_state (sharders st) (should_request st) (last_message_id st) v
    (message_group_new st) (message_group_old st) (message_group_old_own st)
    (tasks st) (get_mass_task st) (get_mass_task_next st) (history st)
    (next_serial st) (clock_reads st) (awaits st) (trace st).
Definition set_message_group_new (v : list (Z * Z)) (st : state) : state :=
  mk_state (sharders st) (should_request st) (last_message_id st) (limit st)
    v (message_group_old st) (message_group_old_own st) (tasks st)
    (get_mass_task st) (get_mass_task_next st) (history st) (next_serial st)
    (clock_reads st) (awaits st) (trace st).
Definition set_message_group_old (v : list Z) (st : state) : state :=
  mk_state (sharders st) (should_request st) (last_message_id st) (limit st)
    (message_group_new st) v (message_group_old_own st) (tasks st)
    (get_mass_task st) (get_mass_task_next st) (history st) (next_serial st)
    (clock_reads st) (awaits st) (trace st).
Definition set_message_group_old_own (v : list (Z * item)) (st : state) : state :=
  mk_state (sharders st) (should_request st) (last_message_id st) (limit st)
    (message_group_new st) (message_group_old st) v (tasks st)
    (get_mass_task st) (get_mass_task_next st) (history st) (next_serial st)
    (clock_reads st) (awaits st) (trace st).
Definition set_tasks (v : list task) (st : state) : state :=
  mk_state (sharders st) (should_request st) (last_message_id st) (limit st)
    (message_group_new st) (message_group_old st) (message_group_old_own st)
    v (get_mass_task st) (get_mass_task_next st) (history st) (next_serial
    st) (clock_reads st) (awaits st) (trace st).
Definition set_get_mass_task (v : option task) (st : state) : state :=
  mk_state (sharders st) (should_request st) (last_message_id st) (limit st)
    (message_group_new st) (message_group_old st) (message_group_old_own st)
    (tasks st) v (get_mass_task_next st) (history st) (next_serial st)
    (clock_reads st) (awaits st) (trace st).
Definition set_get_mass_task_next (v : nat) (st : state) : state :=
  mk_state (sharders st) (should_request st) (last_message_id st) (limit st)
    (message_group_new st) (message_group_old st) (message_group_old_own st)
    (tasks st) (get_mass_task st) v (history st) (next_serial st)
    (clock_reads st) (awaits st) (trace st).
Definition set_history (v : list (list message_data)) (st : state) : state :=
  mk_state (sharders st) (should_request st) (last_message_id st) (limit st)
    (message_group_new st) (message_group_old st) (message_group_old_own st)
    (tasks st) (get_mass_task st) (get_mass_task_next st) v (next_serial st)
    (clock_reads st) (awaits st) (trace st).
Definition set_next_serial (v : nat) (st : state) : state :=
  mk_state (sharders st) (should_request st) (last_message_id st) (limit st)
    (message_group_new st) (message_group_old st) (message_group_old_own st)
    (tasks st) (get_mass_task st) (get_mass_task_next st) (history st) v
    (clock_reads st) (awaits st) (trace st).
Definition set_clock_reads (v : nat) (st : state) : state :=
  mk_state (sharders st) (should_request st) (last_message_id st) (limit st)
    (message_group_new st) (message_group_old st) (message_group_old_own st)
    (tasks st) (get_mass_task st) (get_mass_task_next st) (history st)
    (next_serial st) v (awaits st) (trace st).
Definition set_awaits (v : nat) (st : state) : state :=
  mk_state (sharders st) (should_request st) (last_message_id st) (limit st)
    (message_group_new st) (message_group_old st) (message_group_old_own st)
    (tasks st) (get_mass_task st) (get_mass_task_next st) (history st)
    (next_serial st) (clock_reads st) v (trace st).
Definition set_trace (v : list event) (st : state) : state :=
  mk_state (sharders st) (should_request st) (last_message_id st) (limit st)
    (message_group_new st) (message_group_old st) (message_group_old_own st)
    (tasks st) (get_mass_task st) (get_mass_task_next st) (history st)
    (next_serial st) (clock_reads st) (awaits st) v.

(** 4338-4340 and [is_own_getter.get(author_id, -1)]: the last index whose
    sharder belongs to the author. *)
Fixpoint lookup_own (author_id : Z) (l : list sharder) (index found : Z) : Z :=
  match l with
  | [] => found
  | s :: r => lookup_own author_id r (index + 1)
                (if client s =? author_id then index else found)
  end.

Definition is_own_getter (l : list sharder) (author_id : Z) : Z :=
  lookup_own author_id l 0 (-1).

(** The position [l[i]] reads or writes, for an index in range. *)
Definition py_position {A : Type} (l : list A) (i : Z) : nat :=
  if 0 <=? i then Z.to_nat i else Z.to_nat (Z.of_nat (length l) + i).

(** [sharders[i].attribute = v] *)
Definition update_sharder (i : nat) (f : sharder -> sharder) (st : state) : state :=
  match nth_error (sharders st) i with
  | None => st
  | Some s => set_sharders (set_at i (f s) (sharders st)) st
  end.

Definition read_clock (E : env) (st : state) : Z * state :=
  (time_now E (clock_reads st), set_clock_reads (S (clock_reads st)) st).

(** [Task(sharder.client.http. ... , KOKORO)] followed by
    [tasks.append(task)]. *)
Definition spawn (by_client : Z) (r : request) (st : state) : task * state :=
  let t := mk_task (next_serial st) by_client r in
  (t, set_tasks (tasks st ++ [t])
        (set_trace (trace st ++ [Sent t])
           (set_next_serial (S (next_serial st)) st))).

(** 4389-4398: the sharder that asks for the next page.  [inr None]: the
    [while True] never meets a sharder that can read and does not leave. *)
Fixpoint next_reader (fuel : nat) (l : list sharder) (get_mass_task_next : nat)
  : M (option nat) :=
  match fuel with
  | O => ret None
  | S f =>
      let get_mass_task_next :=
        if (length l <=? get_mass_task_next)%nat then O else get_mass_task_next in
      match nth_error l get_mass_task_next with
      | None => raise IndexError
      | Some s =>
          if can_read_message_history s then ret (Some get_mass_task_next)
          else next_reader f l (S get_mass_task_next)
      end
  end.

(** 4386-4406 *)
Definition request_history (C : config) (st : state) : M (option state) :=
  if should_request st && is_none (get_mass_task st) then
    found <- next_reader (S (length (sharders st))) (sharders st) (get_mass_task_next st) ;;
    match found with
    | None => ret None
    | Some i =>
        let st := set_get_mass_task_next i st in
        match nth_error (sharders st) i with
        | None => raise IndexError
        | Some s =>
            let (t, st) := spawn (client s) (http_message_logs (chan C) (last_message_id st)) st in
            ret (Some (set_get_mass_task (Some t) st))
        end
    end
  else ret (Some st).

(** 4416-4428 *)
Fixpoint collect (time_limit : Z) (q : list (Z * Z)) (collected : nat) : nat :=
  match q with
  | [] => collected
  | (_, message_id) :: r =>
      if (collected =? 100)%nat then collected
      else if message_id <? time_limit then collected
      else collect time_limit r (S collected)
  end.

(** 4446-4449 *)
Fixpoint pop_collected (collected : nat) (q : list (Z * Z)) (message_ids : list Z)
  : M (list Z * list (Z * Z)) :=
  match collected with
  | O => ret (message_ids, q)
  | S c =>
      x <- popleft q ;;
      pop_collected c (snd x) (message_ids ++ [snd (fst x)])
  end.

(** 4435-4436: the first [sub_sharder] that passes the test of the inner
    [for]; the test reads the task of [sharder], the sharder of the outer
    [for] loop. *)
Fixpoint first_sub_sharder (s : sharder) (subs : list sharder) (j : nat) : option nat :=
  match subs with
  | [] => None
  | sub_sharder :: r =>
      if can_manage_messages sub_sharder && is_none (delete_new_task s)
      then Some j
      else first_sub_sharder s r (S j)
  end.

(** 4430-4454: what is done with the messages collected; [i] is the index
    of [sharder]. *)
Definition submit_collected (C : config) (i : nat) (s : sharder) (collected : nat)
    (st : state) : M state :=
  match collected with
  | O => ret st
  | 1%nat =>
      match first_sub_sharder s (sharders st) 0 with
      | None => ret st
      | Some j =>
          match nth_error (sharders st) j with
          | None => raise IndexError
          | Some sub_sharder =>
              x <- popleft (message_group_new st) ;;
              let st := set_message_group_new (snd x) st in
              let (t, st) := spawn (client sub_sharder)
                               (http_message_delete (chan C) (snd (fst x))) st in
              ret (update_sharder j (set_delete_new_task (Some t)) st)
          end
      end
  | _ =>
      x <- pop_collected collected (message_group_new st) [] ;;
      let st := set_message_group_new (snd x) st in
      let (t, st) := spawn (client s) (http_message_delete_multiple (chan C) (fst x)) st in
      ret (update_sharder i (set_delete_mass_task (Some t)) st)
  end.

(** 4462-4480: as in the function for one client, but what joins
    [message_group_old_own] is [(whos, message_group_old)]. *)
Fixpoint move_aged (time_limit : Z) (message_limit : nat)
    (new : list (Z * Z)) (old : list Z) (old_own : list (Z * item))
  : M (list (Z * Z) * list Z * list (Z * item)) :=
  match message_limit with
  | O => ret (new, old, old_own)
  | S i =>
      match nth_error new i with
      | None => raise IndexError
      | Some (whos, message_id) =>
          if message_id >? time_limit then ret (new, old, old_own)
          else if whos =? -1
               then move_aged time_limit i (del_at i new) (message_id :: old) old_own
               else move_aged time_limit i (del_at i new) old ((whos, the_old_queue) :: old_own)
      end
  end.

(** 4409-4480: the body of [for sharder in sharders:], [i] the index of
    [sharder]. *)
Definition delete_new_by (E : env) (C : config) (i : nat) (st : state) : M state :=
  match nth_error (sharders st) i with
  | None => raise IndexError
  | Some s =>
      if can_manage_messages s && is_none (delete_mass_task s) then
        match length (message_group_new st) with
        | O => ret st
        | S _ =>
            let (now, st) := read_clock E st in
            let time_limit := id_limit (DISCORD_EPOCH E) now TWO_WEEKS_MARGIN_MS in
            let collected := collect time_limit (message_group_new st) 0 in
            st <- submit_collected C i s collected st ;;
            match length (message_group_new st) with
            | O => ret st
            | S _ as message_limit =>
                x <- move_aged (time_limit - MARGIN_STEP) message_limit
                       (message_group_new st) (message_group_old st)
                       (message_group_old_own st) ;;
                ret (set_message_group_new (fst (fst x))
                       (set_message_group_old (snd (fst x))
                          (set_message_group_old_own (snd x) st)))
            end
        end
      else ret st
  end.

(** 4408: [for sharder in sharders:] over the indices. *)
Fixpoint delete_new (E : env) (C : config) (indices : list nat) (st : state) : M state :=
  match indices with
  | [] => ret st
  | i :: r => st <- delete_new_by E C i st ;; delete_new E C r st
  end.

(** The request that deletes an entry of [message_group_old_own]. *)
Definition delete_item (channel : Z) (x : item) : request :=
  match x with
  | message_item message_id => http_message_delete channel message_id
  | the_old_queue => http_message_delete_of_deque channel
  end.

(** 4483-4494 *)
Definition delete_old_own (C : config) (st : state) : M state :=
  match message_group_old_own st with
  | [] => ret st
  | (whos, x) :: r =>
      match py_index (sharders st) whos with
      | None => raise IndexError
      | Some s =>
          if is_none (delete_new_task s) then
            let st := set_message_group_old_own r st in
            let (t, st) := spawn (client s) (delete_item (chan C) x) st in
            ret (update_sharder (py_position (sharders st) whos)
                   (set_delete_new_task (Some t)) st)
          else ret st
      end
  end.

(** 4497-4506: [for sharder in sharders:] over the indices, left when
    [message_group_old] is empty. *)
Fixpoint delete_old_by (C : config) (indices : list nat) (st : state) : M state :=
  match indices with
  | [] => ret st
  | i :: r =>
      match nth_error (sharders st) i with
      | None => raise IndexError
      | Some s =>
          if is_none (delete_old_task s) then
            x <- popleft (message_group_old st) ;;
            let st := set_message_group_old (snd x) st in
            let (t, st) := spawn (client s) (http_message_delete_b2wo (chan C) (fst x)) st in
            let st := update_sharder i (set_delete_old_task (Some t)) st in
            match message_group_old st with
            | [] => ret st
            | _ :: _ => delete_old_by C r st
            end
          else delete_old_by C r st
      end
  end.

(** 4496-4506 *)
Definition delete_old (C : config) (st : state) : M state :=
  match message_group_old st with
  | [] => ret st
  | _ :: _ => delete_old_by C (seq 0 (length (sharders st))) st
  end.

(** 4520-4525: the first sharder that can manage messages. *)
Fixpoint first_manager (l : list sharder) (j : nat) : option nat :=
  match l with
  | [] => None
  | s :: r => if can_manage_messages s then Some j else first_manager r (S j)
  end.

(** 4508-4531: with no task left, either the loop is left ([inr None]) or
    one message of [message_group_new] is deleted by itself.  Without a
    sharder that can manage messages [task] is not assigned by the [for]
    loop; the function is not entered without one (4303-4307). *)
Definition last_resort (C : config) (st : state) : M (option state) :=
  match tasks st with
  | _ :: _ => ret (Some st)
  | [] =>
      match message_group_new st with
      | [] => ret None
      | (whos, message_id) :: r =>
          let st := set_message_group_new r st in
          if whos =? -1 then
            match first_manager (sharders st) 0 with
            | None => raise UnboundLocalError
            | Some j =>
                match nth_error (sharders st) j with
                | None => raise IndexError
                | Some s =>
                    let (t, st) := spawn (client s)
                                     (http_message_delete_b2wo (chan C) message_id) st in
                    ret (Some (update_sharder j (set_delete_old_task (Some t)) st))
                end
            end
          else
            match py_index (sharders st) whos with
            | None => raise IndexError
            | Some s =>
                let (t, st) := spawn (client s)
                                 (http_message_delete (chan C) message_id) st in
                ret (Some (update_sharder (py_position (sharders st) whos)
                             (set_delete_new_task (Some t)) st))
            end
      end
  end.

(** 4602-4618 *)
Definition enqueue (time_limit author_id : Z) (st : state) : bool * state :=
  let whos := is_own_getter (sharders st) author_id in
  let id := last_message_id st in
  let st :=
    if id >? time_limit
    then set_message_group_new (message_group_new st ++ [(whos, id)]) st
    else if whos =? -1
         then set_message_group_old (message_group_old st ++ [id]) st
         else set_message_group_old_own
                (message_group_old_own st ++ [(whos, message_item id)]) st in
  let st := set_limit (limit st - 1) st in
  if limit st =? 0 then (false, set_should_request false st) else (true, st).

(** 4558-4618 *)
Fixpoint process_page (E : env) (C : config) (time_limit : Z)
    (result : list message_data) (st : state) : state :=
  match result with
  | [] => st
  | message_data :: rest =>
      match filter C with
      | None =>
          let st := set_last_message_id (data_id message_data) st in
          if last_message_id st <? after C then set_should_request false st
          else
            let (go_on, st) := enqueue time_limit (author_id_of message_data) st in
            if go_on then process_page E C time_limit rest st else st
      | Some f =>
          let message_ := create_unknown_message E message_data in
          let st := set_last_message_id (message_id message_) st in
          if last_message_id st <? after C then set_should_request false st
          else if negb (f message_) then process_page E C time_limit rest st
          else
            let (go_on, st) := enqueue time_limit (message_author message_) st in
            if go_on then process_page E C time_limit rest st else st
      end
  end.

Definition take_page (st : state) : list message_data * state :=
  match history st with
  | [] => ([], st)
  | page :: r => (page, set_history r st)
  end.

(** 4544-4618 *)
Definition got_history (E : env) (C : config) (st : state) : bool * state :=
  let st := set_get_mass_task None st in
  let (result, st) := take_page st in
  let received_count := length result in
  let st := if (received_count <? 100)%nat then set_should_request false st else st in
  if (received_count =? 0)%nat then (false, st)
  else
    let (now, st) := read_clock E st in
    let time_limit := id_limit (DISCORD_EPOCH E) now TWO_WEEKS_MS in
    (true, process_page E C time_limit result st).

(** 4620-4631 *)
Fixpoint release (t : task) (l : list sharder) : list sharder :=
  match l with
  | [] => []
  | s :: r =>
      if slot_is t (delete_mass_task s) then set_delete_mass_task None s :: r
      else if slot_is t (delete_new_task s) then set_delete_new_task None s :: r
      else if slot_is t (delete_old_task s) then set_delete_old_task None s :: r
      else s :: release t r
  end.

(** 4540-4541 *)
Definition cancel_all (st : state) : state :=
  set_trace (trace st ++ map Cancelled (tasks st)) st.

(** 4535-4634 *)
Fixpoint handle_done (E : env) (C : config) (done : list (task * completion))
    (st : state) : outcome state :=
  match done with
  | [] => Running st
  | (t, c) :: rest =>
      match remove_task t (tasks st) with
      | None => Crashed ValueError st
      | Some ts =>
          let st := set_trace (trace st ++ [Handled t c]) (set_tasks ts st) in
          match c with
          | Failed e => Raised e (cancel_all st)
          | Finished =>
              if slot_is t (get_mass_task st) then
                let (further, st) := got_history E C st in
                if further
                then handle_done E C rest (set_sharders (release t (sharders st)) st)
                else handle_done E C rest st
              else handle_done E C rest (set_sharders (release t (sharders st)) st)
          end
      end
  end.

(** 4533 *)
Definition await_first (E : env) (st : state) : list (task * completion) * state :=
  (wait_till_first E (awaits st) (tasks st), set_awaits (S (awaits st)) st).

(** One pass of [while True:], 4385-4634. *)
Definition loop_body (E : env) (C : config) (st : state) : outcome state :=
  match request_history C st with
  | inl e => Crashed e st
  | inr None => Spinning st
  | inr (Some st) =>
      match
        (st <- delete_new E C (seq 0 (length (sharders st))) st ;;
         st <- delete_old_own C st ;;
         st <- delete_old C st ;;
         last_resort C st)
      with
      | inl e => Crashed e st
      | inr None => Returned st
      | inr (Some st) =>
          let (done, st) := await_first E st in
          handle_done E C done st
      end
  end.

Fixpoint run (E : env) (C : config) (fuel : nat) (st : state) : outcome state :=
  match fuel with
  | O => Running st
  | S n =>
      match loop_body E C st with
      | Running st' => run E C n st'
      | o => o
      end
  end.

(** 4300-4307: the function goes on only with a sharder that can manage
    messages. *)
Definition allowed (l : list sharder) : bool :=
  existsb can_manage_messages l.

(** 4326-4334 *)
Definition can_request (message_history_reached_end : bool) (l : list sharder) : bool :=
  if message_history_reached_end then false
  else existsb can_read_message_history l.

(** The state at 4377-4383, before the loop: the queues as the walk over
    the cached messages (4342-4375) left them, no task. *)
Definition start (l : list sharder) (should_request : bool)
    (last_message_id limit : Z) (new : list (Z * Z)) (old : list Z)
    (old_own : list (Z * item)) (history : list (list message_data)) : state :=
  mk_state l should_request last_message_id limit new old old_own
    [] None 0 history 0 0 0 [].

End MultiClient.

(** * Properties *)

Unset Implicit Arguments.

Definition outcome_state {S : Type} (o : outcome S) : S :=
  match o with
  | Running st | Returned st | Raised _ st | Crashed _ st | Spinning st => st
  end.

(** ** Traces *)

Lemma sent_app (a b : list event) : sent (a ++ b) = sent a ++ sent b.
Proof. unfold sent. apply flat_map_app. Qed.

Lemma handled_app (a b : list event) : handled (a ++ b) = handled a ++ handled b.
Proof. unfold handled. apply flat_map_app. Qed.

Lemma cancelled_app (a b : list event) : cancelled (a ++ b) = cancelled a ++ cancelled b.
Proof. unfold cancelled. apply flat_map_app. Qed.

Lemma requests_app (a b : list event) : requests (a ++ b) = requests a ++ requests b.
Proof. unfold requests. apply flat_map_app. Qed.

Lemma sent_map_Cancelled (ts : list task) : sent (map Cancelled ts) = [].
Proof. induction ts; simpl; auto. Qed.

Lemma handled_map_Cancelled (ts : list task) : handled (map Cancelled ts) = [].
Proof. induction ts; simpl; auto. Qed.


Lemma requests_map_Cancelled (ts : list task) : requests (map Cancelled ts) = [].
Proof. induction ts; simpl; auto. Qed.

(** ** Messages outside of a guild, and messages already deleted *)

Module MultipleFacts.
Import Multiple.

(** The trace of the requests awaited one after the other for [messages],
    all of which succeed. *)
Definition calls (chan : Z) (messages : list Message) : list event :=
  map (fun m => Called (http_message_delete chan (message_id m)) Finished) messages.

Lemma delete_each_trace E chan messages : forall st,
  (exists st', delete_each E chan messages st = Returned st' /\
               trace st' = trace st ++ calls chan messages) \/
  (exists pre m post e st',
      messages = pre ++ m :: post /\
      delete_each E chan messages st = Raised e st' /\
      trace st' = trace st ++ calls chan pre
                    ++ [Called (http_message_delete chan (message_id m)) (Failed e)]).
Proof.
  induction messages as [|m rest IH]; intros st.
  - left. exists st. simpl. now rewrite app_nil_r.
  - simpl.
    destruct (await_request E (awaits st) (http_message_delete chan (message_id m)))
      as [|e] eqn:Hc.
    + match goal with |- context [delete_each E chan rest ?s] => destruct (IH s) as
          [(st' & Hr & Ht) | (pre & m' & post & e & st' & Hm & Hr & Ht)] end.
      * left. exists st'. split; [exact Hr|]. rewrite Ht. simpl.
        now rewrite <- app_assoc.
      * right. exists (m :: pre), m', post, e, st'. split; [now rewrite Hm|].
        split; [exact Hr|]. rewrite Ht. simpl. now rewrite <- !app_assoc.
    + right. exists [], m, rest, e. eexists. split; [reflexivity|].
      split; [reflexivity|]. simpl. reflexivity.
Qed.

Lemma sent_calls chan messages : sent (calls chan messages) = [].
Proof. induction messages; simpl; auto. Qed.

Lemma requests_calls chan messages :
  requests (calls chan messages)
  = map (fun m => http_message_delete chan (message_id m)) messages.
Proof. induction messages; simpl; congruence. Qed.

Lemma classify_skips_deleted self limit messages : forall new old old_own,
  classify self limit messages new old old_own
  = classify self limit (List.filter (fun m => negb (message_deleted m)) messages)
      new old old_own.
Proof.
  induction messages as [|m rest IH]; intros; simpl; [reflexivity|].
  destruct (message_deleted m) eqn:Hd; simpl.
  - apply IH.
  - rewrite Hd.
    destruct (message_id m >? limit); [apply IH|].
    destruct (message_author m =? self); apply IH.
Qed.

Lemma run_without_messages E self chan fuel st :
  message_group_new st = [] -> message_group_old st = [] ->
  message_group_old_own st = [] -> tasks st = [] ->
  trace (outcome_state (run E self chan fuel st)) = trace st.
Proof.
  intros Hn Ho Hw Ht. destruct fuel; simpl; [reflexivity|].
  destruct st as [n o w ts dm dn dd ? ? ? ?]; simpl in *; subst.
  unfold loop_body, delete_new, delete_old, delete_own, last_resort; simpl.
  destruct dm, dn, dd; reflexivity.
Qed.

(** The state in which the loop is entered for messages of a guild. *)
Definition entry (E : env) (self : Z) (messages : list Message) : state :=
  match classify self (id_limit (DISCORD_EPOCH E) (time_now E 0) TWO_WEEKS_MS)
          messages [] [] [] with
  | (new, old, old_own) => mk_state new old old_own [] None None None 0 1 0 []
  end.

Lemma message_delete_multiple_guild E self fuel first rest :
  channel_is_guild (message_channel first) = true ->
  message_delete_multiple E self fuel (first :: rest)
  = run E self (channel_id (message_channel first)) fuel (entry E self (first :: rest)).
Proof.
  intros Hg. unfold message_delete_multiple, entry. rewrite Hg.
  cbn [negb read_clock empty clock_reads].
  destruct (classify self _ (first :: rest) [] [] []) as [[new old] old_own].
  reflexivity.
Qed.

Lemma entry_skips_deleted E self messages :
  entry E self messages
  = entry E self (List.filter (fun m => negb (message_deleted m)) messages).
Proof. unfold entry. now rewrite classify_skips_deleted. Qed.

Lemma entry_without_messages E self :
  entry E self [] = mk_state [] [] [] [] None None None 0 1 0 [].
Proof. reflexivity. Qed.

End MultipleFacts.

(** ** The walk that moves aged messages out of [message_group_new] *)

Module QueueFacts.

(** The ids of the messages of [moved] written by others, and by the client
    itself, in the order of [moved]. *)
Definition of_others (moved : list (bool * Z)) : list Z :=
  map snd (List.filter (fun x => negb (fst x)) moved).

Definition of_own (moved : list (bool * Z)) : list Z :=
  map snd (List.filter (fun x => fst x) moved).

Lemma of_others_snoc moved own id :
  of_others (moved ++ [(own, id)])
  = of_others moved ++ (if own then [] else [id]).
Proof.
  unfold of_others. rewrite filter_app, map_app. simpl. now destruct own.
Qed.

Lemma of_own_snoc moved own id :
  of_own (moved ++ [(own, id)]) = of_own moved ++ (if own then [id] else []).
Proof.
  unfold of_own. rewrite filter_app, map_app. simpl. now destruct own.
Qed.

Lemma nth_error_snoc {A : Type} (l : list A) (x : A) :
  nth_error (l ++ [x]) (length l) = Some x.
Proof. rewrite nth_error_app2 by lia. now rewrite Nat.sub_diag. Qed.

Lemma del_at_snoc {A : Type} (l : list A) (x : A) :
  del_at (length l) (l ++ [x]) = l.
Proof.
  unfold del_at. rewrite firstn_app, Nat.sub_diag, firstn_all.
  rewrite skipn_all2 by (rewrite length_app; simpl; lia).
  cbn [firstn]. now rewrite !app_nil_r.
Qed.

(** [new] is cut in two: the part that stays, whose last message is above
    the limit, and the messages behind it, none of which is. *)
Definition cut (time_limit : Z) (new keep moved : list (bool * Z)) : Prop :=
  new = keep ++ moved /\
  Forall (fun x => snd x <= time_limit) moved /\
  (keep = [] \/ exists k x, keep = k ++ [x] /\ snd x > time_limit).

Lemma move_aged_cut time_limit new : forall old old_own,
  exists keep moved,
    cut time_limit new keep moved /\
    Sequence.move_aged time_limit (length new) new old old_own
    = inr (keep, of_others moved ++ old, of_own moved ++ old_own).
Proof.
  induction new as [|[own id] l IH] using rev_ind; intros old old_own.
  - exists [], []. split; [|reflexivity].
    repeat split; auto.
  - rewrite length_app. simpl length. rewrite Nat.add_1_r.
    cbn [Sequence.move_aged]. rewrite nth_error_snoc, del_at_snoc.
    destruct (id >? time_limit) eqn:Hid.
    + exists (l ++ [(own, id)]), []. split; [|reflexivity].
      split; [now rewrite app_nil_r|]. split; [constructor|].
      right. exists l, (own, id). split; [reflexivity|]. simpl. lia.
    + destruct own.
      * destruct (IH old (id :: old_own)) as (keep & moved & (Hn & Hall & Hk) & Hr).
        exists keep, (moved ++ [(true, id)]). split.
        -- split; [rewrite Hn; now rewrite app_assoc|].
           split; [|exact Hk].
           apply Forall_app. split; [exact Hall|]. constructor; [simpl; lia|constructor].
        -- rewrite Hr, of_others_snoc, of_own_snoc, app_nil_r, <- app_assoc.
           reflexivity.
      * destruct (IH (id :: old) old_own) as (keep & moved & (Hn & Hall & Hk) & Hr).
        exists keep, (moved ++ [(false, id)]). split.
        -- split; [rewrite Hn; now rewrite app_assoc|].
           split; [|exact Hk].
           apply Forall_app. split; [exact Hall|]. constructor; [simpl; lia|constructor].
        -- rewrite Hr, of_others_snoc, of_own_snoc, app_nil_r, <- app_assoc.
           reflexivity.
Qed.

(** The same walk of the function for several clients, for the messages
    that none of the clients wrote ([whos = -1]). *)
Definition of_nobody (moved : list (Z * Z)) : list Z :=
  map snd (List.filter (fun x => fst x =? -1) moved).

Lemma of_nobody_snoc moved whos id :
  of_nobody (moved ++ [(whos, id)])
  = of_nobody moved ++ (if whos =? -1 then [id] else []).
Proof.
  unfold of_nobody. rewrite filter_app, map_app. simpl. now destruct (whos =? -1).
Qed.

Lemma multi_move_aged_old time_limit new : forall old old_own,
  exists keep moved old_own',
    new = keep ++ moved /\
    Forall (fun x => snd x <= time_limit) moved /\
    (keep = [] \/ exists k x, keep = k ++ [x] /\ snd x > time_limit) /\
    MultiClient.move_aged time_limit (length new) new old old_own
    = inr (keep, of_nobody moved ++ old, old_own').
Proof.
  induction new as [|[whos id] l IH] using rev_ind; intros old old_own.
  - exists [], [], old_own. repeat split; auto.
  - rewrite length_app. simpl length. rewrite Nat.add_1_r.
    cbn [MultiClient.move_aged]. rewrite nth_error_snoc, del_at_snoc.
    destruct (id >? time_limit) eqn:Hid.
    + exists (l ++ [(whos, id)]), [], old_own.
      split; [now rewrite app_nil_r|]. split; [constructor|].
      split; [|reflexivity].
      right. exists l, (whos, id). split; [reflexivity|]. simpl. lia.
    + destruct (whos =? -1) eqn:Hw.
      * destruct (IH (id :: old) old_own) as (keep & moved & oo & Hn & Hall & Hk & Hr).
        exists keep, (moved ++ [(whos, id)]), oo.
        split; [rewrite Hn; now rewrite app_assoc|].
        split; [apply Forall_app; split; [exact Hall|];
                constructor; [simpl; lia|constructor]|].
        split; [exact Hk|].
        rewrite Hr, of_nobody_snoc, Hw, <- app_assoc. reflexivity.
      * destruct (IH old ((whos, MultiClient.the_old_queue) :: old_own))
          as (keep & moved & oo & Hn & Hall & Hk & Hr).
        exists keep, (moved ++ [(whos, id)]), oo.
        split; [rewrite Hn; now rewrite app_assoc|].
        split; [apply Forall_app; split; [exact Hall|];
                constructor; [simpl; lia|constructor]|].
        split; [exact Hk|].
        rewrite Hr, of_nobody_snoc, Hw, app_nil_r. reflexivity.
Qed.

(** The batch is made of the messages at the head of the queue, in the
    order of the queue. *)
Lemma pop_collected_firstn k : forall q ids,
  (k <= length q)%nat ->
  Sequence.pop_collected k q ids = inr (ids ++ map snd (firstn k q), skipn k q).
Proof.
  induction k as [|k IH]; intros q ids Hk.
  - simpl. now rewrite app_nil_r.
  - destruct q as [|[own id] r]; [simpl in Hk; lia|].
    cbn [Sequence.pop_collected popleft ret bind snd fst].
    rewrite IH by (simpl in Hk; lia).
    simpl. now rewrite <- app_assoc.
Qed.

End QueueFacts.

(** ** The loop of [message_delete_sequence] *)

Definition serials (ts : list task) : list nat := map task_serial ts.

(** A bulk delete request carries between 2 and 100 ids. *)
Definition sized (r : request) : Prop :=
  match r with
  | http_message_delete_multiple _ ids => (2 <= length ids <= 100)%nat
  | _ => True
  end.

Definition well_sized (ev : event) : Prop := Forall sized (request_of ev).

Lemma Forall_snoc {A : Type} (P : A -> Prop) (l : list A) (x : A) :
  Forall P l -> P x -> Forall P (l ++ [x]).
Proof. intros Hl Hx. apply Forall_app. split; [exact Hl | now constructor]. Qed.

Lemma well_sized_requests tr :
  Forall well_sized tr -> Forall sized (requests tr).
Proof.
  induction 1 as [|ev tr Hev _ IH]; simpl; [constructor|].
  apply Forall_app. split; assumption.
Qed.

Lemma well_sized_Handled t c : well_sized (Handled t c).
Proof. constructor. Qed.

Lemma well_sized_Cancelled ts : Forall well_sized (map Cancelled ts).
Proof. induction ts; simpl; constructor; auto. constructor. Qed.

Lemma well_sized_Sent t : sized (task_request t) -> well_sized (Sent t).
Proof. intros H. constructor; [exact H | constructor]. Qed.

Module SequenceFacts.
Import Sequence.

Lemma collect_bounds time_limit q : forall collected,
  (collected <= 100)%nat ->
  (collected <= collect time_limit q collected <= 100)%nat /\
  (collect time_limit q collected <= collected + length q)%nat.
Proof.
  induction q as [|[own id] r IH]; intros collected Hc; simpl; [lia|].
  destruct (Nat.eqb_spec collected 100); [lia|].
  destruct (id <? time_limit); [lia|].
  destruct (IH (S collected)); lia.
Qed.

(** *** The measure that decreases *)

Definition queued (st : state) : nat :=
  (length (message_group_new st) + length (message_group_old st)
   + length (message_group_old_own st))%nat.

(** The messages of the pages not yet handed out. *)
Definition to_fetch (st : state) : nat := list_sum (map (@length _) (history st)).

(** What the history requests still to come weigh. *)
Definition credit (st : state) : nat :=
  if should_request st
  then 2 * length (history st) + (if is_none (get_mass_task st) then 2 else 1)
  else 0.

Definition measure (st : state) : nat :=
  (queued st + length (tasks st) + to_fetch st + credit st)%nat.

Ltac open_state st :=
  destruct st as [sr last lim new old old_own ts get mass newt oldt hist next reads aw tr].

Lemma request_history_measure C st : measure (request_history C st) = measure st.
Proof.
  open_state st. unfold request_history, measure, queued, to_fetch, credit. cbn.
  destruct sr, get; cbn; try reflexivity.
  rewrite length_app. cbn. lia.
Qed.

Lemma lengths_of_moved moved :
  (length (QueueFacts.of_others moved) + length (QueueFacts.of_own moved)
   = length moved)%nat.
Proof.
  unfold QueueFacts.of_others, QueueFacts.of_own.
  induction moved as [|[[] id] r IH]; simpl; rewrite ?length_map in *; lia.
Qed.

Ltac st_simpl :=
  cbn [set_should_request set_last_message_id set_limit set_message_group_new
       set_message_group_old set_message_group_old_own set_tasks set_get_mass_task
       set_delete_mass_task set_delete_new_task set_delete_old_task set_history
       set_next_serial set_clock_reads set_awaits set_trace
       should_request last_message_id limit message_group_new message_group_old
       message_group_old_own tasks get_mass_task delete_mass_task delete_new_task
       delete_old_task history next_serial clock_reads awaits trace
       fst snd bind ret raise popleft is_none spawn read_clock
       task_serial task_request task_client] in *.

(** The three task variables of the deletions. *)
Definition delete_slots (st : state) : option task * option task * option task :=
  (delete_mass_task st, delete_new_task st, delete_old_task st).

(** [t] takes a free place among the three. *)
Inductive fills (t : task)
  : option task * option task * option task ->
    option task * option task * option task -> Prop :=
| fills_mass n o : fills t (None, n, o) (Some t, n, o)
| fills_new m o : fills t (m, None, o) (m, Some t, o)
| fills_old m n : fills t (m, n, None) (m, n, Some t).

(** What the part of a pass before [await] does, as far as tasks, trace and
    the size of the queues go: no new task, or one new task for a deletion in
    a free place that takes at least one message out of the queues, or one
    new task for a history request. *)
Inductive submits (st st' : state) : Prop :=
| submits_nothing :
    tasks st' = tasks st -> trace st' = trace st ->
    next_serial st' = next_serial st ->
    get_mass_task st' = get_mass_task st -> delete_slots st' = delete_slots st ->
    should_request st' = should_request st -> history st' = history st ->
    (queued st' <= queued st)%nat ->
    submits st st'
| submits_deletion t :
    task_serial t = next_serial st -> sized (task_request t) ->
    tasks st' = tasks st ++ [t] -> trace st' = trace st ++ [Sent t] ->
    next_serial st' = S (next_serial st) ->
    get_mass_task st' = get_mass_task st ->
    fills t (delete_slots st) (delete_slots st') ->
    should_request st' = should_request st -> history st' = history st ->
    (queued st' < queued st)%nat ->
    submits st st'
| submits_history t :
    task_serial t = next_serial st -> sized (task_request t) ->
    tasks st' = tasks st ++ [t] -> trace st' = trace st ++ [Sent t] ->
    next_serial st' = S (next_serial st) ->
    should_request st = true ->
    get_mass_task st = None -> get_mass_task st' = Some t ->
    delete_slots st' = delete_slots st ->
    should_request st' = should_request st -> history st' = history st ->
    queued st' = queued st ->
    submits st st'.

Ltac by_submits lem :=
  eapply lem; [..]; st_simpl; unfold delete_slots, queued; st_simpl;
  try reflexivity.
Ltac finish_submits := st_simpl; try reflexivity; try exact I.

Lemma request_history_submits C st : submits st (request_history C st).
Proof.
  open_state st. unfold request_history. st_simpl.
  destruct sr, get; cbn [andb is_none]; st_simpl;
    try (now apply submits_nothing).
  eapply submits_history. all: finish_submits. all: finish_submits.
Qed.

Lemma submit_collected_submits C collected st :
  (collected <= length (message_group_new st))%nat -> (collected <= 100)%nat ->
  delete_mass_task st = None ->
  exists st', submit_collected C collected st = inr st' /\ submits st st'.
Proof.
  intros Hc Hc' Hm. open_state st. st_simpl. subst mass.
  unfold submit_collected.
  destruct collected as [|[|k]].
  - eexists. split; [reflexivity|]. now apply submits_nothing.
  - destruct new as [|[own id] r]; [cbn in Hc; lia|].
    st_simpl. destruct newt; st_simpl.
    + eexists. split; [reflexivity|]. now apply submits_nothing.
    + eexists. split; [reflexivity|].
      eapply submits_deletion. all: finish_submits. all: finish_submits.
      * unfold delete_slots; st_simpl. constructor.
      * unfold queued; st_simpl. cbn [length]. lia.
  - st_simpl.
    rewrite QueueFacts.pop_collected_firstn by exact Hc.
    st_simpl.
    eexists. split; [reflexivity|].
    eapply submits_deletion. all: finish_submits. all: finish_submits.
    + cbn [sized app]. rewrite length_map, length_firstn. lia.
    + unfold delete_slots; st_simpl. constructor.
    + unfold queued; st_simpl. rewrite length_skipn. lia.
Qed.

Lemma move_aged_submits st time_limit :
  exists x,
    move_aged time_limit (length (message_group_new st)) (message_group_new st)
      (message_group_old st) (message_group_old_own st) = inr x /\
    submits st (set_message_group_new (fst (fst x))
                  (set_message_group_old (snd (fst x))
                     (set_message_group_old_own (snd x) st))).
Proof.
  destruct (QueueFacts.move_aged_cut time_limit (message_group_new st)
              (message_group_old st) (message_group_old_own st))
    as (keep & moved & (Hn & _ & _) & Hr).
  eexists. split; [exact Hr|].
  open_state st. st_simpl. apply submits_nothing; st_simpl; try reflexivity.
  unfold queued. st_simpl. subst new.
  rewrite !length_app. pose proof (lengths_of_moved moved). lia.
Qed.


(** 4040-4109 never fails. *)
Lemma delete_new_submits E C st :
  exists st1 st', delete_new E C st = inr st' /\ submits st st1 /\ submits st1 st'.
Proof.
  unfold delete_new.
  destruct (delete_mass_task st) as [m|] eqn:Hm; cbn [is_none].
  { exists st, st. split; [reflexivity|]. split; now apply submits_nothing. }
  destruct (length (message_group_new st)) as [|n] eqn:Hlen.
  { exists st, st. split; [reflexivity|]. split; now apply submits_nothing. }
  cbn [read_clock].
  set (st0 := set_clock_reads (S (clock_reads st)) st).
  set (time_limit := id_limit (DISCORD_EPOCH E) (time_now E (clock_reads st))
                       TWO_WEEKS_MARGIN_MS).
  assert (Hnew : message_group_new st0 = message_group_new st) by reflexivity.
  destruct (collect_bounds time_limit (message_group_new st0) 0%nat ltac:(lia)) as [Hb1 Hb2].
  destruct (submit_collected_submits C (collect time_limit (message_group_new st0) 0) st0)
    as (st1 & Hs1 & Hsub1); [lia | lia | exact Hm |].
  rewrite Hs1. cbn [bind].
  assert (Hsub0 : submits st st1).
  { destruct Hsub1; [eapply submits_nothing | eapply submits_deletion
                     | eapply submits_history]; eauto. }
  destruct (length (message_group_new st1)) as [|n1] eqn:Hlen1.
  { exists st1, st1. split; [reflexivity|]. split; [exact Hsub0|].
    now apply submits_nothing. }
  rewrite <- Hlen1.
  destruct (move_aged_submits st1 (time_limit - MARGIN_STEP)) as (x & Hx & Hsub2).
  rewrite Hx. cbn [bind ret].
  eexists st1, _. split; [reflexivity|]. split; assumption.
Qed.

Lemma delete_old_own_submits C st : submits st (delete_old_own C st).
Proof.
  open_state st. unfold delete_old_own. st_simpl.
  destruct newt; st_simpl; [now apply submits_nothing|].
  destruct old_own as [|id r]; st_simpl; [now apply submits_nothing|].
  eapply submits_deletion. all: finish_submits. all: finish_submits.
  - unfold delete_slots; st_simpl. constructor.
  - unfold queued; st_simpl. cbn [length]. lia.
Qed.

Lemma delete_old_submits C st : submits st (delete_old C st).
Proof.
  open_state st. unfold delete_old. st_simpl.
  destruct oldt; st_simpl; [now apply submits_nothing|].
  destruct old as [|id r]; st_simpl; [now apply submits_nothing|].
  eapply submits_deletion. all: finish_submits. all: finish_submits.
  - unfold delete_slots; st_simpl. constructor.
  - unfold queued; st_simpl. cbn [length]. lia.
Qed.

Lemma last_resort_submits C st :
  (tasks st = [] -> delete_slots st = (None, None, None)) ->
  match last_resort C st with
  | Some st' => tasks st' <> [] /\ submits st st'
  | None => tasks st = [] /\ message_group_new st = []
  end.
Proof.
  open_state st. unfold last_resort, delete_slots. st_simpl. intros Hfree.
  destruct ts as [|t0 ts]; st_simpl.
  2:{ split; [discriminate|]. now apply submits_nothing. }
  specialize (Hfree eq_refl). injection Hfree as -> -> ->.
  destruct new as [|[own id] r]; st_simpl; [now split|].
  destruct own; st_simpl; (split; [discriminate|]).
  - eapply submits_deletion. all: finish_submits. all: finish_submits.
    + unfold delete_slots; st_simpl. constructor.
    + unfold queued; st_simpl. cbn [length]. lia.
  - eapply submits_deletion. all: finish_submits. all: finish_submits.
    + unfold delete_slots; st_simpl. constructor.
    + unfold queued; st_simpl. cbn [length]. lia.
Qed.

(** *** What holds of the tasks all along *)

Definition olist (o : option task) : list task :=
  match o with
  | Some t => [t]
  | None => []
  end.

(** The tasks the four task variables hold. *)
Definition all_slots (st : state) : list task :=
  olist (get_mass_task st) ++ olist (delete_mass_task st)
  ++ olist (delete_new_task st) ++ olist (delete_old_task st).

(** The tasks created carry the serial numbers [0], [1], ... in the order of
    their creation; each of them is either in [tasks] or was taken out of
    [done] once; the tasks in [tasks] were created by the run. *)
Record trace_inv (st : state) : Prop := mk_trace_inv {
  inv_sent : serials (sent (trace st)) = seq 0 (next_serial st);
  inv_split : Permutation (serials (sent (trace st)))
                (serials (handled (trace st)) ++ serials (tasks st));
  inv_tasks : incl (tasks st) (sent (trace st))
}.

(** The task variables hold different tasks, all of them in [tasks]. *)
Record slot_inv (st : state) : Prop := mk_slot_inv {
  inv_slots : NoDup (serials (all_slots st));
  inv_slots_tasks : incl (serials (all_slots st)) (serials (tasks st))
}.

Lemma serials_app a b : serials (a ++ b) = serials a ++ serials b.
Proof. apply map_app. Qed.

Lemma trace_inv_nodup st :
  trace_inv st -> NoDup (serials (handled (trace st)) ++ serials (tasks st)).
Proof.
  intros [Hs Hp _]. eapply Permutation_NoDup; [exact Hp|].
  rewrite Hs. apply seq_NoDup.
Qed.

Lemma trace_inv_tasks_nodup st : trace_inv st -> NoDup (serials (tasks st)).
Proof. intros H. apply trace_inv_nodup in H. now apply NoDup_app_remove_l in H. Qed.

Lemma trace_inv_below st s :
  trace_inv st -> In s (serials (tasks st)) -> (s < next_serial st)%nat.
Proof.
  intros [Hs Hp _] Hin.
  assert (H : In s (serials (sent (trace st)))).
  { eapply Permutation_in; [symmetry; exact Hp|]. apply in_or_app. now right. }
  rewrite Hs in H. apply in_seq in H. lia.
Qed.

Lemma submits_trace_inv st st' : submits st st' -> trace_inv st -> trace_inv st'.
Proof.
  intros Hsub [Hs Hp Ht].
  destruct Hsub as [H1 H2 H3 _ _ _ _ _
                   | t Hser _ H1 H2 H3 _ _ _ _ _
                   | t Hser _ H1 H2 H3 _ _ _ _ _ _ _].
  - constructor; rewrite ?H1, ?H2, ?H3; assumption.
  - constructor; rewrite ?H1, ?H2, ?H3.
    + rewrite sent_app, serials_app, Hs, seq_S.
      cbn [sent flat_map sent_of app serials map]. now rewrite Hser.
    + rewrite sent_app, handled_app, !serials_app. cbn [handled flat_map handled_of app].
      rewrite app_nil_r, app_assoc. now apply Permutation_app_tail.
    + rewrite sent_app. cbn [sent flat_map sent_of app]. intros x Hx. apply in_app_or in Hx. apply in_or_app.
      destruct Hx as [Hx|Hx]; [left; now apply Ht | now right].
  - constructor; rewrite ?H1, ?H2, ?H3.
    + rewrite sent_app, serials_app, Hs, seq_S.
      cbn [sent flat_map sent_of app serials map]. now rewrite Hser.
    + rewrite sent_app, handled_app, !serials_app. cbn [handled flat_map handled_of app].
      rewrite app_nil_r, app_assoc. now apply Permutation_app_tail.
    + rewrite sent_app. cbn [sent flat_map sent_of app]. intros x Hx. apply in_app_or in Hx. apply in_or_app.
      destruct Hx as [Hx|Hx]; [left; now apply Ht | now right].
Qed.

Lemma fills_places t g a b a' b' c c' :
  fills t (a, b, c) (a', b', c') ->
  Permutation (olist g ++ olist a' ++ olist b' ++ olist c')
    (t :: olist g ++ olist a ++ olist b ++ olist c).
Proof.
  intros Hf. inversion Hf; subst; cbn [olist app].
  - symmetry. apply Permutation_middle.
  - transitivity (olist g ++ t :: olist a' ++ olist c').
    + apply Permutation_app_head. symmetry. apply Permutation_middle.
    + symmetry. apply Permutation_middle.
  - rewrite !app_nil_r, !app_assoc. symmetry. apply Permutation_cons_append.
Qed.

Lemma fills_slots t st st' :
  get_mass_task st' = get_mass_task st ->
  fills t (delete_slots st) (delete_slots st') ->
  Permutation (all_slots st') (t :: all_slots st).
Proof.
  unfold all_slots, delete_slots. intros Hg Hf. rewrite Hg.
  now apply fills_places.
Qed.

Lemma submits_slot_inv st st' :
  submits st st' -> trace_inv st -> slot_inv st -> slot_inv st'.
Proof.
  intros Hsub Htr [Hn Hi].
  assert (Hfresh : ~ In (next_serial st) (serials (all_slots st))).
  { intros Hin. apply Hi in Hin. apply (trace_inv_below _ _ Htr) in Hin. lia. }
  destruct Hsub as [H1 _ _ Hg Hd _ _ _
                   | t Hser _ H1 _ _ Hg Hf _ _ _
                   | t Hser _ H1 _ _ _ Hg Hg' Hd _ _ _].
  - assert (Ha : all_slots st' = all_slots st).
    { unfold all_slots, delete_slots in *. rewrite Hg. now injection Hd as -> -> ->. }
    constructor; rewrite Ha, ?H1; assumption.
  - pose proof (fills_slots t st st' Hg Hf) as Hperm.
    assert (Hperm' : Permutation (serials (all_slots st'))
                       (next_serial st :: serials (all_slots st))).
    { rewrite <- Hser. apply (Permutation_map task_serial) in Hperm. exact Hperm. }
    constructor.
    + eapply Permutation_NoDup; [symmetry; exact Hperm'|]. now constructor.
    + rewrite H1, serials_app. intros s Hs.
      apply (Permutation_in _ Hperm') in Hs. apply in_or_app.
      destruct Hs as [Hs|Hs]; [right; cbn; left; congruence | left; now apply Hi].
  - assert (Ha : all_slots st' = t :: all_slots st).
    { unfold all_slots, delete_slots in *. rewrite Hg, Hg'.
      now injection Hd as -> -> ->. }
    constructor; rewrite Ha.
    + cbn. rewrite Hser. now constructor.
    + rewrite H1, serials_app. intros s Hs. apply in_or_app.
      destruct Hs as [Hs|Hs]; [right; cbn; left; congruence | left; now apply Hi].
Qed.

Lemma submits_measure st st' : submits st st' -> (measure st' <= measure st)%nat.
Proof.
  unfold measure, to_fetch, credit.
  intros [H1 _ _ Hg _ Hsr Hh Hq
         | t _ _ H1 _ _ Hg _ Hsr Hh Hq
         | t _ _ H1 _ _ Hsr0 Hg Hg' _ Hsr Hh Hq];
    rewrite ?H1, ?Hsr, ?Hh, ?Hq, ?length_app; cbn [length].
  - rewrite Hg. lia.
  - rewrite Hg. lia.
  - rewrite Hsr0, Hg, Hg'. cbn [is_none]. lia.
Qed.

Lemma submits_well_sized st st' :
  submits st st' -> Forall well_sized (trace st) -> Forall well_sized (trace st').
Proof.
  intros [_ H2 _ _ _ _ _ _
         | t _ Hsz _ H2 _ _ _ _ _ _
         | t _ Hsz _ H2 _ _ _ _ _ _ _ _] Hall; rewrite H2; try assumption;
    (apply Forall_snoc; [assumption | now apply well_sized_Sent]).
Qed.

Lemma submits_handled st st' :
  submits st st' -> handled (trace st') = handled (trace st).
Proof.
  intros [_ H2 _ _ _ _ _ _
         | t _ _ _ H2 _ _ _ _ _ _
         | t _ _ _ H2 _ _ _ _ _ _ _ _]; rewrite H2, ?handled_app; cbn;
    rewrite ?app_nil_r; reflexivity.
Qed.

Lemma submits_quiet st st' :
  submits st st' -> cancelled (trace st) = [] -> cancelled (trace st') = [].
Proof.
  intros [_ H2 _ _ _ _ _ _
         | t _ _ _ H2 _ _ _ _ _ _
         | t _ _ _ H2 _ _ _ _ _ _ _ _] Hq; rewrite H2, ?cancelled_app, ?Hq; reflexivity.
Qed.

(** *** Finished tasks *)

Lemma task_is_refl t : task_is t t = true.
Proof. apply Nat.eqb_refl. Qed.

Lemma task_is_serial t u : task_is t u = true <-> task_serial t = task_serial u.
Proof. apply Nat.eqb_eq. Qed.

Lemma remove_task_perm t : forall ts ts',
  remove_task t ts = Some ts' ->
  Permutation (serials ts) (task_serial t :: serials ts').
Proof.
  induction ts as [|u r IH]; intros ts' H; cbn in H; [discriminate|].
  destruct (task_is t u) eqn:Hu.
  - injection H as <-. apply task_is_serial in Hu. cbn. now rewrite Hu.
  - destruct (remove_task t r) as [r'|]; [|discriminate]. injection H as <-.
    cbn. rewrite (IH r' eq_refl). apply perm_swap.
Qed.

Lemma remove_task_incl t : forall ts ts',
  remove_task t ts = Some ts' -> incl ts' ts.
Proof.
  induction ts as [|u r IH]; intros ts' H; cbn in H; [discriminate|].
  destruct (task_is t u).
  - injection H as <-. apply incl_tl, incl_refl.
  - destruct (remove_task t r) as [r'|]; [|discriminate]. injection H as <-.
    apply incl_cons; [now left|]. apply incl_tl. now apply IH.
Qed.

Lemma remove_task_length t ts ts' :
  remove_task t ts = Some ts' -> length ts = S (length ts').
Proof.
  intros H. apply remove_task_perm in H. apply Permutation_length in H.
  unfold serials in H. cbn in H. now rewrite !length_map in H.
Qed.

Lemma remove_task_some t : forall ts,
  In (task_serial t) (serials ts) -> exists ts', remove_task t ts = Some ts'.
Proof.
  induction ts as [|u r IH]; intros H; [destruct H|]. cbn.
  destruct (task_is t u) eqn:Hu; [eauto|].
  destruct H as [H|H].
  - symmetry in H. apply task_is_serial in H. congruence.
  - destruct (IH H) as (r' & ->). eauto.
Qed.

(** At most [n] messages join the queues, [should_request] does not become
    true, and nothing that matters to the tasks changes. *)
Definition grows (n : nat) (st st' : state) : Prop :=
  tasks st' = tasks st /\ trace st' = trace st /\
  next_serial st' = next_serial st /\
  get_mass_task st' = get_mass_task st /\ delete_slots st' = delete_slots st /\
  history st' = history st /\
  (should_request st' = true -> should_request st = true) /\
  (queued st' <= queued st + n)%nat.

Lemma grows_refl st : grows 0 st st.
Proof. unfold grows. repeat split; auto. lia. Qed.

Lemma grows_trans n m a b c : grows n a b -> grows m b c -> grows (n + m) a c.
Proof.
  unfold grows. intros (H1 & H2 & H3 & H4 & H5 & H6 & H7 & H8)
                       (G1 & G2 & G3 & G4 & G5 & G6 & G7 & G8).
  repeat split; try congruence; auto. lia.
Qed.

Lemma grows_more n m a b : (n <= m)%nat -> grows n a b -> grows m a b.
Proof.
  unfold grows. intros Hle (H1 & H2 & H3 & H4 & H5 & H6 & H7 & H8).
  repeat split; auto. lia.
Qed.

Lemma grows_last v st : grows 0 st (set_last_message_id v st).
Proof. open_state st. unfold grows, delete_slots, queued. st_simpl. repeat split; auto. lia. Qed.

Lemma grows_stop st : grows 0 st (set_should_request false st).
Proof.
  open_state st. unfold grows, delete_slots, queued. st_simpl.
  repeat split; auto; [discriminate | lia].
Qed.

Lemma enqueue_grows C time_limit author_id st :
  grows 1 st (snd (enqueue C time_limit author_id st)).
Proof.
  open_state st. unfold enqueue, grows, delete_slots, queued. st_simpl.
  destruct (last >? time_limit); [|destruct (author_id =? self_id C)]; st_simpl;
    destruct (lim - 1 =? 0); st_simpl; rewrite ?length_app; cbn [length];
    repeat split; try reflexivity; try discriminate; try tauto; lia.
Qed.

(** A message of a page joins the end of one of the queues. *)
Lemma enqueue_appends C time_limit author_id st :
  exists to_new to_old to_old_own,
    message_group_new (snd (enqueue C time_limit author_id st))
    = message_group_new st ++ to_new /\
    message_group_old (snd (enqueue C time_limit author_id st))
    = message_group_old st ++ to_old /\
    message_group_old_own (snd (enqueue C time_limit author_id st))
    = message_group_old_own st ++ to_old_own /\
    (length to_new + length to_old + length to_old_own = 1)%nat.
Proof.
  open_state st. unfold enqueue. st_simpl.
  destruct (last >? time_limit); [|destruct (author_id =? self_id C)]; st_simpl.
  - exists [(author_id =? self_id C, last)], [], [].
    destruct (lim - 1 =? 0); st_simpl; rewrite ?app_nil_r; repeat split; reflexivity.
  - exists [], [], [last].
    destruct (lim - 1 =? 0); st_simpl; rewrite ?app_nil_r; repeat split; reflexivity.
  - exists [], [last], [].
    destruct (lim - 1 =? 0); st_simpl; rewrite ?app_nil_r; repeat split; reflexivity.
Qed.

Lemma process_page_grows E C time_limit result : forall st,
  grows (length result) st (process_page E C time_limit result st).
Proof.
  induction result as [|d rest IH]; intros st; cbn [process_page length].
  - apply grows_refl.
  - destruct (filter C) as [f|].
    + set (st1 := set_last_message_id (message_id (create_unknown_message E d)) st).
      assert (H1 : grows 0 st st1) by apply grows_last.
      destruct (last_message_id st1 <? after C).
      { apply (grows_more 0); [lia|]. apply (grows_trans 0 0 _ st1); [exact H1|].
        apply grows_stop. }
      destruct (negb (f (create_unknown_message E d))).
      { apply (grows_more (0 + length rest)); [lia|].
        apply (grows_trans _ _ _ st1); [exact H1 | apply IH]. }
      pose proof (enqueue_grows C time_limit
                    (message_author (create_unknown_message E d)) st1) as H2.
      destruct (enqueue C time_limit _ st1) as [go_on st2]. cbn [snd] in H2.
      destruct go_on.
      * apply (grows_trans 0 (S (length rest)) _ st1); [exact H1|].
        apply (grows_trans 1 (length rest) _ st2); [exact H2 | apply IH].
      * apply (grows_more (0 + 1)); [lia|].
        apply (grows_trans _ _ _ st1); assumption.
    + set (st1 := set_last_message_id (data_id d) st).
      assert (H1 : grows 0 st st1) by apply grows_last.
      destruct (last_message_id st1 <? after C).
      { apply (grows_more 0); [lia|]. apply (grows_trans 0 0 _ st1); [exact H1|].
        apply grows_stop. }
      pose proof (enqueue_grows C time_limit (author_id_of d) st1) as H2.
      destruct (enqueue C time_limit _ st1) as [go_on st2]. cbn [snd] in H2.
      destruct go_on.
      * apply (grows_trans 0 (S (length rest)) _ st1); [exact H1|].
        apply (grows_trans 1 (length rest) _ st2); [exact H2 | apply IH].
      * apply (grows_more (0 + 1)); [lia|].
        apply (grows_trans _ _ _ st1); assumption.
Qed.

(** What the end of a history request does to the measure: the page leaves
    [history], its messages join the queues, and what the requests to come
    weigh does not grow. *)
Lemma got_history_effect E C st :
  get_mass_task st <> None ->
  let st' := snd (got_history E C st) in
  tasks st' = tasks st /\ trace st' = trace st /\
  next_serial st' = next_serial st /\
  get_mass_task st' = None /\ delete_slots st' = delete_slots st /\
  (queued st' + to_fetch st' + credit st' <= queued st + to_fetch st + credit st)%nat.
Proof.
  intros Hget. unfold got_history, take_page.
  destruct (history (set_get_mass_task None st)) as [|page r] eqn:Hh.
  { open_state st. st_simpl. subst hist. cbn.
    unfold delete_slots, queued, to_fetch, credit. st_simpl.
    repeat split; auto. destruct sr, get; cbn. all: try lia. }
  destruct page as [|d page].
  { open_state st. st_simpl. subst hist. cbn.
    unfold delete_slots, queued, to_fetch, credit. st_simpl.
    repeat split; auto. destruct sr, get; cbn. all: try lia. }
  set (result := d :: page).
  replace (length result =? 0)%nat with false by reflexivity.
  set (st0 := set_history r (set_get_mass_task None st)).
  set (st1 := if (length result <? 100)%nat then set_should_request false st0 else st0).
  cbn [read_clock].
  set (st2 := set_clock_reads (S (clock_reads st1)) st1).
  set (time_limit := id_limit _ _ _).
  pose proof (process_page_grows E C time_limit result st2)
    as (G1 & G2 & G3 & G4 & G5 & G6 & G7 & G8).
  cbn [snd].
  assert (F : tasks st2 = tasks st /\ trace st2 = trace st /\
              next_serial st2 = next_serial st /\ get_mass_task st2 = None /\
              delete_slots st2 = delete_slots st /\ history st2 = r /\
              (should_request st2 = true -> should_request st = true) /\
              queued st2 = queued st).
  { unfold st2, st1, st0. open_state st. unfold delete_slots, queued.
    destruct (length result <? 100)%nat; st_simpl; repeat split; auto; discriminate. }
  destruct F as (F1 & F2 & F3 & F4 & F5 & F6 & F7 & F8).
  repeat split; try congruence.
  assert (Hst : history st = result :: r).
  { open_state st. st_simpl. exact Hh. }
  unfold to_fetch, credit. rewrite G6, G4, F4, F6, Hst. cbn [map list_sum length is_none].
  destruct (get_mass_task st) as [g|]; [|congruence]. cbn [is_none].
  destruct (should_request (process_page E C time_limit result st2)) eqn:Hsr.
  - rewrite (F7 (G7 eq_refl)). fold result. unfold list_sum. cbn [fold_right]. lia.
  - destruct (should_request st); fold result; unfold list_sum; cbn [fold_right]; lia.
Qed.

Lemma release_effect t st :
  let st' := release t st in
  tasks st' = tasks st /\ trace st' = trace st /\
  next_serial st' = next_serial st /\ get_mass_task st' = get_mass_task st /\
  queued st' = queued st /\ to_fetch st' = to_fetch st /\ credit st' = credit st.
Proof.
  open_state st. unfold release, queued, to_fetch, credit. st_simpl.
  destruct (slot_is t mass); [|destruct (slot_is t newt); [|destruct (slot_is t oldt)]];
    st_simpl; repeat split; reflexivity.
Qed.

(** The state with which the loop over [done] goes on after a task that
    finished without an exception, [ts] being [tasks] without the task. *)
Definition finish (E : env) (C : config) (t : task) (ts : list task) (st : state) : state :=
  let st := set_trace (trace st ++ [Handled t Finished]) (set_tasks ts st) in
  if slot_is t (get_mass_task st) then
    let (further, st) := got_history E C st in
    if further then release t st else st
  else release t st.

Lemma handle_done_cons E C t c rest st :
  handle_done E C ((t, c) :: rest) st
  = match remove_task t (tasks st) with
    | None => Crashed ValueError st
    | Some ts =>
        match c with
        | Failed e =>
            Raised e (cancel_all (set_trace (trace st ++ [Handled t c]) (set_tasks ts st)))
        | Finished => handle_done E C rest (finish E C t ts st)
        end
    end.
Proof.
  cbn [handle_done]. destruct (remove_task t (tasks st)) as [ts|]; [|reflexivity].
  destruct c as [|e]; [|reflexivity]. unfold finish.
  destruct (slot_is t _); [|reflexivity].
  destruct (got_history E C _) as [[] st']; reflexivity.
Qed.

Lemma finish_effect E C t ts' st :
  let st' := finish E C t ts' st in
  tasks st' = ts' /\ trace st' = trace st ++ [Handled t Finished] /\
  next_serial st' = next_serial st.
Proof.
  unfold finish.
  set (st1 := set_trace _ _).
  assert (H1 : tasks st1 = ts' /\ trace st1 = trace st ++ [Handled t Finished] /\
               next_serial st1 = next_serial st).
  { unfold st1. open_state st. st_simpl. auto. }
  destruct H1 as (A1 & A2 & A3).
  destruct (slot_is t (get_mass_task st1)) eqn:Hslot.
  - assert (Hget : get_mass_task st1 <> None).
    { destruct (get_mass_task st1); [discriminate | discriminate]. }
    pose proof (got_history_effect E C st1 Hget) as (G1 & G2 & G3 & _).
    destruct (got_history E C st1) as [further st2]. cbn [snd] in *.
    destruct further.
    + pose proof (release_effect t st2) as (R1 & R2 & R3 & _).
      cbv zeta in *. repeat split; congruence.
    + cbv zeta. repeat split; congruence.
  - pose proof (release_effect t st1) as (R1 & R2 & R3 & _).
    cbv zeta in *. repeat split; congruence.
Qed.

Lemma finish_measure E C t ts' st :
  length (tasks st) = S (length ts') ->
  (measure (finish E C t ts' st) < measure st)%nat.
Proof.
  intros Hlen. unfold finish.
  set (st1 := set_trace _ _).
  assert (H1 : length (tasks st1) = length ts' /\ queued st1 = queued st /\
               to_fetch st1 = to_fetch st /\ credit st1 = credit st).
  { unfold st1. open_state st. unfold queued, to_fetch, credit. st_simpl. auto. }
  destruct H1 as (A1 & A2 & A3 & A4).
  assert (Hm1 : measure st = S (measure st1)).
  { unfold measure. lia. }
  rewrite Hm1. clearbody st1.
  destruct (slot_is t (get_mass_task st1)) eqn:Hslot.
  - assert (Hget : get_mass_task st1 <> None).
    { destruct (get_mass_task st1); [discriminate | discriminate]. }
    pose proof (got_history_effect E C st1 Hget) as (G1 & _ & _ & _ & _ & G6).
    destruct (got_history E C st1) as [further st2]. cbn [snd] in *.
    assert (measure st2 <= measure st1)%nat by (unfold measure; rewrite G1; lia).
    destruct further; [|lia].
    pose proof (release_effect t st2) as (R1 & _ & _ & _ & R5 & R6 & R7).
    cbv zeta in *. unfold measure in *. rewrite R1, R5, R6, R7. lia.
  - pose proof (release_effect t st1) as (R1 & _ & _ & _ & R5 & R6 & R7).
    cbv zeta in *. unfold measure in *. rewrite R1, R5, R6, R7. lia.
Qed.

(** 4233-4243 on the three task variables. *)
Definition clear_first (t : task) (ds : option task * option task * option task)
  : option task * option task * option task :=
  match ds with
  | (m, n, o) =>
      if slot_is t m then (None, n, o)
      else if slot_is t n then (m, None, o)
      else if slot_is t o then (m, n, None)
      else (m, n, o)
  end.

Lemma release_slots t st :
  get_mass_task (release t st) = get_mass_task st /\
  delete_slots (release t st) = clear_first t (delete_slots st).
Proof.
  open_state st. unfold release, delete_slots, clear_first. st_simpl.
  destruct (slot_is t mass); [|destruct (slot_is t newt); [|destruct (slot_is t oldt)]];
    st_simpl; split; reflexivity.
Qed.

Definition slot_list (g : option task) (ds : option task * option task * option task)
  : list task :=
  match ds with
  | (m, n, o) => olist g ++ olist m ++ olist n ++ olist o
  end.

Ltac slot_cases :=
  unfold task_is in *;
  repeat match goal with
         | |- context [Nat.eqb ?a ?b] => destruct (Nat.eqb_spec a b)
         | H : context [Nat.eqb ?a ?b] |- _ => destruct (Nat.eqb_spec a b)
         end.

Ltac slot_finish :=
  match goal with
  | |- _ = _ => reflexivity
  | |- NoDup _ => repeat constructor; cbn [In]; intuition congruence
  | Hk : (forall x, In x ?T -> _ -> In x ?T'), Hi : (forall a, _ -> In a ?T)
    |- forall a, _ -> In a ?T' =>
      let a := fresh "a" in let Ha := fresh "Ha" in
      intros a Ha; apply Hk; [apply Hi; intuition congruence | intuition congruence]
  end.

Lemma cleared_slots t g ds (T T' : list nat) :
  NoDup (serials (slot_list g ds)) ->
  incl (serials (slot_list g ds)) T ->
  (forall x, In x T -> x <> task_serial t -> In x T') ->
  (slot_is t g = true ->
   clear_first t ds = ds /\
   NoDup (serials (slot_list None ds)) /\ incl (serials (slot_list None ds)) T') /\
  (slot_is t g = false ->
   NoDup (serials (slot_list g (clear_first t ds))) /\
   incl (serials (slot_list g (clear_first t ds))) T').
Proof.
  destruct ds as [[m n] o]. unfold slot_list, clear_first, incl.
  intros Hn Hi Hk.
  destruct g as [g|], m as [m|], n as [n|], o as [o|];
    cbn [olist app serials map slot_is] in *; slot_cases;
    repeat match goal with
           | H : NoDup (_ :: _) |- _ => inversion H; clear H; subst
           end;
    cbn [In olist app map] in *.
  all: split; intros Hg; try discriminate.
  all: repeat split.
  all: try slot_finish.
  all: exfalso; intuition congruence.
Qed.

Lemma finish_slot_inv E C t ts' st :
  trace_inv st -> slot_inv st -> remove_task t (tasks st) = Some ts' ->
  slot_inv (finish E C t ts' st).
Proof.
  intros Htr [Hn Hi] Hrm.
  assert (Hkeep : forall x, In x (serials (tasks st)) -> x <> task_serial t ->
                            In x (serials ts')).
  { intros x Hx Hne. apply remove_task_perm in Hrm.
    apply (Permutation_in _ Hrm) in Hx. destruct Hx as [Hx|Hx]; congruence. }
  pose proof (cleared_slots t (get_mass_task st) (delete_slots st)
                (serials (tasks st)) (serials ts') Hn Hi Hkeep) as [Hyes Hno].
  pose proof (finish_effect E C t ts' st) as (Ftasks & _ & _).
  cbv zeta in Ftasks.
  assert (Hgoal : NoDup (serials (all_slots (finish E C t ts' st))) /\
                  incl (serials (all_slots (finish E C t ts' st))) (serials ts')).
  2:{ destruct Hgoal. constructor; [assumption | now rewrite Ftasks]. }
  clear Ftasks. unfold finish.
  set (st1 := set_trace _ _).
  assert (H1 : get_mass_task st1 = get_mass_task st /\ delete_slots st1 = delete_slots st).
  { unfold st1. open_state st. unfold delete_slots. st_simpl. auto. }
  destruct H1 as (A1 & A2). clearbody st1.
  rewrite A1.
  destruct (slot_is t (get_mass_task st)) eqn:Hslot.
  - destruct (Hyes eq_refl) as (Hc & Hn' & Hi').
    assert (Hget : get_mass_task st1 <> None).
    { rewrite A1. destruct (get_mass_task st); discriminate. }
    pose proof (got_history_effect E C st1 Hget) as (_ & _ & _ & G4 & G5 & _).
    destruct (got_history E C st1) as [further st2]. cbn [snd] in *.
    assert (Hst2 : all_slots st2 = slot_list None (delete_slots st)).
    { unfold all_slots, slot_list. rewrite G4, <- A2, <- G5. reflexivity. }
    destruct further.
    + destruct (release_slots t st2) as (R1 & R2).
      assert (Hrel : all_slots (release t st2) = slot_list None (delete_slots st)).
      { unfold all_slots. rewrite R1, G4.
        change (olist None ++ ?x) with (slot_list None (delete_slots (release t st2))).
        rewrite R2, G5, A2, Hc. reflexivity. }
      rewrite Hrel. split; assumption.
    + rewrite Hst2. split; assumption.
  - destruct (Hno eq_refl) as (Hn' & Hi').
    destruct (release_slots t st1) as (R1 & R2).
    assert (Hrel : all_slots (release t st1)
                   = slot_list (get_mass_task st) (clear_first t (delete_slots st))).
    { unfold all_slots. rewrite R1, A1.
      change (olist ?g ++ ?x) with (slot_list g (delete_slots (release t st1))).
      rewrite R2, A2. reflexivity. }
    rewrite Hrel. split; assumption.
Qed.

Lemma handled_trace_inv st st' t c ts' extra :
  trace_inv st -> remove_task t (tasks st) = Some ts' ->
  tasks st' = ts' ->
  trace st' = (trace st ++ [Handled t c]) ++ map Cancelled extra ->
  next_serial st' = next_serial st ->
  trace_inv st'.
Proof.
  intros [Hs Hp Ht] Hrm H1 H2 H3.
  constructor; rewrite ?H1, ?H2, ?H3.
  - rewrite !sent_app, sent_map_Cancelled. cbn [sent flat_map sent_of app].
    now rewrite !app_nil_r.
  - rewrite !sent_app, !handled_app, sent_map_Cancelled, handled_map_Cancelled.
    cbn [sent handled flat_map sent_of handled_of app]. rewrite !app_nil_r.
    rewrite serials_app, <- app_assoc. cbn [serials map app].
    etransitivity; [exact Hp|]. apply Permutation_app_head.
    now apply remove_task_perm.
  - rewrite !sent_app, sent_map_Cancelled. cbn [sent flat_map sent_of app].
    rewrite !app_nil_r. intros x Hx. apply Ht. eapply remove_task_incl; eauto.
Qed.

Lemma finish_trace_inv E C t ts' st :
  trace_inv st -> remove_task t (tasks st) = Some ts' ->
  trace_inv (finish E C t ts' st).
Proof.
  intros Htr Hrm. pose proof (finish_effect E C t ts' st) as (F1 & F2 & F3).
  cbv zeta in *.
  apply (handled_trace_inv st _ t Finished ts' []); auto.
  cbn [map]. now rewrite app_nil_r.
Qed.

(** The trace of a run that re-raised [e]: the task that failed was taken
    out of [done], then every task still in [tasks] was cancelled. *)
Definition raised_with (e : exn) (st : state) : Prop :=
  exists before t,
    trace st = before ++ Handled t (Failed e) :: map Cancelled (tasks st) /\
    cancelled before = [].

Definition after_done (done : list (task * completion)) (st : state)
    (o : outcome state) : Prop :=
  match o with
  | Running st' =>
      slot_inv st' /\ cancelled (trace st') = [] /\
      (measure st' + length done <= measure st)%nat /\
      length (handled (trace st')) = (length (handled (trace st)) + length done)%nat
  | Raised e st' => raised_with e st'
  | Crashed e st' => e = ValueError
  | Returned _ | Spinning _ => False
  end.

Lemma handle_done_spec E C done : forall st,
  trace_inv st -> slot_inv st -> cancelled (trace st) = [] ->
  Forall well_sized (trace st) ->
  trace_inv (outcome_state (handle_done E C done st)) /\
  Forall well_sized (trace (outcome_state (handle_done E C done st))) /\
  after_done done st (handle_done E C done st).
Proof.
  induction done as [|[t c] rest IH]; intros st Htr Hsl Hq Hws.
  - cbn [handle_done outcome_state after_done length].
    split; [assumption|]. split; [assumption|]. split; [assumption|].
    split; [assumption|]. split; lia.
  - rewrite handle_done_cons.
    destruct (remove_task t (tasks st)) as [ts'|] eqn:Hrm.
    2:{ cbn [outcome_state after_done]. split; [assumption|]. split; [assumption|].
        reflexivity. }
    destruct c as [|e].
    + pose proof (finish_effect E C t ts' st) as (F1 & F2 & F3). cbv zeta in *.
      destruct (IH (finish E C t ts' st)) as (I1 & I2 & I3).
      * now apply finish_trace_inv.
      * now apply finish_slot_inv.
      * rewrite F2, cancelled_app, Hq. reflexivity.
      * rewrite F2. apply Forall_snoc; [assumption | apply well_sized_Handled].
      * split; [exact I1|]. split; [exact I2|].
        pose proof (finish_measure E C t ts' st (remove_task_length _ _ _ Hrm)) as Hm.
        destruct (handle_done E C rest (finish E C t ts' st));
          cbn [outcome_state after_done length] in *; auto.
        destruct I3 as (J1 & J2 & J3 & J4).
        split; [assumption|]. split; [assumption|]. split; [lia|].
        rewrite J4, F2, handled_app, length_app. cbn. lia.
    + set (st' := cancel_all _).
      assert (H1 : tasks st' = ts' /\
                   trace st' = (trace st ++ [Handled t (Failed e)]) ++ map Cancelled ts' /\
                   next_serial st' = next_serial st).
      { unfold st', cancel_all. open_state st. st_simpl. auto. }
      destruct H1 as (A1 & A2 & A3).
      cbn [outcome_state after_done]. split; [|split].
      * eapply handled_trace_inv; eauto.
      * rewrite A2. apply Forall_app. split; [|apply well_sized_Cancelled].
        apply Forall_snoc; [assumption | apply well_sized_Handled].
      * exists (trace st), t. rewrite A2, A1, <- app_assoc. split; [reflexivity | exact Hq].
Qed.

Lemma handle_done_no_crash E C done : forall st,
  trace_inv st ->
  NoDup (map (fun d => task_serial (fst d)) done) ->
  (forall d, In d done -> In (task_serial (fst d)) (serials (tasks st))) ->
  forall e st', handle_done E C done st <> Crashed e st'.
Proof.
  induction done as [|[t c] rest IH]; intros st Htr Hnd Hin e st'.
  - cbn. discriminate.
  - rewrite handle_done_cons.
    destruct (remove_task_some t (tasks st)) as (ts' & Hrm).
    { apply (Hin (t, c)). now left. }
    rewrite Hrm. destruct c as [|e0]; [|discriminate].
    cbn [map fst] in Hnd. inversion Hnd as [|x l Hnotin Hnd']; subst.
    apply IH; auto.
    + now apply finish_trace_inv.
    + intros d Hd.
      pose proof (finish_effect E C t ts' st) as (F1 & _). cbv zeta in F1. rewrite F1.
      pose proof (remove_task_perm _ _ _ Hrm) as Hperm.
      assert (Hd' : In (task_serial (fst d)) (serials (tasks st))).
      { apply Hin. now right. }
      apply (Permutation_in _ Hperm) in Hd'. destruct Hd' as [Hd'|Hd']; [|exact Hd'].
      exfalso. apply Hnotin. rewrite Hd'.
      apply (in_map (fun d => task_serial (fst d))) in Hd. exact Hd.
Qed.

(** *** One pass of the loop *)

Record good (st : state) : Prop := mk_good {
  good_trace : trace_inv st;
  good_slots : slot_inv st;
  good_quiet : cancelled (trace st) = [];
  good_sized : Forall well_sized (trace st)
}.

Lemma submits_good st st' :
  submits st st' -> good st ->
  good st' /\ (measure st' <= measure st)%nat /\
  handled (trace st') = handled (trace st).
Proof.
  intros Hsub [H1 H2 H3 H4].
  split; [|split; [now apply submits_measure | now apply submits_handled]].
  constructor.
  - eapply submits_trace_inv; eauto.
  - eapply submits_slot_inv; eauto.
  - eapply submits_quiet; eauto.
  - eapply submits_well_sized; eauto.
Qed.

Lemma good_free st :
  good st -> tasks st = [] -> delete_slots st = (None, None, None).
Proof.
  intros [_ [_ Hi] _ _] Ht. rewrite Ht in Hi. unfold all_slots, delete_slots in *.
  destruct (get_mass_task st), (delete_mass_task st), (delete_new_task st),
    (delete_old_task st); cbn in Hi; try reflexivity;
    exfalso; eapply (Hi _); left; reflexivity.
Qed.

Lemma drained C st :
  delete_slots (delete_old C (delete_old_own C st)) = (None, None, None) ->
  message_group_old (delete_old C (delete_old_own C st)) = [] /\
  message_group_old_own (delete_old C (delete_old_own C st)) = [].
Proof.
  open_state st. unfold delete_old, delete_old_own, delete_slots. st_simpl.
  destruct newt, oldt, old, old_own; st_simpl; intros H; try discriminate; auto.
Qed.

Lemma set_awaits_submits n st : submits st (set_awaits n st).
Proof. open_state st. now apply submits_nothing. Qed.

(** The pass up to [await]: either the loop is left, with nothing queued
    and no task, or it waits for the first of a non-empty list of tasks. *)
Lemma before_await E C st :
  good st ->
  (exists st', loop_body E C st = Returned st' /\ good st' /\
               tasks st' = [] /\ message_group_new st' = [] /\
               message_group_old st' = [] /\ message_group_old_own st' = []) \/
  (exists st' n, good st' /\ (measure st' <= measure st)%nat /\ tasks st' <> [] /\
                 handled (trace st') = handled (trace st) /\
                 loop_body E C st
                 = handle_done E C (wait_till_first E n (tasks st')) st').
Proof.
  intros Hg. unfold loop_body.
  destruct (submits_good _ _ (request_history_submits C st) Hg) as (Hg1 & Hm1 & Hh1).
  set (st1 := request_history C st) in *.
  destruct (delete_new_submits E C st1) as (sta & st2 & Hdn & Hs2a & Hs2b).
  rewrite Hdn.
  destruct (submits_good _ _ Hs2a Hg1) as (Hga & Hma & Hha).
  destruct (submits_good _ _ Hs2b Hga) as (Hg2 & Hm2 & Hh2).
  destruct (submits_good _ _ (delete_old_own_submits C st2) Hg2) as (Hg3 & Hm3 & Hh3).
  set (st3 := delete_old_own C st2) in *.
  destruct (submits_good _ _ (delete_old_submits C st3) Hg3) as (Hg4 & Hm4 & Hh4).
  set (st4 := delete_old C st3) in *.
  pose proof (last_resort_submits C st4 (good_free st4 Hg4)) as Hlr.
  destruct (last_resort C st4) as [st5|].
  - right. destruct Hlr as (Hne & Hs5).
    destruct (submits_good _ _ Hs5 Hg4) as (Hg5 & Hm5 & Hh5).
    unfold await_first.
    exists (set_awaits (S (awaits st5)) st5), (awaits st5).
    destruct (submits_good _ _ (set_awaits_submits (S (awaits st5)) st5) Hg5)
      as (Hg6 & Hm6 & Hh6).
    split; [exact Hg6|]. split; [lia|].
    assert (Ht : tasks (set_awaits (S (awaits st5)) st5) = tasks st5).
    { now destruct st5. }
    rewrite Ht. split; [exact Hne|]. split; [congruence | reflexivity].
  - left. destruct Hlr as (Ht & Hn). exists st4.
    split; [reflexivity|]. split; [exact Hg4|]. split; [exact Ht|]. split; [exact Hn|].
    apply drained. fold st3. fold st4. now apply good_free.
Qed.

(** What a pass of the loop leaves. *)
Definition after_pass (o : outcome state) : Prop :=
  match o with
  | Running st' => good st'
  | Returned st' =>
      good st' /\ tasks st' = [] /\ message_group_new st' = [] /\
      message_group_old st' = [] /\ message_group_old_own st' = []
  | Raised e st' =>
      trace_inv st' /\ Forall well_sized (trace st') /\ raised_with e st'
  | Crashed e st' => trace_inv st' /\ Forall well_sized (trace st')
  | Spinning _ => False
  end.

Lemma loop_body_spec E C st : good st -> after_pass (loop_body E C st).
Proof.
  intros Hg.
  destruct (before_await E C st Hg)
    as [(st' & -> & Hg' & H) | (st' & n & Hg' & Hm & Hne & _ & ->)].
  - cbn. auto.
  - destruct Hg' as [G1 G2 G3 G4].
    destruct (handle_done_spec E C (wait_till_first E n (tasks st')) st' G1 G2 G3 G4)
      as (I1 & I2 & I3).
    destruct (handle_done E C _ st') as [s|s|e s|e s|s];
      cbn [after_pass after_done outcome_state] in *;
      try contradiction; try tauto.
    destruct I3 as (J1 & J2 & _). constructor; auto.
Qed.

(** With [WaitTillFirst] keeping its contract, a pass that does not leave
    the loop takes at least one task out of [tasks], and the measure goes
    down; no pass fails. *)
Lemma loop_body_progress E C st :
  wait_contract E -> good st ->
  match loop_body E C st with
  | Running st' =>
      (measure st' < measure st)%nat /\
      (length (handled (trace st)) < length (handled (trace st')))%nat
  | Crashed _ _ | Spinning _ => False
  | _ => True
  end.
Proof.
  intros Hw Hg.
  destruct (before_await E C st Hg)
    as [(st' & -> & _) | (st' & n & Hg' & Hm & Hne & Hh & ->)]; [exact I|].
  destruct (Hw n (tasks st') Hne) as (W1 & W2 & W3).
  destruct Hg' as [G1 G2 G3 G4].
  destruct (handle_done_spec E C (wait_till_first E n (tasks st')) st' G1 G2 G3 G4)
    as (_ & _ & I3).
  pose proof (handle_done_no_crash E C (wait_till_first E n (tasks st')) st' G1 W2) as Hnc.
  destruct (handle_done E C _ st') as [s|s|e s|e s|s] eqn:Hd;
    cbn [after_done] in I3; try contradiction; auto.
  - destruct I3 as (_ & _ & J & J').
    destruct (wait_till_first E n (tasks st')); [congruence|]. cbn [length] in J, J'.
    rewrite J', Hh. lia.
  - eapply Hnc; [|reflexivity].
    intros d Hd'. apply in_map. now apply W3.
Qed.

(** *** Runs *)

Lemma run_spec E C fuel : forall st, good st -> after_pass (run E C fuel st).
Proof.
  induction fuel as [|n IH]; intros st Hg; cbn [run]; [exact Hg|].
  pose proof (loop_body_spec E C st Hg) as H.
  destruct (loop_body E C st) as [s|s|e s|e s|s]; cbn [after_pass] in *; auto.
Qed.

Lemma run_ends E C : wait_contract E -> forall fuel st,
  good st -> (measure st < fuel)%nat ->
  match run E C fuel st with
  | Returned _ | Raised _ _ => True
  | _ => False
  end.
Proof.
  intros Hw. induction fuel as [|n IH]; intros st Hg Hm; [lia|]. cbn [run].
  pose proof (loop_body_progress E C st Hw Hg) as Hp.
  pose proof (loop_body_spec E C st Hg) as Hs.
  destruct (loop_body E C st) as [s|s|e s|e s|s]; auto.
  apply IH; [exact Hs | lia].
Qed.

Lemma start_good sr last lim new old old_own hist :
  good (start sr last lim new old old_own hist).
Proof.
  unfold start. constructor; [constructor | constructor | |]; cbn;
    auto using NoDup_nil, incl_nil_l.
Qed.

Lemma move_aged_trace st time_limit :
  exists x,
    move_aged time_limit (length (message_group_new st)) (message_group_new st)
      (message_group_old st) (message_group_old_own st) = inr x /\
    trace (set_message_group_new (fst (fst x))
             (set_message_group_old (snd (fst x))
                (set_message_group_old_own (snd x) st))) = trace st.
Proof.
  destruct (move_aged_submits st time_limit) as (x & Hx & _).
  exists x. split; [exact Hx|]. now destruct st.
Qed.

Lemma delete_new_after_submit E C st time_limit collected st1 :
  delete_mass_task st = None ->
  message_group_new st <> [] ->
  time_limit = id_limit (DISCORD_EPOCH E) (time_now E (clock_reads st)) TWO_WEEKS_MARGIN_MS ->
  collected = collect time_limit (message_group_new st) 0 ->
  submit_collected C collected (set_clock_reads (S (clock_reads st)) st) = inr st1 ->
  exists st', delete_new E C st = inr st' /\ trace st' = trace st1.
Proof.
  intros Hmass Hne -> -> Hsub. unfold delete_new. rewrite Hmass. cbn [is_none].
  destruct (length (message_group_new st)) eqn:Hlen.
  { destruct (message_group_new st); [congruence | discriminate]. }
  cbn [read_clock].
  change (message_group_new (set_clock_reads (S (clock_reads st)) st))
    with (message_group_new st).
  rewrite Hsub. cbn [bind].
  destruct (length (message_group_new st1)) eqn:Hlen1.
  { eexists. split; reflexivity. }
  rewrite <- Hlen1.
  destruct (move_aged_trace st1
              (id_limit (DISCORD_EPOCH E) (time_now E (clock_reads st)) TWO_WEEKS_MARGIN_MS
               - MARGIN_STEP)) as (x & Hx & Htr).
  rewrite Hx. cbn [bind ret]. eexists. split; [reflexivity | exact Htr].
Qed.

(** With exactly one message collected, [delete_new] makes one request for
    it when [delete_new_task] is free, and none otherwise. *)
Lemma one_collected E C st own id rest :
  delete_mass_task st = None ->
  message_group_new st = (own, id) :: rest ->
  collect (id_limit (DISCORD_EPOCH E) (time_now E (clock_reads st)) TWO_WEEKS_MARGIN_MS)
    (message_group_new st) 0 = 1%nat ->
  exists st',
    delete_new E C st = inr st' /\
    requests (trace st')
    = requests (trace st)
      ++ (if is_none (delete_new_task st)
          then [http_message_delete (chan C) id] else []).
Proof.
  intros Hmass Hnew Hone.
  assert (Hne : message_group_new st <> []) by (rewrite Hnew; discriminate).
  assert (Hsub : exists st1,
             submit_collected C 1 (set_clock_reads (S (clock_reads st)) st) = inr st1 /\
             requests (trace st1)
             = requests (trace st)
               ++ (if is_none (delete_new_task st)
                   then [http_message_delete (chan C) id] else [])).
  { open_state st. st_simpl. subst new. unfold submit_collected. st_simpl.
    destruct newt; st_simpl.
    - eexists. split; [reflexivity|]. st_simpl. now rewrite app_nil_r.
    - eexists. split; [reflexivity|]. st_simpl. now rewrite requests_app. }
  destruct Hsub as (st1 & Hsub & Hreq).
  destruct (delete_new_after_submit E C st _ 1%nat st1 Hmass Hne eq_refl
              (eq_sym Hone) Hsub) as (st' & Hd & Htr).
  exists st'. split; [exact Hd|]. now rewrite Htr.
Qed.

End SequenceFacts.

(** ** The loop of [message_delete_multiple] *)

Module MultipleLoop.
Import Multiple.

Ltac open_state st :=
  destruct st as [new old old_own ts mass newt oldt next reads aw tr].

Ltac st_simpl :=
  cbn [set_message_group_new set_message_group_old set_message_group_old_own
       set_tasks set_delete_mass_task set_delete_new_task set_delete_old_task
       set_next_serial set_clock_reads set_awaits set_trace
       message_group_new message_group_old message_group_old_own tasks
       delete_mass_task delete_new_task delete_old_task next_serial clock_reads
       awaits trace fst snd bind ret raise popleft is_none spawn create read_clock
       task_serial task_request task_client] in *.

Lemma revalidate_count limit new : forall message_ids message_count old old_own,
  length message_ids = message_count -> (message_count < 100)%nat ->
  match revalidate limit new message_ids message_count old old_own with
  | (message_ids', message_count', _, _, _) =>
      length message_ids' = message_count' /\ (message_count' <= 100)%nat
  end.
Proof.
  induction new as [|[own id] rest IH]; intros ids count old old_own Hlen Hc;
    cbn [revalidate].
  - split; [assumption | lia].
  - destruct (id >? limit).
    + destruct (Nat.eqb_spec (S count) 100).
      * rewrite length_app. cbn. split; lia.
      * apply IH; [rewrite length_app; cbn; lia | lia].
    + destruct (id + MARGIN_STEP <? limit); [now apply IH|].
      destruct own; now apply IH.
Qed.

Lemma submit_batch_sized self chan message_ids message_count st :
  length message_ids = message_count -> (message_count <= 100)%nat ->
  Forall well_sized (trace st) ->
  match submit_batch self chan message_ids message_count st with
  | inr st' => Forall well_sized (trace st')
  | inl _ => True
  end.
Proof.
  intros Hlen Hc Hws. open_state st. unfold submit_batch. st_simpl.
  destruct message_count as [|[|k]]; [exact Hws | |].
  - destruct newt; st_simpl; [exact Hws|].
    destruct message_ids as [|id r]; [exact I|]. st_simpl.
    apply Forall_snoc; [exact Hws|]. apply well_sized_Sent. exact I.
  - st_simpl. apply Forall_snoc; [exact Hws|]. apply well_sized_Sent. cbn. lia.
Qed.

Lemma delete_new_sized E self chan st :
  Forall well_sized (trace st) ->
  match delete_new E self chan st with
  | inr st' => Forall well_sized (trace st')
  | inl _ => True
  end.
Proof.
  intros Hws. unfold delete_new.
  destruct (is_none (delete_mass_task st)); [|exact Hws].
  destruct (length (message_group_new st)); [exact Hws|].
  cbn [read_clock].
  set (st0 := set_clock_reads _ st).
  set (limit := id_limit _ _ _).
  pose proof (revalidate_count limit (message_group_new st0) [] 0
                (message_group_old st0) (message_group_old_own st0) eq_refl ltac:(lia))
    as Hrv.
  destruct (revalidate limit _ [] 0%nat _ _) as [[[[ids count] new'] old'] old_own'].
  destruct Hrv as (Hlen & Hc).
  apply submit_batch_sized; auto.
Qed.

Lemma delete_old_sized self chan st :
  Forall well_sized (trace st) -> Forall well_sized (trace (delete_old self chan st)).
Proof.
  intros Hws. open_state st. unfold delete_old. st_simpl.
  destruct oldt; st_simpl; [exact Hws|].
  destruct old; st_simpl; [exact Hws|].
  apply Forall_snoc; [exact Hws|]. apply well_sized_Sent. exact I.
Qed.

Lemma delete_own_sized self chan st :
  Forall well_sized (trace st) ->
  match delete_own self chan st with
  | inr st' => Forall well_sized (trace st')
  | inl _ => True
  end.
Proof.
  intros Hws. open_state st. unfold delete_own. st_simpl.
  destruct newt; st_simpl; [exact Hws|].
  destruct new, old_own; st_simpl; try exact Hws; try exact I;
    (apply Forall_snoc; [exact Hws|]; apply well_sized_Sent; exact I).
Qed.

Lemma last_resort_sized self chan st :
  Forall well_sized (trace st) ->
  match last_resort self chan st with
  | Some st' => Forall well_sized (trace st')
  | None => True
  end.
Proof.
  intros Hws. open_state st. unfold last_resort. st_simpl.
  destruct ts; st_simpl; [|exact Hws].
  destruct new as [|[[] id] r]; st_simpl; try exact I;
    (apply Forall_snoc; [exact Hws|]; apply well_sized_Sent; exact I).
Qed.

Lemma cancel_each_sized ts : Forall well_sized (fst (cancel_each ts)).
Proof.
  induction ts as [|[t|] r IH]; cbn; try constructor.
  destruct (cancel_each r) as [evs ok]. cbn in *. constructor; [constructor | exact IH].
Qed.

Lemma release_trace t st : trace (release t st) = trace st.
Proof.
  open_state st. unfold release. st_simpl.
  destruct (slot_is t mass); [|destruct (slot_is t newt); [|destruct (slot_is t oldt)]];
    reflexivity.
Qed.

Lemma handle_done_sized done : forall st,
  Forall well_sized (trace st) ->
  Forall well_sized (trace (outcome_state (handle_done done st))).
Proof.
  induction done as [|[t c] rest IH]; intros st Hws; cbn [handle_done].
  - exact Hws.
  - destruct (remove_entry t (tasks st)) as [ts'|]; [|exact Hws].
    set (st1 := set_trace _ _).
    assert (H1 : Forall well_sized (trace st1)).
    { unfold st1. open_state st. st_simpl.
      apply Forall_snoc; [exact Hws | apply well_sized_Handled]. }
    clearbody st1.
    destruct c as [|e].
    + apply IH. now rewrite release_trace.
    + destruct (caught e); [|exact H1].
      pose proof (cancel_each_sized (tasks st1)) as Hc.
      destruct (cancel_each (tasks st1)) as [evs ok]. cbn [fst] in Hc.
      assert (H2 : Forall well_sized (trace (set_trace (trace st1 ++ evs) st1))).
      { destruct st1. st_simpl. apply Forall_app. now split. }
      destruct ok; exact H2.
Qed.

Lemma loop_body_sized E self chan st :
  Forall well_sized (trace st) ->
  Forall well_sized (trace (outcome_state (loop_body E self chan st))).
Proof.
  intros Hws. unfold loop_body.
  pose proof (delete_new_sized E self chan st Hws) as H1.
  destruct (delete_new E self chan st) as [e|st1]; [exact Hws|].
  pose proof (delete_old_sized self chan st1 H1) as H2.
  pose proof (delete_own_sized self chan _ H2) as H3.
  destruct (delete_own self chan _) as [e|st3]; [exact H2|].
  pose proof (last_resort_sized self chan st3 H3) as H4.
  destruct (last_resort self chan st3) as [st4|]; [|exact H3].
  unfold await_first.
  destruct (all_tasks (tasks st4)) as [ts|]; [|exact H4].
  cbn [bind ret]. apply handle_done_sized.
  destruct st4. exact H4.
Qed.

Lemma run_sized E self chan fuel : forall st,
  Forall well_sized (trace st) ->
  Forall well_sized (trace (outcome_state (run E self chan fuel st))).
Proof.
  induction fuel as [|n IH]; intros st Hws; cbn [run]; [exact Hws|].
  pose proof (loop_body_sized E self chan st Hws) as H.
  destruct (loop_body E self chan st); try exact H. now apply IH.
Qed.

Lemma delete_each_sized E chan messages : forall st,
  Forall well_sized (trace st) ->
  Forall well_sized (trace (outcome_state (delete_each E chan messages st))).
Proof.
  induction messages as [|m rest IH]; intros st Hws; cbn [delete_each]; [exact Hws|].
  set (st1 := set_trace _ _).
  assert (H1 : Forall well_sized (trace st1)).
  { unfold st1. open_state st. st_simpl.
    apply Forall_snoc; [exact Hws|]. repeat constructor. }
  destruct (await_request E (awaits st) _); [now apply IH | exact H1].
Qed.

Lemma message_delete_multiple_sized E self fuel messages :
  Forall well_sized
    (trace (outcome_state (message_delete_multiple E self fuel messages))).
Proof.
  unfold message_delete_multiple.
  destruct messages as [|first rest]; [constructor|].
  destruct (negb (channel_is_guild (message_channel first))).
  - apply delete_each_sized. constructor.
  - cbn [read_clock].
    destruct (classify self _ (first :: rest) [] [] []) as [[new old] old_own].
    apply run_sized. constructor.
Qed.

(** With exactly one message left for the batch, [delete_new] makes one
    request for it when [delete_new_task] is free, and none otherwise. *)
Lemma one_revalidated E self chan st id new old old_own :
  delete_mass_task st = None ->
  message_group_new st <> [] ->
  revalidate
    (id_limit (DISCORD_EPOCH E) (time_now E (clock_reads st)) TWO_WEEKS_MARGIN_MS)
    (message_group_new st) [] 0 (message_group_old st) (message_group_old_own st)
  = ([id], 1%nat, new, old, old_own) ->
  exists st',
    delete_new E self chan st = inr st' /\
    requests (trace st')
    = requests (trace st)
      ++ (if is_none (delete_new_task st) then [http_message_delete chan id] else []).
Proof.
  intros Hmass Hne Hrv. unfold delete_new. rewrite Hmass. cbn [is_none].
  destruct (length (message_group_new st)) eqn:Hlen.
  { destruct (message_group_new st); [congruence | discriminate]. }
  cbn [read_clock].
  change (message_group_new (set_clock_reads (S (clock_reads st)) st))
    with (message_group_new st).
  change (message_group_old (set_clock_reads (S (clock_reads st)) st))
    with (message_group_old st).
  change (message_group_old_own (set_clock_reads (S (clock_reads st)) st))
    with (message_group_old_own st).
  rewrite Hrv. unfold submit_batch.
  clear Hrv Hlen Hne Hmass.
  destruct st as [n0 o0 w0 ts mass newt oldt next reads aw tr].
  st_simpl. destruct newt; st_simpl.
  - eexists. split; [reflexivity|]. st_simpl. now rewrite app_nil_r.
  - eexists. split; [reflexivity|]. st_simpl. now rewrite requests_app.
Qed.

(** *** The tasks of the loop *)

(** The tasks among the entries of [tasks]. *)
Definition pend (ts : list (option task)) : list task :=
  flat_map SequenceFacts.olist ts.

(** The state seen as a state of the loop of [message_delete_sequence]
    that asks for no history (the counters of the environment left out):
    what was shown of the tasks there holds here. *)
Definition lift (st : state) : Sequence.state :=
  Sequence.mk_state false 0 0
    (message_group_new st) (message_group_old st) (message_group_old_own st)
    (pend (tasks st)) None
    (delete_mass_task st) (delete_new_task st) (delete_old_task st)
    [] (next_serial st) 0 0 (trace st).

(** Every entry of [tasks] is a task. *)
Definition whole (st : state) : Prop := all_tasks (tasks st) = Some (pend (tasks st)).

Lemma pend_snoc ts t : pend (ts ++ [Some t]) = pend ts ++ [t].
Proof. unfold pend. rewrite flat_map_app. reflexivity. Qed.

Lemma all_tasks_snoc ts t l :
  all_tasks ts = Some l -> all_tasks (ts ++ [Some t]) = Some (l ++ [t]).
Proof.
  revert l. induction ts as [|[u|] r IH]; intros l H; cbn in *.
  - now injection H as <-.
  - destruct (all_tasks r) as [l'|]; [|discriminate]. injection H as <-.
    now rewrite (IH l' eq_refl).
  - discriminate.
Qed.

Lemma whole_snoc ts t :
  all_tasks ts = Some (pend ts) -> all_tasks (ts ++ [Some t]) = Some (pend (ts ++ [Some t])).
Proof. intros H. rewrite pend_snoc. now apply all_tasks_snoc. Qed.

Ltac lift_simpl :=
  unfold lift, whole, SequenceFacts.delete_slots, SequenceFacts.queued in *;
  cbn [Sequence.should_request Sequence.last_message_id Sequence.limit
       Sequence.message_group_new Sequence.message_group_old
       Sequence.message_group_old_own Sequence.tasks Sequence.get_mass_task
       Sequence.delete_mass_task Sequence.delete_new_task Sequence.delete_old_task
       Sequence.history Sequence.next_serial Sequence.clock_reads Sequence.awaits
       Sequence.trace] in *;
  st_simpl.

Ltac lift_finish :=
  lift_simpl; rewrite ?pend_snoc; try reflexivity; try exact I.

Lemma revalidate_queued limit new : forall message_ids message_count old old_own,
  match revalidate limit new message_ids message_count old old_own with
  | (_, message_count', new', old', old_own') =>
      (length new' + length old' + length old_own' + message_count'
       <= length new + length old + length old_own + message_count)%nat
  end.
Proof.
  induction new as [|[own id] rest IH]; intros ids count old old_own; cbn [revalidate].
  - cbn. lia.
  - destruct (id >? limit).
    + destruct (Nat.eqb_spec (S count) 100); [cbn [length]; lia|].
      specialize (IH (ids ++ [id]) (S count) old old_own).
      destruct (revalidate limit rest _ _ _ _) as [[[[a b] c] d] e]. cbn [length]. lia.
    + destruct (id + MARGIN_STEP <? limit).
      * specialize (IH ids count old old_own).
        destruct (revalidate limit rest _ _ _ _) as [[[[a b] c] d] e]. cbn [length]. lia.
      * destruct own.
        -- specialize (IH ids count old (id :: old_own)).
           destruct (revalidate limit rest _ _ _ _) as [[[[a b] c] d] e].
           cbn [length] in *. lia.
        -- specialize (IH ids count (id :: old) old_own).
           destruct (revalidate limit rest _ _ _ _) as [[[[a b] c] d] e].
           cbn [length] in *. lia.
Qed.

Lemma submit_batch_lift self chan message_ids message_count new' old' old_own' st :
  length message_ids = message_count -> (message_count <= 100)%nat ->
  delete_mass_task st = None ->
  (length new' + length old' + length old_own' + message_count
   <= length (message_group_new st) + length (message_group_old st)
      + length (message_group_old_own st))%nat ->
  whole st ->
  match submit_batch self chan message_ids message_count
          (set_message_group_new new'
             (set_message_group_old old' (set_message_group_old_own old_own' st))) with
  | inr st' => whole st' /\ SequenceFacts.submits (lift st) (lift st')
  | inl _ => False
  end.
Proof.
  intros Hlen Hc Hmass Hq Hw. open_state st. st_simpl. subst mass.
  unfold submit_batch.
  destruct message_count as [|[|k]]; st_simpl.
  - split; [exact Hw|]. apply SequenceFacts.submits_nothing; lift_finish; try lia.
  - destruct newt; st_simpl.
    + split; [exact Hw|]. apply SequenceFacts.submits_nothing; lift_finish; try lia.
    + destruct message_ids as [|id r]; [discriminate Hlen|]. st_simpl.
      split; [now apply whole_snoc|].
      eapply SequenceFacts.submits_deletion. all: lift_finish. all: lift_finish.
      * constructor.
      * lia.
  - split; [now apply whole_snoc|].
    eapply SequenceFacts.submits_deletion. all: lift_finish. all: lift_finish.
    + cbn. lia.
    + constructor.
    + lia.
Qed.

Lemma delete_new_lift E self chan st :
  whole st ->
  match delete_new E self chan st with
  | inr st' => whole st' /\ SequenceFacts.submits (lift st) (lift st')
  | inl _ => False
  end.
Proof.
  intros Hw. unfold delete_new.
  destruct (delete_mass_task st) as [m|] eqn:Hm; cbn [is_none].
  { split; [exact Hw|]. apply SequenceFacts.submits_nothing; lift_finish; try lia. }
  destruct (length (message_group_new st)) eqn:Hlen.
  { split; [exact Hw|]. apply SequenceFacts.submits_nothing; lift_finish; try lia. }
  cbn [read_clock].
  set (st0 := set_clock_reads _ st).
  set (limit := id_limit _ _ _).
  pose proof (revalidate_count limit (message_group_new st0) [] 0
                (message_group_old st0) (message_group_old_own st0) eq_refl ltac:(lia))
    as Hrv.
  pose proof (revalidate_queued limit (message_group_new st0) [] 0
                (message_group_old st0) (message_group_old_own st0)) as Hq.
  destruct (revalidate limit _ [] 0%nat _ _) as [[[[ids count] new'] old'] old_own'].
  destruct Hrv as (Hl & Hc).
  pose proof (submit_batch_lift self chan ids count new' old' old_own' st0 Hl Hc) as Hsb.
  assert (Hst0 : lift st0 = lift st) by (unfold st0; now destruct st).
  rewrite Hst0 in Hsb. apply Hsb.
  - unfold st0. now destruct st.
  - rewrite Nat.add_0_r in Hq. exact Hq.
  - unfold st0. now destruct st.
Qed.

Lemma delete_old_lift self chan st :
  whole st ->
  whole (delete_old self chan st) /\
  SequenceFacts.submits (lift st) (lift (delete_old self chan st)).
Proof.
  intros Hw. open_state st. unfold delete_old. st_simpl.
  destruct oldt; st_simpl.
  { split; [exact Hw|]. apply SequenceFacts.submits_nothing; lift_finish; try lia. }
  destruct old as [|id r]; st_simpl.
  { split; [exact Hw|]. apply SequenceFacts.submits_nothing; lift_finish; try lia. }
  split; [now apply whole_snoc|].
  eapply SequenceFacts.submits_deletion. all: lift_finish. all: lift_finish.
  - constructor.
  - cbn [length]. lia.
Qed.

Lemma delete_own_lift self chan st :
  whole st ->
  match delete_own self chan st with
  | inr st' => whole st' /\ SequenceFacts.submits (lift st) (lift st')
  | inl e => e = IndexError
  end.
Proof.
  intros Hw. open_state st. unfold delete_own. st_simpl.
  destruct newt; st_simpl.
  { split; [exact Hw|]. apply SequenceFacts.submits_nothing; lift_finish; try lia. }
  destruct new as [|x new], old_own as [|id r]; st_simpl; try reflexivity.
  - split; [exact Hw|]. apply SequenceFacts.submits_nothing; lift_finish; try lia.
  - split; [now apply whole_snoc|].
    eapply SequenceFacts.submits_deletion. all: lift_finish. all: lift_finish.
    + constructor.
    + cbn [length]. lia.
  - split; [now apply whole_snoc|].
    eapply SequenceFacts.submits_deletion. all: lift_finish. all: lift_finish.
    + constructor.
    + cbn [length]. lia.
Qed.

(** 3827-3843 with every task variable free: the loop is left, or a
    message of another author is deleted by a new task, or a task is made for
    a message of the client itself while [None] joins [tasks], on which
    [WaitTillFirst] fails. *)
Lemma last_resort_lift E self chan st :
  whole st ->
  (tasks st = [] ->
   delete_mass_task st = None /\ delete_new_task st = None /\ delete_old_task st = None) ->
  match last_resort self chan st with
  | None => tasks st = [] /\ message_group_new st = []
  | Some st' =>
      (whole st' /\ tasks st' <> [] /\ SequenceFacts.submits (lift st) (lift st')) \/
      (await_first E st' = inl AttributeError /\
       handled (trace st') = handled (trace st))
  end.
Proof.
  intros Hw Hfree. open_state st. unfold last_resort. st_simpl.
  destruct ts as [|t0 ts]; st_simpl.
  2:{ left. split; [exact Hw|]. split; [discriminate|].
      apply SequenceFacts.submits_nothing; lift_finish; try lia. }
  destruct (Hfree eq_refl) as (-> & -> & ->).
  destruct new as [|[own id] r]; st_simpl; [now split|].
  destruct own; st_simpl.
  - right. split; [reflexivity|]. rewrite handled_app. cbn. now rewrite app_nil_r.
  - left. split; [reflexivity|]. split; [discriminate|].
    eapply SequenceFacts.submits_deletion. all: lift_finish. all: lift_finish.
    + constructor.
    + cbn [length]. lia.
Qed.

(** *** Finished tasks *)

Lemma pend_cons u r : pend (Some u :: r) = u :: pend r.
Proof. reflexivity. Qed.

Lemma all_tasks_cons u r :
  all_tasks (Some u :: r) = Some (pend (Some u :: r)) -> all_tasks r = Some (pend r).
Proof.
  cbn [all_tasks]. rewrite pend_cons.
  destruct (all_tasks r) as [l|]; [|discriminate]. intros H. injection H as ->.
  reflexivity.
Qed.

Lemma remove_entry_pend t : forall ts ts',
  all_tasks ts = Some (pend ts) ->
  remove_entry t ts = Some ts' ->
  remove_task t (pend ts) = Some (pend ts') /\ all_tasks ts' = Some (pend ts').
Proof.
  induction ts as [|[u|] r IH]; intros ts' Hw Hrm.
  - discriminate Hrm.
  - pose proof (all_tasks_cons u r Hw) as Hr.
    cbn [remove_entry slot_is] in Hrm. rewrite pend_cons. cbn [remove_task].
    destruct (task_is t u) eqn:Hu.
    + injection Hrm as <-. split; [reflexivity | exact Hr].
    + destruct (remove_entry t r) as [r'|]; [|discriminate]. injection Hrm as <-.
      destruct (IH r' Hr eq_refl) as (H1 & H2).
      rewrite H1, pend_cons. cbn [all_tasks]. rewrite H2. split; reflexivity.
  - discriminate Hw.
Qed.

Lemma remove_entry_some t : forall ts,
  all_tasks ts = Some (pend ts) ->
  In (task_serial t) (serials (pend ts)) -> exists ts', remove_entry t ts = Some ts'.
Proof.
  induction ts as [|[u|] r IH]; intros Hw Hin.
  - destruct Hin.
  - pose proof (all_tasks_cons u r Hw) as Hr.
    cbn [remove_entry slot_is]. destruct (task_is t u) eqn:Hu; [eauto|].
    rewrite pend_cons in Hin. destruct Hin as [Hin|Hin].
    + symmetry in Hin. apply SequenceFacts.task_is_serial in Hin. congruence.
    + destruct (IH Hr Hin) as (r' & ->). eauto.
  - discriminate Hw.
Qed.

Lemma cancel_each_whole ts :
  all_tasks ts = Some (pend ts) -> cancel_each ts = (map Cancelled (pend ts), true).
Proof.
  induction ts as [|[u|] r IH]; intros Hw.
  - reflexivity.
  - pose proof (all_tasks_cons u r Hw) as Hr.
    cbn [cancel_each]. rewrite (IH Hr), pend_cons. reflexivity.
  - discriminate Hw.
Qed.

Definition no_config : Sequence.config := Sequence.mk_config 0 0 0 None.

Definition no_env : env :=
  mk_env 0 (fun _ => 0) (fun _ _ => []) (fun _ _ => Finished)
    (fun d => mk_message (data_id d) 0 false (mk_channel 0 false)).

Lemma release_lift t st : lift (release t st) = Sequence.release t (lift st).
Proof.
  open_state st. unfold release, Sequence.release, lift. st_simpl. cbn.
  destruct (slot_is t mass); [|destruct (slot_is t newt); [|destruct (slot_is t oldt)]];
    reflexivity.
Qed.

Lemma finish_lift t ts' st :
  lift (release t (set_trace (trace st ++ [Handled t Finished]) (set_tasks ts' st)))
  = SequenceFacts.finish no_env no_config t (pend ts') (lift st).
Proof.
  rewrite release_lift. open_state st. reflexivity.
Qed.

(** The trace of a run that re-raised [e] after calling [cancel()] on
    every task in [tasks]. *)
Definition raised_with (e : exn) (st : state) : Prop :=
  exists before t,
    trace st = before ++ Handled t (Failed e) :: map Cancelled (pend (tasks st)) /\
    cancelled before = [].

Definition after_done (done : list (task * completion)) (st : state)
    (o : outcome state) : Prop :=
  match o with
  | Running st' =>
      whole st' /\ SequenceFacts.slot_inv (lift st') /\ cancelled (trace st') = [] /\
      (SequenceFacts.measure (lift st') + length done
       <= SequenceFacts.measure (lift st))%nat
  | Raised e st' => caught e = true -> raised_with e st'
  | Crashed e st' => e = ValueError
  | Returned _ | Spinning _ => False
  end.

Lemma handle_done_spec_multiple done : forall st,
  whole st -> SequenceFacts.trace_inv (lift st) -> SequenceFacts.slot_inv (lift st) ->
  cancelled (trace st) = [] ->
  SequenceFacts.trace_inv (lift (outcome_state (handle_done done st))) /\
  after_done done st (handle_done done st).
Proof.
  induction done as [|[t c] rest IH]; intros st Hw Htr Hsl Hq; cbn [handle_done].
  - cbn [outcome_state after_done length].
    split; [assumption|]. split; [assumption|]. split; [assumption|].
    split; [assumption|]. lia.
  - destruct (remove_entry t (tasks st)) as [ts'|] eqn:Hrm.
    2:{ cbn [outcome_state after_done]. split; [assumption | reflexivity]. }
    destruct (remove_entry_pend t (tasks st) ts' Hw Hrm) as (Hrm' & Hw').
    change (pend (tasks st)) with (Sequence.tasks (lift st)) in Hrm'.
    destruct c as [|e].
    + set (st2 := release t _).
      assert (Hl : lift st2 = SequenceFacts.finish no_env no_config t (pend ts') (lift st))
        by apply finish_lift.
      assert (Hw2 : whole st2).
      { unfold st2, whole. open_state st. unfold release. st_simpl.
        destruct (slot_is t mass); [|destruct (slot_is t newt); [|destruct (slot_is t oldt)]];
          exact Hw'. }
      assert (Ht2 : trace st2 = trace st ++ [Handled t Finished]).
      { unfold st2. rewrite release_trace. now destruct st. }
      destruct (IH st2) as (I1 & I2).
      * exact Hw2.
      * rewrite Hl. now apply SequenceFacts.finish_trace_inv.
      * rewrite Hl. now apply SequenceFacts.finish_slot_inv.
      * rewrite Ht2, cancelled_app, Hq. reflexivity.
      * split; [exact I1|].
        pose proof (SequenceFacts.finish_measure no_env no_config t (pend ts') (lift st)
                      (SequenceFacts.remove_task_length _ _ _ Hrm')) as Hm.
        rewrite <- Hl in Hm.
        destruct (handle_done rest st2); cbn [after_done length] in *; auto.
        destruct I2 as (J1 & J2 & J3 & J4).
        split; [assumption|]. split; [assumption|]. split; [assumption|]. lia.
    + set (st1 := set_trace _ (set_tasks ts' st)).
      assert (A : tasks st1 = ts' /\ trace st1 = trace st ++ [Handled t (Failed e)] /\
                  next_serial st1 = next_serial st).
      { unfold st1. now destruct st. }
      destruct A as (A1 & A2 & A3).
      destruct (caught e) eqn:Hcaught.
      * rewrite A1, (cancel_each_whole ts' Hw').
        set (st' := set_trace _ st1).
        assert (B : tasks st' = ts' /\
                    trace st' = (trace st ++ [Handled t (Failed e)]) ++ map Cancelled (pend ts') /\
                    next_serial st' = next_serial st).
        { unfold st'. destruct st1. cbn in *. subst. auto. }
        destruct B as (B1 & B2 & B3).
        cbn [outcome_state after_done]. split.
        -- apply (SequenceFacts.handled_trace_inv (lift st) (lift st') t (Failed e)
                    (pend ts') (pend ts'));
             [exact Htr | exact Hrm' | exact (f_equal pend B1) | exact B2 | exact B3].
        -- intros _. exists (trace st), t. rewrite B2, B1, <- app_assoc.
           split; [reflexivity | exact Hq].
      * cbn [outcome_state after_done]. split; [|intros H; congruence].
        apply (SequenceFacts.handled_trace_inv (lift st) (lift st1) t (Failed e)
                 (pend ts') []);
          [exact Htr | exact Hrm' | exact (f_equal pend A1)
          | cbn [map]; rewrite app_nil_r; exact A2 | exact A3].
Qed.

Lemma handle_done_no_crash_multiple done : forall st,
  whole st -> SequenceFacts.trace_inv (lift st) ->
  NoDup (map (fun d => task_serial (fst d)) done) ->
  (forall d, In d done -> In (task_serial (fst d)) (serials (pend (tasks st)))) ->
  forall e st', handle_done done st <> Crashed e st'.
Proof.
  induction done as [|[t c] rest IH]; intros st Hw Htr Hnd Hin e st'; cbn [handle_done].
  - discriminate.
  - destruct (remove_entry_some t (tasks st) Hw) as (ts' & Hrm).
    { apply (Hin (t, c)). now left. }
    rewrite Hrm.
    destruct (remove_entry_pend t (tasks st) ts' Hw Hrm) as (Hrm' & Hw').
    change (pend (tasks st)) with (Sequence.tasks (lift st)) in Hrm'.
    destruct c as [|e0].
    + set (st2 := release t _).
      assert (Hl : lift st2 = SequenceFacts.finish no_env no_config t (pend ts') (lift st))
        by apply finish_lift.
      assert (Hw2 : whole st2 /\ tasks st2 = ts').
      { unfold st2, whole. open_state st. unfold release. st_simpl.
        destruct (slot_is t mass); [|destruct (slot_is t newt); [|destruct (slot_is t oldt)]];
          split; auto. }
      destruct Hw2 as (Hw2 & Ht2).
      cbn [map fst] in Hnd. inversion Hnd as [|x l Hnotin Hnd' Heq]; clear Hnd.
      apply IH; auto.
      * rewrite Hl. now apply SequenceFacts.finish_trace_inv.
      * intros d Hd. rewrite Ht2.
        pose proof (SequenceFacts.remove_task_perm _ _ _ Hrm') as Hperm.
        assert (Hd' : In (task_serial (fst d)) (serials (pend (tasks st)))).
        { apply Hin. now right. }
        apply (Permutation_in _ Hperm) in Hd'. destruct Hd' as [Hd'|Hd']; [|exact Hd'].
        exfalso. apply Hnotin. rewrite Hd'.
        apply (in_map (fun d => task_serial (fst d))) in Hd. exact Hd.
    + set (st1 := set_trace _ (set_tasks ts' st)).
      assert (A1 : tasks st1 = ts') by (unfold st1; now destruct st).
      destruct (caught e0); [|discriminate].
      rewrite A1, (cancel_each_whole ts' Hw'). discriminate.
Qed.

(** *** One pass of the loop, and runs *)

Record good (st : state) : Prop := mk_good {
  good_whole : whole st;
  good_lift : SequenceFacts.good (lift st)
}.

Definition measure (st : state) : nat := SequenceFacts.measure (lift st).

Lemma submits_good_multiple st st' :
  whole st' -> SequenceFacts.submits (lift st) (lift st') -> good st ->
  good st' /\ (measure st' <= measure st)%nat /\
  handled (trace st') = handled (trace st).
Proof.
  intros Hw Hsub [_ Hg].
  destruct (SequenceFacts.submits_good _ _ Hsub Hg) as (Hg' & Hm & Hh).
  split; [now constructor|]. split; [exact Hm | exact Hh].
Qed.

Lemma good_free_multiple st :
  good st -> tasks st = [] ->
  delete_mass_task st = None /\ delete_new_task st = None /\ delete_old_task st = None.
Proof.
  intros [_ Hg] Ht.
  assert (H : Sequence.tasks (lift st) = []) by (unfold lift; cbn; now rewrite Ht).
  pose proof (SequenceFacts.good_free (lift st) Hg H) as Hf.
  unfold SequenceFacts.delete_slots, lift in Hf. cbn in Hf.
  injection Hf as -> -> ->. auto.
Qed.

Lemma drained_multiple self chan st st' :
  delete_own self chan (delete_old self chan st) = inr st' ->
  delete_mass_task st' = None /\ delete_new_task st' = None /\ delete_old_task st' = None ->
  message_group_new st' = [] ->
  message_group_old st' = [] /\ message_group_old_own st' = [].
Proof.
  open_state st. unfold delete_old, delete_own. st_simpl.
  destruct oldt, newt, old, old_own, new; st_simpl; intros H; try discriminate H;
    injection H as <-; st_simpl; intros (H1 & H2 & H3) H4; try discriminate; auto.
Qed.

Lemma good_handled_nodup st : good st -> NoDup (serials (handled (trace st))).
Proof.
  intros [_ [Htr _ _ _]]. apply SequenceFacts.trace_inv_nodup in Htr.
  now apply NoDup_app_remove_r in Htr.
Qed.

(** What a pass of the loop leaves. *)
Definition after_pass (o : outcome state) : Prop :=
  match o with
  | Running st' => good st'
  | Returned st' =>
      good st' /\ tasks st' = [] /\ message_group_new st' = [] /\
      message_group_old st' = [] /\ message_group_old_own st' = []
  | Raised e st' =>
      SequenceFacts.trace_inv (lift st') /\ (caught e = true -> raised_with e st')
  | Crashed e st' =>
      NoDup (serials (handled (trace st'))) /\
      (e = IndexError \/ e = AttributeError \/ e = ValueError)
  | Spinning _ => False
  end.

(** The pass up to [await]. *)
Lemma before_await_multiple E self chan st :
  good st ->
  (exists e st', loop_body E self chan st = Crashed e st' /\
                 NoDup (serials (handled (trace st'))) /\
                 (e = IndexError \/ e = AttributeError)) \/
  (exists st', loop_body E self chan st = Returned st' /\ good st' /\
               tasks st' = [] /\ message_group_new st' = [] /\
               message_group_old st' = [] /\ message_group_old_own st' = []) \/
  (exists st' n, good st' /\ (measure st' <= measure st)%nat /\
                 pend (tasks st') <> [] /\
                 loop_body E self chan st
                 = handle_done (wait_till_first E n (pend (tasks st'))) st').
Proof.
  intros Hg. unfold loop_body.
  pose proof (delete_new_lift E self chan st (good_whole st Hg)) as H1.
  destruct (delete_new E self chan st) as [e|st1]; [contradiction|].
  destruct H1 as (Hw1 & Hs1).
  destruct (submits_good_multiple _ _ Hw1 Hs1 Hg) as (Hg1 & Hm1 & Hh1).
  destruct (delete_old_lift self chan st1 Hw1) as (Hw2 & Hs2).
  destruct (submits_good_multiple _ _ Hw2 Hs2 Hg1) as (Hg2 & Hm2 & Hh2).
  set (st2 := delete_old self chan st1) in *.
  pose proof (delete_own_lift self chan st2 Hw2) as H3.
  destruct (delete_own self chan st2) as [e|st3] eqn:Hown.
  { left. exists e, st2. split; [reflexivity|]. split; [now apply good_handled_nodup|].
    left. exact H3. }
  destruct H3 as (Hw3 & Hs3).
  destruct (submits_good_multiple _ _ Hw3 Hs3 Hg2) as (Hg3 & Hm3 & Hh3).
  pose proof (last_resort_lift E self chan st3 Hw3 (good_free_multiple st3 Hg3)) as H4.
  destruct (last_resort self chan st3) as [st4|].
  - destruct H4 as [(Hw4 & Hne & Hs4) | (Haw & Hh4)].
    + right. right.
      destruct (submits_good_multiple _ _ Hw4 Hs4 Hg3) as (Hg4 & Hm4 & Hh4).
      unfold await_first. rewrite Hw4. cbn [ret].
      exists (set_awaits (S (awaits st4)) st4), (awaits st4).
      assert (Hsame : lift (set_awaits (S (awaits st4)) st4) = lift st4
                      /\ tasks (set_awaits (S (awaits st4)) st4) = tasks st4)
        by (now destruct st4).
      destruct Hsame as (Hl & Ht).
      split.
      { constructor; [unfold whole; rewrite Ht; exact Hw4 | rewrite Hl; apply Hg4]. }
      split; [unfold measure in *; rewrite Hl; lia|].
      rewrite Ht. split; [|reflexivity].
      clear - Hw4 Hne. unfold whole in Hw4. intros Hp. apply Hne.
      revert Hw4 Hp. destruct (tasks st4) as [|[u|] r]; intros Hw4 Hp;
        [reflexivity | discriminate Hp | discriminate Hw4].
    + left. exists AttributeError, st4. rewrite Haw. split; [reflexivity|].
      split; [rewrite Hh4; now apply good_handled_nodup | now right].
  - right. left. destruct H4 as (Ht & Hn). exists st3.
    split; [reflexivity|]. split; [exact Hg3|]. split; [exact Ht|]. split; [exact Hn|].
    apply (drained_multiple self chan st1 st3 Hown); [now apply good_free_multiple | exact Hn].
Qed.

Lemma loop_body_spec_multiple E self chan st : good st -> after_pass (loop_body E self chan st).
Proof.
  intros Hg.
  destruct (before_await_multiple E self chan st Hg)
    as [(e & st' & -> & Hn & He) | [(st' & -> & H) | (st' & n & Hg' & Hm & Hne & ->)]].
  - cbn. split; [exact Hn | tauto].
  - cbn. exact H.
  - destruct Hg' as [Hw [G1 G2 G3 G4]].
    destruct (handle_done_spec_multiple (wait_till_first E n (pend (tasks st'))) st' Hw G1 G2 G3)
      as (I1 & I2).
    pose proof (handle_done_sized (wait_till_first E n (pend (tasks st'))) st' G4) as Hsz.
    destruct (handle_done _ st') as [s|s|e s|e s|s];
      cbn [after_pass after_done outcome_state] in *; try contradiction.
    + destruct I2 as (J1 & J2 & J3 & _).
      constructor; [exact J1|]. constructor; auto.
    + split; assumption.
    + split; [|now right; right].
      apply SequenceFacts.trace_inv_nodup in I1. now apply NoDup_app_remove_r in I1.
Qed.

(** With [WaitTillFirst] keeping its contract, a pass after which the loop
    goes on makes the measure smaller, and [tasks.remove] never fails. *)
Lemma loop_body_progress_multiple E self chan st :
  wait_contract E -> good st ->
  match loop_body E self chan st with
  | Running st' => (measure st' < measure st)%nat
  | Crashed e _ => e = IndexError \/ e = AttributeError
  | Spinning _ => False
  | _ => True
  end.
Proof.
  intros Hwait Hg.
  destruct (before_await_multiple E self chan st Hg)
    as [(e & st' & -> & Hn & He) | [(st' & -> & H) | (st' & n & Hg' & Hm & Hne & ->)]];
    [exact He | exact I |].
  destruct (Hwait n (pend (tasks st')) Hne) as (W1 & W2 & W3).
  destruct Hg' as [Hw [G1 G2 G3 G4]].
  destruct (handle_done_spec_multiple (wait_till_first E n (pend (tasks st'))) st' Hw G1 G2 G3)
    as (_ & I2).
  pose proof (handle_done_no_crash_multiple (wait_till_first E n (pend (tasks st'))) st' Hw G1 W2)
    as Hnc.
  destruct (handle_done _ st') as [s|s|e s|e s|s] eqn:Hd;
    cbn [after_done] in I2; try contradiction; auto.
  - destruct I2 as (_ & _ & _ & J).
    destruct (wait_till_first E n (pend (tasks st'))); [congruence|].
    cbn [length] in J. unfold measure in *. lia.
  - exfalso. eapply Hnc; [|reflexivity].
    intros d Hd'. apply in_map. now apply W3.
Qed.

Lemma run_spec_multiple E self chan fuel : forall st,
  good st -> after_pass (run E self chan fuel st).
Proof.
  induction fuel as [|n IH]; intros st Hg; cbn [run]; [exact Hg|].
  pose proof (loop_body_spec_multiple E self chan st Hg) as H.
  destruct (loop_body E self chan st) as [s|s|e s|e s|s]; cbn [after_pass] in *; auto.
Qed.

Lemma run_ends_multiple E self chan : wait_contract E -> forall fuel st,
  good st -> (measure st < fuel)%nat ->
  match run E self chan fuel st with
  | Returned _ | Raised _ _ => True
  | Crashed e _ => e = IndexError \/ e = AttributeError
  | _ => False
  end.
Proof.
  intros Hw. induction fuel as [|n IH]; intros st Hg Hm; [lia|]. cbn [run].
  pose proof (loop_body_progress_multiple E self chan st Hw Hg) as Hp.
  pose proof (loop_body_spec_multiple E self chan st Hg) as Hs.
  destruct (loop_body E self chan st) as [s|s|e s|e s|s]; auto.
  apply IH; [exact Hs | lia].
Qed.

Lemma entry_good E self messages : good (MultipleFacts.entry E self messages).
Proof.
  unfold MultipleFacts.entry.
  destruct (classify self _ messages [] [] []) as [[new old] old_own].
  constructor; [reflexivity|].
  constructor; [constructor | constructor | |]; cbn;
    auto using NoDup_nil, incl_nil_l.
Qed.

Lemma entry_measure E self messages :
  (measure (MultipleFacts.entry E self messages) <= length messages)%nat.
Proof.
  unfold MultipleFacts.entry.
  assert (H : forall new old old_own,
             match classify self (id_limit (DISCORD_EPOCH E) (time_now E 0) TWO_WEEKS_MS)
                     messages new old old_own with
             | (new', old', old_own') =>
                 (length new' + length old' + length old_own'
                  <= length new + length old + length old_own + length messages)%nat
             end).
  { induction messages as [|m rest IH]; intros new old old_own; cbn [classify length].
    - lia.
    - destruct (message_deleted m).
      + specialize (IH new old old_own). destruct (classify _ _ rest _ _ _) as [[a b] c]. lia.
      + destruct (message_id m >? _).
        * specialize (IH (new ++ [(message_author m =? self, message_id m)]) old old_own).
          destruct (classify _ _ rest _ _ _) as [[a b] c].
          rewrite length_app in IH. cbn [length] in IH. lia.
        * destruct (message_author m =? self).
          -- specialize (IH new old (old_own ++ [message_id m])).
             destruct (classify _ _ rest _ _ _) as [[a b] c].
             rewrite length_app in IH. cbn [length] in IH. lia.
          -- specialize (IH new (old ++ [message_id m]) old_own).
             destruct (classify _ _ rest _ _ _) as [[a b] c].
             rewrite length_app in IH. cbn [length] in IH. lia. }
  specialize (H [] [] []).
  destruct (classify self _ messages [] [] []) as [[new old] old_own].
  unfold measure, SequenceFacts.measure, SequenceFacts.queued, SequenceFacts.to_fetch,
    SequenceFacts.credit, lift. cbn in *. lia.
Qed.


End MultipleLoop.

(** * The claims *)

(** C10.  For a non-empty list of messages whose channel (the channel of
    the first message) is not a guild channel, [message_delete_multiple]
    creates no task and issues no bulk delete request: it awaits one
    [http.message_delete] request per message, in the order of the list,
    the next one only when the one before has succeeded.  Either all of them
    succeed and the function returns, or the first failure is raised and
    nothing is requested for the messages after it. *)
Theorem non_guild_messages_are_deleted_one_at_a_time
    (E : env) (self : Z) (fuel : nat) (first : Message) (rest : list Message)
    (Hguild : channel_is_guild (message_channel first) = false) :
  let chan := channel_id (message_channel first) in
  let o := Multiple.message_delete_multiple E self fuel (first :: rest) in
  let tr := Multiple.trace (outcome_state o) in
  sent tr = [] /\
  (forall c ids, ~ In (http_message_delete_multiple c ids) (requests tr)) /\
  ((exists st, o = Returned st /\
               tr = MultipleFacts.calls chan (first :: rest)) \/
   (exists pre m post e st,
       first :: rest = pre ++ m :: post /\ o = Raised e st /\
       tr = MultipleFacts.calls chan pre
              ++ [Called (http_message_delete chan (message_id m)) (Failed e)])).
Proof.
  intros chan o tr.
  assert (Ho : o = Multiple.delete_each E chan (first :: rest) Multiple.empty).
  { unfold o, Multiple.message_delete_multiple. now rewrite Hguild. }
  destruct (MultipleFacts.delete_each_trace E chan (first :: rest) Multiple.empty)
    as [(st' & Hr & Ht) | (pre & m & post & e & st' & Hm & Hr & Ht)].
  - assert (Htr : tr = MultipleFacts.calls chan (first :: rest)).
    { unfold tr. rewrite Ho, Hr. simpl outcome_state. rewrite Ht. reflexivity. }
    split; [rewrite Htr; apply MultipleFacts.sent_calls|].
    split.
    + intros c ids Hin. rewrite Htr, MultipleFacts.requests_calls in Hin.
      apply in_map_iff in Hin. destruct Hin as (x & Hx & _). discriminate.
    + left. exists st'. split; [congruence | exact Htr].
  - assert (Htr : tr = MultipleFacts.calls chan pre
                    ++ [Called (http_message_delete chan (message_id m)) (Failed e)]).
    { unfold tr. rewrite Ho, Hr. simpl outcome_state. rewrite Ht. reflexivity. }
    split.
    { rewrite Htr, sent_app, MultipleFacts.sent_calls. reflexivity. }
    split.
    + intros c ids Hin. rewrite Htr, requests_app, MultipleFacts.requests_calls in Hin.
      apply in_app_or in Hin. destruct Hin as [Hin | Hin].
      * apply in_map_iff in Hin. destruct Hin as (x & Hx & _). discriminate.
      * simpl in Hin. destruct Hin as [Hin | []]. discriminate.
    + right. exists pre, m, post, e, st'. split; [exact Hm|].
      split; [congruence | exact Htr].
Qed.

Definition private_channel : Channel := mk_channel 7 false.

Definition quiet_env : env :=
  mk_env 1420070400000 (fun _ => 1700000000000)
    (fun _ ts => match ts with [] => [] | t :: _ => [(t, Finished)] end)
    (fun _ _ => Finished)
    (fun d => mk_message (data_id d) 0 false private_channel).

Lemma non_guild_messages_witness :
  sent (Multiple.trace
          (outcome_state
             (Multiple.message_delete_multiple quiet_env 1 5
                [mk_message 11 1 false private_channel;
                 mk_message 12 2 false private_channel])))
  = [].
Proof.
  exact (proj1 (non_guild_messages_are_deleted_one_at_a_time quiet_env 1 5
                  (mk_message 11 1 false private_channel)
                  [mk_message 12 2 false private_channel] eq_refl)).
Defined.

(** A clock that stands still, and an event loop in which the task created
    last is the first to finish. *)
Definition late_env : env :=
  mk_env 1420070400000 (fun _ => 1700000000000)
    (fun _ ts => match rev ts with [] => [] | t :: _ => [(t, Finished)] end)
    (fun _ _ => Finished)
    (fun d => mk_message (data_id d) 0 false private_channel).

(** An event loop in which the first task of the list fails. *)
Definition failing_env : env :=
  mk_env 1420070400000 (fun _ => 1700000000000)
    (fun _ ts => match ts with [] => [] | t :: _ => [(t, Failed ConnectionError)] end)
    (fun _ _ => Failed ConnectionError)
    (fun d => mk_message (data_id d) 0 false private_channel).

Lemma quiet_env_contract : wait_contract quiet_env.
Proof.
  intros n [|t ts] Hne; [congruence|]. cbn.
  split; [discriminate|]. split.
  - constructor; [intros [] | constructor].
  - intros d [<- | []]. now left.
Qed.

Definition a_config : Sequence.config := Sequence.mk_config 1 7 0 None.

(** The id of a message sent [age_ms] milliseconds before the reading of
    the standing clock. *)
Definition id_aged (age_ms : Z) : Z := id_limit 1420070400000 1700000000000 age_ms.

(** C4, as amended.  With [WaitTillFirst] keeping its contract, the loop of
    [message_delete_sequence] is left after finitely many passes, whatever
    the queues and the pages still to come are: more passes than the
    measure of the first state (the messages queued, the tasks pending, the
    messages of the pages to come, and two per page to come plus two while
    requests are allowed) are never run.  The loop is left by [break], with
    no task pending and the three queues empty, or by the exception of a
    task.  A pass after which the loop goes on took at least one finished
    task out of [tasks], and the measure is smaller after it. *)
Theorem scheduler_loop_terminates
    (E : env) (C : Sequence.config) (Hwait : wait_contract E)
    (should_request : bool) (last_message_id limit : Z)
    (new : list (bool * Z)) (old old_own : list Z)
    (history : list (list message_data)) :
  let st0 := Sequence.start should_request last_message_id limit new old old_own history in
  (forall fuel, (SequenceFacts.measure st0 < fuel)%nat ->
     (exists st, Sequence.run E C fuel st0 = Returned st /\
                 Sequence.tasks st = [] /\ Sequence.message_group_new st = [] /\
                 Sequence.message_group_old st = [] /\
                 Sequence.message_group_old_own st = []) \/
     (exists e st, Sequence.run E C fuel st0 = Raised e st)) /\
  (forall passes st st',
     Sequence.run E C passes st0 = Running st ->
     Sequence.loop_body E C st = Running st' ->
     (SequenceFacts.measure st' < SequenceFacts.measure st)%nat /\
     (length (handled (Sequence.trace st)) < length (handled (Sequence.trace st')))%nat).
Proof.
  intros st0.
  pose proof (SequenceFacts.start_good should_request last_message_id limit
                new old old_own history) as Hg0.
  fold st0 in Hg0. split.
  - intros fuel Hfuel.
    pose proof (SequenceFacts.run_ends E C Hwait fuel st0 Hg0 Hfuel) as Hend.
    pose proof (SequenceFacts.run_spec E C fuel st0 Hg0) as Hspec.
    destruct (Sequence.run E C fuel st0) as [s|s|e s|e s|s]; try contradiction.
    + left. exists s. split; [reflexivity|]. cbn in Hspec. tauto.
    + right. exists e, s. reflexivity.
  - intros passes st st' Hrun Hbody.
    pose proof (SequenceFacts.run_spec E C passes st0 Hg0) as Hspec.
    rewrite Hrun in Hspec. cbn in Hspec.
    pose proof (SequenceFacts.loop_body_progress E C st Hwait Hspec) as Hp.
    rewrite Hbody in Hp. exact Hp.
Qed.

Lemma quiet_run_returns :
  exists st,
    Sequence.run quiet_env a_config 6
      (Sequence.start true 1000 50 [(false, id_aged 0)] [5] [6] [])
    = Returned st.
Proof. eexists. vm_compute. reflexivity. Qed.

Lemma scheduler_loop_terminates_witness :
  exists st,
    Sequence.run quiet_env a_config 6
      (Sequence.start true 1000 50 [(false, id_aged 0)] [5] [6] [])
    = Returned st /\
    Sequence.tasks st = [] /\ Sequence.message_group_new st = [] /\
    Sequence.message_group_old st = [] /\ Sequence.message_group_old_own st = [].
Proof.
  destruct (proj1 (scheduler_loop_terminates quiet_env a_config quiet_env_contract
                     true 1000 50 [(false, id_aged 0)] [5] [6] [])
              6%nat ltac:(vm_compute; lia))
    as [H | (e & st & H)].
  - exact H.
  - destruct quiet_run_returns as (st' & H'). rewrite H' in H. discriminate H.
Defined.

(** What C4 says of each pass, as it is written: the pass shrinks one of
    the three queues, or takes a page of the history, or leaves the loop. *)
Definition shrinks_or_leaves (E : env) (C : Sequence.config) (st : Sequence.state) : Prop :=
  match Sequence.loop_body E C st with
  | Running st' =>
      (length (Sequence.message_group_new st') < length (Sequence.message_group_new st))%nat \/
      (length (Sequence.message_group_old st') < length (Sequence.message_group_old st))%nat \/
      (length (Sequence.message_group_old_own st')
       < length (Sequence.message_group_old_own st))%nat \/
      (length (Sequence.history st') < length (Sequence.history st))%nat
  | _ => True
  end.

Lemma late_env_contract : wait_contract late_env.
Proof.
  intros n ts Hne. cbn.
  destruct (rev ts) as [|t r] eqn:Hrev.
  - apply (f_equal (@rev task)) in Hrev. rewrite rev_involutive in Hrev. contradiction.
  - split; [discriminate|]. split.
    + constructor; [intros [] | constructor].
    + intros d [<- | []]. cbn. apply in_rev. rewrite Hrev. now left.
Qed.

Lemma late_run_idles :
  exists st st',
    Sequence.run late_env a_config 1
      (Sequence.start true 1000 50 [] [5] [6] [[mk_message_data 3 None]])
    = Running st /\
    Sequence.loop_body late_env a_config st = Running st' /\
    length (Sequence.message_group_new st') = length (Sequence.message_group_new st) /\
    length (Sequence.message_group_old st') = length (Sequence.message_group_old st) /\
    length (Sequence.message_group_old_own st')
    = length (Sequence.message_group_old_own st) /\
    length (Sequence.history st') = length (Sequence.history st).
Proof.
  do 2 eexists. split; [vm_compute; reflexivity|].
  split; [vm_compute; reflexivity|].
  vm_compute. repeat split.
Qed.

(** After a first pass that starts a history request and two deletions and
    takes one of the deletions out, the second pass has nothing to start: it
    takes the other deletion out while the history request is still on its
    way.  No queue got shorter (all three were empty), no page was taken. *)
Lemma a_pass_only_takes_a_task_out :
  ~ (forall E C should_request last_message_id limit new old old_own history passes st,
        wait_contract E ->
        Sequence.run E C passes
          (Sequence.start should_request last_message_id limit new old old_own history)
        = Running st ->
        shrinks_or_leaves E C st).
Proof.
  intros H.
  destruct late_run_idles as (st & st' & Hrun & Hbody & H1 & H2 & H3 & H4).
  specialize (H late_env a_config true 1000 50 [] [5] [6] [[mk_message_data 3 None]]
                1%nat st late_env_contract Hrun).
  unfold shrinks_or_leaves in H. rewrite Hbody in H.
  destruct H as [H | [H | [H | H]]]; lia.
Qed.

(** C8, as amended.  The queues are first in, first out: a message of a
    page joins the end of its queue, the batch of a bulk request is made of
    the messages at the head of [message_group_new] in their order, and the
    requests for old messages take the head of their queue.  When the walk
    at the end of the submission moves messages out of [message_group_new]
    (the messages behind the last one that is above the limit), they keep
    their order and are put, as a block, in front of the messages that
    already wait in their new queue: they join its head, not its tail.  The
    function for several clients does the same with the messages that none
    of the clients wrote. *)
Theorem reclassified_messages_keep_their_order :
  (forall C time_limit author_id st,
      exists to_new to_old to_old_own,
        let st' := snd (Sequence.enqueue C time_limit author_id st) in
        Sequence.message_group_new st' = Sequence.message_group_new st ++ to_new /\
        Sequence.message_group_old st' = Sequence.message_group_old st ++ to_old /\
        Sequence.message_group_old_own st'
        = Sequence.message_group_old_own st ++ to_old_own /\
        (length to_new + length to_old + length to_old_own = 1)%nat) /\
  (forall collected q,
      (collected <= length q)%nat ->
      Sequence.pop_collected collected q []
      = inr (map snd (firstn collected q), skipn collected q)) /\
  (forall C st id r,
      Sequence.message_group_old st = id :: r -> Sequence.delete_old_task st = None ->
      Sequence.message_group_old (Sequence.delete_old C st) = r /\
      requests (Sequence.trace (Sequence.delete_old C st))
      = requests (Sequence.trace st) ++ [http_message_delete_b2wo (Sequence.chan C) id]) /\
  (forall C st id r,
      Sequence.message_group_old_own st = id :: r -> Sequence.delete_new_task st = None ->
      Sequence.message_group_old_own (Sequence.delete_old_own C st) = r /\
      requests (Sequence.trace (Sequence.delete_old_own C st))
      = requests (Sequence.trace st) ++ [http_message_delete (Sequence.chan C) id]) /\
  (forall time_limit new old old_own,
      exists keep moved,
        QueueFacts.cut time_limit new keep moved /\
        Sequence.move_aged time_limit (length new) new old old_own
        = inr (keep, QueueFacts.of_others moved ++ old,
               QueueFacts.of_own moved ++ old_own)) /\
  (forall time_limit new old old_own,
      exists keep moved old_own',
        new = keep ++ moved /\
        Forall (fun x => snd x <= time_limit) moved /\
        (keep = [] \/ exists k x, keep = k ++ [x] /\ snd x > time_limit) /\
        MultiClient.move_aged time_limit (length new) new old old_own
        = inr (keep, QueueFacts.of_nobody moved ++ old, old_own')).
Proof.
  split; [|split; [|split; [|split; [|split]]]].
  - intros C time_limit author_id st. cbv zeta.
    apply SequenceFacts.enqueue_appends.
  - intros collected q Hc. now rewrite QueueFacts.pop_collected_firstn.
  - intros C st id r Hq Hfree.
    destruct st as [sr last lim new old old_own ts get mass newt oldt hist next reads aw tr].
    cbn in Hq, Hfree. subst. unfold Sequence.delete_old. cbn.
    split; [reflexivity|]. now rewrite requests_app.
  - intros C st id r Hq Hfree.
    destruct st as [sr last lim new old old_own ts get mass newt oldt hist next reads aw tr].
    cbn in Hq, Hfree. subst. unfold Sequence.delete_old_own. cbn.
    split; [reflexivity|]. now rewrite requests_app.
  - intros. apply QueueFacts.move_aged_cut.
  - intros. apply QueueFacts.multi_move_aged_old.
Qed.

Lemma reclassified_messages_witness :
  Sequence.pop_collected 2 [(true, 30); (false, 20); (false, 10)] []
  = inr ([30; 20], [(false, 10)]).
Proof.
  apply (proj1 (proj2 reclassified_messages_keep_their_order)
           2%nat [(true, 30); (false, 20); (false, 10)]).
  cbn. lia.
Defined.

(** C8 as it is written fails: the message moved out of
    [message_group_new] is put in front of the message that waits in
    [message_group_old], not behind it. *)
Lemma a_moved_message_joins_the_head :
  Sequence.move_aged 50 1 [(false, 10)] [99] [] = inr ([], [10; 99], []) /\
  [10; 99] <> [99] ++ [10].
Proof. split; [reflexivity | discriminate]. Qed.




(** ** Where the code departs from the claims *)

Definition guild_channel : Channel := mk_channel 7 true.

(** C1 fails on [message_delete_multiple].  A message of another author
    that is one millisecond younger than two weeks is put in
    [message_group_new]; the pass before the bulk request finds it more than
    [MARGIN_STEP] below the limit of two weeks minus 10 seconds and lets go
    of it (3785-3786): the function returns without any request for it. *)
Lemma an_aged_message_is_let_go_of :
  let message := mk_message (id_aged TWO_WEEKS_MS + 4194304) 2 false guild_channel in
  Multiple.classify 1 (id_aged TWO_WEEKS_MS) [message] [] [] []
  = ([(false, message_id message)], [], []) /\
  Multiple.revalidate (id_aged TWO_WEEKS_MARGIN_MS) [(false, message_id message)]
    [] 0 [] []
  = ([], 0%nat, [], [], []) /\
  exists st,
    Multiple.message_delete_multiple quiet_env 1 5 [message] = Returned st /\
    requests (Multiple.trace st) = [].
Proof.
  cbv zeta. split; [reflexivity|]. split; [reflexivity|].
  eexists. split; reflexivity.
Qed.

(** The tasks created and not yet taken out of [done] after a trace. *)
Definition pending_after (tr : list event) : list task :=
  fold_left
    (fun pending ev =>
       match ev with
       | Sent t => pending ++ [t]
       | Handled t _ => List.filter (fun u => negb (task_is t u)) pending
       | _ => pending
       end)
    tr [].

(** The rate limit a request falls under. *)
Inductive endpoint : Type :=
| bulk_delete
| single_delete
| polite_delete
| history_request.

Definition endpoint_of (r : request) : endpoint :=
  match r with
  | http_message_delete _ _ | http_message_delete_of_deque _ => single_delete
  | http_message_delete_b2wo _ _ => polite_delete
  | http_message_delete_multiple _ _ => bulk_delete
  | http_message_logs _ _ => history_request
  end.

Definition multi_config : MultiClient.config := MultiClient.mk_config 7 0 None.

(** Two clients that may both manage messages and read the history. *)
Definition two_managers : list MultiClient.sharder :=
  [MultiClient.mk_sharder 10 true true None None None;
   MultiClient.mk_sharder 20 true true None None None].

(** C2 fails on [multi_client_message_delete_sequence].  One new message
    of an unknown author is cached and the history holds another one.  The
    first pass gives the cached message to the first client
    ([delete_new_task]); the history request finishes first.  In the second
    pass the test of 4436 reads [delete_new_task] of the second client, which
    is free, and the first client is given a second [http.message_delete]
    task while its first one is still pending: [delete_new_task] of the first
    client is overwritten. *)
Lemma a_busy_client_is_given_a_second_task :
  let st0 := MultiClient.start two_managers true 1000 50 [(-1, id_aged 0)] [] []
               [[mk_message_data (id_aged 1000) None]] in
  exists st1 st2 t1 t2,
    MultiClient.run quiet_env multi_config 1 st0 = Running st1 /\
    MultiClient.run quiet_env multi_config 2 st0 = Running st2 /\
    option_map MultiClient.delete_new_task (nth_error (MultiClient.sharders st1) 0)
    = Some (Some t1) /\
    MultiClient.tasks st1 = [t1] /\
    option_map MultiClient.delete_new_task (nth_error (MultiClient.sharders st2) 0)
    = Some (Some t2) /\
    pending_after (firstn 4 (MultiClient.trace st2)) = [t1; t2] /\
    task_serial t1 <> task_serial t2 /\
    task_client t1 = 10 /\ task_client t2 = 10 /\
    endpoint_of (task_request t1) = single_delete /\
    endpoint_of (task_request t2) = single_delete.
Proof.
  cbv zeta. do 4 eexists.
  split; [vm_compute; reflexivity|].
  split; [vm_compute; reflexivity|].
  split; [vm_compute; reflexivity|].
  split; [vm_compute; reflexivity|].
  split; [vm_compute; reflexivity|].
  split; [vm_compute; reflexivity|].
  split; [vm_compute; discriminate|].
  repeat split.
Qed.

(** One client that can only read the history, one that can only delete. *)
Definition reader_and_deleter : list MultiClient.sharder :=
  [MultiClient.mk_sharder 10 false true None None None;
   MultiClient.mk_sharder 20 true false None None None].

(** Two clients that can read the history, the second of which can also
    delete. *)
Definition two_readers : list MultiClient.sharder :=
  [MultiClient.mk_sharder 10 false true None None None;
   MultiClient.mk_sharder 20 true true None None None].

Definition full_page (first : Z) : list message_data :=
  map (fun k => mk_message_data (first - Z.of_nat k) None) (seq 0 100).

Definition history_clients (tr : list event) : list Z :=
  flat_map (fun t => match task_request t with
                     | http_message_logs _ _ => [task_client t]
                     | _ => []
                     end) (sent tr).

(** C6 fails on [multi_client_message_delete_sequence].  The old message of
    an unknown author is handed to the first sharder whose [delete_old_task]
    is free (4497-4498), here the client that cannot manage messages; and
    the history requests all go to the first client that can read, since
    [get_mass_task_next] stays where the search stopped (4389-4398). *)
Lemma requests_go_to_the_wrong_client :
  (exists st t,
      MultiClient.loop_body quiet_env multi_config
        (MultiClient.start reader_and_deleter false 1000 50 [] [5] [] [])
      = Running st /\
      sent (MultiClient.trace st) = [t] /\
      task_request t = http_message_delete_b2wo 7 5 /\
      task_client t = 10 /\
      option_map MultiClient.can_manage_messages
        (nth_error reader_and_deleter 0) = Some false) /\
  (exists st,
      MultiClient.run quiet_env multi_config 3
        (MultiClient.start two_readers true 1000 500 [] [] []
           [full_page 900; full_page 800; []])
      = Running st /\
      history_clients (MultiClient.trace st) = [10; 10; 10]).
Proof.
  split.
  - do 2 eexists. split; [vm_compute; reflexivity|]. repeat split.
  - eexists. split; [vm_compute; reflexivity|]. vm_compute. reflexivity.
Qed.

(** What [task.exception()] is for the task of a group of messages: the
    exception that left [message_delete_multiple], if any. *)
Definition exception_of (o : outcome Multiple.state) : option exn :=
  match o with
  | Raised e _ | Crashed e _ => Some e
  | _ => None
  end.

Lemma collect_exceptions_only_itself task_exception tasks : forall exceptions e,
  ~ In (Multiple2.an_exception e) exceptions ->
  ~ In (Multiple2.an_exception e)
      (Multiple2.collect_exceptions task_exception tasks exceptions).
Proof.
  induction tasks as [|t r IH]; intros exceptions e Hn; cbn; [exact Hn|].
  destruct (task_exception t); apply IH; [|exact Hn].
  intros Hin. apply in_app_or in Hin. destruct Hin as [Hin | [Hin | []]];
    [now apply Hn | discriminate].
Qed.

(** C7 fails on [message_delete_multiple2]: 3912 appends the list
    [exceptions] to itself where the exception belongs.  The request for a
    new message of a guild fails with [ConnectionError]; the list returned
    holds itself and no exception, and no list the function returns ever
    holds an exception. *)
Lemma no_exception_is_returned :
  let message := mk_message (id_aged 0) 2 false guild_channel in
  let task_exception :=
    fun messages => exception_of (Multiple.message_delete_multiple failing_env 1 5 messages) in
  task_exception [message] = Some ConnectionError /\
  Multiple2.message_delete_multiple2 task_exception [message]
  = Some [Multiple2.the_list_itself] /\
  forall task_exception messages exceptions e,
    Multiple2.message_delete_multiple2 task_exception messages = Some exceptions ->
    ~ In (Multiple2.an_exception e) exceptions.
Proof.
  cbv zeta. split; [vm_compute; reflexivity|]. split; [vm_compute; reflexivity|].
  intros task_exception messages exceptions e H.
  unfold Multiple2.message_delete_multiple2 in H.
  pose proof (collect_exceptions_only_itself task_exception
                (map snd (Multiple2.group_by_channel messages)) [] e (fun x => x)) as Hn.
  destruct (Multiple2.collect_exceptions _ _ []) as [|x l]; [discriminate|].
  now injection H as <-.
Qed.

(** The messages on which C3 fails: 101 recent messages of another author
    and one message of the client that is older than two weeks, all of one
    guild channel. *)
Definition a_hundred_and_one_and_an_old_one : list Message :=
  map (fun k => mk_message (id_aged 0 + Z.of_nat k) 2 false guild_channel) (seq 0 101)
  ++ [mk_message (id_aged (TWO_WEEKS_MS + 60000)) 1 false guild_channel].

(** C3 fails on [message_delete_multiple].  The first pass sends the first
    hundred recent messages in a bulk request and, [delete_new_task] being
    free, the old message of the client in a [http.message_delete] request
    (3814-3825).  The bulk request finishes first.  The second pass pops the
    101st message, the only one left in [message_group_new], so
    [message_count] is 1; [delete_new_task] is still pending, so 3799 makes
    no request, and the message is in no queue any more: the function
    returns without any request for it.  [message_delete_sequence] pops the
    single message only when [delete_new_task] is free (4061-4066). *)
Lemma a_lone_collected_message_is_lost :
  let messages := a_hundred_and_one_and_an_old_one in
  let lone := id_aged 0 + 100 in
  nth_error (map message_id messages) 100 = Some lone /\
  exists st,
    Multiple.message_delete_multiple quiet_env 1 5 messages = Returned st /\
    requests (Multiple.trace st)
    = [http_message_delete_multiple 7 (map message_id (firstn 100 messages));
       http_message_delete 7 (id_aged (TWO_WEEKS_MS + 60000))] /\
    ~ In lone (map message_id (firstn 100 messages)) /\
    lone <> id_aged (TWO_WEEKS_MS + 60000) /\
    Multiple.message_group_new st = [] /\ Multiple.message_group_old st = [] /\
    Multiple.message_group_old_own st = [].
Proof.
  cbv zeta. split; [vm_compute; reflexivity|].
  eexists. split; [vm_compute; reflexivity|].
  split; [vm_compute; reflexivity|].
  split.
  { intros H.
    assert (Hb : existsb (Z.eqb (id_aged 0 + 100))
                   (map message_id (firstn 100 a_hundred_and_one_and_an_old_one)) = true).
    { apply existsb_exists. exists (id_aged 0 + 100). split; [exact H | apply Z.eqb_refl]. }
    vm_compute in Hb. discriminate Hb. }
  split; [vm_compute; discriminate|].
  repeat split; reflexivity.
Qed.

(** An event loop in which the request to delete message 11 is answered
    with a [DiscordException] (the message is not there any more) and every
    other request succeeds. *)
Definition unknown_message_env : env :=
  mk_env 1420070400000 (fun _ => 1700000000000)
    (fun _ ts => match ts with [] => [] | t :: _ => [(t, Finished)] end)
    (fun _ r =>
       match r with
       | http_message_delete _ 11 => Failed DiscordException
       | _ => Finished
       end)
    (fun d => mk_message (data_id d) 0 false private_channel).

(** C9 fails on [message_delete_multiple].  In a channel that is not of a
    guild there is no classification: 3730-3731 request the deletion of
    every message of the list, deleted or not, and the exception of the
    request for the deleted one leaves the function before the next message
    is reached.  [message_delete] (3684) and the classification for guild
    channels (3742) pass over deleted messages. *)
Lemma a_deleted_message_is_requested_outside_a_guild :
  let deleted := mk_message 11 2 true private_channel in
  let other := mk_message 12 2 false private_channel in
  (forall E self fuel,
      requests (Multiple.trace
                  (outcome_state
                     (Multiple.message_delete_multiple E self fuel [deleted])))
      = [http_message_delete 7 11]) /\
  (exists st,
     Multiple.message_delete_multiple unknown_message_env 1 5 [deleted; other]
     = Raised DiscordException st /\
     requests (Multiple.trace st) = [http_message_delete 7 11]) /\
  exists st,
    Multiple.message_delete_multiple unknown_message_env 1 5 [other] = Returned st /\
    requests (Multiple.trace st) = [http_message_delete 7 12].
Proof.
  cbv zeta. split; [|split].
  - intros E self fuel. cbn. destruct (await_request E _ _); reflexivity.
  - eexists. split; reflexivity.
  - eexists. split; reflexivity.
Qed.

(** * More of [message_delete_multiple] *)

Module MultipleRuns.
Import Multiple.


Lemma cancelled_calls chan messages : cancelled (MultipleFacts.calls chan messages) = [].
Proof. induction messages; simpl; auto. Qed.


Lemma delete_each_queues E chan messages : forall st,
  let st' := outcome_state (delete_each E chan messages st) in
  tasks st' = tasks st /\ message_group_new st' = message_group_new st /\
  message_group_old st' = message_group_old st /\
  message_group_old_own st' = message_group_old_own st.
Proof.
  induction messages as [|m rest IH]; intros st; cbn [delete_each]; [cbn; auto|].
  set (st1 := set_trace _ _).
  assert (H1 : tasks st1 = tasks st /\ message_group_new st1 = message_group_new st /\
               message_group_old st1 = message_group_old st /\
               message_group_old_own st1 = message_group_old_own st)
    by (unfold st1; now destruct st).
  destruct (await_request E (awaits st) _); [|exact H1].
  destruct (IH st1) as (A & B & C & D). destruct H1 as (A' & B' & C' & D').
  cbv zeta. repeat split; congruence.
Qed.

(** What [message_delete_multiple] is, by the channel of the first
    message. *)
Lemma message_delete_multiple_cases E self fuel messages :
  messages = [] /\ message_delete_multiple E self fuel messages = Returned empty \/
  (exists first rest,
      messages = first :: rest /\
      channel_is_guild (message_channel first) = false /\
      message_delete_multiple E self fuel messages
      = delete_each E (channel_id (message_channel first)) messages empty) \/
  (exists first rest,
      messages = first :: rest /\
      channel_is_guild (message_channel first) = true /\
      message_delete_multiple E self fuel messages
      = run E self (channel_id (message_channel first)) fuel
          (MultipleFacts.entry E self messages)).
Proof.
  destruct messages as [|first rest]; [left; split; reflexivity|]. right.
  destruct (channel_is_guild (message_channel first)) eqn:Hg.
  - right. exists first, rest. split; [reflexivity|]. split; [exact Hg|].
    now apply MultipleFacts.message_delete_multiple_guild.
  - left. exists first, rest. split; [reflexivity|]. split; [exact Hg|].
    unfold message_delete_multiple. now rewrite Hg.
Qed.

End MultipleRuns.


(** X2.  With [WaitTillFirst] keeping its contract, [message_delete_multiple]
    is over after at most as many passes of its loop as there are messages,
    plus one: it returns with no task pending and its three queues empty, or
    the exception of a request leaves it, or it fails with the [IndexError] of
    3823 or the [AttributeError] of [WaitTillFirst] on the [None] that 3843
    puts in [tasks]. *)
Theorem multiple_loop_terminates
    (E : env) (self : Z) (fuel : nat) (messages : list Message)
    (Hwait : wait_contract E) (Hfuel : (length messages < fuel)%nat) :
  match Multiple.message_delete_multiple E self fuel messages with
  | Returned st =>
      Multiple.tasks st = [] /\ Multiple.message_group_new st = [] /\
      Multiple.message_group_old st = [] /\ Multiple.message_group_old_own st = []
  | Raised _ _ => True
  | Crashed e _ => e = IndexError \/ e = AttributeError
  | Running _ | Spinning _ => False
  end.
Proof.
  destruct (MultipleRuns.message_delete_multiple_cases E self fuel messages)
    as [(_ & Ho) | [(first & rest & _ & _ & Ho) | (first & rest & _ & _ & Ho)]];
    rewrite Ho.
  - cbn. auto.
  - pose proof (MultipleRuns.delete_each_queues E (channel_id (message_channel first))
                  messages Multiple.empty) as Hq.
    destruct (MultipleFacts.delete_each_trace E (channel_id (message_channel first))
                messages Multiple.empty)
      as [(st' & Hr & _) | (pre & m & post & e & st' & _ & Hr & _)];
      rewrite Hr in *; cbn in Hq; [exact Hq | exact I].
  - pose proof (MultipleLoop.entry_measure E self messages) as Hm.
    pose proof (MultipleLoop.run_ends_multiple E self (channel_id (message_channel first))
                  Hwait fuel _ (MultipleLoop.entry_good E self messages)
                  ltac:(lia)) as Hend.
    pose proof (MultipleLoop.run_spec_multiple E self (channel_id (message_channel first))
                  fuel _ (MultipleLoop.entry_good E self messages)) as Hspec.
    destruct (Multiple.run E self _ fuel _) as [s|s|e s|e s|s]; try contradiction; auto.
    cbn in Hspec. tauto.
Qed.

Lemma multiple_loop_terminates_witness :
  match Multiple.message_delete_multiple quiet_env 1 3
          [mk_message (id_aged 0) 2 false guild_channel;
           mk_message (id_aged 1000) 1 false guild_channel] with
  | Returned st =>
      Multiple.tasks st = [] /\ Multiple.message_group_new st = [] /\
      Multiple.message_group_old st = [] /\ Multiple.message_group_old_own st = []
  | Raised _ _ => True
  | Crashed e _ => e = IndexError \/ e = AttributeError
  | Running _ | Spinning _ => False
  end.
Proof.
  apply (multiple_loop_terminates quiet_env 1 3
           [mk_message (id_aged 0) 2 false guild_channel;
            mk_message (id_aged 1000) 1 false guild_channel]
           quiet_env_contract).
  cbn. lia.
Defined.

Module MultipleBatch.
Import Multiple.

Definition recent (limit : Z) (message : Message) : Prop :=
  message_deleted message = false /\ message_id message > limit.

Definition entry_of (self : Z) (message : Message) : bool * Z :=
  (message_author message =? self, message_id message).

Lemma classify_recent self limit messages : forall new old old_own,
  Forall (recent limit) messages ->
  classify self limit messages new old old_own
  = (new ++ map (entry_of self) messages, old, old_own).
Proof.
  induction messages as [|m rest IH]; intros new old old_own H; cbn [classify map].
  - now rewrite app_nil_r.
  - inversion H as [|? ? [Hd Hi] Hrest]; subst. rewrite Hd.
    replace (message_id m >? limit) with true by (symmetry; apply Z.gtb_lt; lia).
    rewrite IH by assumption. now rewrite <- app_assoc.
Qed.

Lemma revalidate_recent limit : forall new message_ids message_count old old_own,
  Forall (fun x => snd x > limit) new ->
  (message_count < 100 <= message_count + length new)%nat ->
  revalidate limit new message_ids message_count old old_own
  = (message_ids ++ map snd (firstn (100 - message_count) new), 100%nat,
     skipn (100 - message_count) new, old, old_own).
Proof.
  induction new as [|[own i] rest IH]; intros ids count old old_own H Hc.
  - cbn [length] in Hc. lia.
  - inversion H as [|? ? Hi Hrest]; subst. cbn [snd] in Hi. cbn [revalidate].
    replace (i >? limit) with true by (symmetry; apply Z.gtb_lt; lia).
    replace (100 - count)%nat with (S (99 - count)) by lia.
    cbn [firstn skipn map snd]. cbn [length] in Hc.
    destruct (Nat.eqb_spec (S count) 100) as [He | Hne].
    + replace (99 - count)%nat with 0%nat by lia. cbn [firstn skipn map].
      now rewrite He.
    + rewrite IH by (assumption || lia).
      replace (100 - S count)%nat with (99 - count)%nat by lia.
      now rewrite <- app_assoc.
Qed.

(** 3767-3806 with a hundred messages or more, all of them young. *)
Lemma delete_new_hundred E self chan new ts serial reads aw tr newt oldt :
  Forall (fun x => snd x >
     id_limit (DISCORD_EPOCH E) (time_now E reads) TWO_WEEKS_MARGIN_MS) new ->
  (100 <= length new)%nat ->
  delete_new E self chan (mk_state new [] [] ts None newt oldt serial reads aw tr)
  = inr (let t := mk_task serial self
                    (http_message_delete_multiple chan (map snd (firstn 100 new))) in
         mk_state (skipn 100 new) [] [] (ts ++ [Some t]) (Some t) newt oldt
           (S serial) (S reads) aw (tr ++ [Sent t])).
Proof.
  intros Hr Hl. unfold delete_new.
  cbn [delete_mass_task is_none message_group_new].
  destruct (length new) as [|k] eqn:Hk; [lia|].
  unfold read_clock. cbn [clock_reads set_clock_reads message_group_new message_group_old
    message_group_old_own tasks delete_mass_task delete_new_task delete_old_task next_serial
    awaits trace].
  rewrite MultipleBatch.revalidate_recent by (assumption || lia).
  replace (100 - 0)%nat with 100%nat by reflexivity. cbn [app].
  unfold submit_batch. reflexivity.
Qed.

End MultipleBatch.

(** X3.  A guild channel, more than a hundred messages that are not
    deleted and are younger than both limits: the first pass makes the bulk
    request of the first hundred and then, [delete_new_task] being free and
    [message_group_new] not empty, takes a message from the empty
    [message_group_old_own] (3814-3823).  The [IndexError] leaves the function
    with the remaining messages still queued. *)
Theorem the_101st_recent_message_is_not_reached
    (E : env) (self : Z) (fuel : nat) (first : Message) (rest : list Message)
    (Hfuel : (0 < fuel)%nat)
    (Hguild : channel_is_guild (message_channel first) = true)
    (Hmany : (100 <= length rest)%nat)
    (Hbulk : Forall (MultipleBatch.recent
                       (id_limit (DISCORD_EPOCH E) (time_now E 0) TWO_WEEKS_MS))
               (first :: rest))
    (Hmargin : Forall (MultipleBatch.recent
                         (id_limit (DISCORD_EPOCH E) (time_now E 1) TWO_WEEKS_MARGIN_MS))
                 (first :: rest)) :
  exists st,
    Multiple.message_delete_multiple E self fuel (first :: rest) = Crashed IndexError st /\
    Multiple.trace st
    = [Sent (mk_task 0 self
               (http_message_delete_multiple (channel_id (message_channel first))
                  (map message_id (firstn 100 (first :: rest)))))] /\
    Multiple.message_group_new st
    = map (MultipleBatch.entry_of self) (skipn 100 (first :: rest)).
Proof.
  rewrite MultipleFacts.message_delete_multiple_guild by assumption.
  unfold MultipleFacts.entry.
  rewrite MultipleBatch.classify_recent by assumption. cbn [app].
  destruct fuel as [|n]; [lia|]. cbn [Multiple.run].
  remember (map (MultipleBatch.entry_of self) (first :: rest)) as new eqn:Hnew.
  assert (Hlen : length new = S (length rest)) by (subst new; now rewrite length_map).
  unfold Multiple.loop_body.
  rewrite MultipleBatch.delete_new_hundred.
  2:{ subst new. rewrite Forall_map. eapply Forall_impl; [|exact Hmargin].
      intros m [_ H]. exact H. }
  2:{ lia. }
  cbv zeta.
  destruct (skipn 100 new) as [|x r] eqn:Hs.
  { apply (f_equal (@length _)) in Hs. rewrite length_skipn, Hlen in Hs.
    cbn [length] in Hs. lia. }
  unfold Multiple.delete_old. cbn [is_none Multiple.delete_old_task Multiple.message_group_old].
  unfold Multiple.delete_own.
  cbn [is_none Multiple.delete_new_task Multiple.message_group_new
       Multiple.message_group_old_own popleft bind raise].
  eexists. split; [reflexivity|]. cbn [Multiple.trace Multiple.message_group_new app]. split.
  - subst new. rewrite firstn_map, map_map. reflexivity.
  - rewrite <- Hs. subst new. now rewrite skipn_map.
Qed.

Definition recent_messages (from n : nat) : list Message :=
  map (fun k => mk_message (id_aged 0 + Z.of_nat k) 2 false guild_channel) (seq from n).

Lemma recent_messages_recent from n age :
  id_aged 0 > id_limit (DISCORD_EPOCH quiet_env) 1700000000000 age ->
  Forall (MultipleBatch.recent (id_limit (DISCORD_EPOCH quiet_env) 1700000000000 age))
    (recent_messages from n).
Proof.
  intros H. unfold recent_messages. rewrite Forall_map, Forall_forall. intros k _.
  split; [reflexivity|]. cbn [message_id]. lia.
Qed.

Lemma the_101st_recent_message_witness :
  exists st,
    Multiple.message_delete_multiple quiet_env 1 1 (recent_messages 0 101)
    = Crashed IndexError st /\
    Multiple.trace st
    = [Sent (mk_task 0 1
               (http_message_delete_multiple 7
                  (map message_id (firstn 100 (recent_messages 0 101)))))] /\
    Multiple.message_group_new st
    = map (MultipleBatch.entry_of 1) (skipn 100 (recent_messages 0 101)).
Proof.
  apply (the_101st_recent_message_is_not_reached quiet_env 1 1
           (mk_message (id_aged 0 + Z.of_nat 0) 2 false guild_channel)
           (recent_messages 1 100)).
  - lia.
  - reflexivity.
  - unfold recent_messages. rewrite length_map, length_seq. lia.
  - apply (recent_messages_recent 0 101). vm_compute. reflexivity.
  - apply (recent_messages_recent 0 101). vm_compute. reflexivity.
Defined.

(** * One task per endpoint in [message_delete_sequence] *)

Definition endpoints (ts : list task) : list endpoint :=
  map (fun t => endpoint_of (task_request t)) ts.

(** At no point of the trace two pending tasks are of the same endpoint. *)
Definition one_per_endpoint (tr : list event) : Prop :=
  forall n, NoDup (endpoints (pending_after (firstn n tr))).

Lemma pending_after_snoc tr ev :
  pending_after (tr ++ [ev])
  = match ev with
    | Sent t => pending_after tr ++ [t]
    | Handled t _ => List.filter (fun u => negb (task_is t u)) (pending_after tr)
    | _ => pending_after tr
    end.
Proof. unfold pending_after. now rewrite fold_left_app. Qed.

Lemma pending_after_Sent tr : forall ts,
  pending_after (tr ++ map Sent ts) = pending_after tr ++ ts.
Proof.
  intros ts. revert tr. induction ts as [|t r IH]; intros tr; cbn [map].
  - now rewrite !app_nil_r.
  - change (Sent t :: map Sent r) with ([Sent t] ++ map Sent r).
    rewrite app_assoc, IH, pending_after_snoc, <- app_assoc. reflexivity.
Qed.

Lemma pending_after_Cancelled tr : forall ts,
  pending_after (tr ++ map Cancelled ts) = pending_after tr.
Proof.
  intros ts. revert tr. induction ts as [|t r IH]; intros tr; cbn [map].
  - now rewrite app_nil_r.
  - change (Cancelled t :: map Cancelled r) with ([Cancelled t] ++ map Cancelled r).
    rewrite app_assoc, IH, pending_after_snoc. reflexivity.
Qed.

Lemma one_per_endpoint_snoc tr ev :
  one_per_endpoint tr ->
  NoDup (endpoints (pending_after (tr ++ [ev]))) ->
  one_per_endpoint (tr ++ [ev]).
Proof.
  intros Htr Hev n. destruct (Nat.le_gt_cases n (length tr)) as [Hle | Hgt].
  - rewrite firstn_app. replace (n - length tr)%nat with 0%nat by lia.
    cbn [firstn]. rewrite app_nil_r. apply Htr.
  - rewrite firstn_all2 by (rewrite length_app; cbn [length]; lia). exact Hev.
Qed.

Lemma endpoints_app a b : endpoints (a ++ b) = endpoints a ++ endpoints b.
Proof. apply map_app. Qed.

Lemma one_per_endpoint_Sent tr : forall ts,
  one_per_endpoint tr ->
  NoDup (endpoints (pending_after tr ++ ts)) ->
  one_per_endpoint (tr ++ map Sent ts).
Proof.
  induction ts as [|t r IH] using rev_ind; intros Htr Hnd.
  - cbn [map]. now rewrite app_nil_r.
  - rewrite map_app, app_assoc. cbn [map]. apply one_per_endpoint_snoc.
    + apply IH; [exact Htr|]. rewrite app_assoc, endpoints_app in Hnd.
      now apply NoDup_app_remove_r in Hnd.
    + rewrite pending_after_snoc, pending_after_Sent, <- app_assoc. exact Hnd.
Qed.

Lemma one_per_endpoint_Cancelled tr : forall ts,
  one_per_endpoint tr -> one_per_endpoint (tr ++ map Cancelled ts).
Proof.
  induction ts as [|t r IH] using rev_ind; intros Htr.
  - cbn [map]. now rewrite app_nil_r.
  - rewrite map_app, app_assoc. cbn [map]. apply one_per_endpoint_snoc.
    + now apply IH.
    + rewrite pending_after_snoc, pending_after_Cancelled.
      specialize (Htr (length tr)). now rewrite firstn_all in Htr.
Qed.

Lemma endpoints_filter f : forall ts,
  NoDup (endpoints ts) -> NoDup (endpoints (List.filter f ts)).
Proof.
  induction ts as [|t r IH]; intros H; cbn [List.filter]; [exact H|].
  cbn [endpoints map] in H. inversion H as [|? ? Hn Hr]; subst.
  destruct (f t); [|now apply IH]. cbn [endpoints map]. constructor; [|now apply IH].
  intros Hin. apply Hn. unfold endpoints in *. apply in_map_iff in Hin.
  destruct Hin as (u & Hu & Hin). apply filter_In in Hin. apply in_map_iff.
  exists u. tauto.
Qed.

Lemma filter_permutation {A : Type} (f : A -> bool) (a b : list A) :
  Permutation a b -> Permutation (List.filter f a) (List.filter f b).
Proof.
  induction 1 as [|x a b _ IH|x y a|a b c _ IH1 _ IH2]; cbn [List.filter].
  - constructor.
  - destruct (f x); [now constructor | exact IH].
  - destruct (f x), (f y); try reflexivity. apply perm_swap.
  - now transitivity (List.filter f b).
Qed.

(** [tasks.remove(task)], the tasks being different from each other. *)
Lemma remove_task_filter t : forall ts ts',
  NoDup (serials ts) -> remove_task t ts = Some ts' ->
  ts' = List.filter (fun u => negb (task_is t u)) ts.
Proof.
  induction ts as [|u r IH]; intros ts' Hn H; cbn in H; [discriminate|].
  cbn [serials map] in Hn. inversion Hn as [|? ? Hnotin Hr]; subst.
  cbn [List.filter]. destruct (task_is t u) eqn:Hu; cbn [negb].
  - injection H as <-. symmetry. apply forallb_filter_id.
    apply forallb_forall. intros v Hv. apply negb_true_iff.
    destruct (task_is t v) eqn:Hv'; [|reflexivity]. exfalso. apply Hnotin.
    apply SequenceFacts.task_is_serial in Hu, Hv'. rewrite <- Hu, Hv'.
    now apply in_map.
  - destruct (remove_task t r) as [r'|]; [|discriminate]. injection H as <-.
    f_equal. now apply IH.
Qed.

Module SequenceEndpoints.
Import Sequence SequenceFacts.

Definition kind_of (o : option task) (e : endpoint) : Prop :=
  match o with
  | Some t => endpoint_of (task_request t) = e
  | None => True
  end.

(** Each task variable holds tasks of one endpoint. *)
Definition kinds_of (g : option task) (ds : option task * option task * option task)
  : Prop :=
  match ds with
  | (m, n, o) =>
      kind_of g history_request /\ kind_of m bulk_delete /\
      kind_of n single_delete /\ kind_of o polite_delete
  end.

Definition kinds (st : state) : Prop := kinds_of (get_mass_task st) (delete_slots st).

Lemma kinds_nodup g ds : kinds_of g ds -> NoDup (endpoints (slot_list g ds)).
Proof.
  destruct ds as [[m n] o]. intros (Hg & Hm & Hn & Ho).
  destruct g, m, n, o; cbn in *;
    repeat match goal with H : endpoint_of _ = _ |- _ => rewrite H; clear H end;
    repeat constructor; cbn [In]; intuition discriminate.
Qed.

(** The tasks in [tasks] are those of the task variables. *)
Record tidy (st : state) : Prop := mk_tidy {
  tidy_slots : Permutation (tasks st) (all_slots st);
  tidy_kinds : kinds st;
  tidy_pending : pending_after (trace st) = tasks st;
  tidy_trace : one_per_endpoint (trace st)
}.

Lemma tidy_nodup st :
  Permutation (tasks st) (all_slots st) -> kinds st -> NoDup (endpoints (tasks st)).
Proof.
  intros Hp Hk. apply kinds_nodup in Hk.
  eapply Permutation_NoDup; [|exact Hk]. symmetry.
  unfold endpoints. apply Permutation_map. exact Hp.
Qed.

(** The tasks [ts] were created, in this order, and put in free task
    variables. *)
Definition adds (ts : list task) (st st' : state) : Prop :=
  tasks st' = tasks st ++ ts /\ trace st' = trace st ++ map Sent ts /\
  Permutation (all_slots st') (ts ++ all_slots st).

Lemma adds_trans a b st1 st2 st3 :
  adds a st1 st2 -> adds b st2 st3 -> adds (a ++ b) st1 st3.
Proof.
  intros (A1 & A2 & A3) (B1 & B2 & B3). split; [|split].
  - now rewrite B1, A1, app_assoc.
  - now rewrite B2, A2, map_app, app_assoc.
  - rewrite B3, A3. rewrite !app_assoc. apply Permutation_app_tail.
    apply Permutation_app_comm.
Qed.

Lemma submits_adds st st' : submits st st' -> exists ts, adds ts st st'.
Proof.
  intros [H1 H2 _ H4 H5 _ _ _ | t _ _ H3 H4 _ H6 H7 _ _ _
          | t _ _ H3 H4 _ _ H7 H8 H9 _ _ _].
  - exists []. unfold adds, all_slots. unfold delete_slots in H5. injection H5 as -> -> ->.
    rewrite H1, H2, H4, !app_nil_r. cbn. auto.
  - exists [t]. split; [exact H3|]. split; [exact H4|]. now apply fills_slots.
  - exists [t]. split; [exact H3|]. split; [exact H4|].
    unfold all_slots. unfold delete_slots in H9. injection H9 as -> -> ->.
    rewrite H7, H8. reflexivity.
Qed.

Lemma adds_tidy ts st st' : adds ts st st' -> kinds st' -> tidy st -> tidy st'.
Proof.
  intros (A1 & A2 & A3) Hk [T1 T2 T3 T4].
  assert (Hp : Permutation (tasks st') (all_slots st')).
  { rewrite A1, A3. etransitivity; [apply Permutation_app_comm|].
    now apply Permutation_app_head. }
  constructor; [exact Hp | exact Hk | |].
  - now rewrite A2, pending_after_Sent, T3, A1.
  - rewrite A2. apply one_per_endpoint_Sent; [exact T4|].
    rewrite T3, <- A1. now apply tidy_nodup.
Qed.

Lemma request_history_kinds C st : kinds st -> kinds (request_history C st).
Proof.
  open_state st. unfold kinds, kinds_of, delete_slots, request_history. st_simpl.
  destruct sr, get; cbn [andb is_none]; st_simpl; cbn [kind_of]; tauto.
Qed.

Lemma submit_collected_kinds C collected st st' :
  submit_collected C collected st = inr st' -> kinds st -> kinds st'.
Proof.
  open_state st. unfold kinds, kinds_of, delete_slots, submit_collected. st_simpl.
  destruct collected as [|[|k]].
  - intros H; injection H as <-. st_simpl. tauto.
  - destruct newt; st_simpl.
    + intros H; injection H as <-. st_simpl. tauto.
    + destruct new as [|x r]; st_simpl; [discriminate|].
      intros H; injection H as <-. st_simpl. cbn [kind_of endpoint_of]. tauto.
  - destruct (pop_collected (S (S k)) new []) as [e|x]; st_simpl; [discriminate|].
    intros H; injection H as <-. st_simpl. cbn [kind_of endpoint_of]. tauto.
Qed.

Lemma delete_new_kinds E C st st' :
  delete_new E C st = inr st' -> kinds st -> kinds st'.
Proof.
  unfold delete_new. destruct (is_none (delete_mass_task st)).
  2:{ intros H; now injection H as <-. }
  destruct (length (message_group_new st)).
  { intros H; now injection H as <-. }
  cbn [read_clock].
  set (st0 := set_clock_reads _ st). set (time_limit := id_limit _ _ _).
  intros H Hk.
  assert (Hk0 : kinds st0) by (unfold st0; now destruct st).
  destruct (submit_collected C _ st0) as [e|st1] eqn:Hs; cbn [bind] in H; [discriminate|].
  apply submit_collected_kinds in Hs; [|exact Hk0].
  destruct (length (message_group_new st1)); [now injection H as <-|].
  destruct (move_aged _ _ _ _ _) as [e|x]; cbn [bind ret] in H; [discriminate|].
  injection H as <-. now destruct st1.
Qed.

Lemma delete_old_own_kinds C st : kinds st -> kinds (delete_old_own C st).
Proof.
  open_state st. unfold kinds, kinds_of, delete_slots, delete_old_own. st_simpl.
  destruct newt; st_simpl; [tauto|].
  destruct old_own; st_simpl; cbn [kind_of endpoint_of]; tauto.
Qed.

Lemma delete_old_kinds C st : kinds st -> kinds (delete_old C st).
Proof.
  open_state st. unfold kinds, kinds_of, delete_slots, delete_old. st_simpl.
  destruct oldt; st_simpl; [tauto|].
  destruct old; st_simpl; cbn [kind_of endpoint_of]; tauto.
Qed.

Lemma last_resort_kinds C st st' :
  last_resort C st = Some st' -> kinds st -> kinds st'.
Proof.
  open_state st. unfold kinds, kinds_of, delete_slots, last_resort. st_simpl.
  destruct ts; st_simpl.
  2:{ intros H; injection H as <-. st_simpl. tauto. }
  destruct new as [|[[] id] r]; st_simpl; [discriminate| |];
    intros H; injection H as <-; st_simpl; cbn [kind_of endpoint_of]; tauto.
Qed.


(** The pass up to [await], as far as the tasks go. *)
Lemma pass_adds E C st :
  good st -> kinds st ->
  (exists st' ts, loop_body E C st = Returned st' /\ adds ts st st' /\ kinds st') \/
  (exists st' ts n, good st' /\ adds ts st st' /\ kinds st' /\
                    loop_body E C st
                    = handle_done E C (wait_till_first E n (tasks st')) st').
Proof.
  intros Hg Hk. unfold loop_body.
  destruct (submits_good _ _ (request_history_submits C st) Hg) as (Hg1 & _).
  destruct (submits_adds _ _ (request_history_submits C st)) as (l1 & Ha1).
  pose proof (request_history_kinds C st Hk) as Hk1.
  set (st1 := request_history C st) in *.
  destruct (delete_new_submits E C st1) as (sta & st2 & Hdn & Hs2a & Hs2b).
  rewrite Hdn.
  destruct (submits_good _ _ Hs2a Hg1) as (Hga & _).
  destruct (submits_good _ _ Hs2b Hga) as (Hg2 & _).
  destruct (submits_adds _ _ Hs2a) as (la & Haa).
  destruct (submits_adds _ _ Hs2b) as (l2 & Ha2).
  pose proof (delete_new_kinds E C st1 st2 Hdn Hk1) as Hk2.
  destruct (submits_good _ _ (delete_old_own_submits C st2) Hg2) as (Hg3 & _).
  destruct (submits_adds _ _ (delete_old_own_submits C st2)) as (l3 & Ha3).
  pose proof (delete_old_own_kinds C st2 Hk2) as Hk3.
  set (st3 := delete_old_own C st2) in *.
  destruct (submits_good _ _ (delete_old_submits C st3) Hg3) as (Hg4 & _).
  destruct (submits_adds _ _ (delete_old_submits C st3)) as (l4 & Ha4).
  pose proof (delete_old_kinds C st3 Hk3) as Hk4.
  set (st4 := delete_old C st3) in *.
  pose proof (adds_trans _ _ _ _ _ (adds_trans _ _ _ _ _ (adds_trans _ _ _ _ _
                (adds_trans _ _ _ _ _ Ha1 Haa) Ha2) Ha3) Ha4) as Hall.
  pose proof (last_resort_submits C st4 (good_free st4 Hg4)) as Hlr.
  destruct (last_resort C st4) as [st5|] eqn:Hl5.
  - right. destruct Hlr as (_ & Hs5).
    destruct (submits_good _ _ Hs5 Hg4) as (Hg5 & _).
    destruct (submits_adds _ _ Hs5) as (l5 & Ha5).
    pose proof (last_resort_kinds C st4 st5 Hl5 Hk4) as Hk5.
    unfold await_first.
    destruct (submits_good _ _ (set_awaits_submits (S (awaits st5)) st5) Hg5) as (Hg6 & _).
    destruct (submits_adds _ _ (set_awaits_submits (S (awaits st5)) st5)) as (l6 & Ha6).
    exists (set_awaits (S (awaits st5)) st5), (((((((l1 ++ la) ++ l2) ++ l3) ++ l4) ++ l5) ++ l6)),
      (awaits st5).
    split; [exact Hg6|].
    split; [exact (adds_trans _ _ _ _ _ (adds_trans _ _ _ _ _ Hall Ha5) Ha6)|].
    split; [now destruct st5|].
    now destruct st5.
  - left. exists st4, ((((l1 ++ la) ++ l2) ++ l3) ++ l4). split; [reflexivity|].
    split; [exact Hall | exact Hk4].
Qed.

(** The task variables after a task that finished without an exception. *)
Lemma finish_places E C t ts' st :
  NoDup (serials (all_slots st)) ->
  get_mass_task (finish E C t ts' st)
  = (if slot_is t (get_mass_task st) then None else get_mass_task st) /\
  delete_slots (finish E C t ts' st)
  = (if slot_is t (get_mass_task st) then delete_slots st
     else clear_first t (delete_slots st)).
Proof.
  intros Hn.
  pose proof (cleared_slots t (get_mass_task st) (delete_slots st)
                (serials (all_slots st)) (serials (all_slots st)) Hn
                (incl_refl _) (fun x H _ => H)) as [Hyes _].
  unfold finish. set (st1 := set_trace _ _).
  assert (H1 : get_mass_task st1 = get_mass_task st /\ delete_slots st1 = delete_slots st).
  { unfold st1. open_state st. unfold delete_slots. st_simpl. auto. }
  destruct H1 as (A1 & A2). clearbody st1. rewrite A1.
  destruct (slot_is t (get_mass_task st)) eqn:Hslot.
  - destruct (Hyes eq_refl) as (Hc & _).
    assert (Hget : get_mass_task st1 <> None).
    { rewrite A1. destruct (get_mass_task st); discriminate. }
    pose proof (got_history_effect E C st1 Hget) as (_ & _ & _ & G4 & G5 & _).
    destruct (got_history E C st1) as [further st2]. cbn [snd] in *.
    destruct further.
    + destruct (release_slots t st2) as (R1 & R2). rewrite R1, R2, G4, G5, A2, Hc. auto.
    + rewrite G4, G5, A2. auto.
  - destruct (release_slots t st1) as (R1 & R2). rewrite R1, R2, A1, A2. auto.
Qed.

Lemma cleared_kinds t g ds :
  kinds_of g ds -> kinds_of None ds /\ kinds_of g (clear_first t ds).
Proof.
  destruct ds as [[m n] o]. unfold kinds_of, clear_first. intros (Hg & Hm & Hn & Ho).
  split; [cbn [kind_of]; tauto|].
  destruct (slot_is t m); [cbn [kind_of]; tauto|].
  destruct (slot_is t n); [cbn [kind_of]; tauto|].
  destruct (slot_is t o); cbn [kind_of]; tauto.
Qed.

(** Clearing the task variable of [t] takes [t] out of what they hold. *)
Lemma cleared_filter t g ds :
  NoDup (serials (slot_list g ds)) ->
  (if slot_is t g then slot_list None ds else slot_list g (clear_first t ds))
  = List.filter (fun u => negb (task_is t u)) (slot_list g ds).
Proof.
  destruct ds as [[m n] o]. unfold slot_list, clear_first. intros Hn.
  destruct g as [g|], m as [m|], n as [n|], o as [o|];
    cbn [olist app serials map slot_is List.filter] in *; slot_cases;
    repeat match goal with
           | H : NoDup (_ :: _) |- _ => inversion H; clear H; subst
           end;
    cbn [In olist app map negb] in *; try reflexivity; exfalso; intuition congruence.
Qed.

Lemma finish_tidy E C t ts' st :
  trace_inv st -> slot_inv st -> remove_task t (tasks st) = Some ts' ->
  tidy st -> tidy (finish E C t ts' st).
Proof.
  intros Htr [Hn Hi] Hrm [T1 T2 T3 T4].
  pose proof (finish_effect E C t ts' st) as (F1 & F2 & _). cbv zeta in *.
  destruct (finish_places E C t ts' st Hn) as (P1 & P2).
  pose proof (remove_task_filter t _ _ (trace_inv_tasks_nodup st Htr) Hrm) as Hf.
  assert (Hslots : all_slots (finish E C t ts' st)
                   = List.filter (fun u => negb (task_is t u)) (all_slots st)).
  { change (all_slots st) with (slot_list (get_mass_task st) (delete_slots st)).
    rewrite <- (cleared_filter t (get_mass_task st) (delete_slots st) Hn).
    change (all_slots (finish E C t ts' st))
      with (slot_list (get_mass_task (finish E C t ts' st))
              (delete_slots (finish E C t ts' st))).
    rewrite P1, P2. now destruct (slot_is t (get_mass_task st)). }
  assert (Hp : Permutation (tasks (finish E C t ts' st)) (all_slots (finish E C t ts' st))).
  { rewrite F1, Hslots, Hf. now apply filter_permutation. }
  assert (Hk : kinds (finish E C t ts' st)).
  { unfold kinds. rewrite P1, P2.
    destruct (cleared_kinds t _ _ T2) as (K1 & K2).
    now destruct (slot_is t (get_mass_task st)). }
  constructor; [exact Hp | exact Hk | |].
  - now rewrite F2, pending_after_snoc, T3, F1.
  - rewrite F2. apply one_per_endpoint_snoc; [exact T4|].
    rewrite pending_after_snoc, T3, <- Hf, <- F1. now apply tidy_nodup.
Qed.

Definition after_tasks (o : outcome state) : Prop :=
  match o with
  | Running st' => good st' /\ tidy st'
  | Returned st' | Raised _ st' | Crashed _ st' | Spinning st' =>
      one_per_endpoint (trace st')
  end.

Lemma handle_done_tidy E C done : forall st,
  trace_inv st -> slot_inv st -> tidy st ->
  match handle_done E C done st with
  | Running st' => tidy st'
  | o => one_per_endpoint (trace (outcome_state o))
  end.
Proof.
  induction done as [|[t c] rest IH]; intros st Htr Hsl Ht.
  - exact Ht.
  - rewrite handle_done_cons.
    destruct (remove_task t (tasks st)) as [ts'|] eqn:Hrm.
    2:{ cbn [outcome_state]. apply Ht. }
    destruct c as [|e].
    + apply IH; [now apply finish_trace_inv | now apply finish_slot_inv
                 | now apply finish_tidy].
    + cbn [outcome_state]. unfold cancel_all.
      assert (Htrace : trace (set_trace (trace st ++ [Handled t (Failed e)])
                                (set_tasks ts' st))
                       = trace st ++ [Handled t (Failed e)]) by now destruct st.
      assert (Htasks : tasks (set_trace (trace st ++ [Handled t (Failed e)])
                                (set_tasks ts' st)) = ts') by now destruct st.
      set (st1 := set_trace (trace st ++ [Handled t (Failed e)]) (set_tasks ts' st)) in *.
      replace (trace (set_trace (trace st1 ++ map Cancelled (tasks st1)) st1))
        with (trace st1 ++ map Cancelled (tasks st1)) by now destruct st1.
      apply one_per_endpoint_Cancelled. rewrite Htrace.
      destruct Ht as [T1 T2 T3 T4].
      apply one_per_endpoint_snoc; [exact T4|].
      rewrite pending_after_snoc, T3. apply endpoints_filter. now apply tidy_nodup.
Qed.

Lemma loop_body_tidy E C st :
  good st -> tidy st -> after_tasks (loop_body E C st).
Proof.
  intros Hg Ht. pose proof (loop_body_spec E C st Hg) as Hspec.
  destruct (pass_adds E C st Hg (tidy_kinds st Ht))
    as [(st' & ts & Hl & Ha & Hk) | (st' & ts & n & Hg' & Ha & Hk & Hl)];
    rewrite Hl in *.
  - cbn [after_tasks]. apply tidy_trace. eapply adds_tidy; eauto.
  - pose proof (adds_tidy _ _ _ Ha Hk Ht) as Ht'.
    pose proof (handle_done_tidy E C (wait_till_first E n (tasks st')) st'
                  (good_trace _ Hg') (good_slots _ Hg') Ht') as Hd.
    destruct (handle_done E C _ st') as [s|s|e s|e s|s];
      cbn [after_tasks after_pass outcome_state] in *; auto.
Qed.

Lemma run_tidy E C fuel : forall st,
  good st -> tidy st -> after_tasks (run E C fuel st).
Proof.
  induction fuel as [|n IH]; intros st Hg Ht; cbn [run]; [now split|].
  pose proof (loop_body_tidy E C st Hg Ht) as H.
  destruct (loop_body E C st) as [s|s|e s|e s|s]; cbn [after_tasks] in *; auto.
  now apply IH.
Qed.

Lemma start_tidy sr last lim new old old_own hist :
  tidy (start sr last lim new old old_own hist).
Proof.
  unfold start. constructor.
  - cbn. constructor.
  - unfold kinds, kinds_of, delete_slots. cbn. tauto.
  - reflexivity.
  - intros n. cbn [trace]. rewrite firstn_nil. constructor.
Qed.

End SequenceEndpoints.

(** X4.  In [message_delete_sequence] a request is made on an endpoint
    only when the task variable of that endpoint is free: at every point of
    a run, the tasks created and not yet taken out of [done] are on
    different endpoints, whatever the tasks and the history requests do. *)
Theorem sequence_keeps_one_task_per_endpoint
    (E : env) (C : Sequence.config) (fuel : nat)
    (should_request : bool) (last_message_id limit : Z)
    (new : list (bool * Z)) (old old_own : list Z)
    (history : list (list message_data)) (n : nat) :
  let o := Sequence.run E C fuel
             (Sequence.start should_request last_message_id limit new old old_own history) in
  NoDup (endpoints (pending_after (firstn n (Sequence.trace (outcome_state o))))).
Proof.
  intros o.
  pose proof (SequenceEndpoints.run_tidy E C fuel _
                (SequenceFacts.start_good should_request last_message_id limit new old
                   old_own history)
                (SequenceEndpoints.start_tidy should_request last_message_id limit new old
                   old_own history)) as H.
  fold o in H.
  destruct o as [s|s|e s|e s|s]; cbn [SequenceEndpoints.after_tasks outcome_state] in *.
  - apply H.
  - apply H.
  - apply H.
  - apply H.
  - apply H.
Qed.

(** * Which messages [message_delete_sequence] asks to delete *)

Ltac perm_norm := rewrite <- ?app_assoc; cbn [app]; rewrite ?app_nil_r.

Ltac perm_rotate :=
  match goal with
  | |- Permutation ?L (?x :: ?R) =>
      transitivity (R ++ [x]); [|symmetry; apply Permutation_cons_append]
  | |- Permutation ?L (?X ++ ?R) =>
      transitivity (R ++ X); [|apply Permutation_app_comm]
  end.

(** Two lists made of the same pieces. *)
Ltac perm_go n :=
  perm_norm;
  first [ reflexivity
        | apply Permutation_app_head; perm_go constr:(12%nat)
        | apply perm_skip; perm_go constr:(12%nat)
        | lazymatch n with
          | S ?m => perm_rotate; perm_go m
          end ].

Ltac perm := perm_go constr:(12%nat).

(** The ids of the messages a request asks to delete. *)
Definition ids_of (r : request) : list Z :=
  match r with
  | http_message_delete _ message_id | http_message_delete_b2wo _ message_id => [message_id]
  | http_message_delete_multiple _ message_ids => message_ids
  | _ => []
  end.

Definition asked (tr : list event) : list Z := flat_map ids_of (requests tr).

Lemma asked_app a b : asked (a ++ b) = asked a ++ asked b.
Proof. unfold asked. now rewrite requests_app, flat_map_app. Qed.

Lemma asked_Sent tr t : asked (tr ++ [Sent t]) = asked tr ++ ids_of (task_request t).
Proof. rewrite asked_app. unfold asked. cbn. now rewrite app_nil_r. Qed.

Lemma asked_Handled tr t c : asked (tr ++ [Handled t c]) = asked tr.
Proof. rewrite asked_app. unfold asked. cbn. now rewrite app_nil_r. Qed.

Lemma asked_Cancelled tr ts : asked (tr ++ map Cancelled ts) = asked tr.
Proof.
  rewrite asked_app. unfold asked. rewrite requests_map_Cancelled. cbn.
  now rewrite app_nil_r.
Qed.

Module SequenceDelivery.
Import Sequence SequenceFacts.

(** The ids in the three queues. *)
Definition waiting (st : state) : list Z :=
  map snd (message_group_new st) ++ message_group_old st ++ message_group_old_own st.

(** What the part of a pass before [await] does to the messages: some of
    them go from the queues to requests; nothing joins, nothing is lost. *)
Definition moves (st st' : state) : Prop :=
  Permutation (asked (trace st') ++ waiting st') (asked (trace st) ++ waiting st) /\
  limit st' = limit st /\ should_request st' = should_request st /\
  history st' = history st /\
  (get_mass_task st' = get_mass_task st \/
   should_request st = true /\ get_mass_task st = None).

#[local] Hint Resolve Permutation_refl : core.

Lemma moves_refl st : moves st st.
Proof. unfold moves. auto 10. Qed.

Lemma moves_trans a b c : moves a b -> moves b c -> moves a c.
Proof.
  intros (H1 & H2 & H3 & H4 & H5) (G1 & G2 & G3 & G4 & G5).
  split; [now rewrite G1|]. repeat split; try congruence.
  destruct H5 as [H5|H5], G5 as [G5|(G5 & G6)]; try (left; congruence); right; try tauto.
  split; congruence.
Qed.

(** Nothing that matters to the messages changes. *)
Lemma moves_same st st' :
  asked (trace st') = asked (trace st) -> waiting st' = waiting st ->
  limit st' = limit st -> should_request st' = should_request st ->
  history st' = history st -> get_mass_task st' = get_mass_task st ->
  moves st st'.
Proof. intros H1 H2 H3 H4 H5 H6. unfold moves. rewrite H1, H2. auto 10. Qed.

Lemma moved_split moved :
  Permutation (QueueFacts.of_others moved ++ QueueFacts.of_own moved) (map snd moved).
Proof.
  unfold QueueFacts.of_others, QueueFacts.of_own.
  induction moved as [|[[] id] r IH]; cbn [List.filter map fst snd negb app].
  - constructor.
  - etransitivity; [symmetry; apply Permutation_middle|]. now constructor.
  - now constructor.
Qed.

Lemma request_history_moves C st : moves st (request_history C st).
Proof.
  open_state st. unfold request_history, moves, waiting. st_simpl.
  destruct sr, get; cbn [andb is_none]; st_simpl; auto 10.
  rewrite asked_Sent. cbn [task_request ids_of]. rewrite app_nil_r. auto 10.
Qed.

Lemma submit_collected_moves C collected st st' :
  (collected <= length (message_group_new st))%nat ->
  submit_collected C collected st = inr st' -> moves st st'.
Proof.
  intros Hc. open_state st. unfold moves, waiting, submit_collected. st_simpl.
  intros H. destruct collected as [|[|k]].
  - injection H as <-. st_simpl. auto 10.
  - destruct newt; st_simpl.
    + injection H as <-. st_simpl. auto 10.
    + destruct new as [|[own id] r]; st_simpl; [discriminate|].
      injection H as <-. st_simpl. split; [|auto 10].
      rewrite asked_Sent. cbn [task_request ids_of map snd]. perm.
  - rewrite QueueFacts.pop_collected_firstn in H by exact Hc. st_simpl.
    injection H as <-. st_simpl. split; [|auto 10].
    rewrite asked_Sent. cbn [task_request ids_of app].
    rewrite <- (firstn_skipn (S (S k)) new) at 3. rewrite map_app. perm.
Qed.

Lemma delete_new_moves E C st st' : delete_new E C st = inr st' -> moves st st'.
Proof.
  unfold delete_new. destruct (is_none (delete_mass_task st)).
  2:{ intros H; injection H as <-. apply moves_refl. }
  destruct (length (message_group_new st)) eqn:Hlen.
  { intros H; injection H as <-. apply moves_refl. }
  cbn [read_clock].
  set (st0 := set_clock_reads _ st). set (time_limit := id_limit _ _ _).
  intros H.
  assert (H0 : moves st st0) by (apply moves_same; now destruct st).
  assert (Hnew : message_group_new st0 = message_group_new st) by now destruct st.
  destruct (collect_bounds time_limit (message_group_new st0) 0%nat ltac:(lia)) as [_ Hb].
  destruct (submit_collected C _ st0) as [e|st1] eqn:Hs; cbn [bind] in H; [discriminate|].
  apply submit_collected_moves in Hs; [|lia].
  apply (moves_trans _ st0); [exact H0|]. apply (moves_trans _ st1); [exact Hs|].
  destruct (length (message_group_new st1)) eqn:Hlen1;
    [injection H as <-; apply moves_refl|].
  rewrite <- Hlen1 in H.
  destruct (QueueFacts.move_aged_cut (time_limit - MARGIN_STEP) (message_group_new st1)
              (message_group_old st1) (message_group_old_own st1))
    as (keep & moved & (Hn & _ & _) & Hr).
  rewrite Hr in H. cbn [bind ret fst snd] in H. injection H as <-.
  revert Hn. clear. open_state st1. unfold moves, waiting. st_simpl. intros ->.
  split; [|auto 10]. apply Permutation_app_head.
  rewrite map_app, <- !app_assoc. apply Permutation_app_head.
  rewrite <- (moved_split moved), <- !app_assoc. apply Permutation_app_head.
  apply Permutation_app_swap_app.
Qed.

Lemma delete_old_own_moves C st : moves st (delete_old_own C st).
Proof.
  open_state st. unfold moves, waiting, delete_old_own. st_simpl.
  destruct newt; st_simpl; [auto 10|].
  destruct old_own as [|id r]; st_simpl; [auto 10|].
  split; [|auto 10]. rewrite asked_Sent. cbn [task_request ids_of]. perm.
Qed.

Lemma delete_old_moves C st : moves st (delete_old C st).
Proof.
  open_state st. unfold moves, waiting, delete_old. st_simpl.
  destruct oldt; st_simpl; [auto 10|].
  destruct old as [|id r]; st_simpl; [auto 10|].
  split; [|auto 10]. rewrite asked_Sent. cbn [task_request ids_of]. perm.
Qed.

Lemma last_resort_moves C st st' : last_resort C st = Some st' -> moves st st'.
Proof.
  open_state st. unfold moves, waiting, last_resort. st_simpl.
  intros H. destruct ts; st_simpl.
  2:{ injection H as <-. st_simpl. auto 10. }
  destruct new as [|[[] id] r]; st_simpl; [discriminate| |];
    injection H as <-; st_simpl; (split; [|auto 10]);
    rewrite asked_Sent; cbn [task_request ids_of map snd]; perm.
Qed.

Lemma release_moves t st : moves st (release t st).
Proof.
  open_state st. unfold release. st_simpl.
  destruct (slot_is t mass); [|destruct (slot_is t newt); [|destruct (slot_is t oldt)]];
    apply moves_same; reflexivity.
Qed.

(** A property of the state that the requests of a pass keep, and the
    pages of the history too: it holds all along a run. *)
Section Invariant.

Variable E : env.
Variable C : config.
Variable P : state -> Prop.
Hypothesis P_moves : forall st st', moves st st' -> P st -> P st'.
Hypothesis P_page :
  forall st, P st -> get_mass_task st <> None -> P (snd (got_history E C st)).

Lemma handle_done_keeps done : forall st,
  P st -> P (outcome_state (handle_done E C done st)).
Proof.
  induction done as [|[t c] rest IH]; intros st HP; [exact HP|].
  cbn [handle_done]. destruct (remove_task t (tasks st)) as [ts'|]; [|exact HP].
  set (st1 := set_trace _ _).
  assert (H1 : moves st st1).
  { unfold st1. open_state st. apply moves_same; st_simpl; try reflexivity.
    apply asked_Handled. }
  pose proof (P_moves _ _ H1 HP) as HP1.
  destruct c as [|e].
  - destruct (slot_is t (get_mass_task st1)) eqn:Hslot.
    + assert (Hget : get_mass_task st1 <> None)
        by (destruct (get_mass_task st1); [discriminate | discriminate]).
      pose proof (P_page st1 HP1 Hget) as HP2.
      destruct (got_history E C st1) as [[] st2]; cbn [snd] in HP2; apply IH.
      * exact (P_moves _ _ (release_moves t st2) HP2).
      * exact HP2.
    + apply IH. exact (P_moves _ _ (release_moves t st1) HP1).
  - cbn [outcome_state]. refine (P_moves st1 _ _ HP1). unfold cancel_all.
    clearbody st1. open_state st1. apply moves_same; st_simpl; try reflexivity.
    apply asked_Cancelled.
Qed.

Lemma loop_body_keeps st : P st -> P (outcome_state (loop_body E C st)).
Proof.
  intros HP. unfold loop_body.
  pose proof (P_moves _ _ (request_history_moves C st) HP) as H1.
  destruct (delete_new E C (request_history C st)) as [e|st2] eqn:Hdn; [exact H1|].
  pose proof (P_moves _ _ (delete_new_moves E C _ _ Hdn) H1) as H2.
  pose proof (P_moves _ _ (delete_old_own_moves C st2) H2) as H3.
  pose proof (P_moves _ _ (delete_old_moves C _) H3) as H4.
  destruct (last_resort C _) as [st5|] eqn:Hl; [|exact H4].
  pose proof (P_moves _ _ (last_resort_moves C _ _ Hl) H4) as H5.
  unfold await_first. apply handle_done_keeps.
  refine (P_moves st5 _ _ H5). apply moves_same; now destruct st5.
Qed.

Lemma run_keeps fuel : forall st, P st -> P (outcome_state (run E C fuel st)).
Proof.
  induction fuel as [|n IH]; intros st HP; cbn [run]; [exact HP|].
  pose proof (loop_body_keeps st HP) as H.
  destruct (loop_body E C st) as [s|s|e s|e s|s]; cbn [outcome_state] in *; auto.
Qed.

End Invariant.

(** No history is asked for, and the messages [U] are those asked to be
    deleted and those in the queues. *)
Definition kept (U : list Z) (st : state) : Prop :=
  should_request st = false /\ get_mass_task st = None /\
  Permutation (asked (trace st) ++ waiting st) U.

Lemma run_kept U E C fuel st : kept U st -> kept U (outcome_state (run E C fuel st)).
Proof.
  apply run_keeps.
  - intros a b (H1 & _ & H3 & _ & H5) (K1 & K2 & K3).
    split; [congruence|]. split; [|now rewrite H1].
    destruct H5 as [H5|(H5 & _)]; congruence.
  - intros a (_ & K2 & _) Hget. congruence.
Qed.

End SequenceDelivery.

(** X5.  When no history is to be requested, [message_delete_sequence]
    neither loses a message nor asks twice for one: at the end of any number
    of passes, the ids of the delete requests made so far together with
    the ids still in the three queues are the ids queued at the start; when
    the loop is left, the requests made carry exactly those ids. *)
Theorem every_queued_message_is_asked_for_once
    (E : env) (C : Sequence.config) (fuel : nat) (last_message_id limit : Z)
    (new : list (bool * Z)) (old old_own : list Z)
    (history : list (list message_data)) :
  let o := Sequence.run E C fuel
             (Sequence.start false last_message_id limit new old old_own history) in
  Permutation
    (asked (Sequence.trace (outcome_state o)) ++ SequenceDelivery.waiting (outcome_state o))
    (map snd new ++ old ++ old_own) /\
  (forall st, o = Returned st ->
     Permutation (asked (Sequence.trace st)) (map snd new ++ old ++ old_own)).
Proof.
  intros o.
  assert (Hk : SequenceDelivery.kept (map snd new ++ old ++ old_own) (outcome_state o)).
  { apply SequenceDelivery.run_kept. repeat split. cbn. reflexivity. }
  split; [apply Hk|].
  intros st Ho.
  pose proof (SequenceFacts.run_spec E C fuel _
                (SequenceFacts.start_good false last_message_id limit new old old_own
                   history)) as Hs.
  fold o in Hs. rewrite Ho in Hs, Hk. cbn in Hs.
  destruct Hs as (_ & _ & Hn & Ho' & Hoo). destruct Hk as (_ & _ & Hp).
  unfold SequenceDelivery.waiting in Hp. cbn [outcome_state] in Hp.
  rewrite Hn, Ho', Hoo in Hp. cbn in Hp. now rewrite app_nil_r in Hp.
Qed.

(** * How old the messages of a bulk request can be *)

(** A bulk request carries only ids that are not below the limit of two
    weeks minus ten seconds taken at one of the first [n] readings of the
    clock. *)
Definition young (E : env) (n : nat) (r : request) : Prop :=
  match r with
  | http_message_delete_multiple _ message_ids =>
      exists k, (k < n)%nat /\
        Forall (fun message_id =>
                  message_id >= id_limit (DISCORD_EPOCH E) (time_now E k) TWO_WEEKS_MARGIN_MS)
          message_ids
  | _ => True
  end.

Lemma young_later E n m r : (n <= m)%nat -> young E n r -> young E m r.
Proof.
  intros Hle. destruct r; cbn [young]; auto.
  intros (k & Hk & H). exists k. split; [lia | exact H].
Qed.

Module SequenceBatches.
Import Sequence SequenceFacts.

(** The clock was not read less often, and the requests made since are
    [young]. *)
Definition later (E : env) (st st' : state) : Prop :=
  (clock_reads st <= clock_reads st')%nat /\
  exists rs, requests (trace st') = requests (trace st) ++ rs /\
             Forall (young E (clock_reads st')) rs.

Lemma later_refl E st : later E st st.
Proof. split; [lia|]. exists []. now rewrite app_nil_r. Qed.

Lemma later_trans E a b c : later E a b -> later E b c -> later E a c.
Proof.
  intros (H1 & r1 & H2 & H3) (G1 & r2 & G2 & G3). split; [lia|].
  exists (r1 ++ r2). split; [now rewrite G2, H2, app_assoc|].
  apply Forall_app. split; [|exact G3].
  eapply Forall_impl; [|exact H3]. intros r. now apply young_later.
Qed.

Lemma later_same E st st' :
  (clock_reads st <= clock_reads st')%nat -> requests (trace st') = requests (trace st) ->
  later E st st'.
Proof. intros H1 H2. split; [exact H1|]. exists []. now rewrite app_nil_r. Qed.

Lemma later_one E st st' t :
  (clock_reads st <= clock_reads st')%nat -> trace st' = trace st ++ [Sent t] ->
  young E (clock_reads st') (task_request t) ->
  later E st st'.
Proof.
  intros H1 H2 H3. split; [exact H1|]. exists [task_request t].
  split; [now rewrite H2, requests_app | now constructor].
Qed.

Lemma later_young E n st st' :
  later E st st' -> (n <= clock_reads st)%nat ->
  Forall (young E n) (requests (trace st)) ->
  Forall (young E (clock_reads st')) (requests (trace st')).
Proof.
  intros (H1 & rs & H2 & H3) Hn H. rewrite H2. apply Forall_app. split; [|exact H3].
  eapply Forall_impl; [|exact H]. intros r. apply young_later. lia.
Qed.

(** 4047-4059: the messages counted are not below the limit. *)
Lemma collect_young time_limit q : forall collected,
  (collected <= 100)%nat ->
  Forall (fun x => snd x >= time_limit)
    (firstn (collect time_limit q collected - collected) q).
Proof.
  induction q as [|[own id] r IH]; intros collected Hc; cbn [collect].
  - rewrite firstn_nil. constructor.
  - destruct (Nat.eqb_spec collected 100).
    { rewrite Nat.sub_diag. constructor. }
    destruct (Z.ltb_spec id time_limit).
    { rewrite Nat.sub_diag. constructor. }
    destruct (collect_bounds time_limit r (S collected) ltac:(lia)) as [Hb _].
    replace (collect time_limit r (S collected) - collected)%nat
      with (S (collect time_limit r (S collected) - S collected)) by lia.
    cbn [firstn]. constructor; [cbn [snd]; lia|]. apply IH. lia.
Qed.

Lemma request_history_later E C st : later E st (request_history C st).
Proof.
  open_state st. unfold request_history. st_simpl.
  destruct sr, get; cbn [andb is_none]; st_simpl; try apply later_refl.
  eapply later_one; st_simpl; [lia | reflexivity | exact I].
Qed.

Lemma submit_collected_later E C collected st st' :
  (collected <= length (message_group_new st))%nat ->
  (exists k, (k < clock_reads st)%nat /\
     Forall (fun x => snd x >=
               id_limit (DISCORD_EPOCH E) (time_now E k) TWO_WEEKS_MARGIN_MS)
       (firstn collected (message_group_new st))) ->
  submit_collected C collected st = inr st' -> later E st st'.
Proof.
  intros Hc Hy. open_state st. unfold submit_collected. st_simpl.
  intros H. destruct collected as [|[|k]].
  - injection H as <-. apply later_refl.
  - destruct newt; st_simpl.
    + injection H as <-. apply later_refl.
    + destruct new as [|[own id] r]; st_simpl; [discriminate|].
      injection H as <-. eapply later_one; st_simpl; [lia | reflexivity | exact I].
  - rewrite QueueFacts.pop_collected_firstn in H by exact Hc. st_simpl.
    injection H as <-. eapply later_one; st_simpl; [lia | reflexivity |].
    cbn [young app]. destruct Hy as (j & Hj & Hall). exists j. split; [exact Hj|].
    rewrite Forall_map. exact Hall.
Qed.

Lemma delete_new_later E C st st' : delete_new E C st = inr st' -> later E st st'.
Proof.
  unfold delete_new. destruct (is_none (delete_mass_task st)).
  2:{ intros H; injection H as <-. apply later_refl. }
  destruct (length (message_group_new st)) eqn:Hlen.
  { intros H; injection H as <-. apply later_refl. }
  cbn [read_clock].
  set (st0 := set_clock_reads _ st). set (time_limit := id_limit _ _ _).
  intros H.
  assert (H0 : later E st st0).
  { apply later_same; unfold st0; destruct st; cbn; [lia | reflexivity]. }
  assert (Hclock : clock_reads st0 = S (clock_reads st)) by now destruct st.
  destruct (collect_bounds time_limit (message_group_new st0) 0%nat ltac:(lia)) as [_ Hb].
  pose proof (collect_young time_limit (message_group_new st0) 0%nat ltac:(lia)) as Hy.
  rewrite Nat.sub_0_r in Hy.
  destruct (submit_collected C _ st0) as [e|st1] eqn:Hs; cbn [bind] in H; [discriminate|].
  apply (submit_collected_later E) in Hs; [|lia|].
  2:{ exists (clock_reads st). split; [lia | exact Hy]. }
  apply (later_trans E _ st0); [exact H0|]. apply (later_trans E _ st1); [exact Hs|].
  destruct (length (message_group_new st1)); [injection H as <-; apply later_refl|].
  destruct (move_aged _ _ _ _ _) as [e|x]; cbn [bind ret] in H; [discriminate|].
  injection H as <-. apply later_same; destruct st1; cbn; [lia | reflexivity].
Qed.

Lemma delete_old_own_later E C st : later E st (delete_old_own C st).
Proof.
  open_state st. unfold delete_old_own. st_simpl.
  destruct newt; st_simpl; [apply later_refl|].
  destruct old_own; st_simpl; [apply later_refl|].
  eapply later_one; st_simpl; [lia | reflexivity | exact I].
Qed.

Lemma delete_old_later E C st : later E st (delete_old C st).
Proof.
  open_state st. unfold delete_old. st_simpl.
  destruct oldt; st_simpl; [apply later_refl|].
  destruct old; st_simpl; [apply later_refl|].
  eapply later_one; st_simpl; [lia | reflexivity | exact I].
Qed.

Lemma last_resort_later E C st st' : last_resort C st = Some st' -> later E st st'.
Proof.
  open_state st. unfold last_resort. st_simpl. intros H. destruct ts; st_simpl.
  2:{ injection H as <-. apply later_refl. }
  destruct new as [|[[] id] r]; st_simpl; [discriminate| |];
    injection H as <-; (eapply later_one; st_simpl; [lia | reflexivity | exact I]).
Qed.

Lemma enqueue_clock C time_limit author_id st :
  clock_reads (snd (enqueue C time_limit author_id st)) = clock_reads st.
Proof.
  open_state st. unfold enqueue. st_simpl.
  destruct (last >? time_limit); [|destruct (author_id =? self_id C)]; st_simpl;
    destruct (lim - 1 =? 0); reflexivity.
Qed.

Lemma process_page_clock E C time_limit result : forall st,
  clock_reads (process_page E C time_limit result st) = clock_reads st.
Proof.
  induction result as [|d rest IH]; intros st; cbn [process_page]; [reflexivity|].
  destruct (filter C) as [f|].
  - set (st1 := set_last_message_id _ st).
    assert (H1 : clock_reads st1 = clock_reads st) by now destruct st.
    destruct (last_message_id st1 <? after C); [now destruct st1|].
    destruct (negb (f _)); [now rewrite IH|].
    pose proof (enqueue_clock C time_limit
                  (message_author (create_unknown_message E d)) st1) as H2.
    destruct (enqueue C time_limit _ st1) as [[] st2]; cbn [snd] in H2;
      rewrite ?IH; congruence.
  - set (st1 := set_last_message_id _ st).
    assert (H1 : clock_reads st1 = clock_reads st) by now destruct st.
    destruct (last_message_id st1 <? after C); [now destruct st1|].
    pose proof (enqueue_clock C time_limit (author_id_of d) st1) as H2.
    destruct (enqueue C time_limit _ st1) as [[] st2]; cbn [snd] in H2;
      rewrite ?IH; congruence.
Qed.

Lemma got_history_clock E C st :
  (clock_reads st <= clock_reads (snd (got_history E C st)))%nat.
Proof.
  unfold got_history, take_page.
  set (st0 := set_get_mass_task None st).
  assert (H0 : clock_reads st0 = clock_reads st) by now destruct st.
  destruct (history st0) as [|page r].
  - cbn [length Nat.ltb Nat.leb Nat.eqb snd].
    replace (clock_reads (set_should_request false st0)) with (clock_reads st0)
      by now destruct st0.
    lia.
  - set (st1 := set_history r st0).
    assert (H1 : clock_reads st1 = clock_reads st) by (unfold st1; now destruct st0).
    set (st2 := if (length page <? 100)%nat then set_should_request false st1 else st1).
    assert (H2 : clock_reads st2 = clock_reads st).
    { unfold st2. destruct (length page <? 100)%nat; [now destruct st1 | exact H1]. }
    destruct (length page =? 0)%nat; cbn [snd]; [lia|].
    cbn [read_clock snd]. rewrite process_page_clock. destruct st2; cbn in *. lia.
Qed.

Lemma release_clock t st : clock_reads (release t st) = clock_reads st.
Proof.
  open_state st. unfold release. st_simpl.
  destruct (slot_is t mass); [|destruct (slot_is t newt); [|destruct (slot_is t oldt)]];
    reflexivity.
Qed.

Lemma finish_later E C t ts' st : later E st (finish E C t ts' st).
Proof.
  pose proof (finish_effect E C t ts' st) as (_ & F2 & _). cbv zeta in F2.
  apply later_same.
  2:{ rewrite F2, requests_app. cbn. now rewrite app_nil_r. }
  unfold finish. set (st1 := set_trace _ _).
  assert (H1 : clock_reads st1 = clock_reads st) by now destruct st.
  destruct (slot_is t (get_mass_task st1)).
  - pose proof (got_history_clock E C st1) as Hg.
    destruct (got_history E C st1) as [[] st2]; cbn [snd] in Hg;
      rewrite ?release_clock; lia.
  - rewrite release_clock. lia.
Qed.

Lemma handle_done_later E C done : forall st,
  later E st (outcome_state (handle_done E C done st)).
Proof.
  induction done as [|[t c] rest IH]; intros st; [apply later_refl|].
  rewrite handle_done_cons.
  destruct (remove_task t (tasks st)) as [ts'|]; [|apply later_refl].
  destruct c as [|e].
  - apply (later_trans E _ (finish E C t ts' st)); [apply finish_later | apply IH].
  - cbn [outcome_state]. apply later_same; unfold cancel_all; destruct st; cbn; [lia|].
    rewrite !requests_app, requests_map_Cancelled. cbn. now rewrite !app_nil_r.
Qed.

Lemma loop_body_later E C st : later E st (outcome_state (loop_body E C st)).
Proof.
  unfold loop_body.
  pose proof (request_history_later E C st) as H1.
  destruct (delete_new E C (request_history C st)) as [e|st2] eqn:Hdn; [exact H1|].
  pose proof (later_trans E _ _ _ H1 (delete_new_later E C _ _ Hdn)) as H2.
  pose proof (later_trans E _ _ _ H2 (delete_old_own_later E C st2)) as H3.
  pose proof (later_trans E _ _ _ H3 (delete_old_later E C (delete_old_own C st2))) as H4.
  destruct (last_resort C _) as [st5|] eqn:Hl; [|exact H4].
  pose proof (later_trans E _ _ _ H4 (last_resort_later E C _ _ Hl)) as H5.
  unfold await_first.
  apply (later_trans E _ st5); [exact H5|].
  apply (later_trans E _ (set_awaits (S (awaits st5)) st5)).
  - apply later_same; destruct st5; cbn; [lia | reflexivity].
  - replace (tasks st5) with (tasks (set_awaits (S (awaits st5)) st5)) by now destruct st5.
    replace (awaits st5) with (pred (awaits (set_awaits (S (awaits st5)) st5)))
      by now destruct st5.
    apply handle_done_later.
Qed.

Lemma run_later E C fuel : forall st, later E st (outcome_state (run E C fuel st)).
Proof.
  induction fuel as [|n IH]; intros st; cbn [run]; [apply later_refl|].
  pose proof (loop_body_later E C st) as H.
  destruct (loop_body E C st) as [s|s|e s|e s|s]; cbn [outcome_state] in *; auto.
  eapply later_trans; [exact H | apply IH].
Qed.

End SequenceBatches.

(** X6.  A bulk request of [message_delete_sequence] carries only ids
    that were not below the limit of two weeks minus ten seconds at one of
    the readings of the clock made during the run. *)
Theorem sequence_bulk_requests_are_young
    (E : env) (C : Sequence.config) (fuel : nat)
    (should_request : bool) (last_message_id limit : Z)
    (new : list (bool * Z)) (old old_own : list Z)
    (history : list (list message_data)) (channel_id : Z) (message_ids : list Z) :
  let st := outcome_state
              (Sequence.run E C fuel
                 (Sequence.start should_request last_message_id limit new old old_own
                    history)) in
  In (http_message_delete_multiple channel_id message_ids) (requests (Sequence.trace st)) ->
  exists k, (k < Sequence.clock_reads st)%nat /\
    Forall (fun message_id =>
              message_id >= id_limit (DISCORD_EPOCH E) (time_now E k) TWO_WEEKS_MARGIN_MS)
      message_ids.
Proof.
  intros st Hin.
  pose proof (SequenceBatches.run_later E C fuel
                (Sequence.start should_request last_message_id limit new old old_own
                   history)) as Hl.
  apply (SequenceBatches.later_young E 0) in Hl; [|cbn; lia|constructor].
  fold st in Hl. rewrite Forall_forall in Hl. exact (Hl _ Hin).
Qed.

Lemma sequence_bulk_requests_witness :
  exists k, (k < 1)%nat /\
    Forall (fun message_id =>
              message_id >= id_limit (DISCORD_EPOCH quiet_env) (time_now quiet_env k)
                              TWO_WEEKS_MARGIN_MS)
      [id_aged 0; id_aged 1000].
Proof.
  apply (sequence_bulk_requests_are_young quiet_env a_config 1 false 0 0
           [(false, id_aged 0); (true, id_aged 1000)] [] [] [] 7
           [id_aged 0; id_aged 1000]).
  vm_compute. left. reflexivity.
Defined.

(** * Which messages [message_delete_multiple] asks to delete *)

Module MultipleDelivery.
Import Multiple MultipleLoop.

(** The ids in the three queues. *)
Definition waiting (st : state) : list Z :=
  map snd (message_group_new st) ++ message_group_old st ++ message_group_old_own st.

(** What was asked for and what is queued after the step was asked for or
    queued before it, and no more often. *)
Definition thins (st st' : state) : Prop :=
  exists dropped,
    Permutation (asked (trace st') ++ waiting st' ++ dropped)
      (asked (trace st) ++ waiting st).

Lemma thins_refl st : thins st st.
Proof. exists []. now rewrite app_nil_r. Qed.

Lemma thins_trans a b c : thins a b -> thins b c -> thins a c.
Proof.
  intros (d1 & H1) (d2 & H2). exists (d2 ++ d1).
  rewrite <- H1. rewrite (app_assoc (asked (trace b))). rewrite <- H2. perm.
Qed.

(** 3741-3758 *)
Lemma classify_split self limit messages : forall new old old_own,
  match classify self limit messages new old old_own with
  | (new', old', old_own') =>
      Permutation
        (map snd new' ++ old' ++ old_own'
         ++ map message_id (List.filter message_deleted messages))
        (map snd new ++ old ++ old_own ++ map message_id messages)
  end.
Proof.
  induction messages as [|m rest IH]; intros new old old_own;
    cbn [classify List.filter map].
  - reflexivity.
  - destruct (message_deleted m).
    + specialize (IH new old old_own).
      destruct (classify self limit rest new old old_own) as [[n o] oo].
      cbn [map]. etransitivity; [|etransitivity].
      2:{ apply (perm_skip (message_id m)). exact IH. }
      * perm.
      * perm.
    + destruct (message_id m >? limit).
      * specialize (IH (new ++ [(message_author m =? self, message_id m)]) old old_own).
        destruct (classify self limit rest _ old old_own) as [[n o] oo].
        rewrite IH, map_app. cbn [map snd]. perm.
      * destruct (message_author m =? self).
        -- specialize (IH new old (old_own ++ [message_id m])).
           destruct (classify self limit rest new old _) as [[n o] oo].
           rewrite IH. perm.
        -- specialize (IH new (old ++ [message_id m]) old_own).
           destruct (classify self limit rest new _ old_own) as [[n o] oo].
           rewrite IH. perm.
Qed.

(** 3776-3795 *)
Lemma revalidate_split limit new : forall message_ids message_count old old_own,
  match revalidate limit new message_ids message_count old old_own with
  | (message_ids', _, new', old', old_own') =>
      exists dropped,
        Permutation (message_ids' ++ map snd new' ++ old' ++ old_own' ++ dropped)
          (message_ids ++ map snd new ++ old ++ old_own)
  end.
Proof.
  induction new as [|[own id] rest IH]; intros ids count old old_own; cbn [revalidate].
  - exists []. cbn [map]. perm.
  - destruct (id >? limit).
    + destruct (S count =? 100)%nat.
      * exists []. cbn [map snd]. perm.
      * specialize (IH (ids ++ [id]) (S count) old old_own).
        destruct (revalidate limit rest _ _ old old_own) as [[[[i c] n] o] oo].
        destruct IH as (d & IH). exists d. rewrite IH. cbn [map snd]. perm.
    + destruct (id + MARGIN_STEP <? limit).
      * specialize (IH ids count old old_own).
        destruct (revalidate limit rest _ _ old old_own) as [[[[i c] n] o] oo].
        destruct IH as (d & IH). exists (id :: d). cbn [map snd].
        transitivity (id :: (i ++ map snd n ++ o ++ oo ++ d)); [perm|].
        rewrite IH. perm.
      * destruct own.
        -- specialize (IH ids count old (id :: old_own)).
           destruct (revalidate limit rest _ _ old _) as [[[[i c] n] o] oo].
           destruct IH as (d & IH). exists d. rewrite IH. cbn [map snd]. perm.
        -- specialize (IH ids count (id :: old) old_own).
           destruct (revalidate limit rest _ _ _ old_own) as [[[[i c] n] o] oo].
           destruct IH as (d & IH). exists d. rewrite IH. cbn [map snd]. perm.
Qed.

Lemma delete_new_thins E self chan st st' :
  delete_new E self chan st = inr st' -> thins st st'.
Proof.
  unfold delete_new. destruct (is_none (delete_mass_task st)).
  2:{ intros H; injection H as <-. apply thins_refl. }
  destruct (length (message_group_new st)) as [|len].
  { intros H; injection H as <-. apply thins_refl. }
  open_state st. st_simpl.
  pose proof (revalidate_split
                (id_limit (DISCORD_EPOCH E) (time_now E reads) TWO_WEEKS_MARGIN_MS)
                new [] 0 old old_own) as Hsplit.
  pose proof (revalidate_count
                (id_limit (DISCORD_EPOCH E) (time_now E reads) TWO_WEEKS_MARGIN_MS)
                new [] 0 old old_own eq_refl ltac:(lia)) as Hcount.
  destruct (revalidate _ new [] 0 old old_own) as [[[[ids count] n] o] oo].
  destruct Hsplit as (d & Hsplit). destruct Hcount as (Hlen & _).
  cbn [app] in Hsplit. unfold submit_batch. st_simpl.
  destruct count as [|[|k]]; st_simpl.
  - intros H; injection H as <-. exists d. unfold waiting. st_simpl.
    destruct ids; [|discriminate]. rewrite <- Hsplit. perm.
  - destruct newt; st_simpl.
    + intros H; injection H as <-. exists (ids ++ d). unfold waiting. st_simpl.
      rewrite <- Hsplit. perm.
    + destruct ids as [|id [|]]; try discriminate.
      intros H; injection H as <-. exists d. unfold waiting. st_simpl.
      rewrite asked_Sent. cbn [task_request ids_of]. rewrite <- Hsplit. perm.
  - intros H; injection H as <-. exists d. unfold waiting. st_simpl.
    rewrite asked_Sent. cbn [task_request ids_of]. rewrite <- Hsplit. perm.
Qed.

Lemma delete_old_thins self chan st : thins st (delete_old self chan st).
Proof.
  open_state st. unfold delete_old. st_simpl.
  destruct oldt; st_simpl; [apply thins_refl|].
  destruct old as [|id r]; st_simpl; [apply thins_refl|].
  exists []. unfold waiting. st_simpl. rewrite asked_Sent. cbn [task_request ids_of]. perm.
Qed.

Lemma delete_own_thins self chan st st' :
  delete_own self chan st = inr st' -> thins st st'.
Proof.
  open_state st. unfold delete_own. st_simpl.
  destruct newt; st_simpl.
  { intros H; injection H as <-. apply thins_refl. }
  destruct new as [|x n], old_own as [|id r]; st_simpl; intros H;
    try discriminate; injection H as <-; try apply thins_refl.
  - exists []. unfold waiting. st_simpl. rewrite asked_Sent. cbn [task_request ids_of map].
    perm.
  - exists []. unfold waiting. st_simpl. rewrite asked_Sent. cbn [task_request ids_of map].
    perm.
Qed.

Lemma last_resort_thins self chan st st' :
  last_resort self chan st = Some st' -> thins st st'.
Proof.
  open_state st. unfold last_resort. st_simpl.
  destruct ts; st_simpl.
  2:{ intros H; injection H as <-. apply thins_refl. }
  destruct new as [|[[] id] r]; st_simpl; [discriminate| |];
    intros H; injection H as <-; exists []; unfold waiting; st_simpl;
    rewrite asked_Sent; cbn [task_request ids_of map snd]; perm.
Qed.

Lemma release_thins t st : thins st (release t st).
Proof.
  open_state st. unfold release. st_simpl.
  destruct (slot_is t mass); [|destruct (slot_is t newt); [|destruct (slot_is t oldt)]];
    exists []; unfold waiting; st_simpl; perm.
Qed.

Lemma asked_cancel_each ts : asked (fst (cancel_each ts)) = [].
Proof.
  induction ts as [|[t|] r IH]; cbn [cancel_each fst]; try reflexivity.
  destruct (cancel_each r) as [evs ok]. cbn [fst] in *.
  change (Cancelled t :: evs) with ([Cancelled t] ++ evs). now rewrite asked_app, IH.
Qed.

Lemma handle_done_thins done : forall st,
  thins st (outcome_state (handle_done done st)).
Proof.
  induction done as [|[t c] rest IH]; intros st; [apply thins_refl|].
  cbn [handle_done]. destruct (remove_entry t (tasks st)) as [ts'|]; [|apply thins_refl].
  set (st1 := set_trace _ _).
  assert (H1 : thins st st1).
  { unfold st1. open_state st. exists []. unfold waiting. st_simpl.
    rewrite asked_Handled. perm. }
  destruct c as [|e].
  - eapply thins_trans; [exact H1|]. eapply thins_trans; [apply release_thins | apply IH].
  - pose proof (asked_cancel_each (tasks st1)) as Hc.
    assert (H2 : forall evs, asked evs = [] -> thins st (set_trace (trace st1 ++ evs) st1)).
    { intros evs Hevs. eapply thins_trans; [exact H1|]. clearbody st1. open_state st1.
      exists []. unfold waiting. st_simpl. rewrite asked_app, Hevs. perm. }
    destruct (caught e); [|exact H1].
    destruct (cancel_each (tasks st1)) as [evs []]; cbn [fst outcome_state] in *;
      now apply H2.
Qed.

Lemma loop_body_thins E self chan st :
  thins st (outcome_state (loop_body E self chan st)).
Proof.
  unfold loop_body.
  destruct (delete_new E self chan st) as [e|st1] eqn:H1; [apply thins_refl|].
  apply delete_new_thins in H1.
  pose proof (thins_trans _ _ _ H1 (delete_old_thins self chan st1)) as H2.
  destruct (delete_own self chan (delete_old self chan st1)) as [e|st3] eqn:H3;
    [exact H2|].
  apply delete_own_thins in H3. pose proof (thins_trans _ _ _ H2 H3) as H4.
  destruct (last_resort self chan st3) as [st5|] eqn:H5; [|exact H4].
  apply last_resort_thins in H5. pose proof (thins_trans _ _ _ H4 H5) as H6.
  unfold await_first. destruct (all_tasks (tasks st5)); cbn [raise ret]; [|exact H6].
  eapply thins_trans; [exact H6|].
  eapply thins_trans; [|apply handle_done_thins].
  open_state st5. exists []. unfold waiting. st_simpl. perm.
Qed.

Lemma run_thins E self chan fuel : forall st,
  thins st (outcome_state (run E self chan fuel st)).
Proof.
  induction fuel as [|n IH]; intros st; cbn [run]; [apply thins_refl|].
  pose proof (loop_body_thins E self chan st) as H.
  destruct (loop_body E self chan st) as [s|s|e s|e s|s]; cbn [outcome_state] in *; auto.
  eapply thins_trans; [exact H | apply IH].
Qed.

(** 3728-3733 *)
Lemma delete_each_asked E chan messages : forall st,
  exists rest,
    asked (trace (outcome_state (delete_each E chan messages st))) ++ map message_id rest
    = asked (trace st) ++ map message_id messages.
Proof.
  induction messages as [|m r IH]; intros st; cbn [delete_each].
  - exists []. reflexivity.
  - set (st1 := set_trace _ _).
    assert (H1 : asked (trace st1) = asked (trace st) ++ [message_id m]).
    { unfold st1. open_state st. st_simpl. rewrite asked_app. unfold asked. cbn.
      reflexivity. }
    destruct (await_request E (awaits st) _).
    + destruct (IH st1) as (rest & Hrest). exists rest.
      rewrite Hrest, H1, <- app_assoc. reflexivity.
    + exists r. cbn [outcome_state]. rewrite H1, <- app_assoc. reflexivity.
Qed.

End MultipleDelivery.

(** X7.  [message_delete_multiple] asks only for messages it was given,
    and for none of them more often than it was given: the ids of its
    requests, together with some other ids, are the ids of [messages]. *)
Theorem multiple_asks_for_given_messages_only
    (E : env) (self : Z) (fuel : nat) (messages : list Message) :
  exists others,
    Permutation
      (asked (Multiple.trace
                (outcome_state (Multiple.message_delete_multiple E self fuel messages)))
       ++ others)
      (map message_id messages).
Proof.
  destruct (MultipleRuns.message_delete_multiple_cases E self fuel messages)
    as [(-> & Ho) | [(first & rest & _ & _ & Ho) | (first & rest & _ & _ & Ho)]];
    rewrite Ho.
  - exists []. reflexivity.
  - destruct (MultipleDelivery.delete_each_asked E (channel_id (message_channel first))
                messages Multiple.empty) as (left & Hleft).
    exists (map message_id left). now rewrite Hleft.
  - destruct (MultipleDelivery.run_thins E self (channel_id (message_channel first)) fuel
                (MultipleFacts.entry E self messages)) as (d & Hd).
    set (st := outcome_state _) in *.
    pose proof (MultipleDelivery.classify_split self
                  (id_limit (DISCORD_EPOCH E) (time_now E 0) TWO_WEEKS_MS)
                  messages [] [] []) as Hc.
    unfold MultipleFacts.entry, MultipleDelivery.waiting in Hd.
    destruct (Multiple.classify self _ messages [] [] []) as [[n o] oo].
    cbn [Multiple.trace Multiple.message_group_new Multiple.message_group_old
         Multiple.message_group_old_own map app] in Hd, Hc.
    exists ((map snd (Multiple.message_group_new st) ++ Multiple.message_group_old st
             ++ Multiple.message_group_old_own st) ++ d
            ++ map message_id (List.filter message_deleted messages)).
    rewrite <- Hc.
    change (asked []) with (@nil Z) in Hd. cbn [app] in Hd.
    transitivity ((asked (Multiple.trace st)
                   ++ (map snd (Multiple.message_group_new st)
                       ++ Multiple.message_group_old st
                       ++ Multiple.message_group_old_own st) ++ d)
                  ++ map message_id (List.filter message_deleted messages)); [perm|].
    rewrite Hd. perm.
Qed.

(** * Which client makes which request in [multi_client_message_delete_sequence] *)

Module MultiClientRoutes.
Import MultiClient.

Ltac open_state st :=
  destruct st as [shs sr last lim new old old_own ts get nxt hist ser reads aw tr].

Ltac st_simpl :=
  cbn [set_sharders set_should_request set_last_message_id set_limit
       set_message_group_new set_message_group_old set_message_group_old_own
       set_tasks set_get_mass_task set_get_mass_task_next set_history
       set_next_serial set_clock_reads set_awaits set_trace
       sharders should_request last_message_id limit message_group_new
       message_group_old message_group_old_own tasks get_mass_task
       get_mass_task_next history next_serial clock_reads awaits trace
       fst snd bind ret raise popleft is_none spawn read_clock
       task_serial task_request task_client] in *.

(** What does not change in a sharder: the client and what it may do. *)
Definition role (s : sharder) : Z * bool * bool :=
  (client s, can_manage_messages s, can_read_message_history s).

Definition roles (l : list sharder) : list (Z * bool * bool) := map role l.

(** A history request is made by a client that can read the history, a
    bulk request by a client that can manage messages, and it carries 2 to
    100 ids. *)
Definition routed (R : list (Z * bool * bool)) (t : task) : Prop :=
  match task_request t with
  | http_message_logs _ _ => exists m, In (task_client t, m, true) R
  | http_message_delete_multiple _ message_ids =>
      (exists r, In (task_client t, true, r) R) /\
      (2 <= length message_ids <= 100)%nat
  | _ => True
  end.

Definition routes (st st' : state) : Prop :=
  roles (sharders st') = roles (sharders st) /\
  exists created,
    sent (trace st') = sent (trace st) ++ created /\
    Forall (routed (roles (sharders st))) created.

Lemma routes_refl st : routes st st.
Proof. split; [reflexivity|]. exists []. now rewrite app_nil_r. Qed.

Lemma routes_trans a b c : routes a b -> routes b c -> routes a c.
Proof.
  intros (H1 & t1 & H2 & H3) (G1 & t2 & G2 & G3). split; [congruence|].
  exists (t1 ++ t2). split; [now rewrite G2, H2, app_assoc|].
  apply Forall_app. split; [exact H3|]. now rewrite <- H1.
Qed.

Lemma routes_same st st' :
  roles (sharders st') = roles (sharders st) -> sent (trace st') = sent (trace st) ->
  routes st st'.
Proof. intros H1 H2. split; [exact H1|]. exists []. now rewrite app_nil_r. Qed.

Lemma routes_one st st' t :
  roles (sharders st') = roles (sharders st) -> trace st' = trace st ++ [Sent t] ->
  routed (roles (sharders st)) t -> routes st st'.
Proof.
  intros H1 H2 H3. split; [exact H1|]. exists [t].
  split; [now rewrite H2, sent_app | now constructor].
Qed.

Lemma roles_set_at x : forall l i s,
  nth_error l i = Some s -> role x = role s -> roles (set_at i x l) = roles l.
Proof.
  induction l as [|y r IH]; intros i s Hn Hr; [destruct i; discriminate|].
  destruct i as [|j]; cbn in *.
  - injection Hn as ->. now rewrite Hr.
  - f_equal. eapply IH; eauto.
Qed.

Lemma update_sharder_same i f st :
  (forall s, role (f s) = role s) ->
  roles (sharders (update_sharder i f st)) = roles (sharders st) /\
  trace (update_sharder i f st) = trace st.
Proof.
  intros Hf. unfold update_sharder.
  destruct (nth_error (sharders st) i) as [s|] eqn:Hn; [|auto].
  open_state st. st_simpl. split; [|reflexivity].
  eapply roles_set_at; eauto.
Qed.

Lemma role_in l i s : nth_error l i = Some s -> In (role s) (roles l).
Proof. intros H. apply in_map. eapply nth_error_In; eauto. Qed.

Lemma release_roles t : forall l, roles (release t l) = roles l.
Proof.
  induction l as [|s r IH]; [reflexivity|]. cbn [release].
  destruct (slot_is t (delete_mass_task s)); [reflexivity|].
  destruct (slot_is t (delete_new_task s)); [reflexivity|].
  destruct (slot_is t (delete_old_task s)); [reflexivity|].
  cbn [roles map]. f_equal. exact IH.
Qed.

(** 4389-4398 *)
Lemma next_reader_reads l : forall fuel n i,
  next_reader fuel l n = inr (Some i) ->
  exists s, nth_error l i = Some s /\ can_read_message_history s = true.
Proof.
  induction fuel as [|f IH]; intros n i H; cbn [next_reader ret] in H; [discriminate|].
  set (k := if (length l <=? n)%nat then 0%nat else n) in *.
  destruct (nth_error l k) as [s|] eqn:Hn; [|discriminate].
  destruct (can_read_message_history s) eqn:Hr.
  - injection H as <-. eauto.
  - eapply IH; eauto.
Qed.

Lemma request_history_routes C st st' :
  request_history C st = inr (Some st') -> routes st st'.
Proof.
  unfold request_history. destruct (should_request st && is_none (get_mass_task st)).
  2:{ intros H; injection H as <-. apply routes_refl. }
  destruct (next_reader _ _ _) as [e|[i|]] eqn:Hr; cbn [bind ret]; try discriminate.
  apply next_reader_reads in Hr. destruct Hr as (s & Hn & Hread).
  open_state st. st_simpl. rewrite Hn. intros H; injection H as <-.
  eapply routes_one; st_simpl; [reflexivity | reflexivity |].
  unfold routed. st_simpl. exists (can_manage_messages s).
  rewrite <- Hread. now apply (role_in shs i).
Qed.

Lemma collect_at_most time_limit q : forall collected,
  (collected <= 100)%nat -> (collect time_limit q collected <= 100)%nat.
Proof.
  induction q as [|[whos id] r IH]; intros collected Hc; cbn [collect]; [exact Hc|].
  destruct (Nat.eqb_spec collected 100); [lia|].
  destruct (id <? time_limit); [lia|]. apply IH. lia.
Qed.

Lemma pop_collected_length collected : forall q message_ids x,
  pop_collected collected q message_ids = inr x ->
  length (fst x) = (length message_ids + collected)%nat.
Proof.
  induction collected as [|k IH]; intros q ids x H; cbn [pop_collected ret] in H.
  - injection H as <-. cbn. lia.
  - destruct q as [|y r]; cbn [popleft bind raise ret] in H; [discriminate|].
    apply IH in H. rewrite H, length_app. cbn. lia.
Qed.

Lemma submit_collected_routes C i s collected st st' :
  nth_error (sharders st) i = Some s -> can_manage_messages s = true ->
  (collected <= 100)%nat ->
  submit_collected C i s collected st = inr st' -> routes st st'.
Proof.
  intros Hn Hm Hc. unfold submit_collected. destruct collected as [|[|k]].
  - intros H; injection H as <-. apply routes_refl.
  - destruct (first_sub_sharder s (sharders st) 0) as [j|].
    2:{ intros H; injection H as <-. apply routes_refl. }
    destruct (nth_error (sharders st) j) as [sub|] eqn:Hj; [|discriminate].
    destruct (message_group_new st) as [|x r] eqn:Hnew; cbn [popleft bind raise ret];
      [discriminate|].
    intros H; injection H as <-.
    match goal with |- routes _ (update_sharder _ ?f ?s0) =>
      destruct (update_sharder_same j f s0 ltac:(reflexivity)) as (U1 & U2) end.
    eapply routes_one; [rewrite U1 | rewrite U2 | ].
    + now destruct st.
    + now destruct st.
    + exact I.
  - destruct (pop_collected (S (S k)) (message_group_new st) []) as [e|x] eqn:Hp;
      cbn [bind ret]; [discriminate|].
    apply pop_collected_length in Hp. cbn [length] in Hp.
    intros H; injection H as <-.
    match goal with |- routes _ (update_sharder _ ?f ?s0) =>
      destruct (update_sharder_same i f s0 ltac:(reflexivity)) as (U1 & U2) end.
    eapply routes_one; [rewrite U1 | rewrite U2 | ].
    + now destruct st.
    + now destruct st.
    + unfold routed. cbn [task_request task_client]. split; [|lia].
      exists (can_read_message_history s). rewrite <- Hm. now apply (role_in _ i).
Qed.

Lemma delete_new_by_routes E C i st st' :
  delete_new_by E C i st = inr st' -> routes st st'.
Proof.
  unfold delete_new_by. destruct (nth_error (sharders st) i) as [s|] eqn:Hn; [|discriminate].
  destruct (can_manage_messages s) eqn:Hm; cbn [andb].
  2:{ intros H; injection H as <-. apply routes_refl. }
  destruct (is_none (delete_mass_task s)).
  2:{ intros H; injection H as <-. apply routes_refl. }
  destruct (length (message_group_new st)).
  { intros H; injection H as <-. apply routes_refl. }
  cbn [read_clock].
  set (st0 := set_clock_reads _ st). set (time_limit := id_limit _ _ _).
  assert (H0 : routes st st0) by (apply routes_same; now destruct st).
  assert (Hn0 : nth_error (sharders st0) i = Some s) by (unfold st0; now destruct st).
  intros H.
  destruct (submit_collected C i s _ st0) as [e|st1] eqn:Hs; cbn [bind] in H;
    [discriminate|].
  apply submit_collected_routes in Hs; [| exact Hn0 | exact Hm | apply collect_at_most; lia].
  apply (routes_trans _ st0); [exact H0|]. apply (routes_trans _ st1); [exact Hs|].
  destruct (length (message_group_new st1)); [injection H as <-; apply routes_refl|].
  destruct (move_aged _ _ _ _ _) as [e|x]; cbn [bind ret] in H; [discriminate|].
  injection H as <-. apply routes_same; now destruct st1.
Qed.

Lemma delete_new_routes E C indices : forall st st',
  delete_new E C indices st = inr st' -> routes st st'.
Proof.
  induction indices as [|i r IH]; intros st st' H; cbn [delete_new ret] in H.
  - injection H as <-. apply routes_refl.
  - destruct (delete_new_by E C i st) as [e|st1] eqn:H1; cbn [bind] in H; [discriminate|].
    eapply routes_trans; [eapply delete_new_by_routes; eauto | eapply IH; eauto].
Qed.

(** A request for one message, which any client may make. *)
Lemma single_routes st st' j f t :
  (forall s, role (f s) = role s) ->
  (forall chan ids, task_request t <> http_message_delete_multiple chan ids) ->
  (forall chan before, task_request t <> http_message_logs chan before) ->
  roles (sharders st') = roles (sharders st) -> trace st' = trace st ++ [Sent t] ->
  routes st (update_sharder j f st').
Proof.
  intros Hf Hb Hl H1 H2.
  destruct (update_sharder_same j f st' Hf) as (U1 & U2).
  eapply routes_one; [rewrite U1; exact H1 | rewrite U2; exact H2 |].
  unfold routed. destruct (task_request t); try exact I.
  - exfalso. eapply Hb; eauto.
  - exfalso. eapply Hl; eauto.
Qed.

Lemma delete_old_own_routes C st st' : delete_old_own C st = inr st' -> routes st st'.
Proof.
  unfold delete_old_own. destruct (message_group_old_own st) as [|[whos x] r] eqn:Hq.
  { intros H; injection H as <-. apply routes_refl. }
  destruct (py_index (sharders st) whos) as [s|]; [|discriminate].
  destruct (is_none (delete_new_task s)).
  2:{ intros H; injection H as <-. apply routes_refl. }
  intros H; injection H as <-.
  eapply single_routes with (t := mk_task (next_serial st) (client s) (delete_item (chan C) x)).
  - reflexivity.
  - destruct x; discriminate.
  - destruct x; discriminate.
  - now destruct st.
  - now destruct st.
Qed.

Lemma delete_old_by_routes C indices : forall st st',
  delete_old_by C indices st = inr st' -> routes st st'.
Proof.
  induction indices as [|i r IH]; intros st st' H; cbn [delete_old_by ret] in H.
  - injection H as <-. apply routes_refl.
  - destruct (nth_error (sharders st) i) as [s|]; [|discriminate].
    destruct (is_none (delete_old_task s)); [|now apply IH].
    destruct (message_group_old st) as [|id q] eqn:Hq; cbn [popleft bind raise ret] in H;
      [discriminate|].
    cbn [spawn fst snd] in H.
    set (st1 := update_sharder i _ _) in H.
    assert (H1 : routes st st1).
    { unfold st1.
      eapply single_routes
        with (t := mk_task (next_serial st) (client s) (http_message_delete_b2wo (chan C) id)).
      - reflexivity.
      - discriminate.
      - discriminate.
      - now destruct st.
      - now destruct st. }
    destruct (message_group_old st1).
    + injection H as <-. exact H1.
    + eapply routes_trans; [exact H1 | now apply IH].
Qed.

Lemma delete_old_routes C st st' : delete_old C st = inr st' -> routes st st'.
Proof.
  unfold delete_old. destruct (message_group_old st).
  - intros H; injection H as <-. apply routes_refl.
  - apply delete_old_by_routes.
Qed.

Lemma last_resort_routes C st st' : last_resort C st = inr (Some st') -> routes st st'.
Proof.
  unfold last_resort. destruct (tasks st) eqn:Ht.
  2:{ intros H; injection H as <-. apply routes_refl. }
  destruct (message_group_new st) as [|[whos id] r] eqn:Hq; cbn [ret]; [discriminate|].
  set (st0 := set_message_group_new r st).
  assert (H0 : sharders st0 = sharders st /\ trace st0 = trace st /\
               next_serial st0 = next_serial st) by now destruct st.
  destruct H0 as (A1 & A2 & A3).
  destruct (whos =? -1).
  - destruct (first_manager (sharders st0) 0) as [j|]; [|discriminate].
    destruct (nth_error (sharders st0) j) as [s|]; [|discriminate].
    intros H; injection H as <-.
    eapply single_routes
      with (t := mk_task (next_serial st) (client s) (http_message_delete_b2wo (chan C) id)).
    + reflexivity.
    + discriminate.
    + discriminate.
    + now destruct st.
    + now destruct st.
  - destruct (py_index (sharders st0) whos) as [s|]; [|discriminate].
    intros H; injection H as <-.
    eapply single_routes
      with (t := mk_task (next_serial st) (client s) (http_message_delete (chan C) id)).
    + reflexivity.
    + discriminate.
    + discriminate.
    + now destruct st.
    + now destruct st.
Qed.

Lemma enqueue_same time_limit author_id st :
  sharders (snd (enqueue time_limit author_id st)) = sharders st /\
  trace (snd (enqueue time_limit author_id st)) = trace st.
Proof.
  open_state st. unfold enqueue. st_simpl.
  destruct (last >? time_limit); [|destruct (is_own_getter shs author_id =? -1)]; st_simpl;
    destruct (lim - 1 =? 0); auto.
Qed.

Lemma process_page_same E C time_limit result : forall st,
  sharders (process_page E C time_limit result st) = sharders st /\
  trace (process_page E C time_limit result st) = trace st.
Proof.
  induction result as [|d rest IH]; intros st; cbn [process_page]; [auto|].
  destruct (filter C) as [f|].
  - set (st1 := set_last_message_id _ st).
    assert (H1 : sharders st1 = sharders st /\ trace st1 = trace st) by now destruct st.
    destruct (last_message_id st1 <? after C); [now destruct st1|].
    destruct (negb (f _)).
    { destruct (IH st1) as (I1 & I2). split; [rewrite I1 | rewrite I2]; apply H1. }
    pose proof (enqueue_same time_limit (message_author (create_unknown_message E d)) st1)
      as (H2 & H3).
    destruct (enqueue time_limit _ st1) as [[] st2]; cbn [snd] in H2, H3.
    + destruct (IH st2) as (I1 & I2). split; [rewrite I1, H2 | rewrite I2, H3]; apply H1.
    + split; [rewrite H2 | rewrite H3]; apply H1.
  - set (st1 := set_last_message_id _ st).
    assert (H1 : sharders st1 = sharders st /\ trace st1 = trace st) by now destruct st.
    destruct (last_message_id st1 <? after C); [now destruct st1|].
    pose proof (enqueue_same time_limit (author_id_of d) st1) as (H2 & H3).
    destruct (enqueue time_limit _ st1) as [[] st2]; cbn [snd] in H2, H3.
    + destruct (IH st2) as (I1 & I2). split; [rewrite I1, H2 | rewrite I2, H3]; apply H1.
    + split; [rewrite H2 | rewrite H3]; apply H1.
Qed.

Lemma got_history_same E C st :
  sharders (snd (got_history E C st)) = sharders st /\
  trace (snd (got_history E C st)) = trace st.
Proof.
  unfold got_history, take_page.
  set (st0 := set_get_mass_task None st).
  assert (H0 : sharders st0 = sharders st /\ trace st0 = trace st) by now destruct st.
  destruct (history st0) as [|page r].
  - cbn [length Nat.ltb Nat.leb Nat.eqb snd]. now destruct st0.
  - set (st1 := set_history r st0).
    assert (H1 : sharders st1 = sharders st /\ trace st1 = trace st)
      by (unfold st1; now destruct st0).
    set (st2 := if (length page <? 100)%nat then set_should_request false st1 else st1).
    assert (H2 : sharders st2 = sharders st /\ trace st2 = trace st).
    { unfold st2. destruct (length page <? 100)%nat; [now destruct st1 | exact H1]. }
    destruct (length page =? 0)%nat; cbn [snd]; [exact H2|].
    cbn [read_clock snd].
    match goal with |- context [process_page E C ?tl page ?s] =>
      destruct (process_page_same E C tl page s) as (P1 & P2) end.
    rewrite P1, P2. now destruct st2.
Qed.

Lemma released_routes t st st' :
  sharders st' = sharders st -> sent (trace st') = sent (trace st) ->
  routes st (set_sharders (release t (sharders st')) st').
Proof.
  intros H1 H2. apply routes_same.
  - replace (sharders (set_sharders (release t (sharders st')) st'))
      with (release t (sharders st')) by now destruct st'.
    now rewrite release_roles, H1.
  - replace (trace (set_sharders (release t (sharders st')) st')) with (trace st')
      by now destruct st'.
    exact H2.
Qed.

Lemma handle_done_routes E C done : forall st,
  routes st (outcome_state (handle_done E C done st)).
Proof.
  induction done as [|[t c] rest IH]; intros st; [apply routes_refl|].
  cbn [handle_done]. destruct (remove_task t (tasks st)) as [ts'|]; [|apply routes_refl].
  set (st1 := set_trace _ _).
  assert (H1 : sharders st1 = sharders st /\ sent (trace st1) = sent (trace st)).
  { unfold st1. open_state st. st_simpl. rewrite sent_app. cbn. now rewrite app_nil_r. }
  destruct H1 as (A1 & A2).
  destruct c as [|e].
  - destruct (slot_is t (get_mass_task st1)).
    + destruct (got_history_same E C st1) as (G1 & G2).
      destruct (got_history E C st1) as [[] st2]; cbn [snd] in G1, G2.
      * eapply routes_trans; [|apply IH]. apply released_routes; congruence.
      * eapply routes_trans; [|apply IH]. apply routes_same; congruence.
    + eapply routes_trans; [|apply IH]. now apply released_routes.
  - cbn [outcome_state]. unfold cancel_all. apply routes_same.
    + rewrite <- A1. now destruct st1.
    + rewrite <- A2. clearbody st1. open_state st1. st_simpl.
      rewrite sent_app, sent_map_Cancelled. now rewrite app_nil_r.
Qed.

Lemma loop_body_routes E C st : routes st (outcome_state (loop_body E C st)).
Proof.
  unfold loop_body.
  destruct (request_history C st) as [e|[st1|]] eqn:H1; try apply routes_refl.
  apply request_history_routes in H1.
  destruct (delete_new E C _ st1) as [e|st2] eqn:H2; cbn [bind]; [exact H1|].
  apply delete_new_routes in H2. pose proof (routes_trans _ _ _ H1 H2) as R2.
  destruct (delete_old_own C st2) as [e|st3] eqn:H3; cbn [bind]; [exact H1|].
  apply delete_old_own_routes in H3. pose proof (routes_trans _ _ _ R2 H3) as R3.
  destruct (delete_old C st3) as [e|st4] eqn:H4; cbn [bind]; [exact H1|].
  apply delete_old_routes in H4. pose proof (routes_trans _ _ _ R3 H4) as R4.
  destruct (last_resort C st4) as [e|[st5|]] eqn:H5; [exact H1 | | exact H1].
  apply last_resort_routes in H5. pose proof (routes_trans _ _ _ R4 H5) as R5.
  unfold await_first.
  eapply routes_trans; [exact R5|]. eapply routes_trans; [|apply handle_done_routes].
  apply routes_same; now destruct st5.
Qed.

Lemma run_routes E C fuel : forall st, routes st (outcome_state (run E C fuel st)).
Proof.
  induction fuel as [|n IH]; intros st; cbn [run]; [apply routes_refl|].
  pose proof (loop_body_routes E C st) as H.
  destruct (loop_body E C st) as [s|s|e s|e s|s]; cbn [outcome_state] in *; auto.
  eapply routes_trans; [exact H | apply IH].
Qed.

End MultiClientRoutes.

(** X8.  In [multi_client_message_delete_sequence] every history request
    is made by a client that can read the message history, and every bulk
    request by a client that can manage messages, with 2 to 100 ids. *)
Theorem history_and_bulk_requests_go_to_able_clients
    (E : env) (C : MultiClient.config) (fuel : nat) (l : list MultiClient.sharder)
    (should_request : bool) (last_message_id limit : Z)
    (new : list (Z * Z)) (old : list Z) (old_own : list (Z * MultiClient.item))
    (history : list (list message_data)) :
  let st := outcome_state
              (MultiClient.run E C fuel
                 (MultiClient.start l should_request last_message_id limit new old old_own
                    history)) in
  Forall (fun t =>
            match task_request t with
            | http_message_logs _ _ =>
                exists s, In s l /\ MultiClient.client s = task_client t /\
                          MultiClient.can_read_message_history s = true
            | http_message_delete_multiple _ message_ids =>
                (exists s, In s l /\ MultiClient.client s = task_client t /\
                           MultiClient.can_manage_messages s = true) /\
                (2 <= length message_ids <= 100)%nat
            | _ => True
            end)
    (sent (MultiClient.trace st)).
Proof.
  intros st.
  destruct (MultiClientRoutes.run_routes E C fuel
              (MultiClient.start l should_request last_message_id limit new old old_own
                 history)) as (_ & created & Hs & Hr).
  fold st in Hs. cbn in Hs. rewrite Hs. cbn [MultiClient.sharders MultiClient.start] in Hr.
  eapply Forall_impl; [|exact Hr].
  intros t. unfold MultiClientRoutes.routed, MultiClientRoutes.roles.
  destruct (task_request t); auto.
  - intros ((r & Hin) & Hlen). split; [|exact Hlen].
    apply in_map_iff in Hin. destruct Hin as (s & Hrole & Hin).
    injection Hrole as H1 H2 H3. eauto.
  - intros (m & Hin). apply in_map_iff in Hin. destruct Hin as (s & Hrole & Hin).
    injection Hrole as H1 H2 H3. eauto.
Qed.

(** * The messages that the pages of the history bring in *)

Module SequencePages.
Import Sequence SequenceFacts SequenceDelivery.

(** The id under which a message of a page is queued (4171, 4201). *)
Definition page_id (E : env) (C : config) (d : message_data) : Z :=
  match filter C with
  | None => data_id d
  | Some _ => message_id (create_unknown_message E d)
  end.

(** The message is not before [after] and the filter, if any, takes it. *)
Definition passes (E : env) (C : config) (d : message_data) : bool :=
  (after C <=? page_id E C d) &&
  match filter C with
  | None => true
  | Some f => f (create_unknown_message E d)
  end.

(** What the messages of pages do to the state: [added] joins the queues
    and is counted against [limit]. *)
Definition brings (E : env) (C : config) (page : list message_data) (added : list Z)
    (st st' : state) : Prop :=
  Permutation (waiting st') (waiting st ++ added) /\
  incl added (map (page_id E C) (List.filter (passes E C) page)) /\
  limit st' = limit st - Z.of_nat (length added) /\
  trace st' = trace st /\
  (0 < limit st -> 0 <= limit st' /\ (should_request st' = true -> 0 < limit st')).

(** 4213-4231 *)
Lemma enqueue_brings C time_limit author_id st :
  let st' := snd (enqueue C time_limit author_id st) in
  Permutation (waiting st') (waiting st ++ [last_message_id st]) /\
  limit st' = limit st - 1 /\ trace st' = trace st /\
  history st' = history st /\ last_message_id st' = last_message_id st /\
  fst (enqueue C time_limit author_id st) = negb (limit st - 1 =? 0) /\
  (should_request st' = true -> limit st - 1 <> 0).
Proof.
  open_state st. unfold enqueue, waiting. st_simpl.
  destruct (last >? time_limit); [|destruct (author_id =? self_id C)]; st_simpl;
    destruct (Z.eqb_spec (lim - 1) 0); st_simpl; rewrite ?map_app; cbn [map snd negb];
    (split; [perm|]); repeat split; try reflexivity; try discriminate; auto.
Qed.

(** 4169-4231 *)
Lemma process_page_brings E C time_limit result : forall st,
  exists added,
    brings E C result added st (process_page E C time_limit result st) /\
    history (process_page E C time_limit result st) = history st /\
    get_mass_task (process_page E C time_limit result st) = get_mass_task st.
Proof.
  induction result as [|d rest IH]; intros st; cbn [process_page].
  - exists []. split; [|auto]. unfold brings. rewrite app_nil_r. cbn [length].
    repeat split; auto using incl_nil_l; lia.
  - assert (Hskip : forall st1,
               waiting st1 = waiting st -> limit st1 = limit st -> trace st1 = trace st ->
               history st1 = history st -> get_mass_task st1 = get_mass_task st ->
               exists added,
                 brings E C (d :: rest) added st (process_page E C time_limit rest st1) /\
                 history (process_page E C time_limit rest st1) = history st /\
                 get_mass_task (process_page E C time_limit rest st1) = get_mass_task st).
    { intros st1 W1 L1 T1 H1 G1. destruct (IH st1) as (added & (B1 & B2 & B3 & B4 & B5) & B6 & B7).
      exists added. split; [|split; congruence].
      unfold brings. rewrite <- W1, <- L1, <- T1. repeat split; auto.
      - cbn [List.filter]. destruct (passes E C d); [|exact B2].
        cbn [map]. now apply incl_tl.
      - apply B5. lia.
      - apply B5. lia. }
    assert (Hstop : forall st1,
               waiting st1 = waiting st -> limit st1 = limit st -> trace st1 = trace st ->
               history st1 = history st -> get_mass_task st1 = get_mass_task st ->
               should_request st1 = false ->
               exists added,
                 brings E C (d :: rest) added st st1 /\
                 history st1 = history st /\ get_mass_task st1 = get_mass_task st).
    { intros st1 W1 L1 T1 H1 G1 S1. exists []. split; [|auto].
      unfold brings. rewrite W1, L1, T1, app_nil_r. cbn [length].
      repeat split; auto using incl_nil_l; try lia; try congruence. }
    assert (Htake : forall st1 author_id,
               waiting st1 = waiting st -> limit st1 = limit st -> trace st1 = trace st ->
               history st1 = history st -> get_mass_task st1 = get_mass_task st ->
               last_message_id st1 = page_id E C d -> passes E C d = true ->
               exists added,
                 brings E C (d :: rest) added st
                   (let (go_on, st2) := enqueue C time_limit author_id st1 in
                    if go_on then process_page E C time_limit rest st2 else st2) /\
                 history (let (go_on, st2) := enqueue C time_limit author_id st1 in
                          if go_on then process_page E C time_limit rest st2 else st2)
                 = history st /\
                 get_mass_task (let (go_on, st2) := enqueue C time_limit author_id st1 in
                                if go_on then process_page E C time_limit rest st2 else st2)
                 = get_mass_task st).
    { intros st1 author_id W1 L1 T1 H1 G1 Hid Hpass.
      pose proof (enqueue_brings C time_limit author_id st1) as (E1 & E2 & E3 & E4 & _ & E6 & E7).
      assert (E8 : get_mass_task (snd (enqueue C time_limit author_id st1))
                   = get_mass_task st1).
      { clear. open_state st1. unfold enqueue. st_simpl.
        destruct (last >? time_limit); [|destruct (author_id =? self_id C)]; st_simpl;
          destruct (lim - 1 =? 0); reflexivity. }
      destruct (enqueue C time_limit author_id st1) as [go_on st2]. cbn [fst snd] in *.
      subst go_on. destruct (Z.eqb_spec (limit st1 - 1) 0) as [Hz|Hnz]; cbn [negb].
      - exists [page_id E C d]. split; [|split; congruence].
        unfold brings. rewrite E1, E2, E3, W1, L1, T1, Hid. cbn [length].
        split; [reflexivity|]. split; [|split; [lia|split; [reflexivity|]]].
        + cbn [List.filter]. rewrite Hpass. cbn [map]. intros x [<-|[]]. now left.
        + intros Hpos. split; [lia|]. intros Hsr. exfalso. now apply E7.
      - destruct (IH st2) as (added & (B1 & B2 & B3 & B4 & B5) & B6 & B7).
        exists (page_id E C d :: added). split; [|split; congruence].
        unfold brings. split; [|split; [|split; [|split]]].
        + rewrite B1, E1, W1, Hid. perm.
        + cbn [List.filter]. rewrite Hpass. cbn [map]. intros x [<-|Hx]; [now left|].
          right. now apply B2.
        + rewrite B3, E2, L1. cbn [length]. lia.
        + congruence.
        + intros Hpos. apply B5. lia. }
    unfold passes, page_id in *. destruct (filter C) as [f|].
    + set (st1 := set_last_message_id (message_id (create_unknown_message E d)) st) in *.
      assert (A : waiting st1 = waiting st /\ limit st1 = limit st /\ trace st1 = trace st /\
                  history st1 = history st /\ get_mass_task st1 = get_mass_task st /\
                  last_message_id st1 = message_id (create_unknown_message E d))
        by (unfold st1; now destruct st).
      destruct A as (W1 & L1 & T1 & H1 & G1 & I1).
      rewrite I1. destruct (Z.ltb_spec (message_id (create_unknown_message E d)) (after C)).
      { apply Hstop; try (now destruct st1). }
      destruct (f (create_unknown_message E d)) eqn:Hf; cbn [negb].
      * apply Htake; auto. apply andb_true_intro. split; [apply Z.leb_le; lia | reflexivity].
      * now apply Hskip.
    + set (st1 := set_last_message_id (data_id d) st) in *.
      assert (A : waiting st1 = waiting st /\ limit st1 = limit st /\ trace st1 = trace st /\
                  history st1 = history st /\ get_mass_task st1 = get_mass_task st /\
                  last_message_id st1 = data_id d)
        by (unfold st1; now destruct st).
      destruct A as (W1 & L1 & T1 & H1 & G1 & I1).
      rewrite I1. destruct (Z.ltb_spec (data_id d) (after C)).
      { apply Hstop; try (now destruct st1). }
      apply Htake; auto. apply andb_true_intro. split; [apply Z.leb_le; lia | reflexivity].
Qed.

(** 4155-4231 *)
Lemma got_history_brings E C st :
  exists page added,
    brings E C page added st (snd (got_history E C st)) /\
    incl page (concat (history st)) /\
    incl (concat (history (snd (got_history E C st)))) (concat (history st)) /\
    get_mass_task (snd (got_history E C st)) = None.
Proof.
  unfold got_history, take_page.
  set (st0 := set_get_mass_task None st).
  assert (A0 : waiting st0 = waiting st /\ limit st0 = limit st /\ trace st0 = trace st /\
               history st0 = history st /\ get_mass_task st0 = None) by now destruct st.
  destruct A0 as (W0 & L0 & T0 & H0 & G0). rewrite H0.
  destruct (history st) as [|page r] eqn:Hh.
  - exists [], []. cbn [length Nat.ltb Nat.leb Nat.eqb snd].
    split; [|split; [apply incl_nil_l | split]].
    + unfold brings. cbn [length].
      replace (waiting (set_should_request false st0)) with (waiting st)
        by (rewrite <- W0; now destruct st0).
      replace (limit (set_should_request false st0)) with (limit st)
        by (rewrite <- L0; now destruct st0).
      replace (trace (set_should_request false st0)) with (trace st)
        by (rewrite <- T0; now destruct st0).
      rewrite app_nil_r.
      repeat split; auto using incl_nil_l; try lia; try (now destruct st0).
    + replace (history (set_should_request false st0)) with (history st0)
        by now destruct st0.
      rewrite H0. apply incl_refl.
    + now destruct st0.
  - set (st1 := set_history r st0).
    assert (A1 : waiting st1 = waiting st /\ limit st1 = limit st /\ trace st1 = trace st /\
                 history st1 = r /\ get_mass_task st1 = None)
      by (unfold st1; now destruct st0).
    set (st2 := if (length page <? 100)%nat then set_should_request false st1 else st1).
    assert (A2 : waiting st2 = waiting st /\ limit st2 = limit st /\ trace st2 = trace st /\
                 history st2 = r /\ get_mass_task st2 = None).
    { unfold st2. destruct (length page <? 100)%nat; [now destruct st1 | exact A1]. }
    destruct A2 as (W2 & L2 & T2 & H2 & G2).
    assert (Hr : incl (concat r) (concat (page :: r))).
    { cbn [concat]. apply incl_appr, incl_refl. }
    destruct (length page =? 0)%nat eqn:Hz; cbn [snd].
    + exists [], []. split; [|split; [apply incl_nil_l | split]].
      * unfold brings. rewrite W2, L2, T2, app_nil_r. cbn [length].
        repeat split; auto using incl_nil_l; try lia.
      * now rewrite H2.
      * exact G2.
    + cbn [read_clock snd].
      set (st3 := set_clock_reads _ st2). set (time_limit := id_limit _ _ _).
      assert (A3 : waiting st3 = waiting st /\ limit st3 = limit st /\ trace st3 = trace st /\
                   history st3 = r /\ get_mass_task st3 = None)
        by (unfold st3; now destruct st2).
      destruct A3 as (W3 & L3 & T3 & H3 & G3).
      destruct (process_page_brings E C time_limit page st3)
        as (added & (B1 & B2 & B3 & B4 & B5) & B6 & B7).
      exists page, added. split; [|split; [|split]].
      * unfold brings. rewrite <- W3, <- L3, <- T3. auto.
      * cbn [concat]. apply incl_appl, incl_refl.
      * now rewrite B6, H3.
      * congruence.
Qed.

(** As many messages as [limit] may still join the queues, and [limit] is
    positive as long as history can be requested or is awaited. *)
Definition within (bound : nat) (st : state) : Prop :=
  (length (asked (trace st)) + length (waiting st) + Z.to_nat (limit st) <= bound)%nat /\
  (get_mass_task st <> None \/ should_request st = true -> 0 < limit st).

Lemma run_within bound E C fuel st :
  within bound st -> within bound (outcome_state (run E C fuel st)).
Proof.
  apply run_keeps.
  - intros a b (H1 & H2 & H3 & _ & H5) (K1 & K2).
    apply Permutation_length in H1. rewrite !length_app in H1. split; [rewrite H2; lia|].
    rewrite H2, H3. intros [Hg|Hs]; apply K2; [|now right].
    destruct H5 as [H5|(H5 & _)]; [left; congruence | now right].
  - intros a (K1 & K2) Hget.
    destruct (got_history_brings E C a) as (page & added & (B1 & _ & B3 & B4 & B5) & _ & _ & G).
    specialize (K2 (or_introl Hget)). destruct (B5 K2) as (B6 & B7).
    apply Permutation_length in B1. rewrite length_app in B1.
    split; [rewrite B4, B1, B3; lia|].
    intros [Hg|Hs]; [congruence | now apply B7].
Qed.

(** The ids asked for or queued come from the queues at the start or from
    the messages of [pool] that pass, and the pages to come are in [pool]. *)
Definition sourced (E : env) (C : config) (initial : list Z) (pool : list message_data)
    (st : state) : Prop :=
  incl (asked (trace st) ++ waiting st)
    (initial ++ map (page_id E C) (List.filter (passes E C) pool)) /\
  incl (concat (history st)) pool.

Lemma run_sourced initial pool E C fuel st :
  sourced E C initial pool st -> sourced E C initial pool (outcome_state (run E C fuel st)).
Proof.
  apply run_keeps.
  - intros a b (H1 & _ & _ & H4 & _) (K1 & K2). split; [|now rewrite H4].
    intros x Hx. apply K1. eapply Permutation_in; eauto.
  - intros a (K1 & K2) _.
    destruct (got_history_brings E C a)
      as (page & added & (B1 & B2 & _ & B4 & _) & Hpage & Hrest & _).
    split; [|eapply incl_tran; eauto].
    rewrite B4. intros x Hx. apply in_app_or in Hx. destruct Hx as [Hx|Hx].
    + apply K1. apply in_or_app. now left.
    + apply (Permutation_in _ B1) in Hx. apply in_app_or in Hx. destruct Hx as [Hx|Hx].
      * apply K1. apply in_or_app. now right.
      * apply in_or_app. right. apply B2 in Hx. apply in_map_iff in Hx.
        destruct Hx as (d & Hd & Hin). apply filter_In in Hin. apply in_map_iff.
        exists d. split; [exact Hd|]. apply filter_In. split; [|tauto].
        apply K2, Hpage. tauto.
Qed.

End SequencePages.

(** X10.  [limit] bounds the messages that [message_delete_sequence] takes
    from the history: with a positive [limit] when history is to be
    requested, the delete requests made and the messages queued are, at
    any point, no more than the messages queued at the start and [limit]
    more. *)
Theorem limit_bounds_the_messages_from_history
    (E : env) (C : Sequence.config) (fuel : nat)
    (should_request : bool) (last_message_id limit : Z)
    (new : list (bool * Z)) (old old_own : list Z)
    (history : list (list message_data))
    (Hlimit : should_request = true -> 0 < limit) :
  let st := outcome_state
              (Sequence.run E C fuel
                 (Sequence.start should_request last_message_id limit new old old_own
                    history)) in
  (length (asked (Sequence.trace st)) + length (SequenceDelivery.waiting st)
   <= length new + length old + length old_own + Z.to_nat limit)%nat.
Proof.
  intros st.
  assert (H : SequencePages.within
                (length new + length old + length old_own + Z.to_nat limit) st).
  { apply SequencePages.run_within. split.
    - unfold SequenceDelivery.waiting. cbn. rewrite !length_app, length_map. lia.
    - cbn. intros [H|H]; [congruence | now apply Hlimit]. }
  destruct H as (H & _). lia.
Qed.

Lemma limit_bounds_witness :
  let st := outcome_state
              (Sequence.run quiet_env a_config 6
                 (Sequence.start true 1000 1 [(false, id_aged 0)] [5] [6]
                    [[mk_message_data 900 None; mk_message_data 800 None]])) in
  (length (asked (Sequence.trace st)) + length (SequenceDelivery.waiting st)
   <= 1 + 1 + 1 + Z.to_nat 1)%nat.
Proof.
  apply (limit_bounds_the_messages_from_history quiet_env a_config 6 true 1000 1
           [(false, id_aged 0)] [5] [6]
           [[mk_message_data 900 None; mk_message_data 800 None]]).
  intros _. lia.
Defined.

(** X11.  What [message_delete_sequence] asks to delete was queued at the
    start or is a message of one of the pages of the history that is not
    before [after] and that the filter, if there is one, takes. *)
Theorem only_queued_or_passing_messages_are_asked_for
    (E : env) (C : Sequence.config) (fuel : nat)
    (should_request : bool) (last_message_id limit : Z)
    (new : list (bool * Z)) (old old_own : list Z)
    (history : list (list message_data)) :
  let st := outcome_state
              (Sequence.run E C fuel
                 (Sequence.start should_request last_message_id limit new old old_own
                    history)) in
  Forall (fun message_id =>
            In message_id (map snd new ++ old ++ old_own) \/
            exists d, In d (concat history) /\
                      SequencePages.page_id E C d = message_id /\
                      Sequence.after C <= message_id /\
                      forall f, Sequence.filter C = Some f ->
                                f (create_unknown_message E d) = true)
    (asked (Sequence.trace st)).
Proof.
  intros st.
  assert (H : SequencePages.sourced E C (map snd new ++ old ++ old_own) (concat history) st).
  { apply SequencePages.run_sourced. split.
    - cbn. apply incl_appl, incl_refl.
    - apply incl_refl. }
  destruct H as (H & _). apply Forall_forall. intros x Hx.
  assert (Hin : In x (asked (Sequence.trace st) ++ SequenceDelivery.waiting st))
    by (apply in_or_app; now left).
  apply H in Hin. apply in_app_or in Hin. destruct Hin as [Hin|Hin]; [now left|].
  right. apply in_map_iff in Hin. destruct Hin as (d & Hd & Hin).
  apply filter_In in Hin. destruct Hin as (Hin & Hp).
  exists d. split; [exact Hin|]. split; [exact Hd|].
  unfold SequencePages.passes in Hp. apply andb_prop in Hp. destruct Hp as (Ha & Hf).
  apply Z.leb_le in Ha. split; [lia|].
  intros f Hfil. rewrite Hfil in Hf. exact Hf.
Qed.

(** * The groups of [message_delete_multiple2] *)

Module Groups.
Import Multiple2.

Definition channel_of (message : Message) : Z := channel_id (message_channel message).

(** The messages of [messages] that are of channel [k], in their order. *)
Definition of_channel (k : Z) (messages : list Message) : list Message :=
  List.filter (fun message => channel_of message =? k) messages.

(** [delete_system] after the messages [seen]. *)
Definition grouped (seen : list Message) (delete_system : list (Z * list Message)) : Prop :=
  NoDup (map fst delete_system) /\
  (forall k ms, In (k, ms) delete_system -> ms <> [] /\ ms = of_channel k seen) /\
  (forall message, In message seen -> In (channel_of message) (map fst delete_system)).

Lemma of_channel_snoc k seen message :
  of_channel k (seen ++ [message])
  = of_channel k seen ++ (if channel_of message =? k then [message] else []).
Proof. unfold of_channel. rewrite filter_app. cbn [List.filter]. reflexivity. Qed.

(** 3893-3897 on a dictionary whose keys are different. *)
Lemma add_to_system_keys channel message : forall delete_system,
  map fst (add_to_system channel message delete_system)
  = if existsb (Z.eqb channel) (map fst delete_system)
    then map fst delete_system
    else map fst delete_system ++ [channel].
Proof.
  induction delete_system as [|[k ms] r IH]; cbn [add_to_system map fst existsb app].
  - reflexivity.
  - rewrite (Z.eqb_sym channel k). destruct (k =? channel); cbn [orb map fst].
    + reflexivity.
    + rewrite IH. now destruct (existsb _ _).
Qed.

Lemma add_to_system_entries channel message : forall delete_system k ms',
  NoDup (map fst delete_system) ->
  In (k, ms') (add_to_system channel message delete_system) ->
  (k <> channel /\ In (k, ms') delete_system) \/
  (k = channel /\
   ((exists ms, In (k, ms) delete_system /\ ms' = ms ++ [message]) \/
    (~ In k (map fst delete_system) /\ ms' = [message]))).
Proof.
  induction delete_system as [|[k0 ms0] r IH]; intros k ms' Hn Hin;
    cbn [add_to_system map fst] in *.
  - destruct Hin as [Hin|[]]. injection Hin as <- <-. right. split; [reflexivity|].
    right. split; [intros []|reflexivity].
  - inversion Hn as [|? ? Hnotin Hr]; subst.
    destruct (Z.eqb_spec k0 channel) as [->|Hne].
    + destruct Hin as [Hin|Hin].
      * injection Hin as <- <-. right. split; [reflexivity|]. left.
        exists ms0. split; [now left | reflexivity].
      * left. split; [|now right]. intros ->. apply Hnotin.
        apply (in_map fst) in Hin. exact Hin.
    + destruct Hin as [Hin|Hin].
      * injection Hin as <- <-. left. split; [exact Hne | now left].
      * destruct (IH k ms' Hr Hin) as [(H1 & H2) | (H1 & [(ms & H2 & H3) | (H2 & H3)])].
        -- left. split; [exact H1 | now right].
        -- right. split; [exact H1|]. left. exists ms. split; [now right | exact H3].
        -- right. split; [exact H1|]. right. split; [|exact H3].
           cbn [In]. intros [Hk|Hk]; [congruence | now apply H2].
Qed.

Lemma grouped_step seen delete_system message :
  grouped seen delete_system ->
  grouped (seen ++ [message]) (add_to_system (channel_of message) message delete_system).
Proof.
  intros (Hn & He & Hk).
  assert (Hex : existsb (Z.eqb (channel_of message)) (map fst delete_system) = true
                <-> In (channel_of message) (map fst delete_system)).
  { rewrite existsb_exists. split.
    - intros (x & Hx & Heq). apply Z.eqb_eq in Heq. now subst.
    - intros H. exists (channel_of message). split; [exact H | apply Z.eqb_refl]. }
  split; [|split].
  - rewrite add_to_system_keys.
    destruct (existsb _ _) eqn:Hb; [exact Hn|].
    apply NoDup_app; [exact Hn | repeat constructor; intros [] |].
    intros x Hx [<-|[]]. apply Hex in Hx. congruence.
  - intros k ms' Hin. rewrite of_channel_snoc.
    destruct (add_to_system_entries _ _ _ _ _ Hn Hin)
      as [(H1 & H2) | (H1 & [(ms & H2 & H3) | (H2 & H3)])].
    + destruct (He _ _ H2) as (E1 & E2).
      destruct (Z.eqb_spec (channel_of message) k); [congruence|].
      now rewrite app_nil_r.
    + destruct (He _ _ H2) as (E1 & E2). subst k ms'. rewrite Z.eqb_refl.
      split; [now destruct ms | now rewrite E2].
    + subst k ms'. rewrite Z.eqb_refl. split; [discriminate|].
      assert (Hnone : of_channel (channel_of message) seen = []).
      { unfold of_channel. destruct (List.filter _ seen) as [|x r] eqn:Hf; [reflexivity|].
        exfalso. assert (Hx : In x (List.filter
                                      (fun m => channel_of m =? channel_of message) seen))
          by (rewrite Hf; now left).
        apply filter_In in Hx. destruct Hx as (Hx & Heq). apply Z.eqb_eq in Heq.
        apply H2. rewrite <- Heq. now apply Hk. }
      now rewrite Hnone.
  - intros m Hm. rewrite add_to_system_keys. apply in_app_or in Hm.
    destruct (existsb _ _) eqn:Hb.
    + destruct Hm as [Hm|[<-|[]]]; [now apply Hk | now apply Hex].
    + apply in_or_app. destruct Hm as [Hm|[<-|[]]]; [left; now apply Hk | right; now left].
Qed.

Lemma grouped_fold messages : forall seen delete_system,
  grouped seen delete_system ->
  grouped (seen ++ messages)
    (fold_left (fun delete_system message =>
                  add_to_system (channel_id (message_channel message)) message delete_system)
       messages delete_system).
Proof.
  induction messages as [|m r IH]; intros seen ds H; cbn [fold_left].
  - now rewrite app_nil_r.
  - replace (seen ++ m :: r) with ((seen ++ [m]) ++ r) by now rewrite <- app_assoc.
    apply IH. now apply grouped_step.
Qed.

End Groups.

(** X9.  The groups that [message_delete_multiple2] hands to
    [message_delete_multiple]: one group for each channel that has a
    message, each group made of all the messages of its channel and only of
    them, in the order in which they were given. *)
Theorem each_group_holds_the_messages_of_one_channel (messages : list Message) :
  let delete_system := Multiple2.group_by_channel messages in
  NoDup (map fst delete_system) /\
  (forall message, In message messages ->
     In (channel_id (message_channel message)) (map fst delete_system)) /\
  Forall (fun group =>
            snd group <> [] /\
            snd group = List.filter
                          (fun message => channel_id (message_channel message) =? fst group)
                          messages)
    delete_system.
Proof.
  intros delete_system.
  destruct (Groups.grouped_fold messages [] []) as (H1 & H2 & H3).
  { split; [constructor|]. split; [intros k ms []|intros m []]. }
  cbn [app] in *. fold (Multiple2.group_by_channel messages) in H1, H2, H3.
  fold delete_system in H1, H2, H3.
  split; [exact H1|]. split; [exact H3|].
  apply Forall_forall. intros [k ms] Hin. cbn [fst snd]. now apply H2.
Qed.

(** * [Client._parse_allowed_mentions], client.py 3530-3657 *)

Module AllowedMentions.

(** An element of [allowed_mentions]: a [str], a [UserBase] instance or a
    [Role] instance with its id, or an object of another type. *)
Inductive element : Type :=
| a_str (s : string)
| a_user (id : Z)
| a_role (id : Z)
| an_object.

(** The argument: [None], a [list], or anything else. *)
Inductive argument : Type :=
| given_None
| given_list (l : list element)
| given_one (x : element).

(** [ValueError] for a [str] that is not one of the names, [TypeError] for
    an element of another type. *)
Inductive failure : Type :=
| ValueError (s : string)
| TypeError.

(** The local variables of the [for] loop. *)
Record flags : Type := mk_flags {
  allow_replied_user : Z;
  allow_everyone : Z;
  allow_users : Z;
  allow_roles : Z;
  allowed_users : option (list Z);
  allowed_roles : option (list Z)
}.

(** [if x is None: x = []] followed by [x.append(id)]. *)
Definition appended (x : option (list Z)) (id : Z) : option (list Z) :=
  match x with
  | None => Some [id]
  | Some l => Some (l ++ [id])
  end.

(** 3581-3621 *)
Fixpoint scan (l : list element) (v : flags) : failure + flags :=
  match l with
  | [] => inr v
  | a_str s :: r =>
      if String.eqb s "!replied_user"%string then
        scan r (mk_flags (-1) (allow_everyone v) (allow_users v) (allow_roles v)
                  (allowed_users v) (allowed_roles v))
      else if String.eqb s "replied_user"%string then
        scan r (mk_flags 1 (allow_everyone v) (allow_users v) (allow_roles v)
                  (allowed_users v) (allowed_roles v))
      else if String.eqb s "everyone"%string then
        scan r (mk_flags (allow_replied_user v) 1 (allow_users v) (allow_roles v)
                  (allowed_users v) (allowed_roles v))
      else if String.eqb s "users"%string then
        scan r (mk_flags (allow_replied_user v) (allow_everyone v) 1 (allow_roles v)
                  (allowed_users v) (allowed_roles v))
      else if String.eqb s "roles"%string then
        scan r (mk_flags (allow_replied_user v) (allow_everyone v) (allow_users v) 1
                  (allowed_users v) (allowed_roles v))
      else inl (ValueError s)
  | a_user id :: r =>
      scan r (mk_flags (allow_replied_user v) (allow_everyone v) (allow_users v)
                (allow_roles v) (appended (allowed_users v) id) (allowed_roles v))
  | a_role id :: r =>
      scan r (mk_flags (allow_replied_user v) (allow_everyone v) (allow_users v)
                (allow_roles v) (allowed_users v) (appended (allowed_roles v) id))
  | an_object :: _ => inl TypeError
  end.

(** The [dict] returned: each key with its value, or without one. *)
Record result : Type := mk_result {
  replied_user : option bool;
  parse : option (list string);
  users : option (list Z);
  roles : option (list Z)
}.

(** [if parse_all_of is None: parse_all_of = []; result['parse'] =
    parse_all_of] followed by [parse_all_of.append(name)]. *)
Definition parse_all (parse_all_of : option (list string)) (name : string)
  : option (list string) :=
  match parse_all_of with
  | None => Some [name]
  | Some l => Some (l ++ [name])
  end.

(** 3624-3655 *)
Definition build (v : flags) : result :=
  let replied :=
    if allow_replied_user v =? 0 then None else Some (allow_replied_user v >? 0) in
  let parse_all_of := None in
  let parse_all_of :=
    if allow_everyone v =? 0 then parse_all_of
    else parse_all parse_all_of "everyone"%string in
  let parse_all_of :=
    if allow_users v =? 0 then parse_all_of else parse_all parse_all_of "users"%string in
  let users := if allow_users v =? 0 then allowed_users v else None in
  let parse_all_of :=
    if allow_roles v =? 0 then parse_all_of else parse_all parse_all_of "roles"%string in
  let roles := if allow_roles v =? 0 then allowed_roles v else None in
  mk_result replied parse_all_of users roles.

Definition nothing : result := mk_result None (Some []) None None.

Definition start : flags := mk_flags 0 0 0 0 None None.

Definition _parse_allowed_mentions (allowed_mentions : argument) : failure + result :=
  match allowed_mentions with
  | given_None => inr nothing
  | given_list [] => inr nothing
  | given_list l =>
      match scan l start with
      | inl e => inl e
      | inr v => inr (build v)
      end
  | given_one x =>
      match scan [x] start with
      | inl e => inl e
      | inr v => inr (build v)
      end
  end.

(** ** What the function computes *)

(** The names a [str] element can be. *)
Definition names : list string :=
  ["!replied_user"%string; "replied_user"%string; "everyone"%string; "users"%string;
   "roles"%string].

Definition is_name (s : string) : bool := existsb (String.eqb s) names.

Definition wanted (x : element) : bool :=
  match x with
  | a_str s => is_name s
  | a_user _ | a_role _ => true
  | an_object => false
  end.

(** The [str] [name] is among the elements. *)
Definition names_it (name : string) (l : list element) : bool :=
  existsb (fun x => match x with a_str s => String.eqb s name | _ => false end) l.

Definition user_ids (l : list element) : list Z :=
  flat_map (fun x => match x with a_user id => [id] | _ => [] end) l.

Definition role_ids (l : list element) : list Z :=
  flat_map (fun x => match x with a_role id => [id] | _ => [] end) l.

(** What the last of ['replied_user'] and ['!replied_user'] says. *)
Fixpoint replied (l : list element) (before : option bool) : option bool :=
  match l with
  | [] => before
  | a_str s :: r =>
      if String.eqb s "!replied_user"%string then replied r (Some false)
      else if String.eqb s "replied_user"%string then replied r (Some true)
      else replied r before
  | _ :: r => replied r before
  end.

Definition some_ids (ids : list Z) : option (list Z) :=
  match ids with
  | [] => None
  | _ => Some ids
  end.

(** The result for a list of elements all of which are [wanted]. *)
Definition expected (l : list element) : result :=
  mk_result
    (replied l None)
    (match List.filter (fun name => names_it name l)
             ["everyone"%string; "users"%string; "roles"%string] with
     | [] => None
     | chosen => Some chosen
     end)
    (if names_it "users"%string l then None else some_ids (user_ids l))
    (if names_it "roles"%string l then None else some_ids (role_ids l)).

(** The flags after [l], from the flags [v]. *)
Definition flag (name : string) (l : list element) (before : Z) : Z :=
  if names_it name l then 1 else before.

Definition joined (x : option (list Z)) (ids : list Z) : option (list Z) :=
  match ids with
  | [] => x
  | _ => Some (match x with None => [] | Some l => l end ++ ids)
  end.

Definition replied_flag (l : list element) (before : Z) : Z :=
  match replied l None with
  | None => before
  | Some true => 1
  | Some false => -1
  end.

Definition scanned (l : list element) (v : flags) : flags :=
  mk_flags (replied_flag l (allow_replied_user v))
    (flag "everyone"%string l (allow_everyone v))
    (flag "users"%string l (allow_users v))
    (flag "roles"%string l (allow_roles v))
    (joined (allowed_users v) (user_ids l))
    (joined (allowed_roles v) (role_ids l)).

Lemma replied_some l : forall b, exists b', replied l (Some b) = Some b'.
Proof.
  induction l as [|x r IH]; intros b; cbn [replied]; [eauto|].
  destruct x; try apply IH.
  destruct (String.eqb s "!replied_user"%string); [apply IH|].
  destruct (String.eqb s "replied_user"%string); apply IH.
Qed.

Lemma replied_flag_after l b before :
  match replied l (Some b) with
  | None => before
  | Some true => 1
  | Some false => -1
  end
  = replied_flag l (if b then 1 else -1).
Proof.
  unfold replied_flag. revert b.
  induction l as [|x r IH]; intros b; cbn [replied]; [now destruct b|].
  destruct x; try apply IH.
  destruct (String.eqb s "!replied_user"%string).
  { destruct (replied_some r false) as (b' & ->). reflexivity. }
  destruct (String.eqb s "replied_user"%string).
  { destruct (replied_some r true) as (b' & ->). reflexivity. }
  apply IH.
Qed.

Lemma joined_appended x id ids :
  joined (appended x id) ids = joined x (id :: ids).
Proof.
  destruct x as [l|], ids as [|i r]; cbn [joined appended app]; try reflexivity.
  - now rewrite <- app_assoc.
Qed.

Lemma flags_eq a b c d e f a' b' c' d' e' f' :
  a = a' -> b = b' -> c = c' -> d = d' -> e = e' -> f = f' ->
  mk_flags a b c d e f = mk_flags a' b' c' d' e' f'.
Proof. now intros -> -> -> -> -> ->. Qed.

(** 3581-3621 on elements that are all [wanted]. *)
Lemma scan_wanted l : forall v,
  forallb wanted l = true -> scan l v = inr (scanned l v).
Proof.
  induction l as [|x r IH]; intros v Hw.
  - destruct v. reflexivity.
  - cbn [forallb] in Hw. apply andb_prop in Hw. destruct Hw as (Hx & Hr).
    destruct x as [s|id|id|]; cbn [scan wanted] in *; try discriminate.
    + unfold is_name, names in Hx. cbn [existsb] in Hx.
      destruct (String.eqb_spec s "!replied_user"%string) as [->|N1].
      { rewrite IH by exact Hr. unfold scanned, flag, names_it, user_ids, role_ids.
        cbn [allow_replied_user allow_everyone allow_users allow_roles allowed_users
             allowed_roles existsb flat_map app orb]. cbn [String.eqb Ascii.eqb Bool.eqb].
        apply f_equal. apply flags_eq; try reflexivity.
        unfold replied_flag at 2. cbn [replied String.eqb Ascii.eqb Bool.eqb].
        symmetry. apply (replied_flag_after r false). }
      destruct (String.eqb_spec s "replied_user"%string) as [->|N2].
      { rewrite IH by exact Hr. unfold scanned, flag, names_it, user_ids, role_ids.
        cbn [allow_replied_user allow_everyone allow_users allow_roles allowed_users
             allowed_roles existsb flat_map app orb]. cbn [String.eqb Ascii.eqb Bool.eqb].
        apply f_equal. apply flags_eq; try reflexivity.
        unfold replied_flag at 2. cbn [replied String.eqb Ascii.eqb Bool.eqb].
        symmetry. apply (replied_flag_after r true). }
      assert (Hrep : forall before, replied_flag (a_str s :: r) before = replied_flag r before).
      { intros before. unfold replied_flag. cbn [replied].
        destruct (String.eqb_spec s "!replied_user"%string); [contradiction|].
        destruct (String.eqb_spec s "replied_user"%string); [contradiction|]. reflexivity. }
      destruct (String.eqb_spec s "everyone"%string) as [->|N3].
      { rewrite IH by exact Hr. unfold scanned, flag, names_it, user_ids, role_ids.
        rewrite Hrep.
        cbn [allow_replied_user allow_everyone allow_users allow_roles allowed_users
             allowed_roles existsb flat_map app orb]. cbn [String.eqb Ascii.eqb Bool.eqb].
        apply f_equal. apply flags_eq; try reflexivity.
        now destruct (existsb _ r). }
      destruct (String.eqb_spec s "users"%string) as [->|N4].
      { rewrite IH by exact Hr. unfold scanned, flag, names_it, user_ids, role_ids.
        rewrite Hrep.
        cbn [allow_replied_user allow_everyone allow_users allow_roles allowed_users
             allowed_roles existsb flat_map app orb]. cbn [String.eqb Ascii.eqb Bool.eqb].
        apply f_equal. apply flags_eq; try reflexivity.
        now destruct (existsb _ r). }
      destruct (String.eqb_spec s "roles"%string) as [->|N5].
      { rewrite IH by exact Hr. unfold scanned, flag, names_it, user_ids, role_ids.
        rewrite Hrep.
        cbn [allow_replied_user allow_everyone allow_users allow_roles allowed_users
             allowed_roles existsb flat_map app orb]. cbn [String.eqb Ascii.eqb Bool.eqb].
        apply f_equal. apply flags_eq; try reflexivity.
        now destruct (existsb _ r). }
      cbn [orb] in Hx. discriminate.
    + rewrite IH by exact Hr. unfold scanned, flag, names_it, user_ids, role_ids, replied_flag.
      cbn [allow_replied_user allow_everyone allow_users allow_roles allowed_users
           allowed_roles existsb flat_map app orb replied].
      apply f_equal. apply flags_eq; try reflexivity. apply joined_appended.
    + rewrite IH by exact Hr. unfold scanned, flag, names_it, user_ids, role_ids, replied_flag.
      cbn [allow_replied_user allow_everyone allow_users allow_roles allowed_users
           allowed_roles existsb flat_map app orb replied].
      apply f_equal. apply flags_eq; try reflexivity. apply joined_appended.
Qed.

Lemma build_scanned l : build (scanned l start) = expected l.
Proof.
  unfold build, scanned, expected, start, flag, replied_flag.
  cbn [allow_replied_user allow_everyone allow_users allow_roles allowed_users
       allowed_roles List.filter joined].
  destruct (replied l None) as [[]|]; cbn [Z.eqb Z.gtb Z.compare];
    destruct (names_it "everyone"%string l), (names_it "users"%string l),
      (names_it "roles"%string l);
    cbn [Z.eqb parse_all app];
    destruct (user_ids l), (role_ids l); reflexivity.
Qed.

(** The first element that is not [wanted] decides the exception. *)
Lemma scan_unwanted l : forall v pre x post,
  l = pre ++ x :: post -> forallb wanted pre = true -> wanted x = false ->
  scan l v = inl (match x with a_str s => ValueError s | _ => TypeError end).
Proof.
  intros v pre x post ->. revert v.
  induction pre as [|y r IH]; intros v Hpre Hx; cbn [app].
  - destruct x as [s|id|id|]; cbn [wanted scan] in *; try discriminate; [|reflexivity].
    unfold is_name, names in Hx. cbn [existsb] in Hx.
    destruct (String.eqb s "!replied_user"%string); [discriminate|].
    destruct (String.eqb s "replied_user"%string); [discriminate|].
    destruct (String.eqb s "everyone"%string); [discriminate|].
    destruct (String.eqb s "users"%string); [discriminate|].
    destruct (String.eqb s "roles"%string); [discriminate|]. reflexivity.
  - cbn [forallb] in Hpre. apply andb_prop in Hpre. destruct Hpre as (Hy & Hr).
    destruct y as [s|id|id|]; cbn [wanted scan] in *; try discriminate;
      try (now apply IH).
    unfold is_name, names in Hy. cbn [existsb] in Hy.
    destruct (String.eqb s "!replied_user"%string); [now apply IH|].
    destruct (String.eqb s "replied_user"%string); [now apply IH|].
    destruct (String.eqb s "everyone"%string); [now apply IH|].
    destruct (String.eqb s "users"%string); [now apply IH|].
    destruct (String.eqb s "roles"%string); [now apply IH|]. discriminate.
Qed.

(** A list is made of [wanted] elements or has a first one that is not. *)
Lemma first_unwanted l :
  forallb wanted l = true \/
  exists pre x post, l = pre ++ x :: post /\ forallb wanted pre = true /\ wanted x = false.
Proof.
  induction l as [|y r IH]; [now left|].
  destruct (wanted y) eqn:Hy.
  - destruct IH as [IH|(pre & x & post & -> & Hpre & Hx)].
    + left. cbn [forallb]. now rewrite Hy, IH.
    + right. exists (y :: pre), x, post. cbn [forallb app]. now rewrite Hy, Hpre.
  - right. exists [], y, r. auto.
Qed.

End AllowedMentions.

(** X12.  [_parse_allowed_mentions] on a list whose elements are names
    it knows, users and roles: ['parse'] holds, in the order [everyone],
    [users], [roles], the names given, and is absent when none of them is;
    the ids of the users are under ['users'], in the order given, unless the
    name [users] is given or there is no user, and likewise for the roles;
    ['replied_user'] is what the last of [replied_user] and [!replied_user]
    says.  So a name and ids of its kind never come together. *)
Theorem allowed_mentions_of_wanted_elements
    (l : list AllowedMentions.element)
    (Hnonempty : l <> [])
    (Hwanted : forallb AllowedMentions.wanted l = true) :
  AllowedMentions._parse_allowed_mentions (AllowedMentions.given_list l)
  = inr (AllowedMentions.expected l).
Proof.
  destruct l as [|x r]; [congruence|].
  unfold AllowedMentions._parse_allowed_mentions.
  rewrite AllowedMentions.scan_wanted by exact Hwanted.
  now rewrite AllowedMentions.build_scanned.
Qed.

Lemma allowed_mentions_witness :
  AllowedMentions._parse_allowed_mentions
    (AllowedMentions.given_list
       [AllowedMentions.a_user 5; AllowedMentions.a_str "roles"%string;
        AllowedMentions.a_role 7; AllowedMentions.a_str "!replied_user"%string;
        AllowedMentions.a_user 6])
  = inr (AllowedMentions.mk_result (Some false) (Some ["roles"%string]) (Some [5; 6]) None).
Proof.
  apply (allowed_mentions_of_wanted_elements
           [AllowedMentions.a_user 5; AllowedMentions.a_str "roles"%string;
            AllowedMentions.a_role 7; AllowedMentions.a_str "!replied_user"%string;
            AllowedMentions.a_user 6]).
  - discriminate.
  - reflexivity.
Defined.

(** X13.  [_parse_allowed_mentions] raises exactly when an element is
    neither a name it knows nor a user nor a role, and the first such
    element decides: [ValueError] for a [str], [TypeError] otherwise. *)
Theorem allowed_mentions_raise_on_the_first_unwanted_element
    (l : list AllowedMentions.element) :
  match AllowedMentions._parse_allowed_mentions (AllowedMentions.given_list l) with
  | inr _ => forallb AllowedMentions.wanted l = true
  | inl e =>
      exists pre x post,
        l = pre ++ x :: post /\
        forallb AllowedMentions.wanted pre = true /\
        AllowedMentions.wanted x = false /\
        e = match x with
            | AllowedMentions.a_str s => AllowedMentions.ValueError s
            | _ => AllowedMentions.TypeError
            end
  end.
Proof.
  destruct l as [|y r]; [reflexivity|].
  unfold AllowedMentions._parse_allowed_mentions.
  destruct (AllowedMentions.first_unwanted (y :: r)) as [Hw|(pre & x & post & Hl & Hpre & Hx)].
  - now rewrite AllowedMentions.scan_wanted by exact Hw.
  - rewrite (AllowedMentions.scan_unwanted _ _ _ _ _ Hl Hpre Hx).
    exists pre, x, post. auto.
Qed.

(** * The cached history of a channel: [Client._load_messages_till],
      [Client.message_at_index] and [Client.messages_in_range],
      client.py 4942-5177

    The channel is given as a [ChannelTextBase] instance.  What a history
    request returns and what [channel._process_message_chunk] (which is not
    part of the sources at hand) then leaves in the channel is up to the
    environment. *)

Module History.

(** The attributes of the channel that the three functions read or write. *)
Record text_channel : Type := mk_text_channel {
  messages : option (list Message);
  message_history_reached_end : bool;
  _turn_message_keep_limit_on_at : Z
}.

(** [message_logs(channel, limit, before=...)] and
    [message_logs_fromzero(channel, limit)]. *)
Inductive call : Type :=
| logs_before (limit before : Z)
| logs_fromzero (limit : Z).

Definition limit_of (c : call) : Z :=
  match c with
  | logs_before limit _ | logs_fromzero limit => limit
  end.

(** What the HTTP client can raise; a [DiscordException] has a code. *)
Inductive remote_failure : Type :=
| ConnectionError
| DiscordException (code : Z).

Inductive failure : Type :=
| AssertionError
| IndexError
| Remote (e : remote_failure).

(** The environment: for the [n]th request, on the channel as it is, the
    exception raised, or the messages returned and the channel as the
    request leaves it; the codes of the exceptions that
    [messages_in_range] lets pass (5160-5166, [ERROR_CODES] is not part of
    the sources at hand); and whether the cached permissions allow to read
    the history. *)
Record remote : Type := mk_remote {
  answer : nat -> call -> text_channel -> remote_failure + (list Message * text_channel);
  let_pass : Z -> bool;
  can_read_message_history : bool
}.

Record state : Type := mk_state {
  channel : text_channel;
  awaits : nat;
  calls : list call
}.

(** [len(channel.messages)], [0] for [None]. *)
Definition cached (ch : text_channel) : Z :=
  match messages ch with
  | None => 0
  | Some l => Z.of_nat (length l)
  end.

(** 3016-3102 and 3104-3153 for a channel instance: the assertion on
    [limit], then the request. *)
Definition request (R : remote) (c : call) (st : state)
  : failure + (list Message * state) :=
  if (limit_of c <? 1) || (limit_of c >? 100) then inl AssertionError
  else
    match answer R (awaits st) c (channel st) with
    | inl e => inl (Remote e)
    | inr (result, ch) => inr (result, mk_state ch (S (awaits st)) (calls st ++ [c]))
    end.

Inductive outcome : Type :=
| Returned (result_state : Z) (st : state)
| Raised (e : failure) (st : state)
| Running (st : state).

(** 4976-5006; [fuel] bounds the passes of [while True]. *)
Fixpoint _load_messages_till (R : remote) (fuel : nat) (st : state) (index : Z) : outcome :=
  match fuel with
  | O => Running st
  | S fuel =>
      let ch := channel st in
      let ln := cached ch in
      let loadto := index - ln in
      if loadto <? 0 then
        Returned 0 (mk_state
                      (mk_text_channel (messages ch) (message_history_reached_end ch)
                         (_turn_message_keep_limit_on_at ch + index))
                      (awaits st) (calls st))
      else
        let planned := if loadto <? 98 then loadto + 2 else 100 in
        let asked :=
          if ln =? 0 then inr (logs_fromzero planned)
          else
            match messages ch with
            | None => inl IndexError
            | Some l =>
                match py_index l (ln - 2) with
                | None => inl IndexError
                | Some message => inr (logs_before planned (message_id message))
                end
            end in
        match asked with
        | inl e => Raised e st
        | inr c =>
            match request R c st with
            | inl e => Raised e st
            | inr (result, st) =>
                if Z.of_nat (length result) <? planned then
                  let ch := channel st in
                  Returned 1 (mk_state
                                (mk_text_channel (messages ch) true
                                   (_turn_message_keep_limit_on_at ch + index))
                                (awaits st) (calls st))
                else _load_messages_till R fuel st index
            end
        end
  end.

Inductive found : Type :=
| Found (message : Message) (st : state)
| NotFound (e : failure) (st : state)
| Searching (st : state).

(** 5038-5078 for a channel instance and an [int] index. *)
Definition message_at_index (R : remote) (fuel : nat) (st : state) (index : Z) : found :=
  if index <? 0 then NotFound AssertionError st
  else if (match messages (channel st) with
           | None => false
           | Some l => index <? Z.of_nat (length l)
           end)
  then NotFound IndexError st
  else if message_history_reached_end (channel st) then NotFound IndexError st
  else
    match _load_messages_till R fuel st index with
    | Running st => Searching st
    | Raised e st => NotFound e st
    | Returned result_state st =>
        if negb (result_state =? 0) then NotFound IndexError st
        else
          match messages (channel st) with
          | None => NotFound IndexError st
          | Some l =>
              match py_index l index with
              | None => NotFound IndexError st
              | Some message => Found message st
              end
          end
    end.

(** [for index in range(start, stop): result.append(messages[index])],
    [None] being the [IndexError] of [messages[index]]. *)
Fixpoint gather (l : list Message) (start : Z) (count : nat) : option (list Message) :=
  match count with
  | O => Some []
  | S count =>
      match py_index l start with
      | None => None
      | Some message =>
          match gather l (start + 1) count with
          | None => None
          | Some r => Some (message :: r)
          end
      end
  end.

Inductive ranged : Type :=
| Range (result : list Message) (st : state)
| NoRange (e : failure) (st : state)
| Ranging (st : state).

(** 5171-5177: what is returned from the channel as the function leaves it. *)
Definition take_range (st : state) (start end_ : Z) : ranged :=
  match messages (channel st) with
  | None => Range [] st
  | Some l =>
      match gather l start (Z.to_nat (Z.min end_ (Z.of_nat (length l)) - start)) with
      | None => NoRange IndexError st
      | Some result => Range result st
      end
  end.

(** 5114-5177 for a channel instance and [int] bounds. *)
Definition messages_in_range (R : remote) (fuel : nat) (st : state) (start end_ : Z)
  : ranged :=
  if start <? 0 then NoRange AssertionError st
  else if end_ <? 0 then NoRange AssertionError st
  else if end_ <=? start then Range [] st
  else
    let ch := channel st in
    if (end_ >=? cached ch) && negb (message_history_reached_end ch)
       && can_read_message_history R
    then
      match _load_messages_till R fuel st end_ with
      | Running st => Ranging st
      | Returned _ st => take_range st start end_
      | Raised (Remote (DiscordException code)) st =>
          if let_pass R code then take_range st start end_
          else NoRange (Remote (DiscordException code)) st
      | Raised e st => NoRange e st
      end
    else take_range st start end_.

(** ** Facts *)

Definition outcome_state (o : outcome) : state :=
  match o with
  | Returned _ st | Raised _ st | Running st => st
  end.

(** [planned] is a limit that [message_logs] takes. *)
Lemma planned_in_range loadto :
  0 <= loadto -> 2 <= (if loadto <? 98 then loadto + 2 else 100) <= 100.
Proof. intros H. destruct (Z.ltb_spec loadto 98); lia. Qed.

(** [messages[ln-2]] of a deque that is not empty. *)
Lemma second_last_exists (l : list Message) :
  l <> [] -> exists message, py_index l (Z.of_nat (length l) - 2) = Some message.
Proof.
  intros Hl. unfold py_index.
  destruct l as [|a [|b r]]; [congruence | |].
  - cbn. eauto.
  - replace (0 <=? Z.of_nat (length (a :: b :: r)) - 2) with true
      by (symmetry; apply Z.leb_le; cbn [length]; lia).
    destruct (nth_error (a :: b :: r) (Z.to_nat (Z.of_nat (length (a :: b :: r)) - 2)))
      as [m|] eqn:Hn; [eauto|].
    apply nth_error_None in Hn. cbn [length] in Hn. lia.
Qed.

Definition well_limited (c : call) : Prop := 2 <= limit_of c <= 100.

(** What a run of [_load_messages_till] leaves. *)
Definition loaded (index : Z) (o : outcome) : Prop :=
  match o with
  | Returned result_state st' =>
      (result_state = 0 /\ index < cached (channel st')) \/
      (result_state = 1 /\ message_history_reached_end (channel st') = true)
  | Raised e _ => exists r, e = Remote r
  | Running _ => True
  end.

Lemma load_spec R fuel : forall st index,
  (Forall well_limited (calls st) ->
   Forall well_limited (calls (outcome_state (_load_messages_till R fuel st index)))) /\
  loaded index (_load_messages_till R fuel st index).
Proof.
  induction fuel as [|n IH]; intros st index; cbn [_load_messages_till].
  - cbn. auto.
  - cbv zeta. destruct (Z.ltb_spec (index - cached (channel st)) 0) as [Hneg|Hpos].
    + cbn [outcome_state calls loaded]. split; [auto|]. left.
      split; [reflexivity|].
      change (index < cached (channel st)). lia.
    + set (planned := if index - cached (channel st) <? 98
                      then index - cached (channel st) + 2 else 100).
      pose proof (planned_in_range _ Hpos) as Hplanned. fold planned in Hplanned.
      assert (Hasked : exists c,
                 (if cached (channel st) =? 0 then inr (logs_fromzero planned)
                  else
                    match messages (channel st) with
                    | None => inl IndexError
                    | Some l =>
                        match py_index l (cached (channel st) - 2) with
                        | None => inl IndexError
                        | Some message => inr (logs_before planned (message_id message))
                        end
                    end) = inr c /\ limit_of c = planned).
      { destruct (Z.eqb_spec (cached (channel st)) 0) as [Hz|Hnz]; [eauto|].
        unfold cached in *. destruct (messages (channel st)) as [l|]; [|congruence].
        destruct (second_last_exists l) as (m & Hm).
        { intros ->. now apply Hnz. }
        rewrite Hm. eauto. }
      destruct Hasked as (c & -> & Hlim).
      unfold request. rewrite Hlim.
      replace ((planned <? 1) || (planned >? 100)) with false.
      2:{ symmetry. apply orb_false_intro; [apply Z.ltb_ge | rewrite Z.gtb_ltb; apply Z.ltb_ge];
          lia. }
      destruct (answer R (awaits st) c (channel st)) as [e|[result ch]].
      * cbn [outcome_state loaded]. split; [auto | eauto].
      * set (st1 := mk_state ch (S (awaits st)) (calls st ++ [c])).
        assert (Hc1 : Forall well_limited (calls st) -> Forall well_limited (calls st1)).
        { intros Hc. cbn [st1 calls]. apply Forall_app. split; [exact Hc|].
          constructor; [|constructor]. unfold well_limited. lia. }
        destruct (Z.of_nat (length result) <? planned).
        -- cbn [outcome_state calls channel message_history_reached_end loaded].
           split; [exact Hc1|]. right. split; reflexivity.
        -- destruct (IH st1 index) as (I1 & I2). split; [auto | exact I2].
Qed.

(** [messages[index]] for an index in range. *)
Lemma py_index_nth (l : list Message) (index : Z) :
  0 <= index -> py_index l index = nth_error l (Z.to_nat index).
Proof.
  intros H. unfold py_index.
  now replace (0 <=? index) with true by (symmetry; apply Z.leb_le; lia).
Qed.

Lemma skipn_nth (l : list Message) : forall n message,
  nth_error l n = Some message -> skipn n l = message :: skipn (S n) l.
Proof.
  induction l as [|a r IH]; intros [|n] m H; cbn in H; try discriminate.
  - now injection H as ->.
  - cbn [skipn]. now apply IH.
Qed.

(** The [for] loop of 5174-5175 takes a slice. *)
Lemma gather_slice (l : list Message) : forall count start,
  0 <= start -> (Z.to_nat start + count <= length l)%nat ->
  gather l start count = Some (firstn count (skipn (Z.to_nat start) l)).
Proof.
  induction count as [|k IH]; intros start Hs Hlen; cbn [gather firstn]; [reflexivity|].
  rewrite py_index_nth by exact Hs.
  destruct (nth_error l (Z.to_nat start)) as [m|] eqn:Hn.
  2:{ apply nth_error_None in Hn. lia. }
  rewrite IH by lia.
  replace (Z.to_nat (start + 1)) with (S (Z.to_nat start)) by lia.
  rewrite (skipn_nth l _ _ Hn). reflexivity.
Qed.

(** The messages the channel holds. *)
Definition held (ch : text_channel) : list Message :=
  match messages ch with
  | None => []
  | Some l => l
  end.

Lemma take_range_slice st start end_ :
  0 <= start -> start < end_ ->
  take_range st start end_
  = Range (firstn (Z.to_nat (end_ - start)) (skipn (Z.to_nat start) (held (channel st)))) st.
Proof.
  intros Hs He. unfold take_range, held.
  destruct (messages (channel st)) as [l|]; [|now rewrite skipn_nil, firstn_nil].
  set (count := Z.to_nat (Z.min end_ (Z.of_nat (length l)) - start)).
  destruct (Z.le_gt_cases (Z.of_nat (length l)) start) as [Hout|Hin].
  - replace count with 0%nat by (unfold count; lia). cbn [gather].
    rewrite skipn_all2 by lia. now rewrite firstn_nil.
  - rewrite gather_slice by (unfold count; lia). f_equal.
    destruct (Z.le_gt_cases end_ (Z.of_nat (length l))) as [Hle|Hgt].
    + unfold count. now rewrite Z.min_l by lia.
    + transitivity (skipn (Z.to_nat start) l).
      * apply firstn_all2. rewrite length_skipn. unfold count. lia.
      * symmetry. apply firstn_all2. rewrite length_skipn. lia.
Qed.

End History.

(** X14.  [_load_messages_till] asks for 2 to 100 messages at a time
    whatever [index] and the channel are, so the assertion of
    [message_logs] on [limit] never fails, and neither does
    [messages[ln-2]]: only exceptions of the requests leave it.  It returns
    [0] only with more than [index] messages in the channel, and [1] only
    after setting [message_history_reached_end]. *)
Theorem load_messages_till_asks_for_2_to_100_messages
    (R : History.remote) (fuel : nat) (ch : History.text_channel) (awaits : nat)
    (index : Z) :
  let o := History._load_messages_till R fuel (History.mk_state ch awaits []) index in
  Forall (fun c => 2 <= History.limit_of c <= 100) (History.calls (History.outcome_state o)) /\
  match o with
  | History.Returned result_state st =>
      (result_state = 0 /\ index < History.cached (History.channel st)) \/
      (result_state = 1 /\
       History.message_history_reached_end (History.channel st) = true)
  | History.Raised e _ => exists r, e = History.Remote r
  | History.Running _ => True
  end.
Proof.
  intros o.
  destruct (History.load_spec R fuel (History.mk_state ch awaits []) index) as (H1 & H2).
  split; [apply H1; constructor | exact H2].
Qed.

(** X15.  [message_at_index] returns a message only when the channel held
    no message at [index] when it was called: the message it returns is the
    one at [index] after loading; for an index below the number of cached
    messages it raises [IndexError] without a request. *)
Theorem message_at_index_of_a_cached_message
    (R : History.remote) (fuel : nat) (st : History.state) (index : Z) :
  (0 <= index < History.cached (History.channel st) ->
   History.message_at_index R fuel st index = History.NotFound History.IndexError st) /\
  match History.message_at_index R fuel st index with
  | History.Found message st' =>
      History.cached (History.channel st) <= index /\
      History.message_history_reached_end (History.channel st) = false /\
      nth_error (History.held (History.channel st')) (Z.to_nat index) = Some message
  | History.NotFound e _ =>
      e = History.AssertionError /\ index < 0 \/
      e = History.IndexError \/
      exists r, e = History.Remote r
  | History.Searching _ => True
  end.
Proof.
  unfold History.message_at_index. split.
  - intros (H0 & H1). replace (index <? 0) with false by (symmetry; apply Z.ltb_ge; lia).
    unfold History.cached in H1.
    destruct (History.messages (History.channel st)) as [l|]; [|lia].
    now replace (index <? Z.of_nat (length l)) with true by (symmetry; apply Z.ltb_lt; lia).
  - destruct (Z.ltb_spec index 0) as [Hneg|Hpos]; [now left|].
    assert (Hcached : (match History.messages (History.channel st) with
                       | None => false
                       | Some l => index <? Z.of_nat (length l)
                       end) = false -> History.cached (History.channel st) <= index).
    { unfold History.cached. destruct (History.messages (History.channel st)); [|lia].
      intros H. apply Z.ltb_ge in H. lia. }
    destruct (match History.messages (History.channel st) with
              | None => false
              | Some l => index <? Z.of_nat (length l)
              end); [right; now left|].
    specialize (Hcached eq_refl).
    destruct (History.message_history_reached_end (History.channel st)) eqn:Hend;
      [right; now left|].
    destruct (History.load_spec R fuel st index) as (_ & Hl).
    destruct (History._load_messages_till R fuel st index) as [r s|e s|s];
      cbn [History.loaded] in Hl.
    + destruct (Z.eqb_spec r 0) as [->|Hr]; cbn [negb]; [|right; now left].
      destruct (History.messages (History.channel s)) as [l|] eqn:Hm; [|right; now left].
      rewrite History.py_index_nth by exact Hpos.
      destruct (nth_error l (Z.to_nat index)) as [m|] eqn:Hn; [|right; now left].
      unfold History.held. rewrite Hm. auto.
    + right. right. exact Hl.
    + exact I.
Qed.

(** X16.  [messages_in_range] returns the slice [start:end] of the
    messages the channel holds when the function leaves: no message when
    [end <= start]; it asks for nothing when the channel already holds more
    than [end] messages, has reached the end of its history or cannot be
    read; and only an assertion on its arguments, a [ConnectionError] or a
    [DiscordException] whose code is not let pass leaves it. *)
Theorem messages_in_range_is_a_slice
    (R : History.remote) (fuel : nat) (st : History.state) (start end_ : Z) :
  match History.messages_in_range R fuel st start end_ with
  | History.Range result st' =>
      result = firstn (Z.to_nat (end_ - start))
                 (skipn (Z.to_nat start) (History.held (History.channel st'))) /\
      (end_ <= start \/ end_ < History.cached (History.channel st) \/
       History.message_history_reached_end (History.channel st) = true \/
       History.can_read_message_history R = false -> st' = st)
  | History.NoRange e _ =>
      e = History.AssertionError /\ (start < 0 \/ end_ < 0) \/
      e = History.Remote History.ConnectionError \/
      exists code, e = History.Remote (History.DiscordException code) /\
                   History.let_pass R code = false
  | History.Ranging _ => True
  end.
Proof.
  unfold History.messages_in_range.
  destruct (Z.ltb_spec start 0) as [Hs|Hs]; [left; split; [reflexivity | now left]|].
  destruct (Z.ltb_spec end_ 0) as [He|He]; [left; split; [reflexivity | now right]|].
  destruct (Z.leb_spec end_ start) as [Hle|Hlt].
  { split; [|reflexivity]. now replace (Z.to_nat (end_ - start)) with 0%nat by lia. }
  cbv zeta.
  destruct (end_ >=? History.cached (History.channel st)) eqn:Hc; cbn [andb].
  2:{ rewrite History.take_range_slice by lia. split; reflexivity. }
  destruct (History.message_history_reached_end (History.channel st)) eqn:Hend; cbn [negb andb].
  { rewrite History.take_range_slice by lia. split; reflexivity. }
  destruct (History.can_read_message_history R) eqn:Hread.
  2:{ rewrite History.take_range_slice by lia. split; reflexivity. }
  assert (Hno : end_ <= start \/ end_ < History.cached (History.channel st) \/
                false = true \/ true = false -> False).
  { rewrite Z.geb_le in Hc. intros [H|[H|[H|H]]]; try discriminate; lia. }
  destruct (History.load_spec R fuel st end_) as (_ & Hl).
  destruct (History._load_messages_till R fuel st end_) as [r s|e s|s];
    cbn [History.loaded] in Hl.
  - rewrite History.take_range_slice by lia. split; [reflexivity|].
    intros H. now apply Hno in H.
  - destruct Hl as (r & ->). destruct r as [|code].
    + right. now left.
    + destruct (History.let_pass R code) eqn:Hp.
      * rewrite History.take_range_slice by lia. split; [reflexivity|].
        intros H. now apply Hno in H.
      * right. right. eauto.
  - exact I.
Qed.

(** * Which messages [multi_client_message_delete_sequence] asks to delete *)

Module MultiClientDelivery.
Import MultiClient MultiClientRoutes.

(** The id an entry of [message_group_old_own] holds, if it holds one. *)
Definition id_of (x : Z * item) : list Z :=
  match snd x with
  | message_item message_id => [message_id]
  | the_old_queue => []
  end.

(** The ids in the three queues. *)
Definition waiting (st : state) : list Z :=
  map snd (message_group_new st) ++ message_group_old st
  ++ flat_map id_of (message_group_old_own st).

(** An entry of [message_group_new] for a message that none of the clients
    wrote. *)
Definition nobody (x : Z * Z) : Prop := fst x = -1.

(** What the part of a pass before [await] does to the messages: some go
    from the queues to requests, some are dropped, and none is when
    [message_group_new] holds no message of the clients; nothing joins. *)
Definition spends (st st' : state) : Prop :=
  (exists dropped,
     Permutation (asked (trace st') ++ waiting st' ++ dropped)
       (asked (trace st) ++ waiting st) /\
     (Forall nobody (message_group_new st) -> dropped = [])) /\
  incl (message_group_new st') (message_group_new st) /\
  limit st' = limit st /\ should_request st' = should_request st /\
  history st' = history st /\
  (get_mass_task st' = get_mass_task st \/
   should_request st = true /\ get_mass_task st = None).

Lemma spends_refl st : spends st st.
Proof.
  split; [exists []; now rewrite app_nil_r|]. auto 10 using incl_refl.
Qed.

Lemma spends_trans a b c : spends a b -> spends b c -> spends a c.
Proof.
  intros ((d1 & H1 & N1) & I1 & H2 & H3 & H4 & H5)
         ((d2 & G1 & N2) & I2 & G2 & G3 & G4 & G5).
  split.
  { exists (d2 ++ d1). split.
    - rewrite <- H1. rewrite (app_assoc (asked (trace b))). rewrite <- G1. perm.
    - intros Hn. rewrite (N1 Hn), N2; [reflexivity|].
      apply Forall_forall. intros x Hx. rewrite Forall_forall in Hn. auto. }
  split; [eapply incl_tran; eauto|].
  repeat split; try congruence.
  destruct H5 as [H5|H5], G5 as [G5|(G5 & G6)]; try (left; congruence); right; try tauto.
  split; congruence.
Qed.

(** Nothing that matters to the messages changes. *)
Lemma spends_same st st' :
  asked (trace st') = asked (trace st) -> waiting st' = waiting st ->
  message_group_new st' = message_group_new st ->
  limit st' = limit st -> should_request st' = should_request st ->
  history st' = history st -> get_mass_task st' = get_mass_task st ->
  spends st st'.
Proof.
  intros H1 H2 Hn H3 H4 H5 H6. split; [|rewrite Hn; auto 10 using incl_refl].
  exists []. now rewrite H1, H2, app_nil_r.
Qed.

(** Messages go from the queues to a request. *)
Lemma spends_asks st st' t :
  trace st' = trace st ++ [Sent t] ->
  Permutation (ids_of (task_request t) ++ waiting st') (waiting st) ->
  incl (message_group_new st') (message_group_new st) ->
  limit st' = limit st -> should_request st' = should_request st ->
  history st' = history st -> get_mass_task st' = get_mass_task st ->
  spends st st'.
Proof.
  intros H1 H2 Hn H3 H4 H5 H6. split; [|auto 10].
  exists []. split; [|reflexivity]. rewrite H1, asked_Sent, <- H2. perm.
Qed.

Ltac asks :=
  eapply spends_asks; st_simpl; try reflexivity; try apply incl_refl;
  try (apply incl_tl, incl_refl);
  try (unfold waiting; st_simpl; cbn [ids_of map snd flat_map id_of delete_item app]; perm).

(** [sharders[i].attribute = v] *)
Lemma update_sharder_keeps i f st :
  trace (update_sharder i f st) = trace st /\
  waiting (update_sharder i f st) = waiting st /\
  message_group_new (update_sharder i f st) = message_group_new st /\
  limit (update_sharder i f st) = limit st /\
  should_request (update_sharder i f st) = should_request st /\
  history (update_sharder i f st) = history st /\
  get_mass_task (update_sharder i f st) = get_mass_task st.
Proof.
  unfold update_sharder. destruct (nth_error (sharders st) i); [|auto 10].
  now destruct st.
Qed.

Lemma update_sharder_spends i f st0 st :
  spends st0 st -> spends st0 (update_sharder i f st).
Proof.
  intros H. eapply spends_trans; [exact H|].
  destruct (update_sharder_keeps i f st) as (H1 & H2 & Hn & H3 & H4 & H5 & H6).
  apply spends_same; congruence.
Qed.

(** 4386-4406 *)
Lemma request_history_spends C st st' :
  request_history C st = inr (Some st') -> spends st st'.
Proof.
  unfold request_history.
  destruct (should_request st) eqn:Hs; cbn [andb].
  2:{ intros H; injection H as <-. apply spends_refl. }
  destruct (get_mass_task st) eqn:Hg; cbn [is_none].
  { intros H; injection H as <-. apply spends_refl. }
  destruct (next_reader _ _ _) as [e|[i|]]; cbn [bind ret]; try discriminate.
  open_state st. st_simpl. destruct (nth_error shs i) as [s|]; [|discriminate].
  intros H; injection H as <-. unfold spends, waiting. st_simpl.
  split; [|auto 10 using incl_refl]. exists []. split; [|reflexivity].
  rewrite asked_Sent. cbn [task_request ids_of]. now rewrite !app_nil_r.
Qed.

(** 4446-4449 *)
Lemma pop_collected_takes collected : forall q message_ids x,
  pop_collected collected q message_ids = inr x ->
  fst x ++ map snd (snd x) = message_ids ++ map snd q /\ incl (snd x) q.
Proof.
  induction collected as [|k IH]; intros q ids x H; cbn [pop_collected ret] in H.
  - injection H as <-. split; [reflexivity | apply incl_refl].
  - destruct q as [|[whos id] r]; cbn [popleft bind raise ret] in H; [discriminate|].
    apply IH in H. cbn [fst snd] in H. destruct H as (H & Hi).
    split; [rewrite H, <- app_assoc; reflexivity | now apply incl_tl].
Qed.

(** 4430-4454 *)
Lemma submit_collected_spends C i s collected st st' :
  submit_collected C i s collected st = inr st' -> spends st st'.
Proof.
  unfold submit_collected. destruct collected as [|[|k]].
  - intros H; injection H as <-. apply spends_refl.
  - destruct (first_sub_sharder s (sharders st) 0) as [j|].
    2:{ intros H; injection H as <-. apply spends_refl. }
    destruct (nth_error (sharders st) j) as [sub|]; [|discriminate].
    destruct (message_group_new st) as [|[whos id] r] eqn:Hnew;
      cbn [popleft bind raise ret]; [discriminate|].
    intros H; injection H as <-. apply update_sharder_spends.
    revert Hnew. open_state st. st_simpl. intros ->.
    asks.
  - destruct (pop_collected (S (S k)) (message_group_new st) []) as [e|x] eqn:Hp;
      cbn [bind ret]; [discriminate|].
    apply pop_collected_takes in Hp. cbn [app] in Hp. destruct Hp as (Hp & Hi).
    intros H; injection H as <-. apply update_sharder_spends.
    revert Hp Hi. open_state st. st_simpl. intros Hp Hi.
    eapply spends_asks; st_simpl; try reflexivity; try exact Hi.
    unfold waiting. st_simpl. cbn [ids_of]. rewrite <- Hp. perm.
Qed.

Lemma del_at_perm {A : Type} (x : A) : forall l i,
  nth_error l i = Some x -> Permutation (x :: del_at i l) l.
Proof.
  unfold del_at. induction l as [|y r IH]; intros [|j] H; cbn in H; try discriminate.
  - injection H as ->. reflexivity.
  - cbn [firstn skipn app]. etransitivity; [apply perm_swap|].
    apply perm_skip. now apply IH.
Qed.

(** 4462-4480: a message of one of the clients that leaves
    [message_group_new] is among the dropped ones. *)
Lemma move_aged_spends time_limit : forall message_limit new old old_own x,
  move_aged time_limit message_limit new old old_own = inr x ->
  (exists dropped,
     Permutation
       (map snd (fst (fst x)) ++ snd (fst x) ++ flat_map id_of (snd x) ++ dropped)
       (map snd new ++ old ++ flat_map id_of old_own) /\
     (Forall nobody new -> dropped = [])) /\
  incl (fst (fst x)) new.
Proof.
  induction message_limit as [|i IH]; intros new old old_own x H;
    cbn [move_aged ret] in H.
  - injection H as <-. split; [|apply incl_refl].
    exists []. cbn [fst snd]. now rewrite app_nil_r.
  - destruct (nth_error new i) as [[whos id]|] eqn:Hn; [|discriminate].
    destruct (id >? time_limit).
    { injection H as <-. split; [|apply incl_refl].
      exists []. cbn [fst snd]. now rewrite app_nil_r. }
    pose proof (del_at_perm _ _ _ Hn) as Hd.
    assert (Hi : incl (del_at i new) new).
    { intros y Hy. apply (Permutation_in _ Hd). now right. }
    assert (Hall : Forall nobody new -> Forall nobody (del_at i new)).
    { rewrite !Forall_forall. auto. }
    apply (Permutation_map snd) in Hd. cbn [map snd] in Hd.
    destruct (Z.eqb_spec whos (-1)) as [Hw|Hw].
    + apply IH in H. destruct H as ((dropped & H & Hno) & Hin).
      split; [|eapply incl_tran; eauto]. exists dropped.
      split; [rewrite H, <- Hd; perm | auto].
    + apply IH in H. destruct H as ((dropped & H & Hno) & Hin).
      split; [|eapply incl_tran; eauto]. exists (id :: dropped). split.
      * cbn [flat_map id_of snd app] in H. rewrite <- Hd.
        etransitivity; [|apply (perm_skip id); exact H]. perm.
      * intros Hf. exfalso. rewrite Forall_forall in Hf.
        apply Hw. apply (Hf (whos, id)). eapply nth_error_In; eauto.
Qed.

(** 4409-4480 *)
Lemma delete_new_by_spends E C i st st' :
  delete_new_by E C i st = inr st' -> spends st st'.
Proof.
  unfold delete_new_by. destruct (nth_error (sharders st) i) as [s|]; [|discriminate].
  destruct (can_manage_messages s && is_none (delete_mass_task s)).
  2:{ intros H; injection H as <-. apply spends_refl. }
  destruct (length (message_group_new st)).
  { intros H; injection H as <-. apply spends_refl. }
  cbn [read_clock].
  set (st0 := set_clock_reads _ st). set (time_limit := id_limit _ _ _).
  assert (H0 : spends st st0) by (apply spends_same; now destruct st).
  intros H.
  destruct (submit_collected C i s _ st0) as [e|st1] eqn:Hs; cbn [bind] in H;
    [discriminate|].
  apply submit_collected_spends in Hs.
  apply (spends_trans _ st0); [exact H0|]. apply (spends_trans _ st1); [exact Hs|].
  destruct (length (message_group_new st1)); [injection H as <-; apply spends_refl|].
  destruct (move_aged _ _ _ _ _) as [e|x] eqn:Hm; cbn [bind ret] in H; [discriminate|].
  apply move_aged_spends in Hm. destruct Hm as ((dropped & Hm & Hno) & Hin).
  injection H as <-. revert Hm Hno Hin. clear. open_state st1. st_simpl.
  intros Hm Hno Hin.
  unfold spends, waiting. st_simpl. split; [|auto 10].
  exists dropped. split; [|exact Hno]. apply Permutation_app_head. rewrite <- Hm. perm.
Qed.

Lemma delete_new_spends E C indices : forall st st',
  delete_new E C indices st = inr st' -> spends st st'.
Proof.
  induction indices as [|i r IH]; intros st st' H; cbn [delete_new ret] in H.
  - injection H as <-. apply spends_refl.
  - destruct (delete_new_by E C i st) as [e|st1] eqn:H1; cbn [bind] in H; [discriminate|].
    eapply spends_trans; [eapply delete_new_by_spends; eauto | eapply IH; eauto].
Qed.

(** 4483-4494: the request for an entry that holds the deque carries no
    id. *)
Lemma delete_old_own_spends C st st' : delete_old_own C st = inr st' -> spends st st'.
Proof.
  unfold delete_old_own. destruct (message_group_old_own st) as [|[whos x] r] eqn:Hq.
  { intros H; injection H as <-. apply spends_refl. }
  destruct (py_index (sharders st) whos) as [s|]; [|discriminate].
  destruct (is_none (delete_new_task s)).
  2:{ intros H; injection H as <-. apply spends_refl. }
  intros H; injection H as <-. apply update_sharder_spends.
  revert Hq. open_state st. st_simpl. intros ->.
  destruct x; asks.
Qed.

(** 4497-4506 *)
Lemma delete_old_by_spends C indices : forall st st',
  delete_old_by C indices st = inr st' -> spends st st'.
Proof.
  induction indices as [|i r IH]; intros st st' H; cbn [delete_old_by ret] in H.
  - injection H as <-. apply spends_refl.
  - destruct (nth_error (sharders st) i) as [s|]; [|discriminate].
    destruct (is_none (delete_old_task s)); [|now apply IH].
    destruct (message_group_old st) as [|id q] eqn:Hq; cbn [popleft bind raise ret] in H;
      [discriminate|].
    cbn [spawn fst snd] in H.
    set (st1 := update_sharder i _ _) in H.
    assert (H1 : spends st st1).
    { unfold st1. apply update_sharder_spends.
      revert Hq. clear. open_state st. st_simpl. intros ->.
      asks. }
    destruct (message_group_old st1).
    + injection H as <-. exact H1.
    + eapply spends_trans; [exact H1 | now apply IH].
Qed.

Lemma delete_old_spends C st st' : delete_old C st = inr st' -> spends st st'.
Proof.
  unfold delete_old. destruct (message_group_old st).
  - intros H; injection H as <-. apply spends_refl.
  - apply delete_old_by_spends.
Qed.

(** 4508-4531 *)
Lemma last_resort_spends C st st' : last_resort C st = inr (Some st') -> spends st st'.
Proof.
  unfold last_resort. destruct (tasks st) eqn:Ht.
  2:{ intros H; injection H as <-. apply spends_refl. }
  destruct (message_group_new st) as [|[whos id] r] eqn:Hq; cbn [ret]; [discriminate|].
  destruct (whos =? -1).
  - destruct (first_manager _ 0) as [j|]; [|discriminate].
    destruct (nth_error _ j) as [s|]; [|discriminate].
    intros H; injection H as <-. apply update_sharder_spends.
    revert Hq. clear. open_state st. st_simpl. intros ->.
    asks.
  - destruct (py_index _ whos) as [s|]; [|discriminate].
    intros H; injection H as <-. apply update_sharder_spends.
    revert Hq. clear. open_state st. st_simpl. intros ->.
    asks.
Qed.

(** 4620-4631 *)
Lemma released_spends t st : spends st (set_sharders (release t (sharders st)) st).
Proof. apply spends_same; now destruct st. Qed.

(** A property of the state that the requests of a pass keep, and the
    pages of the history too: it holds all along a run. *)
Section Invariant.

Variable E : env.
Variable C : config.
Variable P : state -> Prop.
Hypothesis P_spends : forall st st', spends st st' -> P st -> P st'.
Hypothesis P_page :
  forall st, P st -> get_mass_task st <> None -> P (snd (got_history E C st)).

Lemma handle_done_holds done : forall st,
  P st -> P (outcome_state (handle_done E C done st)).
Proof.
  induction done as [|[t c] rest IH]; intros st HP; [exact HP|].
  cbn [handle_done]. destruct (remove_task t (tasks st)) as [ts'|]; [|exact HP].
  set (st1 := set_trace _ _).
  assert (H1 : spends st st1).
  { unfold st1. open_state st. apply spends_same; st_simpl; try reflexivity.
    apply asked_Handled. }
  pose proof (P_spends _ _ H1 HP) as HP1.
  destruct c as [|e].
  - destruct (slot_is t (get_mass_task st1)) eqn:Hslot.
    + assert (Hget : get_mass_task st1 <> None)
        by (destruct (get_mass_task st1); [discriminate | discriminate]).
      pose proof (P_page st1 HP1 Hget) as HP2.
      destruct (got_history E C st1) as [[] st2]; cbn [snd] in HP2; apply IH.
      * exact (P_spends _ _ (released_spends t st2) HP2).
      * exact HP2.
    + apply IH. exact (P_spends _ _ (released_spends t st1) HP1).
  - cbn [outcome_state]. refine (P_spends st1 _ _ HP1). unfold cancel_all.
    clearbody st1. open_state st1. apply spends_same; st_simpl; try reflexivity.
    apply asked_Cancelled.
Qed.

Lemma loop_body_holds st : P st -> P (outcome_state (loop_body E C st)).
Proof.
  intros HP. unfold loop_body.
  destruct (request_history C st) as [e|[st1|]] eqn:H1; try exact HP.
  pose proof (P_spends _ _ (request_history_spends _ _ _ H1) HP) as P1.
  destruct (delete_new E C _ st1) as [e|st2] eqn:H2; cbn [bind]; [exact P1|].
  pose proof (P_spends _ _ (delete_new_spends _ _ _ _ _ H2) P1) as P2.
  destruct (delete_old_own C st2) as [e|st3] eqn:H3; cbn [bind]; [exact P1|].
  pose proof (P_spends _ _ (delete_old_own_spends _ _ _ H3) P2) as P3.
  destruct (delete_old C st3) as [e|st4] eqn:H4; cbn [bind]; [exact P1|].
  pose proof (P_spends _ _ (delete_old_spends _ _ _ H4) P3) as P4.
  destruct (last_resort C st4) as [e|[st5|]] eqn:H5; [exact P1 | | exact P1].
  pose proof (P_spends _ _ (last_resort_spends _ _ _ H5) P4) as P5.
  unfold await_first. apply handle_done_holds.
  refine (P_spends st5 _ _ P5). apply spends_same; now destruct st5.
Qed.

Lemma run_holds fuel : forall st, P st -> P (outcome_state (run E C fuel st)).
Proof.
  induction fuel as [|n IH]; intros st HP; cbn [run]; [exact HP|].
  pose proof (loop_body_holds st HP) as H.
  destruct (loop_body E C st) as [s|s|e s|e s|s]; cbn [outcome_state] in *; auto.
Qed.

End Invariant.

(** No history is asked for, and the messages [U] are those asked to be
    deleted, those in the queues and those dropped, none being dropped when
    [lossless] holds. *)
Definition accounted (U : list Z) (lossless : Prop) (st : state) : Prop :=
  should_request st = false /\ get_mass_task st = None /\
  (lossless -> Forall nobody (message_group_new st)) /\
  exists dropped,
    Permutation (asked (trace st) ++ waiting st ++ dropped) U /\
    (lossless -> dropped = []).

Lemma run_accounted U lossless E C fuel st :
  accounted U lossless st -> accounted U lossless (outcome_state (run E C fuel st)).
Proof.
  apply run_holds.
  - intros a b ((d1 & H1 & N1) & I1 & _ & H3 & _ & H5) (K1 & K2 & K3 & d & K4 & K5).
    split; [congruence|]. split; [destruct H5 as [H5|(H5 & _)]; congruence|].
    split.
    { intros Hl. specialize (K3 Hl). rewrite Forall_forall in *. auto. }
    exists (d1 ++ d). split.
    + rewrite <- K4. rewrite (app_assoc (asked (trace a))). rewrite <- H1. perm.
    + intros Hl. now rewrite (N1 (K3 Hl)), (K5 Hl).
  - intros a (_ & K2 & _) Hget. congruence.
Qed.

End MultiClientDelivery.

(** X17.  When no history is to be requested,
    [multi_client_message_delete_sequence] asks to delete only messages that
    were queued, and none more often than it was queued: at the end of any
    number of passes, the ids of the delete requests made so far, the ids
    still in the queues and some dropped ids are the ids queued at the
    start.  When [message_group_new] holds no message written by one of the
    clients, no id is dropped: no message is lost. *)
Theorem multi_client_asks_for_queued_messages_only
    (E : env) (C : MultiClient.config) (fuel : nat) (l : list MultiClient.sharder)
    (last_message_id limit : Z)
    (new : list (Z * Z)) (old : list Z) (old_own : list (Z * MultiClient.item))
    (history : list (list message_data)) :
  let st := outcome_state
              (MultiClient.run E C fuel
                 (MultiClient.start l false last_message_id limit new old old_own
                    history)) in
  exists dropped,
    Permutation
      (asked (MultiClient.trace st) ++ MultiClientDelivery.waiting st ++ dropped)
      (map snd new ++ old ++ flat_map MultiClientDelivery.id_of old_own) /\
    (Forall (fun x => fst x = -1) new -> dropped = []).
Proof.
  intros st.
  assert (Hk : MultiClientDelivery.accounted
                 (map snd new ++ old ++ flat_map MultiClientDelivery.id_of old_own)
                 (Forall (fun x => fst x = -1) new) st).
  { apply MultiClientDelivery.run_accounted. split; [reflexivity|]. split; [reflexivity|].
    split; [intros H; exact H|]. exists []. split; [|reflexivity].
    unfold MultiClientDelivery.waiting. cbn. now rewrite !app_nil_r. }
  destruct Hk as (_ & _ & _ & dropped & H1 & H2). exists dropped. auto.
Qed.


(** * The messages that the pages of the history bring to the clients *)

Module MultiClientPages.
Import MultiClient MultiClientRoutes MultiClientDelivery.

(** The id under which a message of a page is queued (4560, 4590). *)
Definition page_id (E : env) (C : config) (d : message_data) : Z :=
  match filter C with
  | None => data_id d
  | Some _ => message_id (create_unknown_message E d)
  end.

(** The message is not before [after] and the filter, if any, takes it. *)
Definition passes (E : env) (C : config) (d : message_data) : bool :=
  (after C <=? page_id E C d) &&
  match filter C with
  | None => true
  | Some f => f (create_unknown_message E d)
  end.

(** What the messages of pages do to the state: [added] joins the queues
    and is counted against [limit]. *)
Definition brings (E : env) (C : config) (page : list message_data) (added : list Z)
    (st st' : state) : Prop :=
  Permutation (waiting st') (waiting st ++ added) /\
  incl added (map (page_id E C) (List.filter (passes E C) page)) /\
  limit st' = limit st - Z.of_nat (length added) /\
  trace st' = trace st /\
  (0 < limit st -> 0 <= limit st' /\ (should_request st' = true -> 0 < limit st')).

(** 4602-4618 *)
Lemma enqueue_queues time_limit author_id st :
  let st' := snd (enqueue time_limit author_id st) in
  Permutation (waiting st') (waiting st ++ [last_message_id st]) /\
  limit st' = limit st - 1 /\ trace st' = trace st /\
  history st' = history st /\ last_message_id st' = last_message_id st /\
  get_mass_task st' = get_mass_task st /\
  fst (enqueue time_limit author_id st) = negb (limit st - 1 =? 0) /\
  (should_request st' = true -> limit st - 1 <> 0).
Proof.
  open_state st. unfold enqueue, waiting. st_simpl.
  destruct (last >? time_limit); [|destruct (is_own_getter shs author_id =? -1)]; st_simpl;
    destruct (Z.eqb_spec (lim - 1) 0); st_simpl;
    rewrite ?map_app, ?flat_map_app; cbn [map snd negb flat_map id_of app];
    (split; [perm|]); repeat split; try reflexivity; try discriminate; auto.
Qed.

(** 4558-4618 *)
Lemma process_page_queues E C time_limit result : forall st,
  exists added,
    brings E C result added st (process_page E C time_limit result st) /\
    history (process_page E C time_limit result st) = history st /\
    get_mass_task (process_page E C time_limit result st) = get_mass_task st.
Proof.
  induction result as [|d rest IH]; intros st; cbn [process_page].
  - exists []. split; [|auto]. unfold brings. rewrite app_nil_r. cbn [length].
    repeat split; auto using incl_nil_l; lia.
  - assert (Hskip : forall st1,
               waiting st1 = waiting st -> limit st1 = limit st -> trace st1 = trace st ->
               history st1 = history st -> get_mass_task st1 = get_mass_task st ->
               exists added,
                 brings E C (d :: rest) added st (process_page E C time_limit rest st1) /\
                 history (process_page E C time_limit rest st1) = history st /\
                 get_mass_task (process_page E C time_limit rest st1) = get_mass_task st).
    { intros st1 W1 L1 T1 H1 G1.
      destruct (IH st1) as (added & (B1 & B2 & B3 & B4 & B5) & B6 & B7).
      exists added. split; [|split; congruence].
      unfold brings. rewrite <- W1, <- L1, <- T1. repeat split; auto.
      - cbn [List.filter]. destruct (passes E C d); [|exact B2].
        cbn [map]. now apply incl_tl.
      - apply B5. lia.
      - apply B5. lia. }
    assert (Hstop : forall st1,
               waiting st1 = waiting st -> limit st1 = limit st -> trace st1 = trace st ->
               history st1 = history st -> get_mass_task st1 = get_mass_task st ->
               should_request st1 = false ->
               exists added,
                 brings E C (d :: rest) added st st1 /\
                 history st1 = history st /\ get_mass_task st1 = get_mass_task st).
    { intros st1 W1 L1 T1 H1 G1 S1. exists []. split; [|auto].
      unfold brings. rewrite W1, L1, T1, app_nil_r. cbn [length].
      repeat split; auto using incl_nil_l; try lia; try congruence. }
    assert (Htake : forall st1 author_id,
               waiting st1 = waiting st -> limit st1 = limit st -> trace st1 = trace st ->
               history st1 = history st -> get_mass_task st1 = get_mass_task st ->
               last_message_id st1 = page_id E C d -> passes E C d = true ->
               exists added,
                 brings E C (d :: rest) added st
                   (let (go_on, st2) := enqueue time_limit author_id st1 in
                    if go_on then process_page E C time_limit rest st2 else st2) /\
                 history (let (go_on, st2) := enqueue time_limit author_id st1 in
                          if go_on then process_page E C time_limit rest st2 else st2)
                 = history st /\
                 get_mass_task (let (go_on, st2) := enqueue time_limit author_id st1 in
                                if go_on then process_page E C time_limit rest st2 else st2)
                 = get_mass_task st).
    { intros st1 author_id W1 L1 T1 H1 G1 Hid Hpass.
      pose proof (enqueue_queues time_limit author_id st1)
        as (E1 & E2 & E3 & E4 & _ & E8 & E6 & E7).
      destruct (enqueue time_limit author_id st1) as [go_on st2]. cbn [fst snd] in *.
      subst go_on. destruct (Z.eqb_spec (limit st1 - 1) 0) as [Hz|Hnz]; cbn [negb].
      - exists [page_id E C d]. split; [|split; congruence].
        unfold brings. rewrite E1, E2, E3, W1, L1, T1, Hid. cbn [length].
        split; [reflexivity|]. split; [|split; [lia|split; [reflexivity|]]].
        + cbn [List.filter]. rewrite Hpass. cbn [map]. intros x [<-|[]]. now left.
        + intros Hpos. split; [lia|]. intros Hsr. exfalso. now apply E7.
      - destruct (IH st2) as (added & (B1 & B2 & B3 & B4 & B5) & B6 & B7).
        exists (page_id E C d :: added). split; [|split; congruence].
        unfold brings. split; [|split; [|split; [|split]]].
        + rewrite B1, E1, W1, Hid. perm.
        + cbn [List.filter]. rewrite Hpass. cbn [map]. intros x [<-|Hx]; [now left|].
          right. now apply B2.
        + rewrite B3, E2, L1. cbn [length]. lia.
        + congruence.
        + intros Hpos. apply B5. lia. }
    unfold passes, page_id in *. destruct (filter C) as [f|].
    + set (st1 := set_last_message_id (message_id (create_unknown_message E d)) st) in *.
      assert (A : waiting st1 = waiting st /\ limit st1 = limit st /\ trace st1 = trace st /\
                  history st1 = history st /\ get_mass_task st1 = get_mass_task st /\
                  last_message_id st1 = message_id (create_unknown_message E d))
        by (unfold st1; now destruct st).
      destruct A as (W1 & L1 & T1 & H1 & G1 & I1).
      rewrite I1. destruct (Z.ltb_spec (message_id (create_unknown_message E d)) (after C)).
      { apply Hstop; try (now destruct st1). }
      destruct (f (create_unknown_message E d)) eqn:Hf; cbn [negb].
      * apply Htake; auto. apply andb_true_intro. split; [apply Z.leb_le; lia | reflexivity].
      * now apply Hskip.
    + set (st1 := set_last_message_id (data_id d) st) in *.
      assert (A : waiting st1 = waiting st /\ limit st1 = limit st /\ trace st1 = trace st /\
                  history st1 = history st /\ get_mass_task st1 = get_mass_task st /\
                  last_message_id st1 = data_id d)
        by (unfold st1; now destruct st).
      destruct A as (W1 & L1 & T1 & H1 & G1 & I1).
      rewrite I1. destruct (Z.ltb_spec (data_id d) (after C)).
      { apply Hstop; try (now destruct st1). }
      apply Htake; auto. apply andb_true_intro. split; [apply Z.leb_le; lia | reflexivity].
Qed.

(** 4544-4618 *)
Lemma got_history_queues E C st :
  exists page added,
    brings E C page added st (snd (got_history E C st)) /\
    incl page (concat (history st)) /\
    incl (concat (history (snd (got_history E C st)))) (concat (history st)) /\
    get_mass_task (snd (got_history E C st)) = None.
Proof.
  unfold got_history, take_page.
  set (st0 := set_get_mass_task None st).
  assert (A0 : waiting st0 = waiting st /\ limit st0 = limit st /\ trace st0 = trace st /\
               history st0 = history st /\ get_mass_task st0 = None) by now destruct st.
  destruct A0 as (W0 & L0 & T0 & H0 & G0). rewrite H0.
  destruct (history st) as [|page r] eqn:Hh.
  - exists [], []. cbn [length Nat.ltb Nat.leb Nat.eqb snd].
    split; [|split; [apply incl_nil_l | split]].
    + unfold brings. cbn [length].
      replace (waiting (set_should_request false st0)) with (waiting st)
        by (rewrite <- W0; now destruct st0).
      replace (limit (set_should_request false st0)) with (limit st)
        by (rewrite <- L0; now destruct st0).
      replace (trace (set_should_request false st0)) with (trace st)
        by (rewrite <- T0; now destruct st0).
      rewrite app_nil_r.
      repeat split; auto using incl_nil_l; try lia; try (now destruct st0).
    + replace (history (set_should_request false st0)) with (history st0)
        by now destruct st0.
      rewrite H0. apply incl_refl.
    + now destruct st0.
  - set (st1 := set_history r st0).
    assert (A1 : waiting st1 = waiting st /\ limit st1 = limit st /\ trace st1 = trace st /\
                 history st1 = r /\ get_mass_task st1 = None)
      by (unfold st1; now destruct st0).
    set (st2 := if (length page <? 100)%nat then set_should_request false st1 else st1).
    assert (A2 : waiting st2 = waiting st /\ limit st2 = limit st /\ trace st2 = trace st /\
                 history st2 = r /\ get_mass_task st2 = None).
    { unfold st2. destruct (length page <? 100)%nat; [now destruct st1 | exact A1]. }
    destruct A2 as (W2 & L2 & T2 & H2 & G2).
    assert (Hr : incl (concat r) (concat (page :: r))).
    { cbn [concat]. apply incl_appr, incl_refl. }
    destruct (length page =? 0)%nat eqn:Hz; cbn [snd].
    + exists [], []. split; [|split; [apply incl_nil_l | split]].
      * unfold brings. rewrite W2, L2, T2, app_nil_r. cbn [length].
        repeat split; auto using incl_nil_l; try lia.
      * now rewrite H2.
      * exact G2.
    + cbn [read_clock snd].
      set (st3 := set_clock_reads _ st2). set (time_limit := id_limit _ _ _).
      assert (A3 : waiting st3 = waiting st /\ limit st3 = limit st /\ trace st3 = trace st /\
                   history st3 = r /\ get_mass_task st3 = None)
        by (unfold st3; now destruct st2).
      destruct A3 as (W3 & L3 & T3 & H3 & G3).
      destruct (process_page_queues E C time_limit page st3)
        as (added & (B1 & B2 & B3 & B4 & B5) & B6 & B7).
      exists page, added. split; [|split; [|split]].
      * unfold brings. rewrite <- W3, <- L3, <- T3. auto.
      * cbn [concat]. apply incl_appl, incl_refl.
      * now rewrite B6, H3.
      * congruence.
Qed.

(** As many messages as [limit] may still join the queues, and [limit] is
    positive as long as history can be requested or is awaited. *)
Definition within (bound : nat) (st : state) : Prop :=
  (length (asked (trace st)) + length (waiting st) + Z.to_nat (limit st) <= bound)%nat /\
  (get_mass_task st <> None \/ should_request st = true -> 0 < limit st).

Lemma run_bounded bound E C fuel st :
  within bound st -> within bound (outcome_state (run E C fuel st)).
Proof.
  apply run_holds.
  - intros a b ((d & H1 & _) & _ & H2 & H3 & _ & H5) (K1 & K2).
    apply Permutation_length in H1. rewrite !length_app in H1. split; [rewrite H2; lia|].
    rewrite H2, H3. intros [Hg|Hs]; apply K2; [|now right].
    destruct H5 as [H5|(H5 & _)]; [left; congruence | now right].
  - intros a (K1 & K2) Hget.
    destruct (got_history_queues E C a) as (page & added & (B1 & _ & B3 & B4 & B5) & _ & _ & G).
    specialize (K2 (or_introl Hget)). destruct (B5 K2) as (B6 & B7).
    apply Permutation_length in B1. rewrite length_app in B1.
    split; [rewrite B4, B1, B3; lia|].
    intros [Hg|Hs]; [congruence | now apply B7].
Qed.

(** The ids asked for or queued come from the queues at the start or from
    the messages of [pool] that pass, and the pages to come are in [pool]. *)
Definition sourced (E : env) (C : config) (initial : list Z) (pool : list message_data)
    (st : state) : Prop :=
  incl (asked (trace st) ++ waiting st)
    (initial ++ map (page_id E C) (List.filter (passes E C) pool)) /\
  incl (concat (history st)) pool.

Lemma run_traced initial pool E C fuel st :
  sourced E C initial pool st -> sourced E C initial pool (outcome_state (run E C fuel st)).
Proof.
  apply run_holds.
  - intros a b ((d & H1 & _) & _ & _ & _ & H4 & _) (K1 & K2). split; [|now rewrite H4].
    intros x Hx. apply K1. apply (Permutation_in _ H1).
    rewrite app_assoc. apply in_or_app. now left.
  - intros a (K1 & K2) _.
    destruct (got_history_queues E C a)
      as (page & added & (B1 & B2 & _ & B4 & _) & Hpage & Hrest & _).
    split; [|eapply incl_tran; eauto].
    rewrite B4. intros x Hx. apply in_app_or in Hx. destruct Hx as [Hx|Hx].
    + apply K1. apply in_or_app. now left.
    + apply (Permutation_in _ B1) in Hx. apply in_app_or in Hx. destruct Hx as [Hx|Hx].
      * apply K1. apply in_or_app. now right.
      * apply in_or_app. right. apply B2 in Hx. apply in_map_iff in Hx.
        destruct Hx as (d & Hd & Hin). apply filter_In in Hin. apply in_map_iff.
        exists d. split; [exact Hd|]. apply filter_In. split; [|tauto].
        apply K2, Hpage. tauto.
Qed.

End MultiClientPages.

(** X18.  What [multi_client_message_delete_sequence] asks to delete was
    queued at the start or is a message of one of the pages of the history
    that is not before [after] and that the filter, if there is one,
    takes. *)
Theorem multi_client_asks_for_queued_or_passing_messages
    (E : env) (C : MultiClient.config) (fuel : nat) (l : list MultiClient.sharder)
    (should_request : bool) (last_message_id limit : Z)
    (new : list (Z * Z)) (old : list Z) (old_own : list (Z * MultiClient.item))
    (history : list (list message_data)) :
  let st := outcome_state
              (MultiClient.run E C fuel
                 (MultiClient.start l should_request last_message_id limit new old old_own
                    history)) in
  Forall (fun message_id =>
            In message_id
               (map snd new ++ old ++ flat_map MultiClientDelivery.id_of old_own) \/
            exists d, In d (concat history) /\
                      MultiClientPages.page_id E C d = message_id /\
                      MultiClient.after C <= message_id /\
                      forall f, MultiClient.filter C = Some f ->
                                f (create_unknown_message E d) = true)
    (asked (MultiClient.trace st)).
Proof.
  intros st.
  assert (H : MultiClientPages.sourced E C
                (map snd new ++ old ++ flat_map MultiClientDelivery.id_of old_own)
                (concat history) st).
  { apply MultiClientPages.run_traced. split.
    - cbn. apply incl_appl, incl_refl.
    - apply incl_refl. }
  destruct H as (H & _). apply Forall_forall. intros x Hx.
  assert (Hin : In x (asked (MultiClient.trace st) ++ MultiClientDelivery.waiting st))
    by (apply in_or_app; now left).
  apply H in Hin. apply in_app_or in Hin. destruct Hin as [Hin|Hin]; [now left|].
  right. apply in_map_iff in Hin. destruct Hin as (d & Hd & Hin).
  apply filter_In in Hin. destruct Hin as (Hin & Hp).
  exists d. split; [exact Hin|]. split; [exact Hd|].
  unfold MultiClientPages.passes in Hp. apply andb_prop in Hp. destruct Hp as (Ha & Hf).
  apply Z.leb_le in Ha. split; [lia|].
  intros f Hfil. rewrite Hfil in Hf. exact Hf.
Qed.

(** X19.  [limit] bounds the messages that
    [multi_client_message_delete_sequence] takes from the history: with a
    positive [limit] when history is to be requested, the ids of the delete
    requests made and the ids queued are, at any point, no more than the ids
    queued at the start and [limit] more. *)
Theorem limit_bounds_the_messages_of_the_clients
    (E : env) (C : MultiClient.config) (fuel : nat) (l : list MultiClient.sharder)
    (should_request : bool) (last_message_id limit : Z)
    (new : list (Z * Z)) (old : list Z) (old_own : list (Z * MultiClient.item))
    (history : list (list message_data))
    (Hlimit : should_request = true -> 0 < limit) :
  let st := outcome_state
              (MultiClient.run E C fuel
                 (MultiClient.start l should_request last_message_id limit new old old_own
                    history)) in
  (length (asked (MultiClient.trace st)) + length (MultiClientDelivery.waiting st)
   <= length new + length old + length old_own + Z.to_nat limit)%nat.
Proof.
  intros st.
  assert (Hown : (length (flat_map MultiClientDelivery.id_of old_own)
                  <= length old_own)%nat).
  { clear. induction old_own as [|[whos x] r IH]; [apply Nat.le_refl|].
    cbn [flat_map MultiClientDelivery.id_of snd]. rewrite length_app.
    destruct x; unfold MultiClientDelivery.id_of at 1; cbn [snd length]; lia. }
  assert (H : MultiClientPages.within
                (length new + length old + length old_own + Z.to_nat limit) st).
  { apply MultiClientPages.run_bounded. split.
    - unfold MultiClientDelivery.waiting. cbn. rewrite !length_app, length_map. lia.
    - cbn. intros [H|H]; [congruence | now apply Hlimit]. }
  destruct H as (H & _). lia.
Qed.

Lemma limit_bounds_of_the_clients_witness :
  let st := outcome_state
              (MultiClient.run quiet_env multi_config 6
                 (MultiClient.start two_managers true 1000 1 [(-1, id_aged 0)] [5]
                    [(0, MultiClient.message_item 6)]
                    [[mk_message_data 900 None; mk_message_data 800 None]])) in
  (length (asked (MultiClient.trace st)) + length (MultiClientDelivery.waiting st)
   <= 1 + 1 + 1 + Z.to_nat 1)%nat.
Proof.
  apply (limit_bounds_the_messages_of_the_clients quiet_env multi_config 6 two_managers
           true 1000 1 [(-1, id_aged 0)] [5] [(0, MultiClient.message_item 6)]
           [[mk_message_data 900 None; mk_message_data 800 None]]).
  intros _. lia.
Defined.


(** * The task variables of [multi_client_message_delete_sequence] *)

Module MultiClientSlots.
Import MultiClient MultiClientRoutes.

Definition slot (o : option task) : list task :=
  match o with
  | Some t => [t]
  | None => []
  end.

(** The tasks in the task variables of a sharder, of the sharders, and in
    all the task variables of the function. *)
Definition slots_of (s : sharder) : list task :=
  slot (delete_mass_task s) ++ slot (delete_new_task s) ++ slot (delete_old_task s).

Definition held_by (l : list sharder) : list task := flat_map slots_of l.

Definition all_held (st : state) : list task :=
  slot (get_mass_task st) ++ held_by (sharders st).

(** Every task variable holds a task of [tasks], no two hold the same
    task, and the tasks to come are new. *)
Definition backed (st : state) : Prop :=
  Forall (fun u => (task_serial u < next_serial st)%nat) (tasks st) /\
  NoDup (serials (all_held st)) /\
  incl (all_held st) (tasks st).

(** The messages in the three queues. *)
Definition queued (st : state) : nat :=
  (length (message_group_new st) + length (message_group_old st)
   + length (message_group_old_own st))%nat.

Lemma backed_frame st st' :
  sharders st' = sharders st -> get_mass_task st' = get_mass_task st ->
  tasks st' = tasks st -> next_serial st' = next_serial st ->
  backed st -> backed st'.
Proof.
  unfold backed, all_held. intros -> -> -> ->. auto.
Qed.

(** A new task takes a task variable, or none. *)
Lemma backed_grow st st' t added gone rest :
  backed st ->
  Permutation (all_held st) (gone ++ rest) -> Permutation (all_held st') (added ++ rest) ->
  added = [t] \/ added = [] ->
  tasks st' = tasks st ++ [t] -> task_serial t = next_serial st ->
  next_serial st' = S (next_serial st) ->
  backed st'.
Proof.
  intros (B1 & B2 & B3) Hold Hnew Hadded Ht Hs Hn.
  assert (Hrest : incl rest (tasks st)).
  { intros u Hu. apply B3. apply (Permutation_in _ (Permutation_sym Hold)).
    apply in_or_app. now right. }
  assert (Hnodup : NoDup (serials rest)).
  { unfold serials in *. apply (Permutation_map task_serial) in Hold.
    apply (Permutation_NoDup Hold) in B2. rewrite map_app in B2.
    now apply NoDup_app_remove_l in B2. }
  assert (Hfresh : ~ In (task_serial t) (serials rest)).
  { intros Hin. apply in_map_iff in Hin. destruct Hin as (u & Hu & Hin).
    apply Hrest in Hin. rewrite Forall_forall in B1. apply B1 in Hin. lia. }
  split; [|split].
  - rewrite Ht, Hn. apply Forall_app. split.
    + eapply Forall_impl; [|exact B1]. cbn. intros; lia.
    + constructor; [lia | constructor].
  - apply (Permutation_NoDup (Permutation_map task_serial (Permutation_sym Hnew))).
    destruct Hadded as [-> | ->]; cbn [app map]; [constructor|]; assumption.
  - intros u Hu. apply (Permutation_in _ Hnew) in Hu. rewrite Ht.
    apply in_or_app. apply in_app_or in Hu. destruct Hu as [Hu|Hu].
    + right. destruct Hadded as [-> | ->]; [exact Hu | destruct Hu].
    + left. now apply Hrest.
Qed.

Lemma set_at_split {A : Type} (x : A) : forall l j s,
  nth_error l j = Some s -> exists a b, l = a ++ s :: b /\ set_at j x l = a ++ x :: b.
Proof.
  induction l as [|y r IH]; intros [|j] s H; cbn in H; try discriminate.
  - injection H as ->. exists [], r. split; reflexivity.
  - destruct (IH j s H) as (a & b & H1 & H2). exists (y :: a), b.
    cbn [set_at app]. split; congruence.
Qed.

Lemma held_by_app a b : held_by (a ++ b) = held_by a ++ held_by b.
Proof. apply flat_map_app. Qed.

(** [f] puts [t] in a task variable of the sharder. *)
Definition assigns (t : task) (f : sharder -> sharder) : Prop :=
  forall s, exists gone rest,
    Permutation (slots_of s) (gone ++ rest) /\ Permutation (slots_of (f s)) (t :: rest).

Lemma assigns_mass t : assigns t (set_delete_mass_task (Some t)).
Proof.
  intros s. exists (slot (delete_mass_task s)),
                   (slot (delete_new_task s) ++ slot (delete_old_task s)).
  split; reflexivity.
Qed.

Lemma assigns_new t : assigns t (set_delete_new_task (Some t)).
Proof.
  intros s. exists (slot (delete_new_task s)),
                   (slot (delete_mass_task s) ++ slot (delete_old_task s)).
  unfold slots_of. cbn [set_delete_new_task delete_mass_task delete_new_task
                        delete_old_task slot].
  split; perm.
Qed.

Lemma assigns_old t : assigns t (set_delete_old_task (Some t)).
Proof.
  intros s. exists (slot (delete_old_task s)),
                   (slot (delete_mass_task s) ++ slot (delete_new_task s)).
  unfold slots_of. cbn [set_delete_old_task delete_mass_task delete_new_task
                        delete_old_task slot].
  split; perm.
Qed.

(** [sharders[j].attribute = task] after [tasks.append(task)]. *)
Lemma update_sharder_backed st0 j f t st :
  assigns t f -> backed st0 ->
  sharders st = sharders st0 -> get_mass_task st = get_mass_task st0 ->
  tasks st = tasks st0 ++ [t] -> task_serial t = next_serial st0 ->
  next_serial st = S (next_serial st0) ->
  backed (update_sharder j f st).
Proof.
  intros Hf B Hsh Hg Ht Hs Hn. unfold update_sharder.
  destruct (nth_error (sharders st) j) as [s|] eqn:Hj.
  - destruct (set_at_split (f s) _ _ _ Hj) as (a & b & Hl & Hset).
    destruct (Hf s) as (gone & rest & P1 & P2).
    apply (backed_grow st0 _ t [t] gone
             (slot (get_mass_task st0) ++ held_by a ++ rest ++ held_by b)); auto.
    + unfold all_held. rewrite <- Hsh, Hl, held_by_app. cbn [held_by flat_map].
      rewrite P1. perm.
    + unfold all_held.
      replace (get_mass_task (set_sharders (set_at j (f s) (sharders st)) st))
        with (get_mass_task st0) by (rewrite <- Hg; now destruct st).
      replace (sharders (set_sharders (set_at j (f s) (sharders st)) st))
        with (set_at j (f s) (sharders st)) by now destruct st.
      rewrite Hset, held_by_app. cbn [held_by flat_map]. rewrite P2. perm.
  - apply (backed_grow st0 _ t [] [] (all_held st0)); auto.
    unfold all_held. now rewrite Hsh, Hg.
Qed.

(** 4386-4406 *)
Lemma request_history_backed C st st' :
  request_history C st = inr (Some st') -> backed st -> backed st'.
Proof.
  unfold request_history.
  destruct (should_request st); cbn [andb].
  2:{ intros H; injection H as <-. auto. }
  destruct (get_mass_task st) eqn:Hg; cbn [is_none].
  { intros H; injection H as <-. auto. }
  destruct (next_reader _ _ _) as [e|[i|]]; cbn [bind ret]; try discriminate.
  revert Hg. open_state st. st_simpl. intros ->.
  destruct (nth_error shs i) as [s|]; [|discriminate].
  intros H B; injection H as <-.
  apply (backed_grow _ _ (mk_task ser (client s) (http_message_logs (chan C) last))
           [mk_task ser (client s) (http_message_logs (chan C) last)] [] (held_by shs) B);
    solve [reflexivity | now left].
Qed.

(** 4430-4454 *)
Lemma submit_collected_backed C i s collected st st' :
  submit_collected C i s collected st = inr st' -> backed st -> backed st'.
Proof.
  unfold submit_collected. destruct collected as [|[|k]].
  - intros H; injection H as <-. auto.
  - destruct (first_sub_sharder s (sharders st) 0) as [j|].
    2:{ intros H; injection H as <-. auto. }
    destruct (nth_error (sharders st) j) as [sub|]; [|discriminate].
    destruct (message_group_new st) as [|[whos id] r];
      cbn [popleft bind raise ret]; [discriminate|].
    intros H B; injection H as <-.
    eapply update_sharder_backed; [apply assigns_new | exact B | ..];
      now destruct st.
  - destruct (pop_collected (S (S k)) (message_group_new st) []) as [e|x];
      cbn [bind ret]; [discriminate|].
    intros H B; injection H as <-.
    eapply update_sharder_backed; [apply assigns_mass | exact B | ..];
      now destruct st.
Qed.

(** 4409-4480 *)
Lemma delete_new_by_backed E C i st st' :
  delete_new_by E C i st = inr st' -> backed st -> backed st'.
Proof.
  unfold delete_new_by. destruct (nth_error (sharders st) i) as [s|]; [|discriminate].
  destruct (can_manage_messages s && is_none (delete_mass_task s)).
  2:{ intros H; injection H as <-. auto. }
  destruct (length (message_group_new st)).
  { intros H; injection H as <-. auto. }
  cbn [read_clock].
  set (st0 := set_clock_reads _ st). set (time_limit := id_limit _ _ _).
  intros H B.
  assert (B0 : backed st0) by (revert B; apply backed_frame; now destruct st).
  destruct (submit_collected C i s _ st0) as [e|st1] eqn:Hs; cbn [bind] in H;
    [discriminate|].
  apply submit_collected_backed in Hs; [|exact B0].
  destruct (length (message_group_new st1)); [injection H as <-; exact Hs|].
  destruct (move_aged _ _ _ _ _) as [e|x]; cbn [bind ret] in H; [discriminate|].
  injection H as <-. revert Hs. apply backed_frame; now destruct st1.
Qed.

Lemma delete_new_backed E C indices : forall st st',
  delete_new E C indices st = inr st' -> backed st -> backed st'.
Proof.
  induction indices as [|i r IH]; intros st st' H B; cbn [delete_new ret] in H.
  - injection H as <-. exact B.
  - destruct (delete_new_by E C i st) as [e|st1] eqn:H1; cbn [bind] in H; [discriminate|].
    eapply IH; [exact H|]. eapply delete_new_by_backed; eauto.
Qed.

(** 4483-4494 *)
Lemma delete_old_own_backed C st st' :
  delete_old_own C st = inr st' -> backed st -> backed st'.
Proof.
  unfold delete_old_own. destruct (message_group_old_own st) as [|[whos x] r].
  { intros H; injection H as <-. auto. }
  destruct (py_index (sharders st) whos) as [s|]; [|discriminate].
  destruct (is_none (delete_new_task s)).
  2:{ intros H; injection H as <-. auto. }
  intros H B; injection H as <-.
  eapply update_sharder_backed; [apply assigns_new | exact B | ..]; now destruct st.
Qed.

(** 4497-4506 *)
Lemma delete_old_by_backed C indices : forall st st',
  delete_old_by C indices st = inr st' -> backed st -> backed st'.
Proof.
  induction indices as [|i r IH]; intros st st' H B; cbn [delete_old_by ret] in H.
  - injection H as <-. exact B.
  - destruct (nth_error (sharders st) i) as [s|]; [|discriminate].
    destruct (is_none (delete_old_task s)); [|now apply (IH st)].
    destruct (message_group_old st) as [|id q]; cbn [popleft bind raise ret] in H;
      [discriminate|].
    cbn [spawn fst snd] in H.
    set (st1 := update_sharder i _ _) in H.
    assert (B1 : backed st1).
    { unfold st1.
      eapply update_sharder_backed; [apply assigns_old | exact B | ..]; now destruct st. }
    destruct (message_group_old st1).
    + injection H as <-. exact B1.
    + now apply (IH st1).
Qed.

Lemma delete_old_backed C st st' : delete_old C st = inr st' -> backed st -> backed st'.
Proof.
  unfold delete_old. destruct (message_group_old st).
  - intros H; injection H as <-. auto.
  - apply delete_old_by_backed.
Qed.

(** 4508-4531 *)
Lemma last_resort_backed C st st' :
  last_resort C st = inr (Some st') -> backed st -> backed st'.
Proof.
  unfold last_resort. destruct (tasks st) eqn:Ht.
  2:{ intros H; injection H as <-. auto. }
  destruct (message_group_new st) as [|[whos id] r]; cbn [ret]; [discriminate|].
  destruct (whos =? -1).
  - destruct (first_manager _ 0) as [j|]; [|discriminate].
    destruct (nth_error _ j) as [s|]; [|discriminate].
    intros H B; injection H as <-.
    eapply update_sharder_backed; [apply assigns_old | exact B | ..]; now destruct st.
  - destruct (py_index _ whos) as [s|]; [|discriminate].
    intros H B; injection H as <-.
    eapply update_sharder_backed; [apply assigns_new | exact B | ..]; now destruct st.
Qed.

(** ** A finished task leaves its task variable *)

Lemma slot_is_false t o :
  slot_is t o = false -> Forall (fun u => task_serial u <> task_serial t) (slot o).
Proof.
  destruct o as [u|]; cbn [slot_is slot]; [|constructor].
  intros H. constructor; [|constructor]. intros Heq.
  symmetry in Heq. apply SequenceFacts.task_is_serial in Heq. congruence.
Qed.

Lemma slot_is_true t o :
  slot_is t o = true -> exists u, o = Some u /\ task_serial u = task_serial t.
Proof.
  destruct o as [u|]; cbn [slot_is]; [|discriminate].
  intros H. apply SequenceFacts.task_is_serial in H. eauto.
Qed.

Lemma drop_one (a b : list task) u t :
  task_serial u = task_serial t -> NoDup (serials (a ++ u :: b)) ->
  NoDup (serials (a ++ b)) /\
  Forall (fun v => task_serial v <> task_serial t) (a ++ b) /\
  incl (a ++ b) (a ++ u :: b).
Proof.
  unfold serials. rewrite !map_app. cbn [map]. intros Hu Hn.
  pose proof (NoDup_remove_1 _ _ _ Hn) as H1. pose proof (NoDup_remove_2 _ _ _ Hn) as H2.
  rewrite <- map_app in H1, H2.
  split; [now rewrite map_app in H1|]. split.
  - apply Forall_forall. intros v Hv Heq. apply H2. rewrite Hu, <- Heq.
    now apply in_map.
  - intros v Hv. apply in_or_app. apply in_app_or in Hv.
    destruct Hv as [Hv|Hv]; [now left | right; now right].
Qed.

Lemma NoDup_app_apart {A : Type} (a b : list A) :
  NoDup (a ++ b) -> forall x, In x a -> ~ In x b.
Proof.
  induction a as [|y r IH]; intros Hn x Hx; [destruct Hx|].
  cbn [app] in Hn. inversion Hn as [|? ? Hy Hr]; subst.
  destruct Hx as [<-|Hx]; [|now apply IH].
  intros Hb. apply Hy. apply in_or_app. now right.
Qed.

(** 4620-4631 *)
Lemma release_held t : forall l,
  NoDup (serials (held_by l)) ->
  incl (held_by (release t l)) (held_by l) /\
  NoDup (serials (held_by (release t l))) /\
  Forall (fun u => task_serial u <> task_serial t) (held_by (release t l)).
Proof.
  induction l as [|s r IH]; intros Hn.
  - cbn. split; [apply incl_refl|]. split; constructor.
  - cbn [release]. cbn [held_by flat_map] in Hn. fold (held_by r) in Hn.
    destruct (slot_is t (delete_mass_task s)) eqn:Hm.
    { apply slot_is_true in Hm. destruct Hm as (u & Hm & Hu).
      cbn [held_by flat_map]. fold (held_by r). unfold slots_of in *.
      cbn [set_delete_mass_task delete_mass_task delete_new_task delete_old_task].
      rewrite Hm in Hn |- *. cbn [slot app] in *.
      destruct (drop_one [] _ u t Hu Hn) as (D1 & D2 & D3). cbn [app] in *. auto. }
    destruct (slot_is t (delete_new_task s)) eqn:Hw.
    { apply slot_is_true in Hw. destruct Hw as (u & Hw & Hu).
      cbn [held_by flat_map]. fold (held_by r). unfold slots_of in *.
      cbn [set_delete_new_task delete_mass_task delete_new_task delete_old_task].
      rewrite Hw in Hn |- *. cbn [slot app] in *.
      rewrite <- !app_assoc in *. cbn [app] in *.
      destruct (drop_one _ _ u t Hu Hn) as (D1 & D2 & D3). auto. }
    destruct (slot_is t (delete_old_task s)) eqn:Ho.
    { apply slot_is_true in Ho. destruct Ho as (u & Ho & Hu).
      cbn [held_by flat_map]. fold (held_by r). unfold slots_of in *.
      cbn [set_delete_old_task delete_mass_task delete_new_task delete_old_task].
      rewrite Ho in Hn |- *. cbn [slot app] in *.
      rewrite <- !app_assoc in *. cbn [app] in *.
      rewrite (app_assoc _ _ (u :: held_by r)) in *.
      rewrite (app_assoc _ _ (held_by r)).
      destruct (drop_one _ _ u t Hu Hn) as (D1 & D2 & D3). auto. }
    cbn [held_by flat_map]. fold (held_by r) (held_by (release t r)).
    unfold serials in Hn. rewrite map_app in Hn.
    destruct (IH (NoDup_app_remove_l _ _ Hn)) as (I1 & I2 & I3).
    split; [|split].
    + apply incl_app; [apply incl_appl, incl_refl | now apply incl_appr].
    + unfold serials. rewrite map_app. apply NoDup_app.
      * eapply NoDup_app_remove_r; eauto.
      * exact I2.
      * intros x Hx Hx'. apply (NoDup_app_apart _ _ Hn x Hx).
        apply in_map_iff in Hx'. destruct Hx' as (v & <- & Hv).
        apply in_map. now apply I1.
    + apply Forall_app. split; [|exact I3]. unfold slots_of.
      repeat (apply Forall_app; split); now apply slot_is_false.
Qed.

Lemma remove_task_keeps t : forall ts ts' u,
  remove_task t ts = Some ts' -> In u ts -> task_serial u <> task_serial t -> In u ts'.
Proof.
  induction ts as [|v r IH]; intros ts' u H Hin Hne; cbn in H; [discriminate|].
  destruct (task_is t v) eqn:Hv.
  - injection H as <-. destruct Hin as [->|Hin]; [|exact Hin].
    apply SequenceFacts.task_is_serial in Hv. congruence.
  - destruct (remove_task t r) as [r'|]; [|discriminate]. injection H as <-.
    destruct Hin as [->|Hin]; [now left | right; eauto].
Qed.

(** 4536 and 4544-4631 for a task that finished without an exception. *)
Lemma finished_backed t ts' st st' :
  backed st -> remove_task t (tasks st) = Some ts' ->
  tasks st' = ts' -> next_serial st' = next_serial st ->
  (get_mass_task st' = get_mass_task st /\ slot_is t (get_mass_task st) = false \/
   get_mass_task st' = None) ->
  (sharders st' = release t (sharders st) \/
   sharders st' = sharders st /\ slot_is t (get_mass_task st) = true) ->
  backed st'.
Proof.
  intros (B1 & B2 & B3) Hr Ht Hn Hg Hs. unfold all_held in *.
  assert (Hsub : incl ts' (tasks st)) by (eapply SequenceFacts.remove_task_incl; eauto).
  assert (Hheld : incl (held_by (sharders st')) (held_by (sharders st)) /\
                  NoDup (serials (held_by (sharders st'))) /\
                  Forall (fun u => task_serial u <> task_serial t)
                    (held_by (sharders st'))).
  { unfold serials in B2. rewrite map_app in B2.
    destruct Hs as [-> | (-> & Hslot)].
    - apply release_held. eapply NoDup_app_remove_l; eauto.
    - split; [apply incl_refl|]. split; [eapply NoDup_app_remove_l; eauto|].
      apply slot_is_true in Hslot. destruct Hslot as (u & Hu & Hser).
      rewrite Hu in B2. cbn [slot map] in B2.
      apply Forall_forall. intros v Hv Heq.
      apply (NoDup_app_apart _ _ B2 (task_serial u)); [now left|].
      rewrite Hser, <- Heq. now apply in_map. }
  destruct Hheld as (H1 & H2 & H3).
  assert (Hmass : incl (slot (get_mass_task st')) (slot (get_mass_task st)) /\
                  Forall (fun u => task_serial u <> task_serial t)
                    (slot (get_mass_task st'))).
  { destruct Hg as [(-> & Hslot) | ->].
    - split; [apply incl_refl | now apply slot_is_false].
    - split; [apply incl_nil_l | constructor]. }
  destruct Hmass as (G1 & G2).
  unfold backed, all_held. split; [|split].
  - rewrite Ht, Hn. rewrite Forall_forall in *. auto.
  - unfold serials in *. rewrite map_app in *. apply NoDup_app.
    + destruct (get_mass_task st'); repeat constructor. intros [].
    + exact H2.
    + intros x Hx Hx'. apply (NoDup_app_apart _ _ B2 x).
      * apply in_map_iff in Hx. destruct Hx as (v & <- & Hv). apply in_map. now apply G1.
      * apply in_map_iff in Hx'. destruct Hx' as (v & <- & Hv). apply in_map. now apply H1.
  - rewrite Ht. intros v Hv. apply in_app_or in Hv.
    apply (remove_task_keeps t (tasks st)); [exact Hr | |].
    + apply B3. apply in_or_app. destruct Hv as [Hv|Hv]; [left; now apply G1 | right; auto].
    + rewrite Forall_forall in G2, H3. destruct Hv as [Hv|Hv]; auto.
Qed.

(** The pages of the history change no task and no task variable of a
    sharder. *)
Lemma enqueue_tasks time_limit author_id st :
  sharders (snd (enqueue time_limit author_id st)) = sharders st /\
  tasks (snd (enqueue time_limit author_id st)) = tasks st /\
  next_serial (snd (enqueue time_limit author_id st)) = next_serial st /\
  get_mass_task (snd (enqueue time_limit author_id st)) = get_mass_task st.
Proof.
  open_state st. unfold enqueue. st_simpl.
  destruct (last >? time_limit); [|destruct (is_own_getter shs author_id =? -1)]; st_simpl;
    destruct (lim - 1 =? 0); auto.
Qed.

Lemma process_page_tasks E C time_limit result : forall st,
  sharders (process_page E C time_limit result st) = sharders st /\
  tasks (process_page E C time_limit result st) = tasks st /\
  next_serial (process_page E C time_limit result st) = next_serial st /\
  get_mass_task (process_page E C time_limit result st) = get_mass_task st.
Proof.
  induction result as [|d rest IH]; intros st; cbn [process_page]; [auto|].
  assert (Hgo : forall st1 author_id,
             sharders st1 = sharders st /\ tasks st1 = tasks st /\
             next_serial st1 = next_serial st /\ get_mass_task st1 = get_mass_task st ->
             let st' := let (go_on, st2) := enqueue time_limit author_id st1 in
                        if go_on then process_page E C time_limit rest st2 else st2 in
             sharders st' = sharders st /\ tasks st' = tasks st /\
             next_serial st' = next_serial st /\ get_mass_task st' = get_mass_task st).
  { intros st1 author_id (A1 & A2 & A3 & A4).
    pose proof (enqueue_tasks time_limit author_id st1) as (E1 & E2 & E3 & E4).
    destruct (enqueue time_limit author_id st1) as [[] st2]; cbn [snd] in *; cbv zeta.
    - destruct (IH st2) as (I1 & I2 & I3 & I4). repeat split; congruence.
    - repeat split; congruence. }
  destruct (filter C) as [f|].
  - set (st1 := set_last_message_id _ st).
    assert (H1 : sharders st1 = sharders st /\ tasks st1 = tasks st /\
                 next_serial st1 = next_serial st /\ get_mass_task st1 = get_mass_task st)
      by now destruct st.
    destruct (last_message_id st1 <? after C); [now destruct st1|].
    destruct (negb (f _)); [|now apply Hgo].
    destruct (IH st1) as (I1 & I2 & I3 & I4). destruct H1 as (A1 & A2 & A3 & A4).
    repeat split; congruence.
  - set (st1 := set_last_message_id _ st).
    assert (H1 : sharders st1 = sharders st /\ tasks st1 = tasks st /\
                 next_serial st1 = next_serial st /\ get_mass_task st1 = get_mass_task st)
      by now destruct st.
    destruct (last_message_id st1 <? after C); [now destruct st1|].
    now apply Hgo.
Qed.

Lemma got_history_tasks E C st :
  sharders (snd (got_history E C st)) = sharders st /\
  tasks (snd (got_history E C st)) = tasks st /\
  next_serial (snd (got_history E C st)) = next_serial st /\
  get_mass_task (snd (got_history E C st)) = None.
Proof.
  unfold got_history, take_page.
  set (st0 := set_get_mass_task None st).
  assert (H0 : sharders st0 = sharders st /\ tasks st0 = tasks st /\
               next_serial st0 = next_serial st /\ get_mass_task st0 = None)
    by now destruct st.
  destruct (history st0) as [|page r].
  - cbn [length Nat.ltb Nat.leb Nat.eqb snd]. now destruct st0.
  - set (st1 := set_history r st0).
    assert (H1 : sharders st1 = sharders st /\ tasks st1 = tasks st /\
                 next_serial st1 = next_serial st /\ get_mass_task st1 = None)
      by (unfold st1; now destruct st0).
    set (st2 := if (length page <? 100)%nat then set_should_request false st1 else st1).
    assert (H2 : sharders st2 = sharders st /\ tasks st2 = tasks st /\
                 next_serial st2 = next_serial st /\ get_mass_task st2 = None).
    { unfold st2. destruct (length page <? 100)%nat; [now destruct st1 | exact H1]. }
    destruct (length page =? 0)%nat; cbn [snd]; [exact H2|].
    cbn [read_clock snd].
    match goal with |- context [process_page E C ?tl page ?s] =>
      destruct (process_page_tasks E C tl page s) as (P1 & P2 & P3 & P4) end.
    rewrite P1, P2, P3, P4. now destruct st2.
Qed.

(** 4535-4634 *)
Lemma handle_done_backed E C done : forall st,
  backed st ->
  match handle_done E C done st with
  | Running st' => backed st'
  | Returned _ => False
  | _ => True
  end.
Proof.
  induction done as [|[t c] rest IH]; intros st B; [exact B|].
  cbn [handle_done]. destruct (remove_task t (tasks st)) as [ts'|] eqn:Hr; [|exact I].
  set (st1 := set_trace _ _).
  assert (A : sharders st1 = sharders st /\ tasks st1 = ts' /\
              next_serial st1 = next_serial st /\ get_mass_task st1 = get_mass_task st)
    by (unfold st1; now destruct st).
  destruct A as (A1 & A2 & A3 & A4).
  destruct c as [|e]; [|exact I].
  destruct (slot_is t (get_mass_task st1)) eqn:Hslot.
  - destruct (got_history_tasks E C st1) as (G1 & G2 & G3 & G4).
    rewrite A4 in Hslot.
    destruct (got_history E C st1) as [[] st2]; cbn [snd] in *; apply IH.
    + apply (finished_backed t ts' st _ B Hr).
      * change (tasks st2 = ts'). congruence.
      * change (next_serial st2 = next_serial st). congruence.
      * right. exact G4.
      * left. change (release t (sharders st2) = release t (sharders st)). congruence.
    + apply (finished_backed t ts' st _ B Hr).
      * congruence.
      * congruence.
      * right. exact G4.
      * right. split; congruence.
  - rewrite A4 in Hslot. apply IH. apply (finished_backed t ts' st _ B Hr).
    + exact A2.
    + exact A3.
    + left. split; [exact A4 | exact Hslot].
    + left. change (release t (sharders st1) = release t (sharders st)). congruence.
Qed.

(** ** A pass that makes no request *)

(** The tasks of [tasks] only grow before [await]; a step that adds none
    changes no task variable and keeps the messages in the queues. *)
Definition calm (st st' : state) : Prop :=
  exists more,
    tasks st' = tasks st ++ more /\
    (more = [] -> sharders st' = sharders st /\ queued st' = queued st).

Lemma calm_refl st : calm st st.
Proof. exists []. split; [now rewrite app_nil_r | auto]. Qed.

Lemma calm_trans a b c : calm a b -> calm b c -> calm a c.
Proof.
  intros (m1 & H1 & K1) (m2 & H2 & K2). exists (m1 ++ m2).
  split; [now rewrite H2, H1, app_assoc|].
  intros H. apply app_eq_nil in H. destruct H as (-> & ->).
  destruct (K1 eq_refl), (K2 eq_refl). split; congruence.
Qed.

Lemma calm_same st st' :
  tasks st' = tasks st -> sharders st' = sharders st -> queued st' = queued st ->
  calm st st'.
Proof. intros H1 H2 H3. exists []. split; [now rewrite app_nil_r | auto]. Qed.

Lemma calm_spawned st st' t : tasks st' = tasks st ++ [t] -> calm st st'.
Proof. intros H. exists [t]. split; [exact H | discriminate]. Qed.

Lemma update_sharder_tasks j f st : tasks (update_sharder j f st) = tasks st.
Proof.
  unfold update_sharder. destruct (nth_error (sharders st) j); [|reflexivity].
  now destruct st.
Qed.

(** 4462-4480: a message that leaves [message_group_new] joins one of the
    other queues. *)
Lemma move_aged_lengths time_limit : forall message_limit new old old_own x,
  move_aged time_limit message_limit new old old_own = inr x ->
  (length (fst (fst x)) + length (snd (fst x)) + length (snd x)
   = length new + length old + length old_own)%nat.
Proof.
  induction message_limit as [|i IH]; intros new old old_own x H;
    cbn [move_aged ret] in H.
  - injection H as <-. reflexivity.
  - destruct (nth_error new i) as [[whos id]|] eqn:Hn; [|discriminate].
    destruct (id >? time_limit); [injection H as <-; reflexivity|].
    pose proof (MultiClientDelivery.del_at_perm _ _ _ Hn) as Hd.
    apply Permutation_length in Hd. cbn [length] in Hd.
    destruct (whos =? -1); apply IH in H; cbn [length] in H; lia.
Qed.

Lemma submit_collected_calm C i s collected st st' :
  submit_collected C i s collected st = inr st' -> calm st st'.
Proof.
  unfold submit_collected. destruct collected as [|[|k]].
  - intros H; injection H as <-. apply calm_refl.
  - destruct (first_sub_sharder s (sharders st) 0) as [j|].
    2:{ intros H; injection H as <-. apply calm_refl. }
    destruct (nth_error (sharders st) j) as [sub|]; [|discriminate].
    destruct (message_group_new st) as [|[whos id] r];
      cbn [popleft bind raise ret]; [discriminate|].
    intros H; injection H as <-. eapply calm_spawned.
    rewrite update_sharder_tasks. now destruct st.
  - destruct (pop_collected (S (S k)) (message_group_new st) []) as [e|x];
      cbn [bind ret]; [discriminate|].
    intros H; injection H as <-. eapply calm_spawned.
    rewrite update_sharder_tasks. now destruct st.
Qed.

Lemma delete_new_by_calm E C i st st' :
  delete_new_by E C i st = inr st' -> calm st st'.
Proof.
  unfold delete_new_by. destruct (nth_error (sharders st) i) as [s|]; [|discriminate].
  destruct (can_manage_messages s && is_none (delete_mass_task s)).
  2:{ intros H; injection H as <-. apply calm_refl. }
  destruct (length (message_group_new st)).
  { intros H; injection H as <-. apply calm_refl. }
  cbn [read_clock].
  set (st0 := set_clock_reads _ st). set (time_limit := id_limit _ _ _).
  assert (H0 : calm st st0) by (apply calm_same; now destruct st).
  intros H.
  destruct (submit_collected C i s _ st0) as [e|st1] eqn:Hs; cbn [bind] in H;
    [discriminate|].
  apply submit_collected_calm in Hs.
  apply (calm_trans _ st0); [exact H0|]. apply (calm_trans _ st1); [exact Hs|].
  destruct (length (message_group_new st1)); [injection H as <-; apply calm_refl|].
  destruct (move_aged _ _ _ _ _) as [e|x] eqn:Hm; cbn [bind ret] in H; [discriminate|].
  apply move_aged_lengths in Hm. injection H as <-.
  revert Hm. clear. open_state st1. st_simpl. intros Hm.
  apply calm_same; [reflexivity | reflexivity |]. unfold queued. st_simpl. exact Hm.
Qed.

Lemma delete_new_calm E C indices : forall st st',
  delete_new E C indices st = inr st' -> calm st st'.
Proof.
  induction indices as [|i r IH]; intros st st' H; cbn [delete_new ret] in H.
  - injection H as <-. apply calm_refl.
  - destruct (delete_new_by E C i st) as [e|st1] eqn:H1; cbn [bind] in H; [discriminate|].
    eapply calm_trans; [eapply delete_new_by_calm; eauto | eapply IH; eauto].
Qed.

(** No task variable holds a task. *)
Lemma nothing_held l s :
  held_by l = [] -> In s l ->
  delete_mass_task s = None /\ delete_new_task s = None /\ delete_old_task s = None.
Proof.
  intros H Hin. apply in_split in Hin. destruct Hin as (a & b & ->).
  rewrite held_by_app in H. cbn [held_by flat_map] in H.
  apply app_eq_nil in H. destruct H as (_ & H).
  apply app_eq_nil in H. destruct H as (H & _). unfold slots_of in H.
  apply app_eq_nil in H. destruct H as (H1 & H).
  apply app_eq_nil in H. destruct H as (H2 & H3).
  destruct (delete_mass_task s), (delete_new_task s), (delete_old_task s);
    try discriminate; auto.
Qed.

Lemma py_index_In {A : Type} (l : list A) i x : py_index l i = Some x -> In x l.
Proof.
  unfold py_index. destruct (0 <=? i); [apply nth_error_In|].
  destruct (0 <=? Z.of_nat (length l) + i); [apply nth_error_In | discriminate].
Qed.

(** 4483-4494 *)
Lemma delete_old_own_idle C st st' :
  delete_old_own C st = inr st' -> tasks st' = [] -> held_by (sharders st) = [] ->
  message_group_old_own st = [] /\ st' = st.
Proof.
  unfold delete_old_own. destruct (message_group_old_own st) as [|[whos x] r].
  { intros H; injection H as <-. auto. }
  destruct (py_index (sharders st) whos) as [s|] eqn:Hs; [|discriminate].
  intros H Ht Hh. exfalso.
  destruct (nothing_held _ s Hh (py_index_In _ _ _ Hs)) as (_ & Hn & _).
  rewrite Hn in H. cbn [is_none] in H. injection H as <-.
  rewrite update_sharder_tasks in Ht. revert Ht. clear. open_state st. st_simpl.
  destruct ts; discriminate.
Qed.

Lemma delete_old_by_grows C indices : forall st st',
  delete_old_by C indices st = inr st' -> exists more, tasks st' = tasks st ++ more.
Proof.
  induction indices as [|i r IH]; intros st st' H; cbn [delete_old_by ret] in H.
  - injection H as <-. exists []. now rewrite app_nil_r.
  - destruct (nth_error (sharders st) i) as [s|]; [|discriminate].
    destruct (is_none (delete_old_task s)); [|now apply IH].
    destruct (message_group_old st) as [|id q]; cbn [popleft bind raise ret] in H;
      [discriminate|].
    cbn [spawn fst snd] in H.
    set (st1 := update_sharder i _ _) in H.
    assert (H1 : exists t, tasks st1 = tasks st ++ [t]).
    { unfold st1. rewrite update_sharder_tasks. eexists. now destruct st. }
    destruct H1 as (t & H1).
    destruct (message_group_old st1).
    + injection H as <-. eauto.
    + apply IH in H. destruct H as (more & H). exists (t :: more).
      rewrite H, H1, <- app_assoc. reflexivity.
Qed.

(** 4496-4506 *)
Lemma delete_old_idle C st st' :
  delete_old C st = inr st' -> tasks st' = [] -> held_by (sharders st) = [] ->
  sharders st <> [] ->
  message_group_old st = [] /\ st' = st.
Proof.
  unfold delete_old. destruct (message_group_old st) as [|id q] eqn:Hq.
  { intros H; injection H as <-. auto. }
  intros H Ht Hh Hne. exfalso.
  destruct (sharders st) as [|s l] eqn:Hsh; [congruence|].
  cbn [length seq delete_old_by] in H. rewrite Hsh in H. cbn [nth_error] in H.
  destruct (nothing_held (s :: l) s Hh (or_introl eq_refl)) as (_ & _ & Ho).
  rewrite Ho, Hq in H. cbn [is_none popleft bind ret spawn fst snd] in H.
  set (st1 := update_sharder 0 _ _) in H.
  assert (H1 : exists t, tasks st1 = tasks st ++ [t]).
  { unfold st1. rewrite update_sharder_tasks. eexists. now destruct st. }
  destruct H1 as (t & H1).
  destruct (message_group_old st1).
  - injection H as <-. rewrite H1 in Ht. destruct (tasks st); discriminate.
  - apply delete_old_by_grows in H. destruct H as (more & H).
    rewrite H, H1 in Ht. destruct (tasks st); discriminate.
Qed.

Lemma delete_old_own_grows C st st' :
  delete_old_own C st = inr st' -> exists more, tasks st' = tasks st ++ more.
Proof.
  unfold delete_old_own. destruct (message_group_old_own st) as [|[whos x] r].
  { intros H; injection H as <-. exists []. now rewrite app_nil_r. }
  destruct (py_index (sharders st) whos) as [s|]; [|discriminate].
  destruct (is_none (delete_new_task s)).
  2:{ intros H; injection H as <-. exists []. now rewrite app_nil_r. }
  intros H; injection H as <-. rewrite update_sharder_tasks. eexists. now destruct st.
Qed.

Lemma delete_old_grows C st st' :
  delete_old C st = inr st' -> exists more, tasks st' = tasks st ++ more.
Proof.
  unfold delete_old. destruct (message_group_old st).
  - intros H; injection H as <-. exists []. now rewrite app_nil_r.
  - apply delete_old_by_grows.
Qed.

Lemma backed_idle st : backed st -> tasks st = [] -> held_by (sharders st) = [].
Proof.
  intros (_ & _ & B) Ht. rewrite Ht in B. apply incl_l_nil in B.
  unfold all_held in B. apply app_eq_nil in B. tauto.
Qed.

(** What the function returns with. *)
Definition finished (st : state) : Prop :=
  tasks st = [] /\ message_group_new st = [] /\ message_group_old st = [] /\
  message_group_old_own st = [].

(** One pass of [while True:]. *)
Lemma loop_body_backed E C st :
  backed st ->
  match loop_body E C st with
  | Running st' => backed st'
  | Returned st' => sharders st' <> [] -> finished st'
  | _ => True
  end.
Proof.
  intros B. unfold loop_body.
  destruct (request_history C st) as [e|[st1|]] eqn:H1; try exact I.
  pose proof (request_history_backed _ _ _ H1 B) as B1.
  destruct (delete_new E C _ st1) as [e|st2] eqn:H2; cbn [bind]; [exact I|].
  pose proof (delete_new_backed _ _ _ _ _ H2 B1) as B2.
  destruct (delete_old_own C st2) as [e|st3] eqn:H3; cbn [bind]; [exact I|].
  pose proof (delete_old_own_backed _ _ _ H3 B2) as B3.
  destruct (delete_old C st3) as [e|st4] eqn:H4; cbn [bind]; [exact I|].
  pose proof (delete_old_backed _ _ _ H4 B3) as B4.
  destruct (last_resort C st4) as [e|[st5|]] eqn:H5; [exact I | |].
  - pose proof (last_resort_backed _ _ _ H5 B4) as B5.
    unfold await_first.
    assert (B6 : backed (set_awaits (S (awaits st5)) st5))
      by (revert B5; apply backed_frame; now destruct st5).
    pose proof (handle_done_backed E C (wait_till_first E (awaits st5) (tasks st5)) _ B6)
      as H6.
    destruct (handle_done E C _ _); auto. destruct H6.
  - intros Hne. unfold last_resort in H5.
    destruct (tasks st4) eqn:Ht4; [|discriminate].
    destruct (message_group_new st4) as [|[whos id] r] eqn:Hn4.
    2:{ destruct (whos =? -1).
        - destruct (first_manager _ 0); [|discriminate].
          destruct (nth_error _ _); discriminate.
        - destruct (py_index _ whos); discriminate. }
    destruct (delete_old_grows _ _ _ H4) as (m4 & G4).
    rewrite Ht4 in G4. symmetry in G4. apply app_eq_nil in G4. destruct G4 as (Ht3 & _).
    destruct (delete_old_own_grows _ _ _ H3) as (m3 & G3).
    rewrite Ht3 in G3. symmetry in G3. apply app_eq_nil in G3. destruct G3 as (Ht2 & _).
    destruct (delete_new_calm _ _ _ _ _ H2) as (m2 & G2 & K2).
    rewrite Ht2 in G2. symmetry in G2. apply app_eq_nil in G2. destruct G2 as (Ht1 & ->).
    destruct (K2 eq_refl) as (S2 & Q2).
    destruct (delete_old_own_idle _ _ _ H3 Ht3 (backed_idle _ B2 Ht2)) as (O2 & ->).
    assert (Hne2 : sharders st2 <> []) by now rewrite S2.
    destruct (delete_old_idle _ _ _ H4 Ht4 (backed_idle _ B3 Ht3) Hne2) as (O3 & ->).
    unfold queued in Q2. rewrite Hn4, O2, O3 in Q2. cbn [length] in Q2.
    split; [exact Ht1|].
    destruct (message_group_new st1), (message_group_old st1), (message_group_old_own st1);
      cbn [length] in Q2; try lia. auto.
Qed.

Lemma run_backed E C fuel : forall st,
  backed st ->
  match run E C fuel st with
  | Running st' => backed st'
  | Returned st' => sharders st' <> [] -> finished st'
  | _ => True
  end.
Proof.
  induction fuel as [|n IH]; intros st B; cbn [run]; [exact B|].
  pose proof (loop_body_backed E C st B) as H.
  destruct (loop_body E C st) as [s|s|e s|e s|s]; cbn beta iota; auto.
  apply IH. exact H.
Qed.

(** The sharders as the function makes them hold no task. *)
Definition fresh (s : sharder) : Prop :=
  delete_mass_task s = None /\ delete_new_task s = None /\ delete_old_task s = None.

Lemma start_backed l should_request last_message_id limit new old old_own history :
  Forall fresh l ->
  backed (start l should_request last_message_id limit new old old_own history).
Proof.
  intros Hfresh.
  assert (Hheld : held_by l = []).
  { induction Hfresh as [|s r (H1 & H2 & H3) _ IH]; [reflexivity|].
    cbn [held_by flat_map]. unfold slots_of. rewrite H1, H2, H3. exact IH. }
  unfold backed, all_held, start.
  cbn [sharders get_mass_task tasks next_serial]. rewrite Hheld.
  cbn [slot app serials map].
  split; [constructor|]. split; [constructor | apply incl_refl].
Qed.

(** The function returns with no task and no message left. *)
Lemma run_finishes E C fuel l should_request last_message_id limit new old old_own history :
  l <> [] -> Forall fresh l ->
  match run E C fuel (start l should_request last_message_id limit new old old_own history)
  with
  | Returned st => finished st
  | _ => True
  end.
Proof.
  intros Hne Hfresh.
  set (st0 := start l should_request last_message_id limit new old old_own history).
  pose proof (run_backed E C fuel st0 (start_backed _ _ _ _ _ _ _ _ Hfresh)) as H.
  pose proof (run_routes E C fuel st0) as (Hroles & _).
  destruct (run E C fuel st0) as [s|s|e s|e s|s]; auto.
  apply H. cbn [outcome_state] in Hroles. intros Hnil. rewrite Hnil in Hroles.
  cbn in Hroles. destruct l; [congruence | discriminate].
Qed.

End MultiClientSlots.

(** X20.  With sharders that hold no task at the start, and at least one
    sharder, [multi_client_message_delete_sequence] returns only when no
    task is pending and the three queues are empty. *)
Theorem multi_client_returns_with_empty_queues
    (E : env) (C : MultiClient.config) (fuel : nat) (l : list MultiClient.sharder)
    (should_request : bool) (last_message_id limit : Z)
    (new : list (Z * Z)) (old : list Z) (old_own : list (Z * MultiClient.item))
    (history : list (list message_data))
    (Hsharders : l <> [])
    (Hfresh : Forall (fun s => MultiClient.delete_mass_task s = None /\
                               MultiClient.delete_new_task s = None /\
                               MultiClient.delete_old_task s = None) l) :
  match MultiClient.run E C fuel
          (MultiClient.start l should_request last_message_id limit new old old_own
             history) with
  | Returned st =>
      MultiClient.tasks st = [] /\ MultiClient.message_group_new st = [] /\
      MultiClient.message_group_old st = [] /\ MultiClient.message_group_old_own st = []
  | _ => True
  end.
Proof.
  exact (MultiClientSlots.run_finishes E C fuel l should_request last_message_id limit
           new old old_own history Hsharders Hfresh).
Qed.

Lemma multi_client_returns_witness :
  match MultiClient.run quiet_env multi_config 6
          (MultiClient.start two_managers false 1000 50 [(-1, id_aged 0)] [5]
             [(0, MultiClient.message_item 6)] []) with
  | Returned st =>
      MultiClient.tasks st = [] /\ MultiClient.message_group_new st = [] /\
      MultiClient.message_group_old st = [] /\ MultiClient.message_group_old_own st = []
  | _ => True
  end.
Proof.
  apply (multi_client_returns_with_empty_queues quiet_env multi_config 6 two_managers
           false 1000 50 [(-1, id_aged 0)] [5] [(0, MultiClient.message_item 6)] []).
  - discriminate.
  - repeat constructor.
Defined.

(** X21.  With sharders that hold no task at the start, at least one
    sharder, no history to request and no message of one of the clients in
    [message_group_new]: when [multi_client_message_delete_sequence]
    returns, it has asked to delete every queued message, each one once. *)
Theorem multi_client_asks_once_for_every_queued_message
    (E : env) (C : MultiClient.config) (fuel : nat) (l : list MultiClient.sharder)
    (last_message_id limit : Z)
    (new : list (Z * Z)) (old : list Z) (old_own : list (Z * MultiClient.item))
    (history : list (list message_data))
    (Hsharders : l <> [])
    (Hfresh : Forall (fun s => MultiClient.delete_mass_task s = None /\
                               MultiClient.delete_new_task s = None /\
                               MultiClient.delete_old_task s = None) l)
    (Hnobody : Forall (fun x => fst x = -1) new) :
  match MultiClient.run E C fuel
          (MultiClient.start l false last_message_id limit new old old_own history) with
  | Returned st =>
      Permutation (asked (MultiClient.trace st))
        (map snd new ++ old ++ flat_map MultiClientDelivery.id_of old_own)
  | _ => True
  end.
Proof.
  set (st0 := MultiClient.start l false last_message_id limit new old old_own history).
  assert (Hk : MultiClientDelivery.accounted
                 (map snd new ++ old ++ flat_map MultiClientDelivery.id_of old_own)
                 (Forall (fun x => fst x = -1) new)
                 (outcome_state (MultiClient.run E C fuel st0))).
  { apply MultiClientDelivery.run_accounted. split; [reflexivity|]. split; [reflexivity|].
    split; [intros H; exact H|]. exists []. split; [|reflexivity].
    unfold MultiClientDelivery.waiting. cbn. now rewrite !app_nil_r. }
  pose proof (MultiClientSlots.run_finishes E C fuel l false last_message_id limit
                new old old_own history Hsharders Hfresh) as Hf.
  fold st0 in Hf.
  destruct (MultiClient.run E C fuel st0) as [s|s|e s|e s|s]; auto.
  destruct Hf as (_ & Hn & Ho & Hoo).
  destruct Hk as (_ & _ & _ & dropped & P & Hd). cbn [outcome_state] in P.
  rewrite (Hd Hnobody) in P. unfold MultiClientDelivery.waiting in P.
  rewrite Hn, Ho, Hoo in P. cbn in P. now rewrite app_nil_r in P.
Qed.

Lemma multi_client_asks_once_witness :
  match MultiClient.run quiet_env multi_config 6
          (MultiClient.start two_managers false 1000 50 [(-1, id_aged 0)] [5]
             [(0, MultiClient.message_item 6)] []) with
  | Returned st =>
      Permutation (asked (MultiClient.trace st))
        (map snd [(-1, id_aged 0)] ++ [5]
         ++ flat_map MultiClientDelivery.id_of [(0, MultiClient.message_item 6)])
  | _ => True
  end.
Proof.
  apply (multi_client_asks_once_for_every_queued_message quiet_env multi_config 6
           two_managers 1000 50 [(-1, id_aged 0)] [5] [(0, MultiClient.message_item 6)] []).
  - discriminate.
  - repeat constructor.
  - repeat constructor.
Defined.

(** * The loop of [multi_client_message_delete_sequence] is left *)

Module MultiClientEnds.
Import MultiClient MultiClientRoutes MultiClientSlots.

(** The messages of the pages not yet handed out. *)
Definition to_fetch (st : state) : nat := list_sum (map (@length _) (history st)).

(** What the history requests still to come weigh. *)
Definition credit (st : state) : nat :=
  if should_request st
  then 2 * length (history st) + (if is_none (get_mass_task st) then 2 else 1)
  else 0.

Definition measure (st : state) : nat :=
  (queued st + length (tasks st) + to_fetch st + credit st)%nat.

(** What the requests for messages do: a message leaves the queues for
    each task that joins [tasks]. *)
Definition eases (st st' : state) : Prop :=
  (queued st' + length (tasks st') <= queued st + length (tasks st))%nat /\
  history st' = history st /\ should_request st' = should_request st /\
  get_mass_task st' = get_mass_task st.

Lemma eases_refl st : eases st st.
Proof. unfold eases. auto. Qed.

Lemma eases_trans a b c : eases a b -> eases b c -> eases a c.
Proof.
  intros (H1 & H2 & H3 & H4) (G1 & G2 & G3 & G4). unfold eases.
  repeat split; try congruence. lia.
Qed.

Lemma eases_measure st st' : eases st st' -> (measure st' <= measure st)%nat.
Proof.
  intros (H1 & H2 & H3 & H4). unfold measure, to_fetch, credit.
  rewrite H2, H3, H4. lia.
Qed.

Lemma update_sharder_eases j f st0 st : eases st0 st -> eases st0 (update_sharder j f st).
Proof.
  intros H. eapply eases_trans; [exact H|]. unfold update_sharder.
  destruct (nth_error (sharders st) j); [|apply eases_refl].
  unfold eases, queued. now destruct st.
Qed.

Ltac eased :=
  apply update_sharder_eases; unfold eases, queued; st_simpl;
  rewrite ?length_app; cbn [length]; repeat split; lia.

(** 4386-4406 *)
Lemma request_history_weighs C st st' :
  request_history C st = inr (Some st') -> measure st' = measure st.
Proof.
  unfold request_history.
  destruct (should_request st) eqn:Hs; cbn [andb].
  2:{ intros H; injection H as <-. reflexivity. }
  destruct (get_mass_task st) eqn:Hg; cbn [is_none].
  { intros H; injection H as <-. reflexivity. }
  destruct (next_reader _ _ _) as [e|[i|]]; cbn [bind ret]; try discriminate.
  revert Hs Hg. open_state st. st_simpl. intros -> ->.
  destruct (nth_error shs i) as [s|]; [|discriminate].
  intros H; injection H as <-.
  unfold measure, queued, to_fetch, credit. st_simpl. cbn [is_none].
  rewrite length_app. cbn [length]. lia.
Qed.

Lemma pop_collected_pops collected : forall q message_ids x,
  pop_collected collected q message_ids = inr x ->
  (length (snd x) + collected = length q)%nat.
Proof.
  induction collected as [|k IH]; intros q ids x H; cbn [pop_collected ret] in H.
  - injection H as <-. cbn [snd]. lia.
  - destruct q as [|y r]; cbn [popleft bind raise ret] in H; [discriminate|].
    apply IH in H. cbn [fst snd length] in *. lia.
Qed.

(** 4430-4454 *)
Lemma submit_collected_eases C i s collected st st' :
  submit_collected C i s collected st = inr st' -> eases st st'.
Proof.
  unfold submit_collected. destruct collected as [|[|k]].
  - intros H; injection H as <-. apply eases_refl.
  - destruct (first_sub_sharder s (sharders st) 0) as [j|].
    2:{ intros H; injection H as <-. apply eases_refl. }
    destruct (nth_error (sharders st) j) as [sub|]; [|discriminate].
    destruct (message_group_new st) as [|[whos id] r] eqn:Hnew;
      cbn [popleft bind raise ret]; [discriminate|].
    intros H; injection H as <-.
    revert Hnew. open_state st. st_simpl. intros ->. eased.
  - destruct (pop_collected (S (S k)) (message_group_new st) []) as [e|x] eqn:Hp;
      cbn [bind ret]; [discriminate|].
    apply pop_collected_pops in Hp.
    intros H; injection H as <-.
    revert Hp. open_state st. st_simpl. intros Hp. eased.
Qed.

(** 4409-4480 *)
Lemma delete_new_by_eases E C i st st' :
  delete_new_by E C i st = inr st' -> eases st st'.
Proof.
  unfold delete_new_by. destruct (nth_error (sharders st) i) as [s|]; [|discriminate].
  destruct (can_manage_messages s && is_none (delete_mass_task s)).
  2:{ intros H; injection H as <-. apply eases_refl. }
  destruct (length (message_group_new st)).
  { intros H; injection H as <-. apply eases_refl. }
  cbn [read_clock].
  set (st0 := set_clock_reads _ st). set (time_limit := id_limit _ _ _).
  assert (H0 : eases st st0) by (unfold eases, queued; now destruct st).
  intros H.
  destruct (submit_collected C i s _ st0) as [e|st1] eqn:Hs; cbn [bind] in H;
    [discriminate|].
  apply submit_collected_eases in Hs.
  apply (eases_trans _ st0); [exact H0|]. apply (eases_trans _ st1); [exact Hs|].
  destruct (length (message_group_new st1)); [injection H as <-; apply eases_refl|].
  destruct (move_aged _ _ _ _ _) as [e|x] eqn:Hm; cbn [bind ret] in H; [discriminate|].
  apply move_aged_lengths in Hm. injection H as <-.
  revert Hm. clear. open_state st1. st_simpl. intros Hm.
  unfold eases, queued. st_simpl. repeat split. lia.
Qed.

Lemma delete_new_eases E C indices : forall st st',
  delete_new E C indices st = inr st' -> eases st st'.
Proof.
  induction indices as [|i r IH]; intros st st' H; cbn [delete_new ret] in H.
  - injection H as <-. apply eases_refl.
  - destruct (delete_new_by E C i st) as [e|st1] eqn:H1; cbn [bind] in H; [discriminate|].
    eapply eases_trans; [eapply delete_new_by_eases; eauto | eapply IH; eauto].
Qed.

(** 4483-4494 *)
Lemma delete_old_own_eases C st st' : delete_old_own C st = inr st' -> eases st st'.
Proof.
  unfold delete_old_own. destruct (message_group_old_own st) as [|[whos x] r] eqn:Hq.
  { intros H; injection H as <-. apply eases_refl. }
  destruct (py_index (sharders st) whos) as [s|]; [|discriminate].
  destruct (is_none (delete_new_task s)).
  2:{ intros H; injection H as <-. apply eases_refl. }
  intros H; injection H as <-.
  revert Hq. open_state st. st_simpl. intros ->. eased.
Qed.

(** 4497-4506 *)
Lemma delete_old_by_eases C indices : forall st st',
  delete_old_by C indices st = inr st' -> eases st st'.
Proof.
  induction indices as [|i r IH]; intros st st' H; cbn [delete_old_by ret] in H.
  - injection H as <-. apply eases_refl.
  - destruct (nth_error (sharders st) i) as [s|]; [|discriminate].
    destruct (is_none (delete_old_task s)); [|now apply IH].
    destruct (message_group_old st) as [|id q] eqn:Hq; cbn [popleft bind raise ret] in H;
      [discriminate|].
    cbn [spawn fst snd] in H.
    set (st1 := update_sharder i _ _) in H.
    assert (H1 : eases st st1).
    { unfold st1. revert Hq. clear. open_state st. st_simpl. intros ->. eased. }
    destruct (message_group_old st1).
    + injection H as <-. exact H1.
    + eapply eases_trans; [exact H1 | now apply IH].
Qed.

Lemma delete_old_eases C st st' : delete_old C st = inr st' -> eases st st'.
Proof.
  unfold delete_old. destruct (message_group_old st).
  - intros H; injection H as <-. apply eases_refl.
  - apply delete_old_by_eases.
Qed.

(** 4508-4531: with a task to wait for. *)
Lemma last_resort_eases C st st' :
  last_resort C st = inr (Some st') -> eases st st' /\ tasks st' <> [].
Proof.
  unfold last_resort. destruct (tasks st) eqn:Ht.
  2:{ intros H; injection H as <-. split; [apply eases_refl | now rewrite Ht]. }
  destruct (message_group_new st) as [|[whos id] r] eqn:Hq; cbn [ret]; [discriminate|].
  destruct (whos =? -1).
  - destruct (first_manager _ 0) as [j|]; [|discriminate].
    destruct (nth_error _ j) as [s|]; [|discriminate].
    intros H; injection H as <-. rewrite update_sharder_tasks. split.
    + revert Hq Ht. clear. open_state st. st_simpl. intros -> ->. eased.
    + clear. open_state st. st_simpl. now destruct ts.
  - destruct (py_index _ whos) as [s|]; [|discriminate].
    intros H; injection H as <-. rewrite update_sharder_tasks. split.
    + revert Hq Ht. clear. open_state st. st_simpl. intros -> ->. eased.
    + clear. open_state st. st_simpl. now destruct ts.
Qed.

(** ** What a page of the history weighs *)

(** The messages of a page join the queues; nothing else that is counted
    changes, but [should_request], which may be cleared. *)
Definition loads (n : nat) (st st' : state) : Prop :=
  (queued st' <= queued st + n)%nat /\ tasks st' = tasks st /\
  history st' = history st /\ get_mass_task st' = get_mass_task st /\
  (should_request st' = true -> should_request st = true).

Lemma enqueue_loads time_limit author_id st :
  loads 1 st (snd (enqueue time_limit author_id st)).
Proof.
  open_state st. unfold enqueue, loads, queued. st_simpl.
  destruct (last >? time_limit); [|destruct (is_own_getter shs author_id =? -1)]; st_simpl;
    destruct (lim - 1 =? 0); st_simpl; rewrite ?length_app; cbn [length];
    repeat split; try lia; try discriminate; auto.
Qed.

Lemma process_page_loads E C time_limit result : forall st,
  loads (length result) st (process_page E C time_limit result st).
Proof.
  induction result as [|d rest IH]; intros st; cbn [process_page length].
  { unfold loads. repeat split; auto. lia. }
  assert (Hframe : forall st1 v, st1 = set_last_message_id v st -> loads 0 st st1).
  { intros st1 v ->. unfold loads, queued. destruct st. cbn. repeat split; auto; lia. }
  assert (Hstop : forall st1, loads 0 st st1 ->
                   loads (S (length rest)) st (set_should_request false st1)).
  { intros st1 (L1 & L2 & L3 & L4 & L5). unfold loads, queued in *. destruct st1.
    cbn in *. repeat split; auto; try lia; try discriminate. }
  assert (Hskip : forall st1, loads 0 st st1 ->
                   loads (S (length rest)) st (process_page E C time_limit rest st1)).
  { intros st1 (L1 & L2 & L3 & L4 & L5). destruct (IH st1) as (I1 & I2 & I3 & I4 & I5).
    unfold loads. repeat split; try congruence; auto. lia. }
  assert (Hgo : forall st1 author_id, loads 0 st st1 ->
                 loads (S (length rest)) st
                   (let (go_on, st2) := enqueue time_limit author_id st1 in
                    if go_on then process_page E C time_limit rest st2 else st2)).
  { intros st1 author_id (L1 & L2 & L3 & L4 & L5).
    pose proof (enqueue_loads time_limit author_id st1) as (E1 & E2 & E3 & E4 & E5).
    destruct (enqueue time_limit author_id st1) as [[] st2]; cbn [snd] in *.
    - destruct (IH st2) as (I1 & I2 & I3 & I4 & I5).
      unfold loads. repeat split; try congruence; auto. lia.
    - unfold loads. repeat split; try congruence; auto. lia. }
  destruct (filter C) as [f|].
  - destruct (last_message_id _ <? after C); [eapply Hstop, Hframe; reflexivity|].
    destruct (negb (f _)); [eapply Hskip, Hframe; reflexivity|].
    eapply Hgo, Hframe; reflexivity.
  - destruct (last_message_id _ <? after C); [eapply Hstop, Hframe; reflexivity|].
    eapply Hgo, Hframe; reflexivity.
Qed.

(** 4544-4618: the page pays for what it brings. *)
Lemma got_history_measure E C st :
  get_mass_task st <> None ->
  queued st = queued st ->
  (queued (snd (got_history E C st)) + to_fetch (snd (got_history E C st))
   + credit (snd (got_history E C st))
   <= queued st + to_fetch st + credit st)%nat /\
  tasks (snd (got_history E C st)) = tasks st.
Proof.
  intros Hget _. unfold got_history, take_page.
  set (st0 := set_get_mass_task None st).
  assert (A0 : queued st0 = queued st /\ tasks st0 = tasks st /\
               history st0 = history st /\ should_request st0 = should_request st /\
               get_mass_task st0 = None) by (unfold queued; now destruct st).
  destruct A0 as (Q0 & T0 & H0 & S0 & G0). rewrite H0.
  destruct (history st) as [|page r] eqn:Hh.
  - cbn [length Nat.ltb Nat.leb Nat.eqb snd].
    replace (queued (set_should_request false st0)) with (queued st)
      by (rewrite <- Q0; unfold queued; now destruct st0).
    replace (tasks (set_should_request false st0)) with (tasks st)
      by (rewrite <- T0; now destruct st0).
    split; [|reflexivity]. unfold to_fetch, credit.
    replace (history (set_should_request false st0)) with (history st0) by now destruct st0.
    replace (should_request (set_should_request false st0)) with false by now destruct st0.
    rewrite H0, Hh. cbn. lia.
  - set (st1 := set_history r st0).
    assert (A1 : queued st1 = queued st /\ tasks st1 = tasks st /\
                 history st1 = r /\ should_request st1 = should_request st /\
                 get_mass_task st1 = None)
      by (unfold st1, queued in *; destruct st0; cbn in *; auto).
    set (st2 := if (length page <? 100)%nat then set_should_request false st1 else st1).
    assert (A2 : queued st2 = queued st /\ tasks st2 = tasks st /\
                 history st2 = r /\ get_mass_task st2 = None /\
                 (should_request st2 = true -> should_request st = true) /\
                 ((length page =? 0)%nat = true -> should_request st2 = false)).
    { destruct A1 as (Q1 & T1 & H1 & S1 & G1). unfold st2.
      destruct (Nat.ltb_spec (length page) 100).
      - unfold queued in *. destruct st1. cbn in *. repeat split; auto; discriminate.
      - repeat split; auto; try congruence.
        intros Hz. apply Nat.eqb_eq in Hz. lia. }
    destruct A2 as (Q2 & T2 & H2 & G2 & S2 & Z2).
    assert (Hweigh : forall st3 n,
               (queued st3 <= queued st + n)%nat -> (n <= length page)%nat ->
               history st3 = r -> get_mass_task st3 = None ->
               (should_request st3 = true -> should_request st = true) ->
               (queued st3 + to_fetch st3 + credit st3
                <= queued st + to_fetch st + credit st)%nat).
    { intros st3 n Q3 N3 H3 G3 S3. unfold to_fetch, credit.
      rewrite H3, G3, Hh. unfold list_sum. cbn [map fold_right length is_none].
      destruct (should_request st3); [rewrite (S3 eq_refl)|];
        destruct (should_request st); destruct (is_none (get_mass_task st)); lia. }
    destruct (length page =? 0)%nat eqn:Hz; cbn [snd].
    + split; [|exact T2]. apply (Hweigh st2 0%nat); auto; lia.
    + cbn [read_clock snd].
      set (st3 := set_clock_reads _ st2). set (time_limit := id_limit _ _ _).
      assert (A3 : queued st3 = queued st /\ tasks st3 = tasks st /\
                   history st3 = r /\ get_mass_task st3 = None /\
                   should_request st3 = should_request st2)
        by (unfold st3, queued in *; destruct st2; cbn in *; auto).
      destruct A3 as (Q3 & T3 & H3 & G3 & S3).
      destruct (process_page_loads E C time_limit page st3) as (P1 & P2 & P3 & P4 & P5).
      split; [|congruence].
      apply (Hweigh _ (length page)); try congruence; try lia.
      intros Hs. apply S2. rewrite <- S3. now apply P5.
Qed.

(** 4535-4634: each task that is taken out of [done] weighs one. *)
Lemma handle_done_measure E C done : forall st,
  match handle_done E C done st with
  | Running st' => (measure st' + length done <= measure st)%nat
  | _ => True
  end.
Proof.
  induction done as [|[t c] rest IH]; intros st; cbn [handle_done length]; [lia|].
  destruct (remove_task t (tasks st)) as [ts'|] eqn:Hr; [|exact I].
  apply SequenceFacts.remove_task_length in Hr.
  set (st1 := set_trace _ _).
  assert (A : queued st1 = queued st /\ tasks st1 = ts' /\ to_fetch st1 = to_fetch st /\
              credit st1 = credit st /\ get_mass_task st1 = get_mass_task st)
    by (unfold st1, queued, to_fetch, credit; now destruct st).
  destruct A as (A1 & A2 & A3 & A4 & A5).
  assert (Hrel : forall st2,
             queued (set_sharders (release t (sharders st2)) st2) = queued st2 /\
             tasks (set_sharders (release t (sharders st2)) st2) = tasks st2 /\
             to_fetch (set_sharders (release t (sharders st2)) st2) = to_fetch st2 /\
             credit (set_sharders (release t (sharders st2)) st2) = credit st2)
    by (intros st2; unfold queued, to_fetch, credit; now destruct st2).
  assert (Hnext : forall st2,
             (queued st2 + length (tasks st2) + to_fetch st2 + credit st2 < measure st)%nat ->
             match handle_done E C rest st2 with
             | Running st' => (measure st' + S (length rest) <= measure st)%nat
             | _ => True
             end).
  { intros st2 Hlt. specialize (IH st2).
    destruct (handle_done E C rest st2); auto. unfold measure in IH at 2. lia. }
  destruct c as [|e]; [|exact I].
  destruct (slot_is t (get_mass_task st1)) eqn:Hslot.
  - assert (Hget : get_mass_task st1 <> None)
      by (destruct (get_mass_task st1); [discriminate | discriminate]).
    destruct (got_history_measure E C st1 Hget eq_refl) as (G1 & G2).
    destruct (got_history E C st1) as [[] st2]; cbn [snd] in *; apply Hnext.
    + destruct (Hrel st2) as (R1 & R2 & R3 & R4). rewrite R1, R2, R3, R4.
      unfold measure. rewrite G2, A2. lia.
    + unfold measure. rewrite G2, A2. lia.
  - apply Hnext. destruct (Hrel st1) as (R1 & R2 & R3 & R4). rewrite R1, R2, R3, R4.
    unfold measure. rewrite A1, A2, A3, A4. lia.
Qed.

(** ** The sharder that asks for the history *)

(** 4389-4398 leaves when a sharder can read the history. *)
Lemma next_reader_from l k s :
  nth_error l k = Some s -> can_read_message_history s = true ->
  forall d n fuel, (n + d = k)%nat -> (d < fuel)%nat ->
    exists i, next_reader fuel l n = inr (Some i).
Proof.
  intros Hk Hs. assert (Hlen : (k < length l)%nat) by (apply nth_error_Some; congruence).
  induction d as [|d IH]; intros n fuel Hn Hf; (destruct fuel as [|f]; [lia|]);
    cbn [next_reader].
  - replace (length l <=? n)%nat with false by (symmetry; apply Nat.leb_gt; lia).
    replace n with k by lia. rewrite Hk, Hs. cbn [ret]. eauto.
  - replace (length l <=? n)%nat with false by (symmetry; apply Nat.leb_gt; lia).
    destruct (nth_error l n) as [x|] eqn:Hx.
    2:{ apply nth_error_None in Hx. lia. }
    destruct (can_read_message_history x); [cbn [ret]; eauto|].
    apply IH; lia.
Qed.

Lemma next_reader_wraps l k s :
  nth_error l k = Some s -> can_read_message_history s = true ->
  forall d n fuel, (n + d = length l)%nat -> (d + k < fuel)%nat ->
    exists i, next_reader fuel l n = inr (Some i).
Proof.
  intros Hk Hs. assert (Hlen : (k < length l)%nat) by (apply nth_error_Some; congruence).
  induction d as [|d IH]; intros n fuel Hn Hf; (destruct fuel as [|f]; [lia|]).
  - destruct (next_reader_from l k s Hk Hs k 0%nat (S f)) as (i & Hi); [lia | lia |].
    exists i. rewrite <- Hi. cbn [next_reader].
    replace (length l <=? n)%nat with true by (symmetry; apply Nat.leb_le; lia).
    replace (length l <=? 0)%nat with false by (symmetry; apply Nat.leb_gt; lia).
    reflexivity.
  - cbn [next_reader].
    replace (length l <=? n)%nat with false by (symmetry; apply Nat.leb_gt; lia).
    destruct (nth_error l n) as [x|] eqn:Hx.
    2:{ apply nth_error_None in Hx. lia. }
    destruct (can_read_message_history x); [cbn [ret]; eauto|].
    apply IH; lia.
Qed.

Lemma next_reader_leaves l n :
  existsb can_read_message_history l = true ->
  exists i, next_reader (S (length l)) l n = inr (Some i).
Proof.
  intros H. apply existsb_exists in H. destruct H as (s & Hin & Hs).
  apply In_nth_error in Hin. destruct Hin as (k & Hk).
  assert (Hlen : (k < length l)%nat) by (apply nth_error_Some; congruence).
  destruct (Nat.le_gt_cases n k) as [Hle|Hgt].
  - apply (next_reader_from l k s Hk Hs (k - n)); lia.
  - destruct (Nat.le_gt_cases n (length l)) as [Hin|Hout].
    + apply (next_reader_wraps l k s Hk Hs (length l - n)); lia.
    + destruct (next_reader_wraps l k s Hk Hs 0%nat (length l) (S (length l)))
        as (i & Hi); [lia | lia |].
      exists i. rewrite <- Hi. cbn [next_reader].
      replace (length l <=? n)%nat with true by (symmetry; apply Nat.leb_le; lia).
      now rewrite Nat.leb_refl.
Qed.

(** As long as history is to be requested, a sharder can read it. *)
Definition readable (st : state) : Prop :=
  should_request st = true -> existsb can_read_message_history (sharders st) = true.

Lemma existsb_roles l l' :
  roles l' = roles l ->
  existsb can_read_message_history l' = existsb can_read_message_history l.
Proof.
  revert l'. induction l as [|s r IH]; intros [|s' r'] H; cbn in H; try discriminate;
    [reflexivity|].
  injection H as H1 H2 H3 H4. cbn [existsb]. rewrite H3. f_equal. now apply IH.
Qed.

(** ** One pass *)

Lemma pass_progress E C st :
  wait_contract E -> readable st ->
  match loop_body E C st with
  | Running st' => (measure st' < measure st)%nat
  | Spinning _ => False
  | _ => True
  end.
Proof.
  intros HE Hread. unfold loop_body.
  destruct (request_history C st) as [e|[st1|]] eqn:H1; [exact I | |].
  2:{ unfold request_history in H1.
      destruct (should_request st) eqn:Hs; [|discriminate]. cbn [andb] in H1.
      destruct (is_none (get_mass_task st)); [|discriminate].
      destruct (next_reader_leaves (sharders st) (get_mass_task_next st) (Hread Hs))
        as (i & Hi).
      rewrite Hi in H1. cbn [bind ret] in H1.
      destruct (nth_error _ i); discriminate. }
  apply request_history_weighs in H1.
  destruct (delete_new E C _ st1) as [e|st2] eqn:H2; cbn [bind]; [exact I|].
  apply delete_new_eases in H2.
  destruct (delete_old_own C st2) as [e|st3] eqn:H3; cbn [bind]; [exact I|].
  apply delete_old_own_eases in H3.
  destruct (delete_old C st3) as [e|st4] eqn:H4; cbn [bind]; [exact I|].
  apply delete_old_eases in H4.
  destruct (last_resort C st4) as [e|[st5|]] eqn:H5; [exact I | | exact I].
  apply last_resort_eases in H5. destruct H5 as (H5 & Hts).
  pose proof (eases_measure _ _
                (eases_trans _ _ _ (eases_trans _ _ _ (eases_trans _ _ _ H2 H3) H4) H5))
    as Hm.
  unfold await_first.
  destruct (HE (awaits st5) (tasks st5) Hts) as (Hdone & _).
  pose proof (handle_done_measure E C (wait_till_first E (awaits st5) (tasks st5))
                (set_awaits (S (awaits st5)) st5)) as Hh.
  assert (Hsame : measure (set_awaits (S (awaits st5)) st5) = measure st5)
    by (unfold measure, queued, to_fetch, credit; now destruct st5).
  destruct (handle_done E C _ _) as [s|s|e s|e s|s] eqn:Hd; try exact I.
  - destruct (wait_till_first E (awaits st5) (tasks st5)); [congruence|].
    cbn [length] in Hh. lia.
  - exfalso. revert Hd. clear. generalize (set_awaits (S (awaits st5)) st5).
    induction (wait_till_first E (awaits st5) (tasks st5)) as [|[t c] rest IH];
      intros st Hd; cbn [handle_done] in Hd; [discriminate|].
    destruct (remove_task t (tasks st)); [|discriminate].
    destruct c; [|discriminate].
    destruct (slot_is t _).
    + destruct (got_history E C _) as [[] st2]; eauto.
    + eauto.
Qed.

Lemma loop_body_readable E C st :
  readable st -> readable (outcome_state (loop_body E C st)).
Proof.
  intros Hread Hs.
  destruct (loop_body_routes E C st) as (Hroles & _).
  rewrite (existsb_roles _ _ Hroles). apply Hread.
  revert Hs.
  apply (MultiClientDelivery.loop_body_holds E C
           (fun s => should_request s = true -> should_request st = true)); [| |auto].
  - intros a b (_ & _ & _ & Hsr & _) Ha Hb. apply Ha. congruence.
  - intros a Ha _ Hb. apply Ha.
    revert Hb. clear. unfold got_history, take_page.
    set (st0 := set_get_mass_task None a).
    assert (A0 : should_request st0 = should_request a) by now destruct a.
    destruct (history st0) as [|page r].
    + cbn [length Nat.ltb Nat.leb Nat.eqb snd]. now destruct st0.
    + set (st1 := set_history r st0).
      assert (A1 : should_request st1 = should_request a)
        by (unfold st1; rewrite <- A0; now destruct st0).
      set (st2 := if (length page <? 100)%nat then set_should_request false st1 else st1).
      assert (A2 : should_request st2 = true -> should_request a = true).
      { unfold st2. destruct (length page <? 100)%nat; [now destruct st1 | congruence]. }
      destruct (length page =? 0)%nat; cbn [snd]; [exact A2|].
      cbn [read_clock snd]. intros Hb. apply A2.
      match type of Hb with context [process_page E C ?tl page ?s] =>
        destruct (process_page_loads E C tl page s) as (_ & _ & _ & _ & P5) end.
      specialize (P5 Hb). revert P5. now destruct st2.
Qed.

Lemma run_is_left E C : wait_contract E -> forall fuel st,
  readable st -> (measure st < fuel)%nat ->
  match run E C fuel st with
  | Running _ | Spinning _ => False
  | _ => True
  end.
Proof.
  intros HE. induction fuel as [|n IH]; intros st Hread Hlt; [lia|].
  cbn [run].
  pose proof (pass_progress E C st HE Hread) as Hp.
  pose proof (loop_body_readable E C st Hread) as Hr.
  destruct (loop_body E C st) as [s|s|e s|e s|s]; cbn [outcome_state] in *; auto.
  apply IH; [exact Hr | lia].
Qed.

End MultiClientEnds.

(** X22.  With [WaitTillFirst] keeping its contract and, when history is to
    be requested, a sharder that can read it, the loop of
    [multi_client_message_delete_sequence] is left after finitely many
    passes: at most the number of queued messages and of messages of the
    pages to come, plus two per page to come, plus three.  It returns, or
    the exception of a task or of the interpreter leaves it; the search for
    a sharder that can read the history (4389-4398) is always left. *)
Theorem multi_client_loop_terminates
    (E : env) (C : MultiClient.config) (fuel : nat) (l : list MultiClient.sharder)
    (should_request : bool) (last_message_id limit : Z)
    (new : list (Z * Z)) (old : list Z) (old_own : list (Z * MultiClient.item))
    (history : list (list message_data))
    (Hwait : wait_contract E)
    (Hreaders : should_request = true ->
                existsb MultiClient.can_read_message_history l = true)
    (Hfuel : (length new + length old + length old_own
              + list_sum (map (@length _) history) + 2 * length history + 2 < fuel)%nat) :
  match MultiClient.run E C fuel
          (MultiClient.start l should_request last_message_id limit new old old_own
             history) with
  | Running _ | Spinning _ => False
  | _ => True
  end.
Proof.
  apply MultiClientEnds.run_is_left; [exact Hwait | exact Hreaders |].
  unfold MultiClientEnds.measure, MultiClientSlots.queued, MultiClientEnds.to_fetch,
    MultiClientEnds.credit.
  cbn [MultiClient.start MultiClient.message_group_new MultiClient.message_group_old
       MultiClient.message_group_old_own MultiClient.tasks MultiClient.history
       MultiClient.should_request MultiClient.get_mass_task is_none length].
  destruct should_request; lia.
Qed.

Lemma multi_client_loop_terminates_witness :
  match MultiClient.run quiet_env multi_config 12
          (MultiClient.start two_managers true 1000 50 [(-1, id_aged 0)] [5] []
             [[mk_message_data 900 None]]) with
  | Running _ | Spinning _ => False
  | _ => True
  end.
Proof.
  apply (multi_client_loop_terminates quiet_env multi_config 12 two_managers true 1000 50
           [(-1, id_aged 0)] [5] [] [[mk_message_data 900 None]] quiet_env_contract).
  - intros _. reflexivity.
  - cbn. lia.
Defined.

(** * The tasks of [multi_client_message_delete_sequence] when one fails *)

Module MultiClientCancels.
Import MultiClient MultiClientRoutes.























End MultiClientCancels.


(** * The size of the bulk requests, and the messages marked deleted *)

(** X24.  Every bulk delete request of a run of [message_delete_sequence]
    and of [message_delete_multiple] carries between 2 and 100 message ids.
    When exactly one message is collected for the bulk request, no bulk
    request is made for it: the message is deleted by a [http.message_delete]
    request of its own when [delete_new_task] is free, and nothing is
    requested then otherwise. *)
Theorem bulk_requests_carry_2_to_100_ids :
  (forall E C fuel should_request last_message_id limit new old old_own history,
      Forall sized
        (requests
           (Sequence.trace
              (outcome_state
                 (Sequence.run E C fuel
                    (Sequence.start should_request last_message_id limit
                       new old old_own history)))))) /\
  (forall E self fuel messages,
      Forall sized
        (requests
           (Multiple.trace
              (outcome_state (Multiple.message_delete_multiple E self fuel messages))))) /\
  (forall E C st own id rest,
      Sequence.delete_mass_task st = None ->
      Sequence.message_group_new st = (own, id) :: rest ->
      Sequence.collect
        (id_limit (DISCORD_EPOCH E) (time_now E (Sequence.clock_reads st))
           TWO_WEEKS_MARGIN_MS)
        (Sequence.message_group_new st) 0 = 1%nat ->
      exists st',
        Sequence.delete_new E C st = inr st' /\
        requests (Sequence.trace st')
        = requests (Sequence.trace st)
          ++ (if is_none (Sequence.delete_new_task st)
              then [http_message_delete (Sequence.chan C) id] else [])) /\
  (forall E self chan st id new old old_own,
      Multiple.delete_mass_task st = None ->
      Multiple.message_group_new st <> [] ->
      Multiple.revalidate
        (id_limit (DISCORD_EPOCH E) (time_now E (Multiple.clock_reads st))
           TWO_WEEKS_MARGIN_MS)
        (Multiple.message_group_new st) [] 0
        (Multiple.message_group_old st) (Multiple.message_group_old_own st)
      = ([id], 1%nat, new, old, old_own) ->
      exists st',
        Multiple.delete_new E self chan st = inr st' /\
        requests (Multiple.trace st')
        = requests (Multiple.trace st)
          ++ (if is_none (Multiple.delete_new_task st)
              then [http_message_delete chan id] else [])).
Proof.
  split; [|split; [|split]].
  - intros. apply well_sized_requests.
    pose proof (SequenceFacts.run_spec E C fuel _
                  (SequenceFacts.start_good should_request last_message_id limit
                     new old old_own history)) as H.
    destruct (Sequence.run E C fuel _) as [s|s|e s|e s|s]; cbn in *; try tauto.
    + now destruct H.
    + now destruct H as ([] & _).
  - intros. apply well_sized_requests. apply MultipleLoop.message_delete_multiple_sized.
  - intros E C st own id rest Hmass Hnew Hone.
    apply SequenceFacts.one_collected with (own := own) (rest := rest); assumption.
  - intros E self chan st id new old old_own Hmass Hne Hrv.
    apply MultipleLoop.one_revalidated with (new := new) (old := old) (old_own := old_own);
      assumption.
Qed.

Lemma bulk_requests_witness :
  exists st',
    Sequence.delete_new quiet_env a_config
      (Sequence.start false 1000 50 [(false, id_aged 0)] [] [] []) = inr st' /\
    requests (Sequence.trace st') = [http_message_delete 7 (id_aged 0)].
Proof.
  exact (proj1 (proj2 (proj2 bulk_requests_carry_2_to_100_ids))
           quiet_env a_config
           (Sequence.start false 1000 50 [(false, id_aged 0)] [] [] [])
           false (id_aged 0) [] eq_refl eq_refl eq_refl).
Defined.

(** X25.  A message already marked deleted is passed over: [message_delete]
    returns at once, without a request and without touching the message;
    the classification of [message_delete_multiple] puts the messages in
    the queues it would put them in if the deleted ones were not in the
    list; and for messages of one guild channel the whole function leaves
    the trace it leaves without the deleted ones. *)
Theorem deleted_messages_are_skipped :
  (forall E self now message c,
      message_deleted message = true ->
      message_delete E self now message c = ([], None, message)) /\
  (forall self limit messages new old old_own,
      Multiple.classify self limit messages new old old_own
      = Multiple.classify self limit
          (List.filter (fun m => negb (message_deleted m)) messages) new old old_own) /\
  (forall E self fuel channel messages,
      channel_is_guild channel = true ->
      (forall m, In m messages -> message_channel m = channel) ->
      Multiple.trace (outcome_state (Multiple.message_delete_multiple E self fuel messages))
      = Multiple.trace
          (outcome_state
             (Multiple.message_delete_multiple E self fuel
                (List.filter (fun m => negb (message_deleted m)) messages)))).
Proof.
  split; [|split].
  - intros E self now message c Hd. unfold message_delete. now rewrite Hd.
  - intros. apply MultipleFacts.classify_skips_deleted.
  - intros E self fuel channel messages Hg Hall.
    set (kept := List.filter (fun m => negb (message_deleted m)) messages).
    assert (Hkept : forall m, In m kept -> message_channel m = channel).
    { intros m Hm. apply Hall. unfold kept in Hm. apply filter_In in Hm. tauto. }
    destruct messages as [|m0 rest] eqn:Hmsgs; [reflexivity|].
    rewrite MultipleFacts.message_delete_multiple_guild
      by (rewrite (Hall m0 (or_introl eq_refl)); exact Hg).
    rewrite MultipleFacts.entry_skips_deleted. fold kept.
    rewrite (Hall m0 (or_introl eq_refl)).
    destruct kept as [|k0 krest] eqn:Hk.
    + rewrite MultipleFacts.entry_without_messages.
      rewrite MultipleFacts.run_without_messages; reflexivity.
    + rewrite MultipleFacts.message_delete_multiple_guild
        by (rewrite (Hkept k0 (or_introl eq_refl)); exact Hg).
      rewrite (Hkept k0 (or_introl eq_refl)). reflexivity.
Qed.

Lemma deleted_messages_witness :
  message_delete quiet_env 1 1700000000000
    (mk_message 11 2 true private_channel) (Failed ConnectionError)
  = ([], None, mk_message 11 2 true private_channel).
Proof.
  apply (proj1 deleted_messages_are_skipped). reflexivity.
Defined.
